(** * Silverlake task store: a shallow embedding of the TaskManager class

    The store of the application is the class [TaskManager]: an IndexedDB
    object store of task records keyed by [id], a metadata counter [nextId],
    and two in-memory history arrays.  Every method is embedded here as a
    function in a small state-and-exception monad.  [getTaskById] hands out a
    structured clone of the stored record, so a record read into a local
    variable is a value of its own: later writes to the store do not change
    it, and [saveTask] of the local value overwrites whatever the store holds
    under that id. *)

From Stdlib Require Import ZArith Ascii String DecimalString.
From stdpp Require Import gmap strings list fin_maps sorting.

Open Scope Z_scope.

(** ** Numbers as the code uses them *)

Module Num.

(** The numbers of the code are IEEE 754 doubles.  The store counts in whole
    numbers, and a double that is a whole number is held here as that integer.
    Every integer up to [2^53] in magnitude is a double; beyond that the
    doubles are the integers of 53 significant bits.  [round z] is the double
    nearest to the integer [z], a tie going to the even significand. *)
Definition round (z : Z) : Z :=
  let a := Z.abs z in
  if a <=? 2 ^ 53 then z
  else
    let e := Z.log2 a - 52 in
    let q := Z.shiftr a e in
    let r := a - Z.shiftl q e in
    let half := 2 ^ (e - 1) in
    let q' := if r <? half then q
              else if half <? r then q + 1
              else if Z.even q then q else q + 1 in
    Z.sgn z * Z.shiftl q' e.

Definition is_double (z : Z) : bool := bool_decide (round z = z).

(** [a + b] and [a - b] on whole doubles.  An integer that is no double is
    never a value of the code; the result is left exact there. *)
Definition add (a b : Z) : Z :=
  if is_double a && is_double b then round (a + b) else a + b.

Definition sub (a b : Z) : Z :=
  if is_double a && is_double b then round (a - b) else a - b.

(** [Number.isSafeInteger]. *)
Definition safe (z : Z) : Prop := Z.abs z < 2 ^ 53.

End Num.

(** ** Strings as the code uses them

    A string of the code is held as its UTF-8 bytes. *)

Module Str.

Definition byte (a : ascii) : N := N_of_ascii a.

(** One character of the white space and line terminators that
    [String.prototype.trim] strips: U+0009 to U+000D, U+0020, U+00A0, U+1680,
    U+2000 to U+200A, U+2028, U+2029, U+202F, U+205F, U+3000 and U+FEFF. *)
Definition is_space (c : list ascii) : bool :=
  match byte <$> c with
  | [b] => ((9 <=? b) && (b <=? 13) || (b =? 32))%N
  | [b1; b2] => ((b1 =? 194) && (b2 =? 160))%N
  | [b1; b2; b3] =>
      ((b1 =? 225) && (b2 =? 154) && (b3 =? 128)
       || (b1 =? 226) && (b2 =? 128)
          && ((128 <=? b3) && (b3 <=? 138) || (b3 =? 168) || (b3 =? 169)
              || (b3 =? 175))
       || (b1 =? 226) && (b2 =? 129) && (b3 =? 159)
       || (b1 =? 227) && (b2 =? 128) && (b3 =? 128)
       || (b1 =? 239) && (b2 =? 187) && (b3 =? 191))%N
  | _ => false
  end.

(** The number of bytes of the white space character that [l] starts with,
    0 when it starts with none. *)
Definition spaceAtStart (l : list ascii) : nat :=
  if is_space (take 1 l) then 1
  else if is_space (take 2 l) then 2
  else if is_space (take 3 l) then 3
  else 0.

(** The same for the character that the reversed list [r] ends with. *)
Definition spaceAtEnd (r : list ascii) : nat :=
  if is_space (rev (take 1 r)) then 1
  else if is_space (rev (take 2 r)) then 2
  else if is_space (rev (take 3 r)) then 3
  else 0.

Fixpoint strip (width : list ascii → nat) (n : nat) (l : list ascii)
    : list ascii :=
  match n with
  | O => l
  | S n' =>
      match width l with
      | O => l
      | w => strip width n' (drop w l)
      end
  end.

(** [String.prototype.trim]. *)
Definition trim (s : string) : string :=
  let l := list_ascii_of_string s in
  let l := strip spaceAtStart (length l) l in
  string_of_list_ascii (rev (strip spaceAtEnd (length l) (rev l))).

Definition lower_ascii (a : ascii) : ascii :=
  let n := nat_of_ascii a in
  if ((65 <=? n) && (n <=? 90))%nat then ascii_of_nat (n + 32) else a.

(** The text holds characters of ASCII only. *)
Definition ascii_only (s : string) : bool :=
  forallb (λ a, (byte a <? 128)%N) (list_ascii_of_string s).

(** [String.prototype.toLowerCase].  On a text of ASCII it turns the letters
    A to Z into a to z.  Beyond ASCII it follows the case tables of Unicode,
    which belong to the engine and are no part of the repository:
    [caseTables] is the function they give. *)
Definition toLowerCase (caseTables : string → string) (s : string) : string :=
  if ascii_only s
  then string_of_list_ascii (map lower_ascii (list_ascii_of_string s))
  else caseTables s.

Definition eqb (a b : string) : bool := bool_decide (a = b).

(** [`${n}`] of a whole number: its decimal numeral (below [10^21] in
    magnitude; the exponent form beyond is not modelled). *)
Definition of_Z (z : Z) : string := NilZero.string_of_int (Z.to_int z).

End Str.

(** ** Data model *)

Inductive status := NotStarted | InProgress | Blocked | Completed.

Inductive priority := Low | Medium | High | Critical.

#[global] Instance status_eq_dec : EqDecision status.
Proof. solve_decision. Defined.

#[global] Instance priority_eq_dec : EqDecision priority.
Proof. solve_decision. Defined.

Definition status_name (s : status) : string :=
  match s with
  | NotStarted => "Not Started"
  | InProgress => "In Progress"
  | Blocked => "Blocked"
  | Completed => "Completed"
  end.

Definition priority_name (p : priority) : string :=
  match p with
  | Low => "Low" | Medium => "Medium" | High => "High" | Critical => "Critical"
  end.

Definition timestamp := string.

Record note := { n_timestamp : timestamp; n_content : string }.

Record task := {
  id : Z;
  name : string;
  dueDate : option timestamp;
  status_of : status;
  project : option string;
  priority_of : option priority;
  notes : list note;
  parentTaskId : option Z;
  childTaskIds : list Z;
  deleted : bool;
  deletedAt : option timestamp
}.

Definition with_status (st : status) (t : task) : task :=
  {| id := id t; name := name t; dueDate := dueDate t; status_of := st;
     project := project t; priority_of := priority_of t; notes := notes t;
     parentTaskId := parentTaskId t; childTaskIds := childTaskIds t;
     deleted := deleted t; deletedAt := deletedAt t |}.

Definition with_priority (p : option priority) (t : task) : task :=
  {| id := id t; name := name t; dueDate := dueDate t; status_of := status_of t;
     project := project t; priority_of := p; notes := notes t;
     parentTaskId := parentTaskId t; childTaskIds := childTaskIds t;
     deleted := deleted t; deletedAt := deletedAt t |}.

Definition with_parent (p : option Z) (t : task) : task :=
  {| id := id t; name := name t; dueDate := dueDate t; status_of := status_of t;
     project := project t; priority_of := priority_of t; notes := notes t;
     parentTaskId := p; childTaskIds := childTaskIds t;
     deleted := deleted t; deletedAt := deletedAt t |}.

Definition with_project (p : option string) (t : task) : task :=
  {| id := id t; name := name t; dueDate := dueDate t; status_of := status_of t;
     project := p; priority_of := priority_of t; notes := notes t;
     parentTaskId := parentTaskId t; childTaskIds := childTaskIds t;
     deleted := deleted t; deletedAt := deletedAt t |}.

Definition with_children (c : list Z) (t : task) : task :=
  {| id := id t; name := name t; dueDate := dueDate t; status_of := status_of t;
     project := project t; priority_of := priority_of t; notes := notes t;
     parentTaskId := parentTaskId t; childTaskIds := c;
     deleted := deleted t; deletedAt := deletedAt t |}.

Definition with_deleted (d : bool) (at_ : option timestamp) (t : task) : task :=
  {| id := id t; name := name t; dueDate := dueDate t; status_of := status_of t;
     project := project t; priority_of := priority_of t; notes := notes t;
     parentTaskId := parentTaskId t; childTaskIds := childTaskIds t;
     deleted := d; deletedAt := at_ |}.

(** The object given to [createTask]: a field left out is [None]. *)
Record taskData := {
  d_name : option string;
  d_dueDate : option timestamp;
  d_status : option status;
  d_project : option string;
  d_priority : option priority;
  d_notes : option (list note);
  d_parentTaskId : option Z
}.

(** The object given to [updateTask]: the outer [None] is a key that is not
    there ([undefined]); [Some None] is a key set to [null].  The keys [id]
    and [childTaskIds] are skipped by the code and have no field here. *)
Record updates := {
  u_name : option string;
  u_dueDate : option (option timestamp);
  u_status : option status;
  u_project : option (option string);
  u_priority : option (option priority);
  u_notes : option (list note);
  u_parentTaskId : option (option Z)
}.

(** The seven fields [updateTask] copies into [previousState] and [newState]. *)
Record fields := {
  f_name : string;
  f_dueDate : option timestamp;
  f_status : status;
  f_project : option string;
  f_priority : option priority;
  f_notes : list note;
  f_parentTaskId : option Z
}.

Definition fields_of (t : task) : fields :=
  {| f_name := name t; f_dueDate := dueDate t; f_status := status_of t;
     f_project := project t; f_priority := priority_of t; f_notes := notes t;
     f_parentTaskId := parentTaskId t |}.

(** A [fields] object passed where an [updates] object is read: all seven
    keys are there. *)
Definition updates_of (f : fields) : updates :=
  {| u_name := Some (f_name f); u_dueDate := Some (f_dueDate f);
     u_status := Some (f_status f); u_project := Some (f_project f);
     u_priority := Some (f_priority f); u_notes := Some (f_notes f);
     u_parentTaskId := Some (f_parentTaskId f) |}.

(** [Object.keys(updates).forEach(key => task[key] = updates[key])]. *)
Definition applyUpdates (u : updates) (t : task) : task :=
  {| id := id t;
     name := default (name t) (u_name u);
     dueDate := default (dueDate t) (u_dueDate u);
     status_of := default (status_of t) (u_status u);
     project := default (project t) (u_project u);
     priority_of := default (priority_of t) (u_priority u);
     notes := default (notes t) (u_notes u);
     parentTaskId := default (parentTaskId t) (u_parentTaskId u);
     childTaskIds := childTaskIds t;
     deleted := deleted t;
     deletedAt := deletedAt t |}.

Inductive action :=
| ACreate (taskId : Z) (at_ : timestamp)
| AModify (taskId : Z) (previousState newState : fields) (at_ : timestamp)
| ADelete (taskId : Z) (deletedTaskIds : list Z) (at_ : timestamp)
| ARestore (taskId : Z) (at_ : timestamp).

(** The object store [tasks], the [nextId] entry of the metadata store and
    the two history arrays.  An array grows at its end: [push] appends,
    [pop] takes the last element, [shift] the first. *)
Record manager := {
  db : gmap Z task;
  nextId : option Z;
  undoStack : list action;
  redoStack : list action
}.

Definition maxHistorySize : nat := 20.

Definition set_db (d : gmap Z task) (m : manager) : manager :=
  {| db := d; nextId := nextId m; undoStack := undoStack m; redoStack := redoStack m |}.

Definition set_nextId (n : option Z) (m : manager) : manager :=
  {| db := db m; nextId := n; undoStack := undoStack m; redoStack := redoStack m |}.

Definition set_undoStack (u : list action) (m : manager) : manager :=
  {| db := db m; nextId := nextId m; undoStack := u; redoStack := redoStack m |}.

Definition set_redoStack (r : list action) (m : manager) : manager :=
  {| db := db m; nextId := nextId m; undoStack := undoStack m; redoStack := r |}.

Definition empty_manager : manager :=
  {| db := ∅; nextId := None; undoStack := []; redoStack := [] |}.

(** ** Errors

    Every failure of the store is a JavaScript [Error] with a message; the
    constructors below are the throw sites, [error_message] their texts. *)

Inductive error :=
| TaskNameRequired
| ParentNotFound (parent : Z)
| MaxHierarchyReached
| TaskNotFound (taskId : Z)
| MaxHierarchyExceeded
| CircularReference
| TaskNotDeleted (taskId : Z)
| NotInTrash (taskId : Z)
| NothingToUndo
| NothingToRedo.

Definition error_message (e : error) : string :=
  match e with
  | TaskNameRequired => "Task name is required"
  | ParentNotFound p => "Parent task with ID " ++ Str.of_Z p ++ " not found"
  | MaxHierarchyReached =>
      "Cannot create subtask: Maximum 3-level hierarchy reached (grandparent → parent → child)"
  | TaskNotFound i => "Task with ID " ++ Str.of_Z i ++ " not found"
  | MaxHierarchyExceeded =>
      "Cannot set parent: Maximum 3-level hierarchy would be exceeded"
  | CircularReference => "Cannot set parent: Would create circular reference"
  | TaskNotDeleted i => "Task with ID " ++ Str.of_Z i ++ " is not deleted"
  | NotInTrash i =>
      "Task with ID " ++ Str.of_Z i ++ " is not in trash. Use :D to delete it first."
  | NothingToUndo => "Nothing to undo"
  | NothingToRedo => "Nothing to redo"
  end.

(** The three kinds of failure of the store's contract. *)
Inductive error_kind := ValidationError | NotFound | StateError.

Definition kind_of (e : error) : error_kind :=
  match e with
  | TaskNameRequired | MaxHierarchyReached | MaxHierarchyExceeded
  | CircularReference => ValidationError
  | ParentNotFound _ | TaskNotFound _ => NotFound
  | TaskNotDeleted _ | NotInTrash _ | NothingToUndo | NothingToRedo => StateError
  end.

(** ** The monad of store methods

    A method takes the manager and either runs out of fuel ([None]: the
    JavaScript loop or recursion has not finished within the given number of
    rounds) or ends, normally or by a throw, in a manager.  A throw keeps
    every write made before it. *)

Inductive result (A : Type) :=
| Ok (a : A)
| Throw (e : error).
Arguments Ok {A} a.
Arguments Throw {A} e.

Definition M (A : Type) : Type := manager → option (result A * manager).

Definition ret {A} (a : A) : M A := λ m, Some (Ok a, m).

Definition bind {A B} (c : M A) (k : A → M B) : M B :=
  λ m, match c m with
       | None => None
       | Some (Ok a, m') => k a m'
       | Some (Throw e, m') => Some (Throw e, m')
       end.

Definition throw {A} (e : error) : M A := λ m, Some (Throw e, m).

Definition out_of_fuel {A} : M A := λ _, None.

(** [try { c } catch (error) { h error }]. *)
Definition try_catch {A} (c : M A) (h : error → M A) : M A :=
  λ m, match c m with
       | Some (Throw e, m') => h e m'
       | r => r
       end.

Declare Scope store_scope.
Delimit Scope store_scope with store.
Notation "'let*' x ':=' c 'in' k" := (bind c (λ x, k))
  (at level 10, x pattern, c at level 100, k at level 200) : store_scope.
Notation "c1 ';;;' c2" := (bind c1 (λ _, c2))
  (at level 100, c2 at level 200, right associativity) : store_scope.
Open Scope store_scope.

Fixpoint forM_ {A} (l : list A) (body : A → M unit) : M unit :=
  match l with
  | [] => ret tt
  | x :: l' => body x ;;; forM_ l' body
  end.

Definition when (b : bool) (c : M unit) : M unit := if b then c else ret tt.

Definition includes (l : list Z) (x : Z) : bool := bool_decide (x ∈ l).

Definition remove_id (x : Z) (l : list Z) : list Z :=
  filter (λ i, i ≠ x) l.

(** ** Storage primitives *)

Definition getTaskById (taskId : Z) : M (option task) :=
  λ m, Some (Ok (db m !! taskId), m).

Definition saveTask (t : task) : M unit :=
  λ m, Some (Ok tt, set_db (<[id t := t]> (db m)) m).

Definition getNextId : M Z :=
  λ m, let n := default 1 (nextId m) in
       Some (Ok n, set_nextId (Some (Num.add n 1)) m).

(** ** History *)

Definition recordAction (a : action) : M unit :=
  λ m, let pushed := undoStack m ++ [a] in
       let capped := if (maxHistorySize <? length pushed)%nat
                     then tail pushed else pushed in
       Some (Ok tt, set_redoStack [] (set_undoStack capped m)).

(** ** Reading the hierarchy

    The methods below only read the object store; they are functions of its
    contents.  [None] is a loop that has not ended within [fuel] rounds. *)

Definition read {A} (f : gmap Z task → option A) : M A :=
  λ m, match f (db m) with
       | Some a => Some (Ok a, m)
       | None => None
       end.

(** The [while] loop of [getTaskDepth], [depth] being its counter. *)
Fixpoint getTaskDepthLoop (fuel : nat) (d : gmap Z task) (depth : Z)
    (current : task) : option Z :=
  match parentTaskId current with
  | None => Some depth
  | Some p =>
      match fuel with
      | O => None
      | S fuel' =>
          match d !! p with
          | None => Some (depth + 1)
          | Some parent => getTaskDepthLoop fuel' d (depth + 1) parent
          end
      end
  end.

Definition getTaskDepth (fuel : nat) (d : gmap Z task) (t : task) : option Z :=
  getTaskDepthLoop fuel d 0 t.

Fixpoint foldlM {A B} (f : B → A → option B) (l : list A) (b : B) : option B :=
  match l with
  | [] => Some b
  | x :: l' => match f b x with
               | Some b' => foldlM f l' b'
               | None => None
               end
  end.

Fixpoint getMaxChildDepth (fuel : nat) (d : gmap Z task) (t : task) : option Z :=
  match fuel with
  | O => None
  | S fuel' =>
      foldlM (λ maxDepth childId,
                match d !! childId with
                | Some child =>
                    match getMaxChildDepth fuel' d child with
                    | Some cd => Some (Z.max maxDepth (1 + cd))
                    | None => None
                    end
                | None => Some maxDepth
                end)
             (childTaskIds t) 0
  end.

(** A [for] loop that returns [true] at the first hit. *)
Fixpoint anyM {A} (f : A → option bool) (l : list A) : option bool :=
  match l with
  | [] => Some false
  | x :: l' => match f x with
               | Some true => Some true
               | Some false => anyM f l'
               | None => None
               end
  end.

Fixpoint isDescendant (fuel : nat) (d : gmap Z task) (taskId ancestorId : Z)
    : option bool :=
  match fuel with
  | O => None
  | S fuel' =>
      match d !! taskId with
      | None => Some false
      | Some _ =>
          match d !! ancestorId with
          | None => Some false
          | Some ancestor =>
              if includes (childTaskIds ancestor) taskId then Some true
              else anyM (λ childId, isDescendant fuel' d taskId childId)
                        (childTaskIds ancestor)
          end
      end
  end.

Definition areAllChildrenCompleted (d : gmap Z task) (t : task) : bool :=
  match childTaskIds t with
  | [] => false
  | _ => forallb (λ childId,
                    match d !! childId with
                    | Some child => bool_decide (status_of child = Completed)
                    | None => false
                    end)
                 (childTaskIds t)
  end.

(** ** Cascades of a completion *)

Fixpoint completeAllDescendants (fuel : nat) (t : task) : M unit :=
  match fuel with
  | O => out_of_fuel
  | S fuel' =>
      forM_ (childTaskIds t) (λ childId,
        let* child := getTaskById childId in
        match child with
        | Some child =>
            if bool_decide (status_of child ≠ Completed) then
              let child := with_priority None (with_status Completed child) in
              saveTask child ;;;
              completeAllDescendants fuel' child
            else ret tt
        | None => ret tt
        end)
  end.

(** [!task.parentTaskId] holds of [null] and of the number 0. *)
Definition checkAndCompleteParent (t : task) : M unit :=
  if bool_decide (status_of t ≠ Completed) then ret tt
  else match parentTaskId t with
       | None => ret tt
       | Some p =>
           if bool_decide (p = 0) then ret tt
           else
             let* parent := getTaskById p in
             match parent with
             | None => ret tt
             | Some parent =>
                 if bool_decide (status_of parent = Completed) then ret tt
                 else
                   let* allChildrenCompleted :=
                     read (λ d, Some (areAllChildrenCompleted d parent)) in
                   when allChildrenCompleted
                     (saveTask (with_status Completed parent))
             end
       end.

(** ** Parent links

    The two blocks of code that every method repeats to keep [childTaskIds]
    in step with [parentTaskId]. *)

(** Take [taskId] out of the [childTaskIds] of the parent of [t], when [t]
    has a parent and the parent is in the store. *)
Definition detachFromParent (taskId : Z) (t : task) : M unit :=
  match parentTaskId t with
  | Some p =>
      let* parent := getTaskById p in
      match parent with
      | Some parent =>
          saveTask (with_children (remove_id taskId (childTaskIds parent)) parent)
      | None => ret tt
      end
  | None => ret tt
  end.

(** Put [taskId] back into the [childTaskIds] of the parent of [t], when the
    parent is in the store, is not deleted and does not list it yet. *)
Definition attachToParent (taskId : Z) (t : task) : M unit :=
  match parentTaskId t with
  | Some p =>
      let* parent := getTaskById p in
      match parent with
      | Some parent =>
          when (negb (deleted parent) && negb (includes (childTaskIds parent) taskId))
            (saveTask (with_children (childTaskIds parent ++ [taskId]) parent))
      | None => ret tt
      end
  | None => ret tt
  end.

(** ** createTask *)

(** [x || null] on a string that may be missing: the empty string is falsy. *)
Definition truthy (s : option string) : option string :=
  match s with
  | Some s' => if Str.eqb s' "" then None else Some s'
  | None => None
  end.

Definition createTask (fuel : nat) (now : timestamp) (data : taskData) : M task :=
  match truthy (d_name data) with
  | None => throw TaskNameRequired
  | Some nm =>
      if Str.eqb (Str.trim nm) "" then throw TaskNameRequired
      else
        match d_parentTaskId data with
         | Some p =>
             let* parent := getTaskById p in
             match parent with
             | None => throw (ParentNotFound p)
             | Some parent =>
                 let* parentDepth := read (λ d, getTaskDepth fuel d parent) in
                 if bool_decide (2 ≤ parentDepth) then throw MaxHierarchyReached
                 else ret tt
             end
         | None => ret tt
         end ;;;
        let* taskId := getNextId in
        let t :=
          {| id := taskId;
             name := Str.trim nm;
             dueDate := truthy (d_dueDate data);
             status_of := default NotStarted (d_status data);
             project := truthy (d_project data);
             priority_of := Some (default Medium (d_priority data));
             notes := default [] (d_notes data);
             parentTaskId := d_parentTaskId data;
             childTaskIds := [];
             deleted := false;
             deletedAt := None |} in
        saveTask t ;;;
        match parentTaskId t with
         | Some p =>
             let* parent := getTaskById p in
             match parent with
             | Some parent =>
                 when (negb (includes (childTaskIds parent) (id t)))
                   (saveTask (with_children (childTaskIds parent ++ [id t]) parent))
             | None => ret tt
             end
         | None => ret tt
         end ;;;
        recordAction (ACreate (id t) now) ;;;
        ret t
  end.

(** ** updateTask *)

(** The block guarded by
    [updates.parentTaskId !== undefined && updates.parentTaskId !== task.parentTaskId]:
    leave the old parent, check the new one, enter it. *)
Definition reparent (fuel : nat) (taskId : Z) (t : task) (newParentId : option Z)
    : M unit :=
  detachFromParent taskId t ;;;
  match newParentId with
  | Some np =>
      let* newParent := getTaskById np in
      match newParent with
      | None => throw (ParentNotFound np)
      | Some newParent =>
          let* newParentDepth := read (λ d, getTaskDepth fuel d newParent) in
          let* taskMaxChildDepth := read (λ d, getMaxChildDepth fuel d t) in
          if bool_decide (2 < newParentDepth + 1 + taskMaxChildDepth)
          then throw MaxHierarchyExceeded
          else
            let* circular := read (λ d, isDescendant fuel d np (id t)) in
            if circular then throw CircularReference
            else
              when (negb (includes (childTaskIds newParent) taskId))
                (saveTask (with_children (childTaskIds newParent ++ [taskId]) newParent))
      end
  | None => ret tt
  end.

Definition updateTask (fuel : nat) (now : timestamp) (taskId : Z) (u : updates)
    : M task :=
  let* found := getTaskById taskId in
  match found with
  | None => throw (TaskNotFound taskId)
  | Some t =>
      let previousState := fields_of t in
      match u_parentTaskId u with
       | Some np =>
           if bool_decide (np ≠ parentTaskId t) then reparent fuel taskId t np
           else ret tt
       | None => ret tt
       end ;;;
      let t := applyUpdates u t in
      let t := if bool_decide (status_of t = Completed ∧ priority_of t ≠ None)
               then with_priority None t else t in
      when (bool_decide (status_of t = Completed))
        (completeAllDescendants fuel t) ;;;
      saveTask t ;;;
      let newState := fields_of t in
      recordAction (AModify (id t) previousState newState now) ;;;
      checkAndCompleteParent t ;;;
      ret t
  end.

(** ** deleteTask and restoreTask *)

Fixpoint foldM {A B} (f : B → A → M B) (l : list A) (b : B) : M B :=
  match l with
  | [] => ret b
  | x :: l' => let* b' := f b x in foldM f l' b'
  end.

Fixpoint deleteTask (fuel : nat) (now : timestamp) (taskId : Z)
    (deleteChildren isRootDelete : bool) : M (list Z) :=
  match fuel with
  | O => out_of_fuel
  | S fuel' =>
      let* found := getTaskById taskId in
      match found with
      | None => throw (TaskNotFound taskId)
      | Some t =>
          let* deletedTaskIds :=
            if deleteChildren then
              foldM (λ acc childId,
                       let* childDeletedIds :=
                         deleteTask fuel' now childId true false in
                       ret (acc ++ childDeletedIds))
                    (childTaskIds t) [taskId]
            else
              forM_ (childTaskIds t) (λ childId,
                let* child := getTaskById childId in
                match child with
                | Some child => saveTask (with_parent None child)
                | None => ret tt
                end) ;;;
              ret [taskId] in
          detachFromParent taskId t ;;;
          saveTask (with_deleted true (Some now) t) ;;;
          when isRootDelete
            (recordAction (ADelete (id t) deletedTaskIds now)) ;;;
          ret deletedTaskIds
      end
  end.

Definition restoreTask (now : timestamp) (taskId : Z) : M task :=
  let* found := getTaskById taskId in
  match found with
  | None => throw (TaskNotFound taskId)
  | Some t =>
      if negb (deleted t) then throw (TaskNotDeleted taskId)
      else
        let t := with_deleted false None t in
        saveTask t ;;;
        attachToParent taskId t ;;;
        recordAction (ARestore (id t) now) ;;;
        ret t
  end.

(** ** purgeTask *)

Definition deleteTaskById (taskId : Z) : M unit :=
  λ m, Some (Ok tt, set_db (delete taskId (db m)) m).

Fixpoint purgeTask (fuel : nat) (taskId : Z) : M unit :=
  match fuel with
  | O => out_of_fuel
  | S fuel' =>
      let* found := getTaskById taskId in
      match found with
      | None => ret tt
      | Some t =>
          if negb (deleted t) then throw (NotInTrash taskId)
          else
            forM_ (childTaskIds t) (λ childId,
              let* child := getTaskById childId in
              match child with
              | Some child => when (deleted child) (purgeTask fuel' childId)
              | None => ret tt
              end) ;;;
            deleteTaskById taskId
      end
  end.

(** ** The history-free variants used by undo and redo *)

Definition restoreTaskWithoutHistory (taskId : Z) : M (option task) :=
  let* found := getTaskById taskId in
  match found with
  | None => ret None
  | Some t =>
      if negb (deleted t) then ret (Some t)
      else
        let t := with_deleted false None t in
        saveTask t ;;;
        attachToParent taskId t ;;;
        ret (Some t)
  end.

Definition updateTaskWithoutHistory (taskId : Z) (u : updates) : M task :=
  let* found := getTaskById taskId in
  match found with
  | None => throw (TaskNotFound taskId)
  | Some t =>
      match u_parentTaskId u with
       | Some np =>
           if bool_decide (np ≠ parentTaskId t) then
             detachFromParent taskId t ;;;
             match np with
             | Some np =>
                 let* newParent := getTaskById np in
                 match newParent with
                 | Some newParent =>
                     when (negb (includes (childTaskIds newParent) taskId))
                       (saveTask (with_children (childTaskIds newParent ++ [taskId])
                                                newParent))
                 | None => ret tt
                 end
             | None => ret tt
             end
           else ret tt
       | None => ret tt
       end ;;;
      let t := applyUpdates u t in
      saveTask t ;;;
      ret t
  end.

Definition deleteTaskWithoutHistory (now : timestamp) (taskId : Z)
    : M (option task) :=
  let* found := getTaskById taskId in
  match found with
  | None => ret None
  | Some t =>
      if deleted t then ret (Some t)
      else
        detachFromParent taskId t ;;;
        let t := with_deleted true (Some now) t in
        saveTask t ;;;
        ret (Some t)
  end.

(** ** undo and redo *)

Definition getUndoStack : M (list action) := λ m, Some (Ok (undoStack m), m).
Definition getRedoStack : M (list action) := λ m, Some (Ok (redoStack m), m).
Definition putUndoStack (l : list action) : M unit :=
  λ m, Some (Ok tt, set_undoStack l m).
Definition putRedoStack (l : list action) : M unit :=
  λ m, Some (Ok tt, set_redoStack l m).

Definition pushUndo (a : action) : M unit :=
  let* l := getUndoStack in putUndoStack (l ++ [a]).
Definition pushRedo (a : action) : M unit :=
  let* l := getRedoStack in putRedoStack (l ++ [a]).

(** The [create] and [restore] cases of [undo]: delete the task again. *)
Definition softDelete (now : timestamp) (taskId : Z) : M unit :=
  let* found := getTaskById taskId in
  match found with
  | Some t =>
      detachFromParent taskId t ;;;
      saveTask (with_deleted true (Some now) t)
  | None => ret tt
  end.

Definition undoAction (now : timestamp) (a : action) : M unit :=
  match a with
  | ADelete _ tasksToRestore _ =>
      forM_ (rev tasksToRestore) (λ i, restoreTaskWithoutHistory i ;;; ret tt)
  | AModify taskId previousState _ _ =>
      updateTaskWithoutHistory taskId (updates_of previousState) ;;; ret tt
  | ACreate taskId _ => softDelete now taskId
  | ARestore taskId _ => softDelete now taskId
  end.

Definition undo (now : timestamp) : M action :=
  let* stack := getUndoStack in
  match last stack with
  | None => throw NothingToUndo
  | Some a =>
      putUndoStack (removelast stack) ;;;
      try_catch
        (undoAction now a ;;;
         pushRedo a ;;;
         ret a)
        (λ e, pushUndo a ;;; throw e)
  end.

Definition redoAction (now : timestamp) (a : action) : M unit :=
  match a with
  | ADelete _ tasksToDelete _ =>
      forM_ tasksToDelete (λ i, deleteTaskWithoutHistory now i ;;; ret tt)
  | AModify taskId _ newState _ =>
      updateTaskWithoutHistory taskId (updates_of newState) ;;; ret tt
  | ACreate taskId _ => restoreTask now taskId ;;; ret tt
  | ARestore taskId _ => restoreTask now taskId ;;; ret tt
  end.

Definition redo (now : timestamp) : M action :=
  let* stack := getRedoStack in
  match last stack with
  | None => throw NothingToRedo
  | Some a =>
      putRedoStack (removelast stack) ;;;
      try_catch
        (redoAction now a ;;;
         pushUndo a ;;;
         ret a)
        (λ e, pushRedo a ;;; throw e)
  end.

(** ** Queries *)

(** [getAll] of an object store lists the records by ascending key. *)
Definition byKey (a b : task) : Prop := id a ≤ id b.

#[global] Instance byKey_dec : RelDecision byKey.
Proof. intros a b. unfold byKey. apply _. Defined.

Definition getAll (d : gmap Z task) : list task :=
  merge_sort byKey (snd <$> map_to_list d).

(** The snapshot of the tasks that are not deleted, as [getAllTasks()]
    returns it. *)
Definition snapshot (d : gmap Z task) : list task :=
  List.filter (λ t, negb (deleted t)) (getAll d).

Definition getAllTasks (includeDeleted : bool) : M (list task) :=
  λ m, let all := getAll (db m) in
       Some (Ok (if includeDeleted then all
                 else List.filter (λ t, negb (deleted t)) all), m).

Inductive idValue :=
| IdIs (v : Z)
| IdIn (vs : list Z).

(** One entry of the [filters] object: [{ value, negate }].  A bare value is
    read as [negate = false]. *)
Record criterion (A : Type) := { value : A; negate : bool }.
Arguments value {A} c.
Arguments negate {A} c.

Record filters := {
  by_id : option (criterion idValue);
  by_project : option (criterion string);
  by_priority : option (criterion string);
  by_status : option (criterion string)
}.

(** [if (negate ? matches : !matches) return false]. *)
Definition keeps {A} (c : criterion A) (matches : bool) : bool :=
  if negate c then negb matches else matches.

Section Matching.

(** The case tables of the engine, see [Str.toLowerCase]. *)
Variable caseTables : string → string.

(** [a.toLowerCase() === b.toLowerCase()]. *)
Definition sameText (a b : string) : bool :=
  Str.eqb (Str.toLowerCase caseTables a) (Str.toLowerCase caseTables b).

Definition matchesId (v : idValue) (t : task) : bool :=
  match v with
  | IdIn vs => includes vs (id t)
  | IdIs v => bool_decide (id t = v)
  end.

(** [task.project && ...]: no project, or an empty one, never matches. *)
Definition matchesProject (v : string) (t : task) : bool :=
  match project t with
  | Some p => negb (Str.eqb p "") && sameText p v
  | None => false
  end.

Definition matchesPriority (v : string) (t : task) : bool :=
  match priority_of t with
  | Some p => sameText (priority_name p) v
  | None => false
  end.

Definition matchesStatus (v : string) (t : task) : bool :=
  sameText (status_name (status_of t)) v.

Definition check {A} (c : option (criterion A)) (m : A → task → bool)
    (t : task) : bool :=
  match c with
  | Some c => keeps c (m (value c) t)
  | None => true
  end.

(** The callback of [allTasks.filter] in [filterTasks]. *)
Definition matchesFilters (f : filters) (t : task) : bool :=
  check (by_id f) matchesId t &&
  check (by_project f) matchesProject t &&
  check (by_priority f) matchesPriority t &&
  check (by_status f) matchesStatus t.

End Matching.

(** [allTasks.find(t => t.id === i)]. *)
Definition findTask (allTasks : list task) (i : Z) : option task :=
  List.find (λ t, bool_decide (id t = i)) allTasks.

(** [Set.prototype.add]: a set keeps its elements in insertion order. *)
Definition set_add (x : Z) (s : list Z) : list Z :=
  if includes s x then s else s ++ [x].

(** [if (!resultIds.has(i)) additionalTasks.add(i)]. *)
Definition noted (resultIds : list Z) (i : Z) (additionalTasks : list Z) : list Z :=
  if includes resultIds i then additionalTasks else set_add i additionalTasks.

(** The [while] loop over the ancestors of a matched task. *)
Fixpoint addAncestors (fuel : nat) (allTasks : list task) (resultIds : list Z)
    (current : task) (additionalTasks : list Z) : option (list Z) :=
  match parentTaskId current with
  | None => Some additionalTasks
  | Some p =>
      match fuel with
      | O => None
      | S fuel' =>
          let additionalTasks := noted resultIds p additionalTasks in
          match findTask allTasks p with
          | Some parent =>
              addAncestors fuel' allTasks resultIds parent additionalTasks
          | None => Some additionalTasks
          end
      end
  end.

Fixpoint addDescendants (fuel : nat) (allTasks : list task) (resultIds : list Z)
    (t : task) (additionalTasks : list Z) : option (list Z) :=
  match fuel with
  | O => None
  | S fuel' =>
      foldlM (λ additionalTasks childId,
                let additionalTasks := noted resultIds childId additionalTasks in
                match findTask allTasks childId with
                | Some child =>
                    addDescendants fuel' allTasks resultIds child additionalTasks
                | None => Some additionalTasks
                end)
             (childTaskIds t) additionalTasks
  end.

Fixpoint getTaskDepthSyncLoop (fuel : nat) (allTasks : list task) (depth : Z)
    (current : task) : option Z :=
  match parentTaskId current with
  | None => Some depth
  | Some p =>
      match fuel with
      | O => None
      | S fuel' =>
          match findTask allTasks p with
          | None => Some (depth + 1)
          | Some parent => getTaskDepthSyncLoop fuel' allTasks (depth + 1) parent
          end
      end
  end.

Definition getTaskDepthSync (fuel : nat) (t : task) (allTasks : list task)
    : option Z :=
  getTaskDepthSyncLoop fuel allTasks 0 t.

(** The comparator of the final [sort], on tasks paired with their depth. *)
Definition compareByDepth (a b : Z * task) : Z :=
  if bool_decide (fst a ≠ fst b) then Num.sub (fst a) (fst b)
  else Num.sub (id (snd a)) (id (snd b)).

Definition inOrder (a b : Z * task) : Prop := compareByDepth a b ≤ 0.

#[global] Instance inOrder_dec : RelDecision inOrder.
Proof. intros a b. unfold inOrder. apply _. Defined.

(** [Array.prototype.sort] with that comparator. *)
Definition sortByDepth (l : list (Z * task)) : list task :=
  snd <$> merge_sort inOrder l.

Section Filter.

Variable caseTables : string → string.

Definition filterTasksOn (fuel : nat) (f : filters) (allTasks : list task)
    : option (list task) :=
  let matchedTasks := List.filter (matchesFilters caseTables f) allTasks in
  let resultIds := id <$> matchedTasks in
  additionalTasks ←
    foldlM (λ additionalTasks t,
              additionalTasks ← addAncestors fuel allTasks resultIds t additionalTasks;
              addDescendants fuel allTasks resultIds t additionalTasks)
           matchedTasks [];
  let finalTasks := matchedTasks ++ omap (findTask allTasks) additionalTasks in
  withDepth ← mapM (λ t, d ← getTaskDepthSync fuel t allTasks; Some (d, t)) finalTasks;
  Some (sortByDepth withDepth).

Definition filterTasks (fuel : nat) (f : filters) : M (list task) :=
  let* allTasks := getAllTasks false in
  read (λ _, filterTasksOn fuel f allTasks).

End Filter.

(** ** Relations on a store, used to state the properties *)

(** The object store keys its records by their [id] (its [keyPath]). *)
Definition keyed (d : gmap Z task) : Prop :=
  ∀ i t, d !! i = Some t → id t = i.

(** [parent_of d c p]: the record of [c] names [p] as its parent. *)
Definition parent_of (d : gmap Z task) (c p : Z) : Prop :=
  ∃ t, d !! c = Some t ∧ parentTaskId t = Some p.

(** [ancestor d c a]: [a] is reached from [c] by one or more parent links. *)
Definition ancestor (d : gmap Z task) : relation Z := tc (parent_of d).

(** [climbs d n c]: [n] parent links can be followed upwards from [c]; the
    depth of [c] is at most [k] when [climbs d (S k) c] fails. *)
Inductive climbs (d : gmap Z task) : nat → Z → Prop :=
| climbs_O c : climbs d O c
| climbs_S n c p : parent_of d c p → climbs d n p → climbs d (S n) c.

(** The ids of the tasks that are in the store and not deleted. *)
Definition live (d : gmap Z task) (i : Z) : Prop :=
  ∃ t, d !! i = Some t ∧ deleted t = false.

(** [child_of d p c]: the record of [p] lists [c] among its [childTaskIds]. *)
Definition child_of (d : gmap Z task) (p c : Z) : Prop :=
  ∃ t, d !! p = Some t ∧ c ∈ childTaskIds t.

(** [descendant d a c]: [c] is reached from [a] by one or more child links. *)
Definition descendant (d : gmap Z task) : relation Z := tc (child_of d).

(** ** Concrete stores

    Each is built from the empty store by calls of the store's own methods. *)

Module Scenario.

Definition now : timestamp := "2024-01-01T00:00:00.000Z".

Definition fuel : nat := 8.

Definition named (n : string) (parent : option Z) : taskData :=
  {| d_name := Some n; d_dueDate := None; d_status := None;
     d_project := None; d_priority := None; d_notes := None;
     d_parentTaskId := parent |}.

Definition setParent (p : option Z) : updates :=
  {| u_name := None; u_dueDate := None; u_status := None; u_project := None;
     u_priority := None; u_notes := None; u_parentTaskId := Some p |}.

Definition setStatus (s : status) : updates :=
  {| u_name := None; u_dueDate := None; u_status := Some s; u_project := None;
     u_priority := None; u_notes := None; u_parentTaskId := None |}.

Definition setProject (p : string) : updates :=
  {| u_name := None; u_dueDate := None; u_status := None;
     u_project := Some (Some p);
     u_priority := None; u_notes := None; u_parentTaskId := None |}.

(** The manager a method leaves behind, whether it returned or threw. *)
Definition after {A} (c : M A) (m : manager) : manager :=
  match c m with
  | Some (_, m') => m'
  | None => m
  end.

(** The record [createTask] makes of [named "a" None] on the empty store. *)
Definition task_a : task :=
  {| id := 1; name := "a"; dueDate := None; status_of := NotStarted;
     project := None; priority_of := Some Medium; notes := [];
     parentTaskId := None; childTaskIds := []; deleted := false;
     deletedAt := None |}.

(** One root task, id 1. *)
Definition one : manager :=
  after (createTask fuel now (named "a" None)) empty_manager.

(** Task 1 with child 2. *)
Definition two : manager :=
  after (createTask fuel now (named "b" (Some 1))) one.

(** Task 1 as it is in [three]: the root, listing its child 2. *)
Definition task_a3 : task := with_children [2] task_a.

(** The record [createTask] makes of [named "c" (Some 2)] on [two]. *)
Definition task_c : task :=
  {| id := 3; name := "c"; dueDate := None; status_of := NotStarted;
     project := None; priority_of := Some Medium; notes := [];
     parentTaskId := Some 2; childTaskIds := []; deleted := false;
     deletedAt := None |}.

(** The chain 1 ← 2 ← 3: grandparent, parent, child. *)
Definition three : manager :=
  after (createTask fuel now (named "c" (Some 2))) two.

(** Task 1 modified, deleted and purged from the trash, and the delete
    undone: the next action to undo is the modification of a task that is
    no longer in the store. *)
Definition purged : manager :=
  after (undo now)
    (after (purgeTask fuel 1)
       (after (deleteTask fuel now 1 false true)
          (after (updateTask fuel now 1 (setStatus InProgress)) one))).

(** [n] status changes of task 1, alternately to In Progress and back, with
    the action each call leaves on top of the undo stack. *)
Fixpoint toggle (n : nat) : M (list action) :=
  match n with
  | O => ret []
  | S n' =>
      updateTask fuel now 1
        (setStatus (if Nat.even n then InProgress else NotStarted)) ;;;
      let* stack := getUndoStack in
      let* acts := toggle n' in
      ret (option_list (last stack) ++ acts)
  end.

(** The actions of twenty-one status changes of task 1 on [one]. *)
Definition toggled : list action :=
  match toggle 21 one with
  | Some (Ok acts, _) => acts
  | _ => []
  end.

(** The chain 1 ← 2 ← 3 with the project "X" on the grandchild only, as
    [getAllTasks] lists it. *)
Definition family : list task :=
  Eval vm_compute in
    match
      (updateTask fuel now 3 (setProject "X") ;;; getAllTasks false) three
    with
    | Some (Ok all, _) => all
    | _ => []
    end.

(** The store of the chain with the project "X" on the grandchild. *)
Definition family_store : manager :=
  after (updateTask fuel now 3 (setProject "X")) three.

(** Task 1 alone, made its own parent by an update. *)
Definition self_parent : manager :=
  after (updateTask fuel now 1 (setParent (Some 1))) one.

Definition no_filters : filters :=
  {| by_id := None; by_project := None; by_priority := None;
     by_status := None |}.

(** The texts of the scenarios are ASCII, on which [Str.toLowerCase] does not
    consult the case tables of the engine: any function stands for them
    here. *)
Definition caseTables : string → string := λ s, s.

Definition projectX : filters :=
  {| by_id := None;
     by_project := Some {| value := "x"; negate := false |};
     by_priority := None;
     by_status := None |}.

(** Task 1 deleted with its subtree, then task 1 alone restored from the
    trash: task 1 is live and still lists the deleted task 2. *)
Definition half_restored : manager :=
  after (restoreTask now 1) (after (deleteTask fuel now 1 true true) two).

End Scenario.

(** Closing a goal about a concrete store by evaluation. *)
Ltac by_evaluation := vm_compute; reflexivity.

Ltac not_live :=
  let t := fresh "t" in
  let H := fresh "H" in
  let Hd := fresh "Hd" in
  intros (t & H & Hd); vm_compute in H;
  injection H as <-; discriminate Hd.



(** ** Reasoning about methods *)

(** [preserves I c]: whatever way [c] ends, it keeps [I]. *)
Definition preserves (I : manager → Prop) {A} (c : M A) : Prop :=
  ∀ m r m', c m = Some (r, m') → I m → I m'.

(** The history after [recordAction a] on the undo stack [l]. *)
Definition capped (l : list action) (a : action) : list action :=
  if (maxHistorySize <? length (l ++ [a]))%nat then tail (l ++ [a]) else l ++ [a].

(** [updateTask] between its reparenting block and its cascades: the fields
    are applied and a Completed task loses its priority. *)
Definition updated (u : updates) (t : task) : task :=
  let t := applyUpdates u t in
  if bool_decide (status_of t = Completed ∧ priority_of t ≠ None)
  then with_priority None t else t.

Create HintDb pres.

Ltac inv_bind H :=
  match type of H with
  | bind ?c ?k ?m = Some _ =>
      let x := fresh "x" in
      let m1 := fresh "m" in
      let Hc := fresh "Hc" in
      unfold bind at 1 in H;
      destruct (c m) as [[[x|x] m1]|] eqn:Hc;
      cbv beta iota in H;
      [ | inversion H; subst; clear H | discriminate H ]
  end.

(** [autoCompletes d t p]: on the store [d], [checkAndCompleteParent t] finds
    the parent [p] of [t] and marks it Completed. *)
Definition autoCompletes (d : gmap Z task) (t p : task) : Prop :=
  status_of t = Completed ∧
  ∃ pid, parentTaskId t = Some pid ∧ pid ≠ 0 ∧ d !! pid = Some p ∧
         status_of p ≠ Completed ∧ areAllChildrenCompleted d p = true.

(** The manager after [saveTask t] and [recordAction a]. *)
Definition saved_and_recorded (t : task) (a : action) (m : manager) : manager :=
  set_redoStack [] (set_undoStack (capped (undoStack m) a)
    (set_db (<[id t := t]> (db m)) m)).

(** The reparenting block of [updateTask] with its guard. *)
Definition reparentIfChanged (fuel : nat) (taskId : Z) (u : updates) (t : task)
    : M unit :=
  match u_parentTaskId u with
  | Some np =>
      if bool_decide (np ≠ parentTaskId t) then reparent fuel taskId t np
      else ret tt
  | None => ret tt
  end.

(** What a method keeps when it writes records only: the history. *)
Definition same_history (u r : list action) (m : manager) : Prop :=
  undoStack m = u ∧ redoStack m = r.

(** A run of returning [updateTask] calls, with the action each of them has
    put on top of the undo stack. *)
Inductive modifications : manager → list action → manager → Prop :=
| mods_nil m : modifications m [] m
| mods_cons m fuel now i u t m1 a acts m2 :
    updateTask fuel now i u m = Some (Ok t, m1) →
    last (undoStack m1) = Some a →
    modifications m1 acts m2 →
    modifications m (a :: acts) m2.

(** [n] calls of [undo] in a row, with the actions they return. *)
Fixpoint undoN (n : nat) (now : timestamp) : M (list action) :=
  match n with
  | O => ret []
  | S n' =>
      let* a := undo now in
      let* l := undoN n' now in
      ret (a :: l)
  end.

(** A [modify] action whose task is in the store. *)
Definition modifies_existing (m : manager) (a : action) : Prop :=
  ∃ i p n ts, a = AModify i p n ts ∧ is_Some (db m !! i).

(** ** The completion cascade as a marking of the child graph *)

(** What [completeAllDescendants] writes for a child it completes. *)
Definition done (x : task) : task := with_priority None (with_status Completed x).

(** [open_in d j]: task [j] is in the store and not Completed. *)
Definition open_in (d : gmap Z task) (j : Z) : Prop :=
  ∃ x, d !! j = Some x ∧ status_of x ≠ Completed.

(** [marked d d' j]: task [j], open in [d], is completed in [d']. *)
Definition marked (d d' : gmap Z task) (j : Z) : Prop :=
  ∃ x, d !! j = Some x ∧ status_of x ≠ Completed ∧ d' !! j = Some (done x).

Definition only_marks (d d' : gmap Z task) : Prop :=
  ∀ j, d' !! j = d !! j ∨ marked d d' j.

(** The result [d'] of a cascade over the children [cs] on the store [d]:
    records are completed or left alone; the open tasks of [cs] are
    completed; and the open children of a completed task are completed. *)
Record cascade_ok (d : gmap Z task) (cs : list Z) (d' : gmap Z task) : Prop := {
  ok_only : only_marks d d';
  ok_roots : ∀ c, c ∈ cs → open_in d c → marked d d' c;
  ok_closed : ∀ j x y, marked d d' j → d !! j = Some x →
                       y ∈ childTaskIds x → open_in d y → marked d d' y
}.

(** [cascade_reaches d cs g]: [g] is reached from the child list [cs]
    through tasks that are in the store [d] and not Completed there, [g]
    included. *)
Inductive cascade_reaches (d : gmap Z task) : list Z → Z → Prop :=
| reaches_child cs c : c ∈ cs → open_in d c → cascade_reaches d cs c
| reaches_below cs c x g :
    c ∈ cs → d !! c = Some x → status_of x ≠ Completed →
    cascade_reaches d (childTaskIds x) g → cascade_reaches d cs g.

(** ** The family of a task within a snapshot *)

(** [ancestor_in all a m]: [a] is reached from [m] by following
    [parentTaskId] through tasks of the snapshot [all]. *)
Inductive ancestor_in (all : list task) : task → task → Prop :=
| anc_parent m a :
    a ∈ all → parentTaskId m = Some (id a) → ancestor_in all a m
| anc_up m p a :
    p ∈ all → parentTaskId m = Some (id p) → ancestor_in all a p →
    ancestor_in all a m.

(** [descendant_in all m d]: [d] is reached from [m] by following
    [childTaskIds] through tasks of the snapshot [all]. *)
Inductive descendant_in (all : list task) : task → task → Prop :=
| desc_child m d :
    d ∈ all → id d ∈ childTaskIds m → descendant_in all m d
| desc_down m c d :
    c ∈ all → id c ∈ childTaskIds m → descendant_in all c d →
    descendant_in all m d.

Section Family.

Variable caseTables : string → string.

(** Two texts are the same label when [toLowerCase] gives one text for
    both. *)
Definition sameLabel (a b : string) : Prop :=
  Str.toLowerCase caseTables a = Str.toLowerCase caseTables b.

(** A criterion is an equality test, or its negation when [negate] is set. *)
Definition holds {A} (c : criterion A) (P : Prop) : Prop :=
  if negate c then ¬ P else P.

(** [satisfies f t]: the task passes every criterion that [f] gives.  The
    id equals the given number or is one of the given set; the project, the
    priority and the status are the given label, a task without project or
    priority having no label to compare. *)
Definition satisfies (f : filters) (t : task) : Prop :=
  (∀ c, by_id f = Some c →
        holds c (match value c with
                 | IdIs v => id t = v
                 | IdIn vs => id t ∈ vs
                 end)) ∧
  (∀ c, by_project f = Some c →
        holds c (∃ p, project t = Some p ∧ p ≠ "" ∧ sameLabel p (value c))) ∧
  (∀ c, by_priority f = Some c →
        holds c (∃ p, priority_of t = Some p ∧
                      sameLabel (priority_name p) (value c))) ∧
  (∀ c, by_status f = Some c →
        holds c (sameLabel (status_name (status_of t)) (value c))).

(** The family closure of the matches: what [filterTasks] is to return. *)
Definition in_family (f : filters) (all : list task) (t : task) : Prop :=
  t ∈ all ∧
  (satisfies f t ∨
   ∃ m, m ∈ all ∧ satisfies f m ∧
        (ancestor_in all t m ∨ descendant_in all m t)).

End Family.

(** [climb_le all n t]: the parent chain of [t] leaves the snapshot, or
    ends in a root, within [n] links. *)
Inductive climb_le (all : list task) : nat → task → Prop :=
| climb_root n t : parentTaskId t = None → climb_le all n t
| climb_missing n t p :
    parentTaskId t = Some p → findTask all p = None → climb_le all (S n) t
| climb_step n t p t' :
    parentTaskId t = Some p → findTask all p = Some t' →
    climb_le all n t' → climb_le all (S n) t.

(** [height_le all n t]: the tree of [childTaskIds] below [t] within the
    snapshot has fewer than [n] levels. *)
Inductive height_le (all : list task) : nat → task → Prop :=
| height_S n t :
    (∀ c child, c ∈ childTaskIds t → findTask all c = Some child →
                height_le all n child) →
    height_le all (S n) t.

(** The ids walked by the loop over the ancestors of [t]. *)
Inductive up_id (all : list task) : task → Z → Prop :=
| up_here t i : parentTaskId t = Some i → up_id all t i
| up_next t p t' i :
    parentTaskId t = Some p → findTask all p = Some t' → up_id all t' i →
    up_id all t i.

(** The ids walked by [addDescendants] from the child list [cs]. *)
Inductive down_ids (all : list task) : list Z → Z → Prop :=
| down_here cs i : i ∈ cs → down_ids all cs i
| down_below cs c child i :
    c ∈ cs → findTask all c = Some child →
    down_ids all (childTaskIds child) i → down_ids all cs i.

(** [depth_in all t d]: [d] parent links lead from [t] to a root, the last
    of them possibly to a task that is not in the snapshot. *)
Inductive depth_in (all : list task) : task → Z → Prop :=
| depth_root t : parentTaskId t = None → depth_in all t 0
| depth_missing t p :
    parentTaskId t = Some p → findTask all p = None → depth_in all t 1
| depth_step t p t' d :
    parentTaskId t = Some p → findTask all p = Some t' →
    depth_in all t' d → depth_in all t (d + 1).

(** Ascending depth, ties by ascending id. *)
Definition depth_then_id (all : list task) (a b : task) : Prop :=
  ∃ da db, depth_in all a da ∧ depth_in all b db ∧
           (da < db ∨ (da = db ∧ id a ≤ id b)).

(** Derivations of [climb_le] and [height_le] on a concrete snapshot. *)
Ltac climb :=
  first
    [ apply climb_root; reflexivity
    | eapply climb_step; [reflexivity | vm_compute; reflexivity | climb]
    | eapply climb_missing; [reflexivity | vm_compute; reflexivity] ].

Ltac height :=
  apply height_S;
  let c := fresh "c" in
  let child := fresh "child" in
  let Hc := fresh "Hc" in
  let Hf := fresh "Hf" in
  intros c child Hc Hf;
  apply list_elem_of_In in Hc; simpl in Hc;
  repeat (destruct Hc as [<-|Hc];
          [vm_compute in Hf; injection Hf as <-; height|]);
  destruct Hc.

(** ** More of the store: notes, trash, export and import *)

Definition with_notes (ns : list note) (t : task) : task :=
  {| id := id t; name := name t; dueDate := dueDate t; status_of := status_of t;
     project := project t; priority_of := priority_of t; notes := ns;
     parentTaskId := parentTaskId t; childTaskIds := childTaskIds t;
     deleted := deleted t; deletedAt := deletedAt t |}.

Definition addNote (now : timestamp) (taskId : Z) (noteContent : string) : M note :=
  let* found := getTaskById taskId in
  match found with
  | None => throw (TaskNotFound taskId)
  | Some t =>
      let n := {| n_timestamp := now; n_content := noteContent |} in
      saveTask (with_notes (notes t ++ [n]) t) ;;;
      ret n
  end.

Definition getDeletedTasks : M (list task) :=
  λ m, Some (Ok (List.filter (λ t, deleted t) (getAll (db m))), m).

(** What [exportData] resolves to, without the export date. *)
Record backup := { b_tasks : list task; b_nextId : Z }.

Definition exportData : M backup :=
  let* tasks := getAllTasks false in
  λ m, Some (Ok {| b_tasks := tasks; b_nextId := default 1 (nextId m) |}, m).

(** [importData]: clear the object store, put every task of the backup in
    the order of the array, and put its [nextId]. *)
Definition importData (data : backup) : M unit :=
  λ m, Some (Ok tt,
             set_nextId (Some (b_nextId data))
               (set_db (foldl (λ d t, <[id t := t]> d) ∅ (b_tasks data)) m)).

(** The loop of [purgeAll] in the application: purge every task that
    [getDeletedTasks] lists, counting them. *)
Definition purgeAll (fuel : nat) : M nat :=
  let* deletedTasks := getDeletedTasks in
  foldM (λ purged t, purgeTask fuel (id t) ;;; ret (S purged)) deletedTasks O.

(** ** Keys of the store *)

(** The manager keeps its set of ids and its counter. *)
Definition same_keys (m m' : manager) : Prop :=
  dom (db m') = dom (db m) ∧ nextId m' = nextId m.

(** [keeps_keys K c]: on a keyed store that holds the ids of [K], the method
    [c] writes records under ids that are there already. *)
Definition keeps_keys (K : Z → Prop) {A} (c : M A) : Prop :=
  ∀ m r m',
    keyed (db m) → (∀ i, K i → is_Some (db m !! i)) →
    c m = Some (r, m') →
    keyed (db m') ∧ same_keys m m'.

(** Every id of the store is below the counter that [getNextId] reads. *)
Definition counter_ok (m : manager) : Prop :=
  ∀ i, is_Some (db m !! i) → i < default 1 (nextId m).

(** ** The calls a collaborator can make *)

Inductive call :=
| CCreate (data : taskData)
| CUpdate (taskId : Z) (u : updates)
| CDelete (taskId : Z) (deleteChildren : bool)
| CRestore (taskId : Z)
| CPurge (taskId : Z)
| CAddNote (taskId : Z) (noteContent : string)
| CUndo
| CRedo.

(** One call of the store, its result dropped. *)
Definition perform (fuel : nat) (now : timestamp) (c : call) : M unit :=
  match c with
  | CCreate data => createTask fuel now data ;;; ret tt
  | CUpdate i u => updateTask fuel now i u ;;; ret tt
  | CDelete i deleteChildren => deleteTask fuel now i deleteChildren true ;;; ret tt
  | CRestore i => restoreTask now i ;;; ret tt
  | CPurge i => purgeTask fuel i
  | CAddNote i content => addNote now i content ;;; ret tt
  | CUndo => undo now ;;; ret tt
  | CRedo => redo now ;;; ret tt
  end.

(** The calls that neither create nor erase a record. *)
Definition rewrites_only (c : call) : Prop :=
  match c with
  | CCreate _ | CPurge _ => False
  | _ => True
  end.

(** The record [createTask] builds for the id [n]. *)
Definition created (data : taskData) (nm : string) (n : Z) : task :=
  {| id := n;
     name := Str.trim nm;
     dueDate := truthy (d_dueDate data);
     status_of := default NotStarted (d_status data);
     project := truthy (d_project data);
     priority_of := Some (default Medium (d_priority data));
     notes := default [] (d_notes data);
     parentTaskId := d_parentTaskId data;
     childTaskIds := [];
     deleted := false;
     deletedAt := None |}.

(** [createTask] lists the new id with its parent, when the parent is
    there and does not list it yet. *)
Definition linkChild (n : Z) (p : option Z) (d : gmap Z task) : gmap Z task :=
  match p with
  | Some p =>
      match d !! p with
      | Some parent =>
          if negb (includes (childTaskIds parent) n)
          then <[id parent := with_children (childTaskIds parent ++ [n]) parent]> d
          else d
      | None => d
      end
  | None => d
  end.

(** The manager a returning [createTask] leaves. *)
Definition after_create (now : timestamp) (data : taskData) (nm : string)
    (m : manager) : manager :=
  let n := default 1 (nextId m) in
  {| db := linkChild n (d_parentTaskId data) (<[n := created data nm n]> (db m));
     nextId := Some (Num.add n 1);
     undoStack := capped (undoStack m) (ACreate n now);
     redoStack := [] |}.

(** [erases m m']: [m'] is [m] without some records of its trash; nothing
    else differs. *)
Definition erases (m m' : manager) : Prop :=
  (∀ j, db m' !! j = db m !! j ∨
        (db m' !! j = None ∧ ∃ t, db m !! j = Some t ∧ deleted t = true)) ∧
  nextId m' = nextId m ∧ undoStack m' = undoStack m ∧ redoStack m' = redoStack m.

(** When [createTask] throws [e]: the name is missing or blank, or the
    parent is not in the store, or the parent is two levels down already. *)
Definition create_fails (fuel : nat) (data : taskData) (m : manager)
    (e : error) : Prop :=
  match e with
  | TaskNameRequired =>
      ∀ nm, truthy (d_name data) = Some nm → Str.trim nm = ""
  | ParentNotFound p =>
      d_parentTaskId data = Some p ∧ db m !! p = None
  | MaxHierarchyReached =>
      ∃ p parent depth, d_parentTaskId data = Some p ∧
        db m !! p = Some parent ∧
        getTaskDepth fuel (db m) parent = Some depth ∧ 2 ≤ depth
  | _ => False
  end.

(** The action a returning call puts on the undo stack of [m]. *)
Definition recorded (now : timestamp) (m : manager) (c : call) (a : action)
    : Prop :=
  match c, a with
  | CCreate _, ACreate i ts => i = default 1 (nextId m) ∧ ts = now
  | CUpdate i u, AModify j p n ts =>
      j = i ∧ ts = now ∧
      ∃ t0, db m !! i = Some t0 ∧ p = fields_of t0 ∧ n = fields_of (updated u t0)
  | CDelete i _, ADelete j ids ts => j = i ∧ ts = now ∧ head ids = Some i
  | CRestore i, ARestore j ts => j = i ∧ ts = now
  | _, _ => False
  end.

(** The calls that record an action when they return. *)
Definition records_action (c : call) : bool :=
  match c with
  | CCreate _ | CUpdate _ _ | CDelete _ _ | CRestore _ => true
  | _ => false
  end.

(** The calls that are recorded or leave the history alone: all but undo
    and redo. *)
Definition plain_call (c : call) : Prop :=
  match c with
  | CUndo | CRedo => False
  | _ => True
  end.

(** The number of actions the history holds. *)
Definition history_size (m : manager) : nat :=
  (length (undoStack m) + length (redoStack m))%nat.

(** The actions whose redo is a [restoreTask] of [i]. *)
Definition revives (a : action) (i : Z) : Prop :=
  match a with
  | ACreate j _ | ARestore j _ => j = i
  | _ => False
  end.

(** Task 1 created and modified eighteen times, a second task created, and
    that create undone: nineteen actions to undo, one create to redo. *)
Definition create_undone : manager :=
  Scenario.after (undo Scenario.now)
    (Scenario.after (createTask Scenario.fuel Scenario.now (Scenario.named "b" None))
       (Scenario.after (Scenario.toggle 18) Scenario.one)).

(** Task 2 as it is in [Scenario.three]: the child of 1, listing its child 3. *)
Definition task_b3 : task :=
  with_children [3] (created (Scenario.named "b" (Some 1)) "b" 2).

(** [trashes ids m m']: from [m] to [m'] the tasks of [ids] went to the trash,
    and no record changed but in its links and its deleted mark; the mark
    changed for the tasks of [ids] only. *)
Definition trashes (ids : list Z) (m m' : manager) : Prop :=
  keyed (db m') ∧
  (∀ j, j ∈ ids → ∃ tj, db m' !! j = Some tj ∧ deleted tj = true) ∧
  (∀ j tj, db m !! j = Some tj →
     ∃ tj', db m' !! j = Some tj' ∧ fields_of tj' = fields_of tj ∧
            (j ∉ ids → deleted tj' = deleted tj ∧ deletedAt tj' = deletedAt tj)).

(** [ranked rank d]: among the tasks of the trash, the links from a task to
    the children it lists go down in [rank]; the recursion of [purgeTask]
    follows those links. *)
Definition ranked (rank : Z → nat) (d : gmap Z task) : Prop :=
  ∀ j t c child,
    d !! j = Some t → deleted t = true → c ∈ childTaskIds t →
    d !! c = Some child → deleted child = true →
    (rank c < rank j)%nat.

(** The chain 1 ← 2 ← 3 in the trash, deleted from the root. *)
Definition all_trashed : manager :=
  Scenario.after (deleteTask Scenario.fuel Scenario.now 1 true true) Scenario.three.

(** [ranked] on one record, as a test. *)
Definition ranked_on (rank : Z → nat) (d : gmap Z task) (j : Z) (t : task)
    : bool :=
  negb (deleted t) ||
  forallb (λ c, match d !! c with
                | Some child => negb (deleted child) || (rank c <? rank j)%nat
                | None => true
                end) (childTaskIds t).

(** [links_down rank d]: every child link of the store goes down in [rank];
    there is no cycle of child links. *)
Definition links_down (rank : Z → nat) (d : gmap Z task) : Prop :=
  ∀ p t c, d !! p = Some t → c ∈ childTaskIds t → (rank c < rank p)%nat.

(** [links_down] on one record, as a test. *)
Definition links_down_on (rank : Z → nat) (p : Z) (t : task) : bool :=
  forallb (λ c, (rank c <? rank p)%nat) (childTaskIds t).

(** The store without its trash. *)
Definition live_part (d : gmap Z task) : gmap Z task :=
  filter (λ kv, deleted (snd kv) = false) d.

(** ** sortByPriority *)

Definition priorityOrder (p : priority) : Z :=
  match p with
  | Critical => 0 | High => 1 | Medium => 2 | Low => 3
  end.

(** What a comparator returns: a number, [NaN] among them. *)
Inductive number :=
| Finite (z : Z)
| NaN.

(** The comparator of [sortByPriority].  [timeOf d] is the time value of
    [new Date(d)], [None] for the Invalid Date of a text that does not parse;
    reading a date is the engine's.  A difference with an Invalid Date is
    [NaN].  [!a.dueDate] holds of a missing and of an empty due date. *)
Definition compareByPriority (timeOf : timestamp → option Z) (a b : task)
    : number :=
  match priority_of a, priority_of b with
  | None, Some _ => Finite 1
  | Some _, None => Finite (-1)
  | None, None => Finite (Num.sub (id b) (id a))
  | Some pa, Some pb =>
      let priorityDiff := priorityOrder pa - priorityOrder pb in
      if bool_decide (priorityDiff ≠ 0) then Finite priorityDiff
      else
        match truthy (dueDate a), truthy (dueDate b) with
        | None, None => Finite 0
        | None, Some _ => Finite 1
        | Some _, None => Finite (-1)
        | Some da, Some db =>
            match timeOf da, timeOf db with
            | Some ta, Some tb => Finite (Num.sub ta tb)
            | _, _ => NaN
            end
        end
  end.

(** [Array.prototype.sort] reads a comparator's [NaN] as [+0]. *)
Definition sortCompare (cmp : task → task → number) (a b : task) : Z :=
  match cmp a b with
  | Finite z => z
  | NaN => 0
  end.

Definition finite (n : number) : bool :=
  match n with
  | Finite _ => true
  | NaN => false
  end.

(** No two elements of [l] compare as [NaN], in either order. *)
Fixpoint comparable (cmp : task → task → number) (l : list task) : bool :=
  match l with
  | [] => true
  | a :: l' =>
      forallb (λ b, finite (cmp a b) && finite (cmp b a)) l' && comparable cmp l'
  end.

Fixpoint insertSorted (cmp : task → task → Z) (x : task) (l : list task)
    : list task :=
  match l with
  | [] => [x]
  | y :: l' =>
      if bool_decide (cmp x y ≤ 0) then x :: y :: l'
      else y :: insertSorted cmp x l'
  end.

(** [Array.prototype.sort] is a stable sort: with a comparator that orders
    the elements it returns the one stable sorted arrangement, which insertion
    from the right computes.  With a comparator that does not order them the
    arrangement is the engine's choice; the comparator of [sortByPriority] may
    be such when two of the tasks compare as [NaN], a due date not parsing,
    and the result is [None] then. *)
Definition stableSort (cmp : task → task → number) (l : list task)
    : option (list task) :=
  if comparable cmp l then Some (foldr (insertSorted (sortCompare cmp)) [] l)
  else None.

Definition sortByPriority (timeOf : timestamp → option Z) (tasks : list task)
    : option (list task) :=
  stableSort (compareByPriority timeOf) tasks.

(** The comparator of [sortByPriority] as [sort] reads it. *)
Definition priorityCompare (timeOf : timestamp → option Z) (a b : task) : Z :=
  sortCompare (compareByPriority timeOf) a b.

(** [a] and [b] compare as equal. *)
Definition tied (cmp : task → task → Z) (a b : task) : bool :=
  bool_decide (cmp a b = 0).

(** Two Critical tasks due on the second and on the first of January, and a
    completed one; [january] reads those two dates and no other text. *)
Definition january (d : timestamp) : option Z :=
  if Str.eqb d "2024-01-01" then Some 1704067200000
  else if Str.eqb d "2024-01-02" then Some 1704153600000
  else None.

Definition due (i : Z) (p : option priority) (d : option timestamp) : task :=
  {| id := i; name := "t"; dueDate := d;
     status_of := match p with Some _ => NotStarted | None => Completed end;
     project := None; priority_of := p; notes := [];
     parentTaskId := None; childTaskIds := []; deleted := false;
     deletedAt := None |}.

Definition criticals : list task :=
  [due 1 None None; due 2 (Some Critical) (Some "2024-01-02");
   due 3 (Some Critical) (Some "2024-01-01")].

(** Every due date of the task parses. *)
Definition dated (timeOf : timestamp → option Z) (t : task) : Prop :=
  ∀ d, truthy (dueDate t) = Some d → is_Some (timeOf d).

(** ** getTasksHierarchical *)

(** [new Map(tasks.map(t => [t.id, t]))]: of two tasks with one id the later
    stays. *)
Definition taskMapOf (tasks : list task) : gmap Z task :=
  foldl (λ d t, <[id t := t]> d) ∅ tasks.

(** The state of the listing: [result] and [addedIds], both in the order
    of insertion. *)
Definition listing : Type := list task * list Z.

(** The closure [addTaskWithDescendants]. *)
Fixpoint addTaskWithDescendants (fuel : nat) (taskMap : gmap Z task)
    (t : task) (st : listing) : option listing :=
  match fuel with
  | O => None
  | S fuel' =>
      if includes (snd st) (id t) then Some st
      else
        foldlM (λ st childId,
                  match taskMap !! childId with
                  | Some child =>
                      if negb (includes (snd st) childId)
                      then addTaskWithDescendants fuel' taskMap child st
                      else Some st
                  | None => Some st
                  end)
               (childTaskIds t)
               (fst st ++ [t], set_add (id t) (snd st))
  end.

Definition getTasksHierarchical (fuel : nat) (tasks : list task)
    : option (list task) :=
  let taskMap := taskMapOf tasks in
  st ← foldlM (λ st t,
                 match parentTaskId t with
                 | None => addTaskWithDescendants fuel taskMap t st
                 | Some _ => Some st
                 end) tasks ([], []);
  st ← foldlM (λ st t,
                 if negb (includes (snd st) (id t))
                 then addTaskWithDescendants fuel taskMap t st
                 else Some st) tasks st;
  Some (fst st).

(** The state of the listing is sound for the tasks [tasks]: [addedIds]
    holds the ids of [result], once each, and [result] holds tasks of
    [tasks]. *)
Definition listed (tasks : list task) (st : listing) : Prop :=
  snd st = id <$> fst st ∧ NoDup (snd st) ∧ ∀ t, t ∈ fst st → t ∈ tasks.

(** Every parent a record names is an id below the counter: no record
    names a task that is yet to be created. *)
Definition parents_below_counter (m : manager) : Prop :=
  ∀ j t q, db m !! j = Some t → parentTaskId t = Some q →
           q < default 1 (nextId m).

(** [parents_below_counter] on one record, as a test. *)
Definition parent_below (n : Z) (t : task) : bool :=
  match parentTaskId t with
  | Some q => bool_decide (q < n)
  | None => true
  end.

(** ** getAllDescendants *)

Fixpoint getAllDescendants (fuel : nat) (d : gmap Z task) (t : task)
    : option (list task) :=
  match fuel with
  | O => None
  | S fuel' =>
      foldlM (λ descendants childId,
                match d !! childId with
                | Some child =>
                    if negb (deleted child) then
                      match getAllDescendants fuel' d child with
                      | Some childDescendants =>
                          Some (descendants ++ child :: childDescendants)
                      | None => None
                      end
                    else Some descendants
                | None => Some descendants
                end)
             (childTaskIds t) []
  end.

(** [live_descendant d t x]: [x] is reached from [t] by child links through
    live tasks of the store, [x] being one of them. *)
Inductive live_descendant (d : gmap Z task) : task → task → Prop :=
| ld_child t c child :
    c ∈ childTaskIds t → d !! c = Some child → deleted child = false →
    live_descendant d t child
| ld_down t c child x :
    c ∈ childTaskIds t → d !! c = Some child → deleted child = false →
    live_descendant d child x →
    live_descendant d t x.

(** ** The command line (commandParser.js) *)

Module CommandParser.

(** The two fields of the parser that its history methods use. *)
Record parser := { commandHistory : list string; historyIndex : Z }.

Definition maxHistorySize : nat := 50.

Definition new : parser := {| commandHistory := []; historyIndex := -1 |}.

Definition set_index (i : Z) (p : parser) : parser :=
  {| commandHistory := commandHistory p; historyIndex := i |}.

Definition addToHistory (command : string) (p : parser) : parser :=
  if bool_decide (last (commandHistory p) = Some command) then p
  else
    let pushed := commandHistory p ++ [command] in
    let kept := if (maxHistorySize <? length pushed)%nat then tail pushed
                else pushed in
    {| commandHistory := kept; historyIndex := Z.of_nat (length kept) |}.

(** [array[i]]: [undefined], here [None], outside the array. *)
Definition at_index (l : list string) (i : Z) : option string :=
  if bool_decide (0 ≤ i) then l !! Z.to_nat i else None.

(** [null] is [None] as well. *)
Definition getPreviousCommand (p : parser) : option string * parser :=
  match commandHistory p with
  | [] => (None, p)
  | _ =>
      let i := if bool_decide (0 < historyIndex p) then historyIndex p - 1
               else historyIndex p in
      (at_index (commandHistory p) i, set_index i p)
  end.

Definition getNextCommand (p : parser) : option string * parser :=
  match commandHistory p with
  | [] => (None, p)
  | _ =>
      if bool_decide (historyIndex p < Z.of_nat (length (commandHistory p)) - 1)
      then let i := historyIndex p + 1 in
           (at_index (commandHistory p) i, set_index i p)
      else (Some "", set_index (Z.of_nat (length (commandHistory p))) p)
  end.

Definition resetHistoryIndex (p : parser) : parser :=
  set_index (Z.of_nat (length (commandHistory p))) p.

(** One call of a history method, its result dropped. *)
Inductive step :=
| Add (command : string)
| Previous
| Next
| Reset.

Definition after (s : step) (p : parser) : parser :=
  match s with
  | Add command => addToHistory command p
  | Previous => snd (getPreviousCommand p)
  | Next => snd (getNextCommand p)
  | Reset => resetHistoryIndex p
  end.

(** No command is in the history twice in a row. *)
Fixpoint no_repeat (l : list string) : Prop :=
  match l with
  | a :: (b :: _) as l' => a ≠ b ∧ no_repeat l'
  | _ => True
  end.

Definition well_formed (p : parser) : Prop :=
  (length (commandHistory p) ≤ maxHistorySize)%nat ∧
  no_repeat (commandHistory p) ∧
  -1 ≤ historyIndex p ≤ Z.of_nat (length (commandHistory p)) ∧
  (commandHistory p ≠ [] → 0 ≤ historyIndex p).

(** What [expandStatus] returns: a text, or a member of [Object.prototype]
    that the lookup in the object literal finds. *)
Inductive expanded :=
| Text (s : string)
| ObjectMember.

Definition statusMap (key : string) : option string :=
  if Str.eqb key "n" then Some "Not Started"
  else if Str.eqb key "i" then Some "In Progress"
  else if Str.eqb key "b" then Some "Blocked"
  else if Str.eqb key "c" then Some "Completed"
  else None.

(** The names that an object literal inherits from [Object.prototype]. *)
Definition inherited (key : string) : bool :=
  bool_decide (key ∈ ["constructor"; "__proto__"; "hasOwnProperty";
                      "isPrototypeOf"; "propertyIsEnumerable";
                      "toLocaleString"; "toString"; "valueOf";
                      "__defineGetter__"; "__defineSetter__";
                      "__lookupGetter__"; "__lookupSetter__"]).

(** [statusMap[lower] || abbrev]; [caseTables] as in [Str.toLowerCase]. *)
Definition expandStatus (caseTables : string → string) (abbrev : string)
    : expanded :=
  let lower := Str.toLowerCase caseTables abbrev in
  match statusMap lower with
  | Some full => Text full
  | None => if inherited lower then ObjectMember else Text abbrev
  end.

(** The letter that stands for a status. *)
Definition letter (s : status) : string :=
  match s with
  | NotStarted => "n" | InProgress => "i" | Blocked => "b" | Completed => "c"
  end.

End CommandParser.

(** [chain_down d n t]: [n] child links can be followed downwards from the
    task [t] through records of the store. *)
Inductive chain_down (d : gmap Z task) : nat → task → Prop :=
| chain_O t : chain_down d O t
| chain_S n t c child :
    c ∈ childTaskIds t → d !! c = Some child → chain_down d n child →
    chain_down d (S n) t.

(** Every child a record lists is an id below the counter: no record
    lists a task that is yet to be created. *)
Definition children_below_counter (m : manager) : Prop :=
  ∀ j t c, db m !! j = Some t → c ∈ childTaskIds t →
           c < default 1 (nextId m).

(** [children_below_counter] on one record, as a test. *)
Definition children_below (n : Z) (t : task) : bool :=
  forallb (λ c, bool_decide (c < n)) (childTaskIds t).
(** * Properties *)

(** ** Arithmetic on whole doubles *)

Lemma round_small z : Z.abs z ≤ 2 ^ 53 → Num.round z = z.
Proof.
  intros H. unfold Num.round. now rewrite (proj2 (Z.leb_le _ _) H).
Qed.

Lemma round_opp z : Num.round (- z) = - Num.round z.
Proof.
  unfold Num.round. rewrite Z.abs_opp, Z.sgn_opp.
  destruct (Z.abs z <=? 2 ^ 53); [reflexivity | lia].
Qed.

(** Rounding keeps the sign. *)
Lemma round_pos z : 0 < z → 0 < Num.round z.
Proof.
  intros Hz. unfold Num.round.
  destruct (Z.abs z <=? 2 ^ 53) eqn:Hs; [exact Hz|].
  apply Z.leb_gt in Hs. rewrite Z.sgn_pos by exact Hz.
  rewrite Z.abs_eq in * by lia.
  assert (Hlog : 53 ≤ Z.log2 z) by (apply Z.log2_le_pow2; lia).
  set (e := Z.log2 z - 52) in *.
  assert (He : 0 ≤ e) by lia.
  assert (Hq : 0 < Z.shiftr z e).
  { rewrite Z.shiftr_div_pow2 by exact He.
    apply Z.div_str_pos. split; [apply Z.pow_pos_nonneg; lia|].
    transitivity (2 ^ Z.log2 z); [|apply Z.log2_spec; lia].
    apply Z.pow_le_mono_r; lia. }
  set (q := Z.shiftr z e) in *.
  rewrite Z.mul_1_l.
  assert (Hsh : ∀ x, 0 < x → 0 < Z.shiftl x e).
  { intros x Hx. rewrite Z.shiftl_mul_pow2 by exact He.
    apply Z.mul_pos_pos; [exact Hx | apply Z.pow_pos_nonneg; lia]. }
  repeat case_match; apply Hsh; lia.
Qed.

Lemma round_sgn z : Z.sgn (Num.round z) = Z.sgn z.
Proof.
  destruct (Z.lt_trichotomy z 0) as [Hz|[->|Hz]].
  - pose proof (round_pos (- z)) as Hp. rewrite round_opp in Hp.
    rewrite !Z.sgn_neg; lia.
  - reflexivity.
  - pose proof (round_pos z Hz). rewrite !Z.sgn_pos; lia.
Qed.

(** Beyond [2^53] a number is rounded to one of the two multiples of
    [2^e] around it, [e] being the exponent of its last significant bit. *)
Lemma round_big z :
  2 ^ 53 < z →
  let e := Z.log2 z - 52 in
  1 ≤ e ∧
  (Num.round z = z - z mod 2 ^ e ∨ Num.round z = z - z mod 2 ^ e + 2 ^ e).
Proof.
  intros Hz e.
  assert (Hlog : 53 ≤ Z.log2 z) by (apply Z.log2_le_pow2; lia).
  assert (He : 1 ≤ e) by (unfold e; lia).
  split; [exact He|]. unfold Num.round.
  rewrite Z.abs_eq by lia.
  rewrite (proj2 (Z.leb_gt _ _) Hz). fold e.
  rewrite Z.sgn_pos, Z.mul_1_l by lia.
  rewrite Z.shiftr_div_pow2 by lia.
  assert (Hp : 0 < 2 ^ e) by (apply Z.pow_pos_nonneg; lia).
  pose proof (Z.div_mod z (2 ^ e) ltac:(lia)) as Hdm.
  repeat case_match; rewrite Z.shiftl_mul_pow2 by lia; lia.
Qed.

Lemma round_fixed z :
  2 ^ 53 < z → Num.round z = z → z mod 2 ^ (Z.log2 z - 52) = 0.
Proof.
  intros Hz Hr. destruct (round_big z Hz) as [He Hc].
  pose proof (Z.mod_pos_bound z (2 ^ (Z.log2 z - 52))
                ltac:(apply Z.pow_pos_nonneg; lia)).
  lia.
Qed.

Lemma round_succ_ge z : Num.round z = z → z ≤ Num.round (z + 1).
Proof.
  intros Hd.
  destruct (Z_lt_le_dec (Z.abs (z + 1)) (2 ^ 53 + 1)) as [Hs|Hb].
  { rewrite round_small by lia. lia. }
  destruct (Z_lt_le_dec 0 z) as [Hpos|Hneg].
  - assert (Hz : 2 ^ 53 ≤ z) by lia.
    destruct (Z.eq_dec z (2 ^ 53)) as [->|Hne]; [vm_compute; discriminate|].
    assert (Hz' : 2 ^ 53 < z) by lia.
    pose proof (round_fixed z Hz' Hd) as Hmod.
    destruct (round_big z Hz') as [He _].
    destruct (round_big (z + 1) ltac:(lia)) as [He' Hc].
    assert (Hlog : Z.log2 (z + 1) = Z.log2 z).
    { destruct (Z.log2_succ_or z) as [Hs|Hs]; [|exact Hs].
      apply Z.log2_eq_succ_iff_pow2 in Hs as [b Hb']; [|lia].
      exfalso. change (Z.succ z) with (z + 1) in Hb'.
      assert (Hb1 : 1 ≤ b).
      { destruct (Z_lt_le_dec b 1); [|assumption].
        assert (2 ^ b ≤ 1); [|lia].
        destruct (Z_lt_le_dec b 0); [rewrite Z.pow_neg_r; lia|].
        replace b with 0 by lia. simpl. lia. }
      assert (Heven : z mod 2 = 0).
      { set (e := Z.log2 z - 52) in *.
        replace (2 ^ e) with (2 * 2 ^ (e - 1)) in Hmod
          by (rewrite <- Z.pow_succ_r by lia; f_equal; lia).
        apply Z.mod_divide in Hmod; [|apply Z.neq_mul_0; split; [lia|];
          apply Z.pow_nonzero; lia].
        apply Z.mod_divide; [lia|].
        destruct Hmod as [k Hk]. exists (k * 2 ^ (e - 1)). lia. }
      assert (Hodd : (z + 1) mod 2 = 0).
      { rewrite Hb'. replace (2 ^ b) with (2 * 2 ^ (b - 1))
          by (rewrite <- Z.pow_succ_r by lia; f_equal; lia).
        rewrite Z.mul_comm. apply Z.mod_mul. lia. }
      rewrite Z.add_mod, Heven in Hodd by lia. simpl in Hodd. discriminate. }
    rewrite Hlog in Hc. set (e := Z.log2 z - 52) in *.
    assert (Hp : 2 ≤ 2 ^ e).
    { change 2 with (2 ^ 1) at 1. apply Z.pow_le_mono_r; lia. }
    assert (Hm1 : (z + 1) mod 2 ^ e = 1).
    { rewrite Z.add_mod, Hmod by lia. rewrite (Z.mod_small 1) by lia.
      apply Z.mod_small. lia. }
    lia.
  - set (m := - (z + 1)).
    assert (Hm : 2 ^ 53 < m) by (unfold m; lia).
    replace (z + 1) with (- m) by (unfold m; lia). rewrite round_opp.
    assert (Hd' : Num.round (m + 1) = m + 1).
    { replace (m + 1) with (- z) by (unfold m; lia). rewrite round_opp. lia. }
    pose proof (round_fixed (m + 1) ltac:(lia) Hd') as Hmod.
    destruct (round_big m Hm) as [He Hc].
    assert (Hle : Z.log2 m ≤ Z.log2 (m + 1)) by (apply Z.log2_le_mono; lia).
    set (e := Z.log2 m - 52) in *. set (e1 := Z.log2 (m + 1) - 52) in *.
    assert (Hmod' : (m + 1) mod 2 ^ e = 0).
    { apply Z.mod_divide; [apply Z.pow_nonzero; lia|].
      apply Z.mod_divide in Hmod; [|apply Z.pow_nonzero; lia].
      destruct Hmod as [k Hk]. exists (k * 2 ^ (e1 - e)).
      rewrite <- Z.mul_assoc, <- Z.pow_add_r by lia.
      replace (e1 - e + e) with e1 by lia. exact Hk. }
    assert (Hp : 2 ≤ 2 ^ e).
    { change 2 with (2 ^ 1) at 1. apply Z.pow_le_mono_r; lia. }
    pose proof (Z.mod_pos_bound m (2 ^ e) ltac:(lia)) as Hb1.
    pose proof (Z.div_mod m (2 ^ e) ltac:(lia)) as Hdm.
    pose proof (Z.div_mod (m + 1) (2 ^ e) ltac:(lia)) as Hdm1.
    rewrite Hmod' in Hdm1.
    assert (Hmm : m mod 2 ^ e = 2 ^ e - 1).
    { destruct (Z.eq_dec (m mod 2 ^ e) (2 ^ e - 1)) as [|Hne]; [assumption|].
      exfalso.
      assert (Hs : (m + 1) mod 2 ^ e = m mod 2 ^ e + 1).
      { rewrite Z.add_mod by lia. rewrite (Z.mod_small 1) by lia.
        apply Z.mod_small. lia. }
      lia. }
    unfold m in *. lia.
Qed.

Lemma sub_nonpos a b : Num.sub a b ≤ 0 ↔ a ≤ b.
Proof.
  unfold Num.sub. destruct (_ && _); [|lia].
  pose proof (round_sgn (a - b)) as H.
  destruct (Z.sgn_spec (Num.round (a - b))) as [[? ?]|[[? ?]|[? ?]]],
           (Z.sgn_spec (a - b)) as [[? ?]|[[? ?]|[? ?]]]; lia.
Qed.

Lemma sub_zero a b : Num.sub a b = 0 ↔ a = b.
Proof.
  unfold Num.sub. destruct (_ && _); [|lia].
  pose proof (round_sgn (a - b)) as H.
  destruct (Z.sgn_spec (Num.round (a - b))) as [[? ?]|[[? ?]|[? ?]]],
           (Z.sgn_spec (a - b)) as [[? ?]|[[? ?]|[? ?]]]; lia.
Qed.

Lemma sub_flip a b : Num.sub b a = - Num.sub a b.
Proof.
  unfold Num.sub. rewrite (andb_comm (Num.is_double b)).
  destruct (_ && _); [|lia]. rewrite <- round_opp. f_equal. lia.
Qed.

(** On safe integers the counter counts. *)
Lemma add_safe n : Num.safe n → Num.add n 1 = n + 1.
Proof.
  unfold Num.safe, Num.add. intros H. destruct (_ && _); [|reflexivity].
  apply round_small. lia.
Qed.

(** At [2^53] it stays. *)
Lemma add_saturated : Num.add (2 ^ 53) 1 = 2 ^ 53.
Proof. vm_compute. reflexivity. Qed.

(** It never goes down. *)
Lemma add_ge n : n ≤ Num.add n 1.
Proof.
  unfold Num.add. destruct (Num.is_double n) eqn:Hd; [|simpl; lia].
  destruct (Num.is_double 1); simpl; [|lia].
  apply bool_decide_eq_true in Hd. apply round_succ_ge, Hd.
Qed.

(** ** Laws of the monad *)

Lemma bind_Ok {A B} (c : M A) (k : A → M B) m b m' :
  bind c k m = Some (Ok b, m') →
  ∃ a m1, c m = Some (Ok a, m1) ∧ k a m1 = Some (Ok b, m').
Proof.
  unfold bind. destruct (c m) as [[[a|e] m1]|]; [eauto | discriminate..].
Qed.

Lemma bind_Throw {A B} (c : M A) (k : A → M B) m e m' :
  bind c k m = Some (Throw e, m') →
  c m = Some (Throw e, m') ∨
  ∃ a m1, c m = Some (Ok a, m1) ∧ k a m1 = Some (Throw e, m').
Proof.
  unfold bind. destruct (c m) as [[[a|e'] m1]|]; [eauto | | discriminate].
  intros [= -> ->]. now left.
Qed.

Lemma last_removelast {A} (l : list A) a :
  last l = Some a → removelast l ++ [a] = l.
Proof.
  intros H. destruct (last_Some l a) as [[l' ->] _]; [exact H|].
  now rewrite removelast_last.
Qed.

Section Preservation.

Variable I : manager → Prop.
Hypothesis I_save : ∀ m t, I m → I (set_db (<[id t := t]> (db m)) m).

Lemma preserves_ret {A} (a : A) : preserves I (ret a).
Proof. intros m r m' [= <- <-]. auto. Qed.

Lemma preserves_throw {A} e : preserves I (@throw A e).
Proof. intros m r m' [= <- <-]. auto. Qed.

Lemma preserves_bind {A B} (c : M A) (k : A → M B) :
  preserves I c → (∀ a, preserves I (k a)) → preserves I (bind c k).
Proof.
  intros Hc Hk m r m' H Hm. inv_bind H.
  - eapply Hk; [exact H|]. eapply Hc; eauto.
  - eapply Hc; eauto.
Qed.

Lemma preserves_getTaskById i : preserves I (getTaskById i).
Proof. intros m r m' [= <- <-]. auto. Qed.

Lemma preserves_saveTask t : preserves I (saveTask t).
Proof. intros m r m' [= <- <-]. auto. Qed.

Lemma preserves_read {A} (f : gmap Z task → option A) : preserves I (read f).
Proof.
  intros m r m'. unfold read. destruct (f (db m)); [|discriminate].
  intros [= <- <-]. auto.
Qed.

Lemma preserves_when b c : preserves I c → preserves I (when b c).
Proof. destruct b; simpl; auto using preserves_ret. Qed.

Lemma preserves_forM_ {A} (l : list A) body :
  (∀ x, preserves I (body x)) → preserves I (forM_ l body).
Proof.
  intros Hb. induction l as [|x l IH]; simpl.
  - apply preserves_ret.
  - apply preserves_bind; auto.
Qed.

Lemma preserves_foldM {A B} (f : B → A → M B) l b :
  (∀ b x, preserves I (f b x)) → preserves I (foldM f l b).
Proof.
  intros Hf. revert b. induction l as [|x l IH]; intros b; simpl.
  - apply preserves_ret.
  - apply preserves_bind; auto.
Qed.

#[local] Hint Resolve preserves_ret preserves_throw preserves_bind
  preserves_getTaskById preserves_saveTask preserves_read preserves_when
  preserves_forM_ preserves_foldM : pres.

Ltac pres := repeat first
  [ solve [eauto with pres]
  | apply preserves_when
  | apply preserves_forM_
  | apply preserves_foldM
  | apply preserves_bind
  | progress cbv beta
  | match goal with
    | |- preserves _ (match ?x with _ => _ end) => destruct x
    | |- preserves _ (if ?x then _ else _) => destruct x
    | |- ∀ _, preserves _ _ => intro
    | |- ∀ _ _, preserves _ _ => intro
    end ].

Lemma preserves_detachFromParent i t : preserves I (detachFromParent i t).
Proof. unfold detachFromParent. pres. Qed.

Lemma preserves_attachToParent i t : preserves I (attachToParent i t).
Proof. unfold attachToParent. pres. Qed.

#[local] Hint Resolve preserves_detachFromParent preserves_attachToParent : pres.

Lemma preserves_completeAllDescendants fuel t :
  preserves I (completeAllDescendants fuel t).
Proof.
  revert t. induction fuel as [|fuel IH]; intros t; simpl.
  - intros m r m' [=].
  - pres.
Qed.

Lemma preserves_checkAndCompleteParent t :
  preserves I (checkAndCompleteParent t).
Proof. unfold checkAndCompleteParent. pres. Qed.

Lemma preserves_reparent fuel i t np : preserves I (reparent fuel i t np).
Proof. unfold reparent. pres. Qed.

Lemma preserves_restoreTaskWithoutHistory i :
  preserves I (restoreTaskWithoutHistory i).
Proof. unfold restoreTaskWithoutHistory. pres. Qed.

Lemma preserves_updateTaskWithoutHistory i u :
  preserves I (updateTaskWithoutHistory i u).
Proof. unfold updateTaskWithoutHistory. pres. Qed.

Lemma preserves_deleteTaskWithoutHistory now i :
  preserves I (deleteTaskWithoutHistory now i).
Proof. unfold deleteTaskWithoutHistory. pres. Qed.

Lemma preserves_softDelete now i : preserves I (softDelete now i).
Proof. unfold softDelete. pres. Qed.

#[local] Hint Resolve preserves_completeAllDescendants
  preserves_checkAndCompleteParent preserves_reparent
  preserves_restoreTaskWithoutHistory preserves_updateTaskWithoutHistory
  preserves_deleteTaskWithoutHistory preserves_softDelete : pres.

Lemma preserves_undoAction now a : preserves I (undoAction now a).
Proof. unfold undoAction. pres. Qed.

(** Methods that write the history keep [I] when [I] does not read it. *)
Hypothesis I_history :
  ∀ m u r, I m → I (set_redoStack r (set_undoStack u m)).
Hypothesis I_nextId : ∀ m n, I m → I (set_nextId n m).

Lemma preserves_recordAction a : preserves I (recordAction a).
Proof. intros m r m' [= <- <-]. auto. Qed.

#[local] Hint Resolve preserves_recordAction : pres.

Lemma preserves_updateTask fuel now i u : preserves I (updateTask fuel now i u).
Proof. unfold updateTask. pres. Qed.

Lemma preserves_restoreTask now i : preserves I (restoreTask now i).
Proof. unfold restoreTask. pres. Qed.

Lemma preserves_deleteTask fuel now i c r : preserves I (deleteTask fuel now i c r).
Proof.
  revert i c r. induction fuel as [|fuel IH]; intros i c r; simpl.
  - intros m r' m' [=].
  - pres.
Qed.

End Preservation.

Lemma preserves_createTask (I : manager → Prop) fuel now data :
  (∀ m t, I m → I (set_db (<[id t := t]> (db m)) m)) →
  (∀ m u r, I m → I (set_redoStack r (set_undoStack u m))) →
  (∀ m n, I m → I (set_nextId n m)) →
  preserves I (createTask fuel now data).
Proof.
  intros Hs Hh Hn. unfold createTask.
  assert (Hnext : preserves I getNextId).
  { intros m r m' [= <- <-]. auto. }
  repeat first
    [ apply preserves_ret | apply preserves_throw | apply preserves_read
    | apply preserves_getTaskById | apply preserves_saveTask
    | apply preserves_recordAction | exact Hnext | assumption
    | apply preserves_when | apply preserves_bind
    | progress cbv beta
    | match goal with
      | |- preserves _ (match ?x with _ => _ end) => destruct x
      | |- preserves _ (if ?x then _ else _) => destruct x
      | |- ∀ _, preserves _ _ => intro
      end ].
Qed.

Lemma after_keeps (I : manager → Prop) {A} (c : M A) m :
  preserves I c → I m → I (Scenario.after c m).
Proof.
  intros Hc Hm. unfold Scenario.after.
  destruct (c m) as [[r m']|] eqn:H; [eapply Hc; eauto | exact Hm].
Qed.

(** ** The store stays keyed by id, and records are never removed *)

Lemma keyed_insert d t : keyed d → keyed (<[id t := t]> d).
Proof.
  intros Hk j x. rewrite lookup_insert. case_decide as Hj.
  - intros [= <-]. exact Hj.
  - apply Hk.
Qed.

Lemma keyed_updateTask fuel now i u m r m' :
  updateTask fuel now i u m = Some (r, m') → keyed (db m) → keyed (db m').
Proof.
  apply (preserves_updateTask (λ m, keyed (db m))); simpl; auto using keyed_insert.
Qed.

Lemma exists_insert (d : gmap Z task) t j :
  is_Some (d !! j) → is_Some (<[id t := t]> d !! j).
Proof.
  intros H. rewrite lookup_insert. case_decide; [eauto | exact H].
Qed.

(** ** The upward check *)

Lemma checkAndCompleteParent_inv t m r m' :
  checkAndCompleteParent t m = Some (r, m') →
  r = Ok tt ∧
  ((∃ p, autoCompletes (db m) t p ∧
         m' = set_db (<[id p := with_status Completed p]> (db m)) m)
   ∨ ((∀ p, ¬ autoCompletes (db m) t p) ∧ m' = m)).
Proof.
  unfold checkAndCompleteParent, autoCompletes.
  case_bool_decide as Hs.
  { intros [= <- <-]. split; [reflexivity|]. right. split; [|reflexivity].
    intros p [Hc _]. contradiction. }
  assert (Hst : status_of t = Completed) by (destruct (status_of t); congruence).
  destruct (parentTaskId t) as [pid|] eqn:Hp.
  2:{ intros [= <- <-]. split; [reflexivity|]. right. split; [|reflexivity].
      intros p (_ & pid & [=] & _). }
  case_bool_decide as Hz.
  { intros [= <- <-]. split; [reflexivity|]. right. split; [|reflexivity].
    intros p (_ & pid' & [= <-] & Hnz & _). contradiction. }
  unfold bind, getTaskById. destruct (db m !! pid) as [p|] eqn:Hl.
  2:{ intros [= <- <-]. split; [reflexivity|]. right. split; [|reflexivity].
      intros p (_ & pid' & [= <-] & _ & Hl' & _). congruence. }
  case_bool_decide as Hpc.
  { intros [= <- <-]. split; [reflexivity|]. right. split; [|reflexivity].
    intros p' (_ & pid' & [= <-] & _ & Hl' & Hn & _). congruence. }
  unfold read. destruct (areAllChildrenCompleted (db m) p) eqn:Hall; simpl.
  - intros [= <- <-]. split; [reflexivity|]. left. exists p.
    split; [|reflexivity]. split; [exact Hst|]. exists pid. auto.
  - intros [= <- <-]. split; [reflexivity|]. right. split; [|reflexivity].
    intros p' (_ & pid' & [= <-] & _ & Hl' & _ & Hall'). congruence.
Qed.

(** ** The phases of updateTask *)

Lemma updateTask_unfold fuel now i u :
  updateTask fuel now i u =
  (let* found := getTaskById i in
   match found with
   | None => throw (TaskNotFound i)
   | Some t0 =>
       reparentIfChanged fuel i u t0 ;;;
       let t := updated u t0 in
       when (bool_decide (status_of t = Completed))
         (completeAllDescendants fuel t) ;;;
       saveTask t ;;;
       recordAction (AModify (id t) (fields_of t0) (fields_of t) now) ;;;
       checkAndCompleteParent t ;;;
       ret t
   end).
Proof. reflexivity. Qed.

Lemma updateTask_Ok fuel now i u m t m' :
  updateTask fuel now i u m = Some (Ok t, m') →
  ∃ t0 m1 m2,
    db m !! i = Some t0 ∧ t = updated u t0 ∧
    reparentIfChanged fuel i u t0 m = Some (Ok tt, m1) ∧
    when (bool_decide (status_of t = Completed))
      (completeAllDescendants fuel t) m1 = Some (Ok tt, m2) ∧
    checkAndCompleteParent t
      (saved_and_recorded t (AModify (id t) (fields_of t0) (fields_of t) now) m2)
    = Some (Ok tt, m').
Proof.
  rewrite updateTask_unfold. intros H.
  apply bind_Ok in H as (found & m0 & Hg & H).
  injection Hg as <- <-.
  destruct (db m !! i) as [t0|] eqn:Hl; [|discriminate].
  apply bind_Ok in H as ([] & m1 & Hre & H).
  apply bind_Ok in H as ([] & m2 & Hca & H).
  apply bind_Ok in H as ([] & m3 & Hsa & H).
  apply bind_Ok in H as ([] & m4 & Hrec & H).
  apply bind_Ok in H as ([] & m5 & Hch & H).
  injection H as <- <-. injection Hsa as <-. injection Hrec as <-.
  exists t0, m1, m2. repeat split; assumption.
Qed.

Lemma updated_id u t : id (updated u t) = id t.
Proof. unfold updated. case_bool_decide; reflexivity. Qed.

Lemma updated_children u t : childTaskIds (updated u t) = childTaskIds t.
Proof. unfold updated. case_bool_decide; reflexivity. Qed.

Lemma updated_status u t :
  status_of (updated u t) = default (status_of t) (u_status u).
Proof. unfold updated. case_bool_decide; reflexivity. Qed.

Lemma updated_priority u t :
  priority_of (updated u t) =
  if bool_decide (status_of (updated u t) = Completed) then None
  else default (priority_of t) (u_priority u).
Proof.
  rewrite updated_status. unfold updated. case_bool_decide as H; simpl.
  - destruct H as [Hc _]. simpl in Hc. rewrite bool_decide_eq_true_2; auto.
  - case_bool_decide as Hc; [|reflexivity].
    destruct (default (priority_of t) (u_priority u)) eqn:Hp; [|reflexivity].
    exfalso. apply H. split; [exact Hc|]. simpl. rewrite Hp. discriminate.
Qed.

Lemma preserves_reparentIfChanged (I : manager → Prop) fuel i u t :
  (∀ m t, I m → I (set_db (<[id t := t]> (db m)) m)) →
  preserves I (reparentIfChanged fuel i u t).
Proof.
  intros HI. unfold reparentIfChanged.
  destruct (u_parentTaskId u); [case_bool_decide|];
    auto using preserves_reparent, preserves_ret.
Qed.

Lemma preserves_cascade (I : manager → Prop) fuel b t :
  (∀ m t, I m → I (set_db (<[id t := t]> (db m)) m)) →
  preserves I (when b (completeAllDescendants fuel t)).
Proof.
  intros HI. apply preserves_when, preserves_completeAllDescendants, HI.
Qed.

(** After a returning [updateTask] the store holds the returned record. *)
Lemma updateTask_stored fuel now i u m t m' :
  keyed (db m) →
  updateTask fuel now i u m = Some (Ok t, m') →
  id t = i ∧ db m' !! i = Some t.
Proof.
  intros Hk H.
  apply updateTask_Ok in H as (t0 & m1 & m2 & Hl & -> & Hre & Hca & Hch).
  assert (Hid : id (updated u t0) = i) by (rewrite updated_id; eauto).
  split; [exact Hid|].
  assert (Hk2 : keyed (db m2)).
  { eapply (preserves_cascade (λ m, keyed (db m))); [|exact Hca|].
    - simpl; auto using keyed_insert.
    - eapply (preserves_reparentIfChanged (λ m, keyed (db m))); [|exact Hre|exact Hk].
      simpl; auto using keyed_insert. }
  apply checkAndCompleteParent_inv in Hch as [_ [(p & Hauto & ->)|[_ ->]]]; simpl.
  - destruct Hauto as (Hst & pid & Hp & Hnz & Hlp & Hnc & _). simpl in Hlp.
    rewrite Hid in *. rewrite lookup_insert in Hlp. case_decide as Hpi.
    + injection Hlp as <-. contradiction.
    + rewrite (Hk2 _ _ Hlp). rewrite lookup_insert_ne by congruence.
      apply lookup_insert_eq.
  - rewrite <- Hid. apply lookup_insert_eq.
Qed.

Lemma keyed_empty : keyed (db empty_manager).
Proof. intros i t. simpl. rewrite lookup_empty. discriminate. Qed.

Lemma keyed_createTask fuel now data : preserves (λ m, keyed (db m)) (createTask fuel now data).
Proof. apply preserves_createTask; simpl; auto using keyed_insert. Qed.

Lemma keyed_one : keyed (db Scenario.one).
Proof.
  apply (after_keeps (λ m, keyed (db m))); [apply keyed_createTask | apply keyed_empty].
Qed.

Lemma keyed_two : keyed (db Scenario.two).
Proof.
  apply (after_keeps (λ m, keyed (db m))); [apply keyed_createTask | apply keyed_one].
Qed.

Lemma keyed_three : keyed (db Scenario.three).
Proof.
  apply (after_keeps (λ m, keyed (db m))); [apply keyed_createTask | apply keyed_two].
Qed.

(** ** Priority after an update *)

(** C8, amended. After a returning [updateTask i u] the store holds the
    returned task under [i]; its status is the one given in [u], or the old
    one when [u] gives none; its priority is absent when that status is
    Completed, and otherwise it is the priority given in [u], or the old one
    when [u] gives none.  So a task reopened from Completed without a new
    priority is not Completed and has no priority: the store does not invent
    one. *)
Theorem update_sets_priority fuel now i u m t m' :
  keyed (db m) →
  updateTask fuel now i u m = Some (Ok t, m') →
  ∃ t0, db m !! i = Some t0 ∧ db m' !! i = Some t ∧
        status_of t = default (status_of t0) (u_status u) ∧
        priority_of t =
          if bool_decide (status_of t = Completed) then None
          else default (priority_of t0) (u_priority u).
Proof.
  intros Hk H.
  destruct (updateTask_stored _ _ _ _ _ _ _ Hk H) as [_ Hst].
  apply updateTask_Ok in H as (t0 & _ & _ & Hl & -> & _).
  exists t0. split; [exact Hl|]. split; [exact Hst|].
  split; [apply updated_status | apply updated_priority].
Qed.

Lemma update_sets_priority_witness :
  let u := Scenario.setStatus Completed in
  let t := with_priority None (with_status Completed Scenario.task_a) in
  let m' := Scenario.after (updateTask Scenario.fuel Scenario.now 1 u) Scenario.one in
  keyed (db Scenario.one) ∧
  updateTask Scenario.fuel Scenario.now 1 u Scenario.one = Some (Ok t, m') ∧
  ∃ t0, db Scenario.one !! 1 = Some t0 ∧ db m' !! 1 = Some t ∧
        status_of t = default (status_of t0) (u_status u) ∧
        priority_of t =
          if bool_decide (status_of t = Completed) then None
          else default (priority_of t0) (u_priority u).
Proof.
  intros u t m'.
  assert (Hrun : updateTask Scenario.fuel Scenario.now 1 u Scenario.one
                 = Some (Ok t, m')) by (vm_compute; reflexivity).
  split; [exact keyed_one|]. split; [exact Hrun|].
  exact (update_sets_priority _ _ _ _ _ _ _ keyed_one Hrun).
Defined.

(** ** Completion of the parent *)


(** ** The completion cascade *)

Lemma done_Completed x : status_of (done x) = Completed.
Proof. reflexivity. Qed.

Lemma marked_changed d d' j : marked d d' j → d' !! j ≠ d !! j.
Proof.
  intros (x & Hx & Hn & Hd) Heq. rewrite Hx, Hd in Heq.
  injection Heq as Heq. apply Hn. rewrite <- Heq. reflexivity.
Qed.

Lemma marked_stays d1 d2 d3 j :
  marked d1 d2 j → only_marks d2 d3 → marked d1 d3 j.
Proof.
  intros (x & Hx & Hn & Hd) Hm. exists x. repeat split; try assumption.
  destruct (Hm j) as [->|(x' & Hx' & Hn' & _)]; [exact Hd|].
  rewrite Hd in Hx'. injection Hx' as <-. exfalso. apply Hn'. reflexivity.
Qed.

Lemma marked_later d1 d2 d3 j :
  d2 !! j = d1 !! j → marked d2 d3 j → marked d1 d3 j.
Proof. intros Heq (x & Hx & Hn & Hd). exists x. rewrite <- Heq. auto. Qed.

Lemma only_marks_refl d : only_marks d d.
Proof. intros j. now left. Qed.

Lemma only_marks_trans d1 d2 d3 :
  only_marks d1 d2 → only_marks d2 d3 → only_marks d1 d3.
Proof.
  intros H12 H23 j. destruct (H12 j) as [Heq|Hm].
  - destruct (H23 j) as [->|Hm]; [now left | right].
    eapply marked_later; eauto.
  - right. eapply marked_stays; eauto.
Qed.

(** A record completed by two cascades in a row is completed by one of
    them. *)
Lemma marked_split d1 d2 d3 j :
  only_marks d1 d2 → marked d1 d3 j →
  marked d1 d2 j ∨ (d2 !! j = d1 !! j ∧ marked d2 d3 j).
Proof.
  intros H12 (x & Hx & Hn & Hd). destruct (H12 j) as [Heq|Hm]; [right | now left].
  split; [exact Heq|]. exists x. rewrite Heq. auto.
Qed.

Lemma open_split d1 d2 j :
  only_marks d1 d2 → open_in d1 j →
  marked d1 d2 j ∨ (d2 !! j = d1 !! j ∧ open_in d2 j).
Proof.
  intros H12 (x & Hx & Hn). destruct (H12 j) as [Heq|Hm]; [right | now left].
  split; [exact Heq|]. exists x. rewrite Heq. auto.
Qed.

Lemma cascade_ok_skip d c : ¬ open_in d c → cascade_ok d [c] d.
Proof.
  intros Hc. split.
  - apply only_marks_refl.
  - intros c' Hin Ho. apply list_elem_of_singleton in Hin as ->. contradiction.
  - intros j x y Hm. exfalso. eapply marked_changed; eauto.
Qed.

Lemma cascade_ok_nil d : cascade_ok d [] d.
Proof.
  split.
  - apply only_marks_refl.
  - intros c Hin. inversion Hin.
  - intros j x y Hm. exfalso. eapply marked_changed; eauto.
Qed.

(** Completing the open task [c] and then cascading over its children. *)
Lemma cascade_ok_process d c x d2 :
  d !! c = Some x → status_of x ≠ Completed →
  cascade_ok (<[c := done x]> d) (childTaskIds x) d2 →
  cascade_ok d [c] d2.
Proof.
  intros Hx Hn [Hon Hro Hcl].
  assert (Hmc : marked d (<[c := done x]> d) c).
  { exists x. rewrite lookup_insert_eq. auto. }
  assert (H0 : only_marks d (<[c := done x]> d)).
  { intros j. destruct (decide (c = j)) as [<-|Hne]; [now right | left].
    now rewrite lookup_insert_ne. }
  split.
  - eapply only_marks_trans; eauto.
  - intros c' Hin _. apply list_elem_of_singleton in Hin as ->.
    eapply marked_stays; eauto.
  - intros j xj y Hm Hj Hy Ho.
    destruct (decide (y = c)) as [->|Hyc]; [eapply marked_stays; eauto|].
    assert (Hy1 : <[c := done x]> d !! y = d !! y) by now rewrite lookup_insert_ne.
    assert (Ho1 : open_in (<[c := done x]> d) y).
    { destruct Ho as (xy & Hxy & Hny). exists xy. rewrite Hy1. auto. }
    eapply marked_later; [exact Hy1|].
    destruct (marked_split _ _ _ _ H0 Hm) as [Hm1|[Heq Hm2]].
    + assert (j = c) as ->.
      { destruct (decide (j = c)) as [|Hne]; [assumption|].
        exfalso. apply (marked_changed _ _ _ Hm1). now rewrite lookup_insert_ne. }
      assert (xj = x) as -> by congruence.
      apply Hro; assumption.
    + eapply Hcl; [exact Hm2 | rewrite Heq; exact Hj | exact Hy | exact Ho1].
Qed.

Lemma cascade_ok_seq d cs1 d2 cs2 d3 :
  cascade_ok d cs1 d2 → cascade_ok d2 cs2 d3 → cascade_ok d (cs1 ++ cs2) d3.
Proof.
  intros [Hon1 Hro1 Hcl1] [Hon2 Hro2 Hcl2]. split.
  - eapply only_marks_trans; eauto.
  - intros c Hin Ho. apply elem_of_app in Hin as [Hin|Hin].
    + eapply marked_stays; eauto.
    + destruct (open_split _ _ _ Hon1 Ho) as [Hm|[Heq Ho2]].
      * eapply marked_stays; eauto.
      * eapply marked_later; eauto.
  - intros j x y Hm Hj Hy Ho.
    destruct (open_split _ _ _ Hon1 Ho) as [Hmy|[Heqy Ho2]];
      [eapply marked_stays; eauto|].
    destruct (marked_split _ _ _ _ Hon1 Hm) as [Hm1|[Heq Hm2]].
    + eapply marked_stays; eauto.
    + eapply marked_later; [exact Heqy|].
      eapply Hcl2; [exact Hm2 | rewrite Heq; exact Hj | exact Hy | exact Ho2].
Qed.

Lemma keyed_completeAllDescendants fuel t :
  preserves (λ m, keyed (db m)) (completeAllDescendants fuel t).
Proof. apply preserves_completeAllDescendants. simpl; auto using keyed_insert. Qed.

(** [completeAllDescendants] is such a cascade over the children of its
    argument. *)
Lemma completeAllDescendants_ok fuel : ∀ t m m',
  keyed (db m) →
  completeAllDescendants fuel t m = Some (Ok tt, m') →
  cascade_ok (db m) (childTaskIds t) (db m').
Proof.
  induction fuel as [|fuel IH]; intros t m m' Hk H; [discriminate|].
  cbn [completeAllDescendants] in H.
  revert m Hk H. induction (childTaskIds t) as [|c cs IHcs]; intros m Hk H.
  - injection H as <-. apply cascade_ok_nil.
  - cbn [forM_] in H. apply bind_Ok in H as ([] & m1 & Hbody & Hrest).
    change (c :: cs) with ([c] ++ cs).
    assert (Hc : cascade_ok (db m) [c] (db m1) ∧ keyed (db m1)).
    { apply bind_Ok in Hbody as (child & m0 & Hget & Hbody).
      injection Hget as <- <-.
      destruct (db m !! c) as [x|] eqn:Hx.
      2:{ injection Hbody as <-. split; [|exact Hk]. apply cascade_ok_skip.
          intros (x & Hx' & _). congruence. }
      case_bool_decide as Hn.
      2:{ injection Hbody as <-. split; [|exact Hk]. apply cascade_ok_skip.
          intros (x' & Hx' & Hn'). congruence. }
      apply bind_Ok in Hbody as ([] & ms & Hsave & Hrec).
      injection Hsave as <-.
      assert (Hid : id x = c) by (apply Hk; exact Hx).
      assert (Hks : keyed (db (set_db (<[id (done x) := done x]> (db m)) m))).
      { simpl. apply (keyed_insert _ (done x)), Hk. }
      split.
      - eapply cascade_ok_process; [exact Hx | exact Hn |].
        specialize (IH _ _ _ Hks Hrec). simpl in IH. rewrite Hid in IH. exact IH.
      - eapply keyed_completeAllDescendants; eauto. }
    destruct Hc as [Hc Hk1].
    eapply cascade_ok_seq; [exact Hc | apply IHcs; assumption].
Qed.

Lemma cascade_reaches_marked d cs d' g :
  cascade_ok d cs d' → cascade_reaches d cs g → marked d d' g.
Proof.
  intros [Hon Hro Hcl] Hr.
  induction Hr as [cs c Hin Ho|cs c x g Hin Hx Hn Hr IH]; [auto|].
  apply IH. intros y Hy Ho.
  eapply Hcl; [apply Hro; [exact Hin | exists x; auto] | exact Hx | exact Hy | exact Ho].
Qed.

(** The reparenting block changes child lists only: every status is as
    before. *)
Lemma with_children_status d k x cs j :
  keyed d → d !! k = Some x →
  status_of <$> (<[id (with_children cs x) := with_children cs x]> d !! j)
  = status_of <$> (d !! j).
Proof.
  intros Hk Hx. simpl. rewrite (Hk _ _ Hx), lookup_insert.
  case_decide as Hj; [subst; rewrite Hx|]; reflexivity.
Qed.

Lemma detachFromParent_statuses i t m r m1 j :
  keyed (db m) →
  detachFromParent i t m = Some (r, m1) →
  keyed (db m1) ∧ status_of <$> (db m1 !! j) = status_of <$> (db m !! j).
Proof.
  intros Hk Hc. unfold detachFromParent in Hc.
  destruct (parentTaskId t) as [old|]; [|injection Hc as _ <-; auto].
  unfold bind, getTaskById in Hc. destruct (db m !! old) as [op|] eqn:Hop.
  - injection Hc as _ <-.
    split; [apply (keyed_insert _ (with_children _ op)), Hk|].
    simpl. eapply with_children_status; eauto.
  - injection Hc as _ <-. auto.
Qed.

Lemma reparent_statuses fuel i t np m r m1 :
  keyed (db m) →
  reparent fuel i t np m = Some (r, m1) →
  ∀ j, status_of <$> (db m1 !! j) = status_of <$> (db m !! j).
Proof.
  intros Hk H j. unfold reparent in H.
  inv_bind H.
  - destruct (detachFromParent_statuses _ _ _ _ _ j Hk Hc) as [Hka Hsa].
    rewrite <- Hsa.
    destruct np as [np|]; [|injection H as _ <-; reflexivity].
    unfold bind at 1, getTaskById in H.
    destruct (db m0 !! np) as [newParent|] eqn:Hnp;
      [|injection H as _ <-; reflexivity].
    unfold bind at 1, read in H.
    destruct (getTaskDepth fuel (db m0) newParent); [|discriminate].
    unfold bind at 1 in H.
    destruct (getMaxChildDepth fuel (db m0) t); [|discriminate].
    case_bool_decide; [injection H as _ <-; reflexivity|].
    unfold bind at 1 in H.
    destruct (isDescendant fuel (db m0) np (id t)) as [[]|];
      [injection H as _ <-; reflexivity | | discriminate].
    destruct (negb (includes (childTaskIds newParent) i)); simpl in H;
      injection H as _ <-; [|reflexivity].
    eapply with_children_status; eauto.
  - destruct (detachFromParent_statuses _ _ _ _ _ j Hk Hc) as [_ Hsa]. exact Hsa.
Qed.

(** What the cascade does reach.  After a returning [updateTask i u] whose
    resulting status is Completed, the task is stored with its priority
    absent, and every
    task reached from it through children that were not Completed when the
    cascade started (the reached task included) is stored Completed with
    its priority absent.  The cascade starts on the store [m1] left by the
    reparenting block, which is the store before the call when [u] names
    no new parent and has the same statuses in any case.  A child found
    Completed already is not entered, whatever its priority and whatever
    the statuses below it. *)
Lemma completion_cascades fuel now i u m t m' :
  keyed (db m) →
  updateTask fuel now i u m = Some (Ok t, m') →
  status_of t = Completed →
  priority_of t = None ∧ db m' !! i = Some t ∧
  ∃ t0 m1,
    db m !! i = Some t0 ∧ childTaskIds t = childTaskIds t0 ∧
    reparentIfChanged fuel i u t0 m = Some (Ok tt, m1) ∧
    ((∀ np, u_parentTaskId u = Some np → np = parentTaskId t0) → m1 = m) ∧
    (∀ j, status_of <$> (db m1 !! j) = status_of <$> (db m !! j)) ∧
    ∀ g, cascade_reaches (db m1) (childTaskIds t) g →
         ∃ x, db m' !! g = Some x ∧ status_of x = Completed ∧ priority_of x = None.
Proof.
  intros Hk H Hst.
  destruct (updateTask_stored _ _ _ _ _ _ _ Hk H) as [Hid Hstored].
  apply updateTask_Ok in H as (t0 & m1 & m2 & Hl & Ht & Hre & Hca & Hch).
  assert (Hprio : priority_of t = None).
  { rewrite Ht, updated_priority, <- Ht, bool_decide_eq_true_2; auto. }
  split; [exact Hprio|]. split; [exact Hstored|].
  exists t0, m1. split; [exact Hl|].
  split; [rewrite Ht; apply updated_children|].
  split; [exact Hre|].
  assert (Hk1 : keyed (db m1)).
  { eapply (preserves_reparentIfChanged (λ m, keyed (db m))); [|exact Hre|exact Hk].
    simpl; auto using keyed_insert. }
  split; [|split].
  - intros Hsame. unfold reparentIfChanged in Hre.
    destruct (u_parentTaskId u) as [np|]; [|injection Hre as <-; reflexivity].
    rewrite (Hsame np eq_refl), bool_decide_eq_false_2 in Hre by auto.
    injection Hre as <-; reflexivity.
  - intros j. unfold reparentIfChanged in Hre.
    destruct (u_parentTaskId u) as [np|]; [|injection Hre as <-; reflexivity].
    destruct (bool_decide (np ≠ parentTaskId t0));
      [|injection Hre as <-; reflexivity].
    eapply reparent_statuses; eauto.
  - intros g Hg.
    rewrite bool_decide_eq_true_2 in Hca by exact Hst. simpl in Hca.
    pose proof (completeAllDescendants_ok _ _ _ _ Hk1 Hca) as Hok.
    destruct (cascade_reaches_marked _ _ _ _ Hok Hg) as (x & Hx & Hn & Hd).
    destruct (decide (g = i)) as [->|Hgi]; [eauto|].
    exists (done x). split; [|split; reflexivity].
    apply checkAndCompleteParent_inv in Hch as [_ [(p & Hauto & ->)|[_ ->]]].
    + destruct Hauto as (_ & pid & _ & _ & Hlp & Hnc & _).
      assert (Hk3 : keyed (<[id t := t]> (db m2))).
      { apply keyed_insert. eapply keyed_completeAllDescendants; eauto. }
      simpl in Hlp |- *. rewrite (Hk3 _ _ Hlp), lookup_insert.
      case_decide as Hpg.
      * subst pid. rewrite lookup_insert_ne, Hd in Hlp by congruence.
        injection Hlp as <-. contradiction Hnc. reflexivity.
      * rewrite lookup_insert_ne by congruence. exact Hd.
    + simpl. rewrite lookup_insert_ne by congruence. exact Hd.
Qed.

Lemma completion_cascades_witness :
  let u := Scenario.setStatus Completed in
  let t := with_priority None (with_status Completed Scenario.task_a3) in
  let m' := Scenario.after (updateTask Scenario.fuel Scenario.now 1 u) Scenario.three in
  keyed (db Scenario.three) ∧
  updateTask Scenario.fuel Scenario.now 1 u Scenario.three = Some (Ok t, m') ∧
  status_of t = Completed ∧
  priority_of t = None ∧ db m' !! 1 = Some t ∧
  ∃ t0 m1,
    db Scenario.three !! 1 = Some t0 ∧ childTaskIds t = childTaskIds t0 ∧
    reparentIfChanged Scenario.fuel 1 u t0 Scenario.three = Some (Ok tt, m1) ∧
    ((∀ np, u_parentTaskId u = Some np → np = parentTaskId t0) → m1 = Scenario.three) ∧
    (∀ j, status_of <$> (db m1 !! j) = status_of <$> (db Scenario.three !! j)) ∧
    ∀ g, cascade_reaches (db m1) (childTaskIds t) g →
         ∃ x, db m' !! g = Some x ∧ status_of x = Completed ∧ priority_of x = None.
Proof.
  intros u t m'.
  assert (Hrun : updateTask Scenario.fuel Scenario.now 1 u Scenario.three
                 = Some (Ok t, m')) by (vm_compute; reflexivity).
  split; [exact keyed_three|]. split; [exact Hrun|]. split; [reflexivity|].
  exact (completion_cascades _ _ _ _ _ _ _ keyed_three Hrun eq_refl).
Defined.

(** ** History: a failed undo or redo *)

Lemma detachFromParent_returns i t m :
  ∃ m', detachFromParent i t m = Some (Ok tt, m').
Proof.
  unfold detachFromParent, bind, getTaskById, saveTask, ret.
  repeat case_match; eauto.
Qed.

Lemma attachToParent_returns i t m :
  ∃ m', attachToParent i t m = Some (Ok tt, m').
Proof.
  unfold attachToParent, bind, getTaskById, saveTask, when, ret.
  repeat case_match; eauto.
Qed.

(** [restoreTask] throws before it writes anything. *)
Lemma restoreTask_Throw now i m e m' :
  restoreTask now i m = Some (Throw e, m') → m' = m.
Proof.
  unfold restoreTask. intros H.
  unfold bind at 1, getTaskById in H.
  destruct (db m !! i) as [t|]; [|injection H as _ <-; reflexivity].
  destruct (deleted t); simpl in H; [|injection H as _ <-; reflexivity].
  exfalso. revert H. unfold bind at 1, saveTask. unfold bind at 1.
  match goal with |- context [attachToParent i ?t' ?m1] =>
    destruct (attachToParent_returns i t' m1) as [m2 Hat]
  end.
  rewrite Hat. discriminate.
Qed.

Lemma same_history_undoAction now a u r :
  preserves (same_history u r) (undoAction now a).
Proof. apply preserves_undoAction. intros m t H; exact H. Qed.

Lemma same_history_redoAction_Throw now a m e m' :
  redoAction now a m = Some (Throw e, m') →
  same_history (undoStack m) (redoStack m) m'.
Proof.
  assert (Hs : ∀ m t, same_history (undoStack m) (redoStack m) m →
     same_history (undoStack m) (redoStack m) (set_db (<[id t := t]> (db m)) m))
    by (intros ? ? H; exact H).
  destruct a as [i ts|i p n ts|i ids ts|i ts]; simpl; intros H.
  - apply bind_Throw in H as [H|(t & m1 & _ & [=])].
    apply restoreTask_Throw in H as ->. split; reflexivity.
  - revert H. generalize (Throw (A:=unit) e). intros r H.
    eapply (preserves_bind (same_history (undoStack m) (redoStack m)));
      [| | exact H | split; reflexivity].
    + apply preserves_updateTaskWithoutHistory. intros ? ? H'; exact H'.
    + intros ?. apply preserves_ret.
  - revert H. generalize (Throw (A:=unit) e). intros r H.
    eapply (preserves_forM_ (same_history (undoStack m) (redoStack m)));
      [| exact H | split; reflexivity].
    intros x. apply preserves_bind.
    + apply preserves_deleteTaskWithoutHistory. intros ? ? H'; exact H'.
    + intros ?. apply preserves_ret.
  - apply bind_Throw in H as [H|(t & m1 & _ & [=])].
    apply restoreTask_Throw in H as ->. split; reflexivity.
Qed.

(** C10. When [undo] or [redo] throws, both history stacks are afterwards
    what they were before the call: if the stack was empty nothing is
    touched, and if replaying the popped action throws, the [catch] block
    pushes the action back onto the stack it was popped from, where it is
    again the next action to undo or redo. *)
Theorem failed_undo_redo_keeps_history now m e m' :
  undo now m = Some (Throw e, m') ∨ redo now m = Some (Throw e, m') →
  undoStack m' = undoStack m ∧ redoStack m' = redoStack m.
Proof.
  intros [H|H].
  - unfold undo in H. unfold bind at 1, getUndoStack in H.
    destruct (last (undoStack m)) as [a|] eqn:Hl.
    2:{ injection H as _ <-. split; reflexivity. }
    unfold bind at 1, putUndoStack, try_catch in H.
    unfold bind at 1 in H.
    destruct (undoAction now a _) as [[[[]|e'] m2]|] eqn:Hu; [| |discriminate].
    + discriminate H.
    + pose proof (same_history_undoAction now a _ _ _ _ _ Hu
                    (conj eq_refl eq_refl)) as [Hu1 Hu2].
      simpl in Hu1, Hu2.
      cbv [bind pushUndo getUndoStack putUndoStack throw] in H.
      injection H as _ <-. simpl. rewrite Hu1, Hu2.
      split; [apply last_removelast, Hl | reflexivity].
  - unfold redo in H. unfold bind at 1, getRedoStack in H.
    destruct (last (redoStack m)) as [a|] eqn:Hl.
    2:{ injection H as _ <-. split; reflexivity. }
    unfold bind at 1, putRedoStack, try_catch in H.
    unfold bind at 1 in H.
    destruct (redoAction now a _) as [[[[]|e'] m2]|] eqn:Hu; [| |discriminate].
    + discriminate H.
    + apply same_history_redoAction_Throw in Hu as [Hu1 Hu2].
      cbv [bind pushRedo getRedoStack putRedoStack throw] in H.
      injection H as _ <-. simpl in *. rewrite Hu1, Hu2.
      split; [reflexivity | apply last_removelast, Hl].
Qed.

Lemma failed_undo_redo_keeps_history_witness :
  let m' := Scenario.after (undo Scenario.now) Scenario.purged in
  (undo Scenario.now Scenario.purged = Some (Throw (TaskNotFound 1), m') ∨
   redo Scenario.now Scenario.purged = Some (Throw (TaskNotFound 1), m')) ∧
  undoStack m' = undoStack Scenario.purged ∧
  redoStack m' = redoStack Scenario.purged.
Proof.
  intros m'.
  assert (H : undo Scenario.now Scenario.purged = Some (Throw (TaskNotFound 1), m')
              ∨ redo Scenario.now Scenario.purged = Some (Throw (TaskNotFound 1), m'))
    by (left; vm_compute; reflexivity).
  split; [exact H|].
  exact (failed_undo_redo_keeps_history _ _ _ _ H).
Defined.

(** ** History: the cap of twenty actions *)

Lemma capped_split l a :
  (length l ≤ maxHistorySize)%nat →
  ∃ dropped, l ++ [a] = dropped ++ capped l a ∧
             length (capped l a) = Nat.min (length l + 1) maxHistorySize.
Proof.
  intros Hl. unfold capped.
  destruct (maxHistorySize <? length (l ++ [a]))%nat eqn:Hc;
    unfold maxHistorySize in *.
  - apply Nat.ltb_lt in Hc. rewrite length_app in Hc. simpl in Hc.
    destruct l as [|x l]; simpl in *.
    + lia.
    + exists [x]. split; [reflexivity|]. rewrite length_app. simpl. lia.
  - apply Nat.ltb_ge in Hc. rewrite length_app in Hc. simpl in Hc.
    exists []. split; [reflexivity|]. rewrite length_app. simpl. lia.
Qed.

Lemma last_capped l a : last (capped l a) = Some a.
Proof.
  unfold capped.
  destruct (maxHistorySize <? length (l ++ [a]))%nat eqn:Hc.
  - apply Nat.ltb_lt in Hc. rewrite length_app in Hc. simpl in Hc.
    destruct l as [|x l]; simpl in *.
    + unfold maxHistorySize in Hc. lia.
    + apply last_snoc.
  - apply last_snoc.
Qed.

(** The undo stack never grows beyond its cap. *)
Lemma capped_length l a :
  (length l ≤ maxHistorySize)%nat → (length (capped l a) ≤ maxHistorySize)%nat.
Proof.
  intros H. destruct (capped_split l a H) as (_ & _ & ->). lia.
Qed.

(** What a returning [updateTask] does to the history and to the keys. *)
Lemma updateTask_history fuel now i u m t m' :
  updateTask fuel now i u m = Some (Ok t, m') →
  ∃ p n, undoStack m' = capped (undoStack m) (AModify (id t) p n now) ∧
         redoStack m' = [] ∧ is_Some (db m' !! id t).
Proof.
  intros H.
  apply updateTask_Ok in H as (t0 & m1 & m2 & Hl & Ht & Hre & Hca & Hch).
  assert (Hh : same_history (undoStack m) (redoStack m) m2).
  { eapply (preserves_cascade (same_history _ _)); [|exact Hca|].
    - intros ? ? H'; exact H'.
    - eapply (preserves_reparentIfChanged (same_history _ _)); [|exact Hre|].
      + intros ? ? H'; exact H'.
      + split; reflexivity. }
  destruct Hh as [Hu _].
  exists (fields_of t0), (fields_of t).
  destruct (preserves_checkAndCompleteParent (same_history _ _)
              (λ _ _ H', H') t _ _ _ Hch (conj eq_refl eq_refl)) as [-> ->].
  simpl. rewrite Hu.
  split; [reflexivity|]. split; [reflexivity|].
  eapply (preserves_checkAndCompleteParent (λ m, is_Some (db m !! id t)));
    [| exact Hch |].
  - intros ? ? H'. simpl. apply exists_insert, H'.
  - simpl. rewrite lookup_insert_eq. eauto.
Qed.

Lemma exists_updateTask fuel now i u m r m' j :
  updateTask fuel now i u m = Some (r, m') →
  is_Some (db m !! j) → is_Some (db m' !! j).
Proof.
  apply (preserves_updateTask (λ m, is_Some (db m !! j))); simpl; auto.
  intros ? ? H. apply exists_insert, H.
Qed.

Lemma modifies_existing_updateTask fuel now i u m r m' a :
  updateTask fuel now i u m = Some (r, m') →
  modifies_existing m a → modifies_existing m' a.
Proof.
  intros H (j & p & n & ts & -> & Hj). exists j, p, n, ts.
  split; [reflexivity|]. eapply exists_updateTask; eauto.
Qed.

Lemma modifications_keep m acts m' a :
  modifications m acts m' → modifies_existing m a → modifies_existing m' a.
Proof.
  induction 1 as [|m fuel now i u t m1 a' acts m2 Hup _ _ IH]; [auto|].
  intros Ha. apply IH. eapply modifies_existing_updateTask; eauto.
Qed.

(** The actions of a run are modifications of tasks that are in the store at
    its end, and the undo stack is the end of the old stack followed by
    them. *)
Lemma modifications_stack m acts m' :
  modifications m acts m' →
  (length (undoStack m) ≤ maxHistorySize)%nat →
  Forall (modifies_existing m') acts ∧
  (acts ≠ [] → redoStack m' = []) ∧
  ∃ dropped, undoStack m ++ acts = dropped ++ undoStack m' ∧
             length (undoStack m') =
               Nat.min (length (undoStack m) + length acts) maxHistorySize.
Proof.
  induction 1 as [m|m fuel now i u t m1 a acts m2 Hup Hlast Hrest IH]; intros Hlen.
  - split; [constructor|]. split; [congruence|].
    exists []. rewrite app_nil_r. simpl. split; [reflexivity | lia].
  - destruct (updateTask_history _ _ _ _ _ _ _ Hup) as (p & n & Hu & Hr & Hex).
    assert (a = AModify (id t) p n now) as ->.
    { rewrite Hu, last_capped in Hlast. congruence. }
    destruct (capped_split (undoStack m) (AModify (id t) p n now) Hlen)
      as (d1 & Hsplit & Hcl).
    rewrite <- Hu in Hsplit, Hcl.
    destruct IH as (Hall & Hredo & d2 & Happ & Hl2); [lia|].
    split; [|split].
    + constructor; [|exact Hall].
      eapply modifications_keep; [exact Hrest|].
      exists (id t), p, n, now. split; [reflexivity | exact Hex].
    + intros _. destruct acts as [|a' acts'].
      * inversion Hrest; subst. exact Hr.
      * apply Hredo. discriminate.
    + exists (d1 ++ d2). split.
      * rewrite <- app_assoc, <- Happ, app_assoc, <- Hsplit, <- app_assoc.
        reflexivity.
      * rewrite Hl2. simpl. lia.
Qed.

Lemma updateTaskWithoutHistory_returns i u m :
  is_Some (db m !! i) →
  ∃ t m', updateTaskWithoutHistory i u m = Some (Ok t, m').
Proof.
  intros [t0 Hl].
  unfold updateTaskWithoutHistory, detachFromParent, bind, getTaskById,
    saveTask, when, ret.
  rewrite Hl. repeat case_match; simplify_eq; eauto.
Qed.

(** Undoing a modification of a task that is in the store. *)
Lemma undo_modification now m a :
  last (undoStack m) = Some a → modifies_existing m a →
  ∃ m', undo now m = Some (Ok a, m') ∧
        undoStack m' = removelast (undoStack m) ∧
        redoStack m' = redoStack m ++ [a] ∧
        ∀ b, modifies_existing m b → modifies_existing m' b.
Proof.
  intros Hlast (i & p & n & ts & -> & Hex).
  set (m1 := set_undoStack (removelast (undoStack m)) m).
  destruct (updateTaskWithoutHistory_returns i (updates_of p) m1 Hex) as (t & m2 & Hup).
  assert (Hh : same_history (removelast (undoStack m)) (redoStack m) m2).
  { eapply (preserves_updateTaskWithoutHistory (same_history _ _)); [|exact Hup|].
    - intros ? ? H'; exact H'.
    - split; reflexivity. }
  destruct Hh as [Hu Hr].
  exists (set_redoStack (redoStack m2 ++ [AModify i p n ts]) m2).
  split; [|split; [|split]].
  - unfold undo. unfold bind at 1, getUndoStack. rewrite Hlast.
    unfold bind at 1, putUndoStack, try_catch. fold m1.
    unfold undoAction. unfold bind at 1. unfold bind at 1. rewrite Hup.
    reflexivity.
  - simpl. exact Hu.
  - simpl. rewrite Hr. reflexivity.
  - intros b (j & p' & n' & ts' & -> & Hj). exists j, p', n', ts'.
    split; [reflexivity|]. simpl.
    eapply (preserves_updateTaskWithoutHistory (λ m, is_Some (db m !! j)));
      [| exact Hup | exact Hj].
    intros ? ? H'. simpl. apply exists_insert, H'.
Qed.

Lemma undoN_modifications now l : ∀ m,
  undoStack m = l → Forall (modifies_existing m) l →
  ∃ m', undoN (length l) now m = Some (Ok (rev l), m') ∧
        undoStack m' = [] ∧ redoStack m' = redoStack m ++ rev l.
Proof.
  induction l as [|a l IH] using rev_ind; intros m Hst Hall.
  - exists m. simpl. rewrite app_nil_r. auto.
  - apply Forall_app in Hall as [Hl Ha]. apply Forall_inv in Ha.
    destruct (undo_modification now m a) as (m1 & Hun & Hu1 & Hr1 & Hkeep);
      [rewrite Hst; apply last_snoc | exact Ha |].
    rewrite Hst, removelast_last in Hu1.
    destruct (IH m1 Hu1) as (m2 & HN & Hu2 & Hr2).
    { eapply Forall_impl; [exact Hl | exact Hkeep]. }
    exists m2. rewrite length_app, Nat.add_comm. simpl.
    unfold bind at 1. rewrite Hun. unfold bind at 1. rewrite HN.
    rewrite rev_unit. split; [reflexivity|]. split; [exact Hu2|].
    rewrite Hr2, Hr1, <- app_assoc. reflexivity.
Qed.

(** [recordAction] keeps an undo stack that is within the cap within it,
    and on a full stack it shifts the earliest action out to push the new
    one.  After a run of twenty-one returning [updateTask]
    calls, started with at most twenty actions on the stack, the stack
    consists of the last twenty of their actions: the first one has been
    shifted out, and the redo stack is empty.  Twenty calls of [undo] then
    return, handing back these twenty actions from the latest to the
    second; the next [undo] throws "Nothing to undo" and leaves the manager,
    both stacks included, as it is, so the first action is never handed
    back.  Likewise [redo] on an empty redo stack throws "Nothing to redo"
    and leaves the manager as it is. *)
Lemma history_holds_twenty now m0 first rest m21 :
  (length (undoStack m0) ≤ maxHistorySize)%nat →
  modifications m0 (first :: rest) m21 →
  length (first :: rest) = 21%nat →
  (∀ m a, (length (undoStack m) ≤ maxHistorySize)%nat →
          ∃ m', recordAction a m = Some (Ok tt, m') ∧
                (length (undoStack m') ≤ maxHistorySize)%nat ∧
                (length (undoStack m) = maxHistorySize →
                 undoStack m' = tail (undoStack m) ++ [a])) ∧
  undoStack m21 = rest ∧ length (undoStack m21) = 20%nat ∧ redoStack m21 = [] ∧
  (∃ m41,
     undoN 20 now m21 = Some (Ok (rev rest), m41) ∧
     undoStack m41 = [] ∧ redoStack m41 = rev rest ∧
     undo now m41 = Some (Throw NothingToUndo, m41)) ∧
  (∀ m, redoStack m = [] → redo now m = Some (Throw NothingToRedo, m)) ∧
  kind_of NothingToUndo = StateError ∧
  error_message NothingToUndo = "Nothing to undo" ∧
  kind_of NothingToRedo = StateError ∧
  error_message NothingToRedo = "Nothing to redo".
Proof.
  intros Hlen Hrun Hn. split.
  { intros m a Hm. eexists. split; [reflexivity|]. simpl.
    fold (capped (undoStack m) a). split; [apply capped_length, Hm|].
    intros Hfull. unfold capped. rewrite length_app, Hfull.
    destruct (undoStack m); [discriminate Hfull | reflexivity]. }
  destruct (modifications_stack _ _ _ Hrun Hlen) as (Hall & Hredo & d & Happ & Hl).
  assert (Hl20 : length (undoStack m21) = 20%nat).
  { rewrite Hl, Hn. unfold maxHistorySize. lia. }
  assert (Hrest : undoStack m21 = rest).
  { replace (undoStack m0 ++ first :: rest)
      with ((undoStack m0 ++ [first]) ++ rest) in Happ
      by (rewrite <- app_assoc; reflexivity).
    apply app_inj_2 in Happ as [_ Heq]; [congruence|].
    simpl in Hn. lia. }
  split; [exact Hrest|]. split; [exact Hl20|].
  assert (Hr0 : redoStack m21 = []) by (apply Hredo; discriminate).
  split; [exact Hr0|]. split; [|split].
  - apply Forall_inv_tail in Hall.
    destruct (undoN_modifications now rest m21 Hrest Hall) as (m41 & HN & Hu & Hr).
    replace (length rest) with 20%nat in HN by congruence.
    exists m41. split; [exact HN|]. split; [exact Hu|].
    split; [rewrite Hr, Hr0; reflexivity|].
    unfold undo. unfold bind at 1, getUndoStack. rewrite Hu. reflexivity.
  - intros m Hm. unfold redo. unfold bind at 1, getRedoStack. rewrite Hm.
    reflexivity.
  - repeat split; reflexivity.
Qed.

Lemma toggle_modifications n : ∀ m acts m',
  Scenario.toggle n m = Some (Ok acts, m') → modifications m acts m'.
Proof.
  induction n as [|n IH]; intros m acts m' H.
  - injection H as <- <-. constructor.
  - cbn [Scenario.toggle] in H.
    apply bind_Ok in H as (t & m1 & Hup & H).
    apply bind_Ok in H as (stack & m1' & Hst & H).
    injection Hst as <- <-.
    apply bind_Ok in H as (acts' & m2 & Hrest & H).
    injection H as <- <-.
    destruct (updateTask_history _ _ _ _ _ _ _ Hup) as (p & q & Hu & _).
    rewrite Hu, last_capped. simpl.
    eapply mods_cons; [exact Hup | rewrite Hu; apply last_capped | eauto].
Qed.

Lemma history_holds_twenty_witness :
  let first := default (ACreate 0 "") (head Scenario.toggled) in
  let rest := tail Scenario.toggled in
  let m21 := Scenario.after (Scenario.toggle 21) Scenario.one in
  (length (undoStack Scenario.one) ≤ maxHistorySize)%nat ∧
  modifications Scenario.one (first :: rest) m21 ∧
  length (first :: rest) = 21%nat ∧
  (∀ m a, (length (undoStack m) ≤ maxHistorySize)%nat →
          ∃ m', recordAction a m = Some (Ok tt, m') ∧
                (length (undoStack m') ≤ maxHistorySize)%nat ∧
                (length (undoStack m) = maxHistorySize →
                 undoStack m' = tail (undoStack m) ++ [a])) ∧
  undoStack m21 = rest ∧ length (undoStack m21) = 20%nat ∧ redoStack m21 = [] ∧
  (∃ m41,
     undoN 20 Scenario.now m21 = Some (Ok (rev rest), m41) ∧
     undoStack m41 = [] ∧ redoStack m41 = rev rest ∧
     undo Scenario.now m41 = Some (Throw NothingToUndo, m41)) ∧
  (∀ m, redoStack m = [] → redo Scenario.now m = Some (Throw NothingToRedo, m)) ∧
  kind_of NothingToUndo = StateError ∧
  error_message NothingToUndo = "Nothing to undo" ∧
  kind_of NothingToRedo = StateError ∧
  error_message NothingToRedo = "Nothing to redo".
Proof.
  intros first rest m21.
  assert (H0 : (length (undoStack Scenario.one) ≤ maxHistorySize)%nat)
    by (vm_compute; lia).
  assert (H1 : modifications Scenario.one (first :: rest) m21).
  { apply (toggle_modifications 21). vm_compute. reflexivity. }
  assert (H2 : length (first :: rest) = 21%nat) by (vm_compute; reflexivity).
  split; [exact H0|]. split; [exact H1|]. split; [exact H2|].
  exact (history_holds_twenty Scenario.now _ _ _ _ H0 H1 H2).
Defined.
(** * Properties *)

(** ** Reparenting and cycles *)

(** C3. A task can be made its own parent: on the store holding the single
    root task 1, [updateTask 1 {parentTaskId: 1}] passes the depth check
    (0 + 1 + 0) and the descendant check (task 1 has no children) and
    returns; afterwards task 1 is stored with [parentTaskId = 1], so it is
    an ancestor of itself. *)
Theorem update_accepts_self_parent :
  ∃ t m',
    updateTask Scenario.fuel Scenario.now 1 (Scenario.setParent (Some 1))
      Scenario.one = Some (Ok t, m')
    ∧ db m' !! 1 = Some t
    ∧ parentTaskId t = Some 1
    ∧ ancestor (db m') 1 1.
Proof.
  eexists _, _. split; [vm_compute; reflexivity|].
  split; [vm_compute; reflexivity|].
  split; [reflexivity|].
  apply tc_once. eexists. split; [vm_compute; reflexivity | reflexivity].
Qed.

(** The store [Scenario.one] is what one [createTask] leaves of
    the empty store: one root, no parent link at all. *)
Lemma one_is_a_root :
  createTask Scenario.fuel Scenario.now (Scenario.named "a" None) empty_manager
  = Some (Ok Scenario.task_a, Scenario.one).
Proof. vm_compute. reflexivity. Qed.

(** The loop of [getTaskDepth] does not end on a task that is its own
    parent. *)
Lemma getTaskDepthLoop_self d t p :
  parentTaskId t = Some p → d !! p = Some t →
  ∀ n z, getTaskDepthLoop n d z t = None.
Proof.
  intros Hp Hd n. induction n as [|n IH]; intros z; simpl; rewrite Hp.
  - reflexivity.
  - rewrite Hd. apply IH.
Qed.

(** C5. Two successful calls from the empty store, a [createTask] and the
    [updateTask] of C3, leave a task whose parent chain never ends: three
    links (and any number) can be climbed from task 1, and the loop of
    [getTaskDepth] does not end on it whatever fuel it is given. *)
Theorem depth_unbounded_after_self_parent :
  ∃ t1 t m,
    (let* t1 := createTask Scenario.fuel Scenario.now (Scenario.named "a" None) in
     let* t := updateTask Scenario.fuel Scenario.now 1 (Scenario.setParent (Some 1)) in
     ret (t1, t)) empty_manager = Some (Ok (t1, t), m)
    ∧ db m !! 1 = Some t
    ∧ parentTaskId t = Some 1
    ∧ climbs (db m) 3 1
    ∧ ∀ n, getTaskDepth n (db m) t = None.
Proof.
  eexists _, _, _. split; [vm_compute; reflexivity|].
  match goal with |- ?dd !! 1 = Some ?t ∧ _ =>
    assert (Hd : dd !! 1 = Some t) by (vm_compute; reflexivity);
    revert Hd; generalize dd; intros d Hd
  end.
  split; [exact Hd|]. split; [reflexivity|].
  assert (Hp : parent_of d 1 1) by (eexists; split; [exact Hd | reflexivity]).
  split.
  - do 3 (eapply climbs_S; [exact Hp|]). apply climbs_O.
  - intros n. eapply getTaskDepthLoop_self; [|exact Hd]. reflexivity.
Qed.

(** C4. A reparenting that fails has already left the old parent.  On the
    store with root 1 and its child 2, [updateTask 2 {parentTaskId: 99}]
    throws for the missing parent 99, and on the chain 1 ← 2 ← 3,
    [updateTask 2 {parentTaskId: 3}] throws for the depth; in both stores
    task 1 listed task 2 before the call and lists nothing after it, while
    task 2 still names task 1 as its parent. *)
Theorem failed_reparent_detaches :
  (∃ m' p c,
     updateTask Scenario.fuel Scenario.now 2 (Scenario.setParent (Some 99))
       Scenario.two = Some (Throw (ParentNotFound 99), m')
     ∧ childTaskIds <$> db Scenario.two !! 1 = Some [2]
     ∧ db m' !! 1 = Some p ∧ childTaskIds p = []
     ∧ db m' !! 2 = Some c ∧ parentTaskId c = Some 1)
  ∧
  (∃ m' p c,
     updateTask Scenario.fuel Scenario.now 2 (Scenario.setParent (Some 3))
       Scenario.three = Some (Throw MaxHierarchyExceeded, m')
     ∧ childTaskIds <$> db Scenario.three !! 1 = Some [2]
     ∧ db m' !! 1 = Some p ∧ childTaskIds p = []
     ∧ db m' !! 2 = Some c ∧ parentTaskId c = Some 1).
Proof.
  split; eexists _, _, _;
    (split; [by_evaluation|]); (split; [by_evaluation|]);
    (split; [by_evaluation|]); (split; [reflexivity|]);
    (split; [by_evaluation | reflexivity]).
Qed.

(** The store [Scenario.half_restored] is reached from the empty store
    by four calls that all return. *)
Lemma half_restored_reached :
  ∃ r,
    (let* a := createTask Scenario.fuel Scenario.now (Scenario.named "a" None) in
     let* b := createTask Scenario.fuel Scenario.now (Scenario.named "b" (Some 1)) in
     let* ids := deleteTask Scenario.fuel Scenario.now 1 true true in
     let* a' := restoreTask Scenario.now 1 in
     ret (a, b, ids, a')) empty_manager
    = Some (Ok r, Scenario.half_restored).
Proof. eexists. by_evaluation. Qed.

(** C2. Deleting with cascade and undoing is not the identity on the live
    tasks of [Scenario.half_restored].  Before the two calls task 1 is live
    and task 2, which task 1 still lists as a child, is in the trash.
    [deleteTask] deletes task 2 once more and records [1; 2]; [undo]
    restores both, so task 2 is live afterwards. *)
Theorem delete_undo_revives_trashed_child :
  ∃ ids a m',
    (let* ids := deleteTask Scenario.fuel Scenario.now 1 true true in
     let* a := undo Scenario.now in
     ret (ids, a)) Scenario.half_restored = Some (Ok (ids, a), m')
    ∧ ids = [1; 2]
    ∧ a = ADelete 1 [1; 2] Scenario.now
    ∧ live (db Scenario.half_restored) 1
    ∧ ¬ live (db Scenario.half_restored) 2
    ∧ live (db m') 1
    ∧ live (db m') 2.
Proof.
  eexists _, _, _. split; [by_evaluation|].
  split; [reflexivity|]. split; [reflexivity|].
  split; [eexists; split; [by_evaluation | reflexivity]|].
  split; [not_live|].
  split; eexists; (split; [by_evaluation | reflexivity]).
Qed.

(** ** The cascade of a completion *)

(** C1. The cascade misses descendants.  On the chain 1 ← 2 ← 3,
    completing task 3 auto-completes its parent 2, which
    [checkAndCompleteParent] leaves with its priority.  Completing task 1
    afterwards has resulting status Completed, yet its child 2, found
    Completed already, is skipped and still has priority Medium.  And when
    task 2 is completed, which completes 3 below it and 1 above it, and task
    3 is reopened, completing task 1 again skips task 2 with all that is
    below it: the grandchild 3 stays In Progress. *)
Theorem completed_child_keeps_priority :
  (∃ t3 t1 m' c,
     (let* t3 := updateTask Scenario.fuel Scenario.now 3 (Scenario.setStatus Completed) in
      let* t1 := updateTask Scenario.fuel Scenario.now 1 (Scenario.setStatus Completed) in
      ret (t3, t1)) Scenario.three = Some (Ok (t3, t1), m')
     ∧ status_of t1 = Completed
     ∧ descendant (db m') 1 2
     ∧ db m' !! 2 = Some c
     ∧ priority_of c = Some Medium)
  ∧
  (∃ t1 m' c g,
     (updateTask Scenario.fuel Scenario.now 2 (Scenario.setStatus Completed) ;;;
      updateTask Scenario.fuel Scenario.now 3 (Scenario.setStatus InProgress) ;;;
      updateTask Scenario.fuel Scenario.now 1 (Scenario.setStatus Completed))
       Scenario.three = Some (Ok t1, m')
     ∧ status_of t1 = Completed
     ∧ descendant (db m') 1 3
     ∧ db m' !! 2 = Some c ∧ status_of c = Completed
     ∧ db m' !! 3 = Some g ∧ status_of g = InProgress).
Proof.
  split.
  - eexists _, _, _, _. split; [by_evaluation|].
    split; [reflexivity|].
    split.
    + apply tc_once. eexists. split; [by_evaluation|].
      apply list_elem_of_In. now left.
    + split; [by_evaluation | reflexivity].
  - eexists _, _, _, _. split; [by_evaluation|].
    split; [reflexivity|].
    split.
    + eapply tc_l; [|apply tc_once].
      * eexists. split; [by_evaluation|]. apply list_elem_of_In. now left.
      * eexists. split; [by_evaluation|]. apply list_elem_of_In. now left.
    + split; [by_evaluation|]. split; [reflexivity|].
      split; [by_evaluation | reflexivity].
Qed.

(** ** Counterexamples to the propagation and priority claims *)


(** C8 as stated fails.  Completing the root task 1 and reopening it as In
    Progress leaves it not Completed and without a priority. *)
Lemma reopened_task_has_no_priority :
  ∃ t m',
    (updateTask Scenario.fuel Scenario.now 1 (Scenario.setStatus Completed) ;;;
     updateTask Scenario.fuel Scenario.now 1 (Scenario.setStatus InProgress))
      Scenario.one = Some (Ok t, m')
    ∧ db m' !! 1 = Some t
    ∧ status_of t = InProgress
    ∧ priority_of t = None.
Proof.
  eexists _, _. split; [by_evaluation|].
  split; [by_evaluation|]. split; reflexivity.
Qed.

(** ** The guards of the hierarchy, and what a failed reparenting leaves *)

(** [createTask] under a parent of depth 2 or more throws before it writes
    anything. *)
Lemma createTask_rejects_deep_parent fuel now data m nm p parent depth :
  d_name data = Some nm → nm ≠ "" → Str.trim nm ≠ "" →
  d_parentTaskId data = Some p → db m !! p = Some parent →
  getTaskDepth fuel (db m) parent = Some depth → 2 ≤ depth →
  createTask fuel now data m = Some (Throw MaxHierarchyReached, m) ∧
  kind_of MaxHierarchyReached = ValidationError.
Proof.
  intros Hn Hne Ht Hp Hl Hd Hdepth. split; [|reflexivity].
  unfold createTask, truthy, Str.eqb. rewrite Hn.
  rewrite !bool_decide_eq_false_2 by assumption. rewrite Hp.
  unfold bind at 1. unfold bind at 1, getTaskById. rewrite Hl.
  unfold bind at 1, read. rewrite Hd.
  rewrite bool_decide_eq_true_2 by assumption. reflexivity.
Qed.

(** [reparent] throws when the depth of the new parent, one level for the
    task and the depth of the task's deepest descendant chain exceed 2. *)
Lemma reparent_rejects_depth fuel i t np m m1 newParent depth below :
  detachFromParent i t m = Some (Ok tt, m1) →
  db m1 !! np = Some newParent →
  getTaskDepth fuel (db m1) newParent = Some depth →
  getMaxChildDepth fuel (db m1) t = Some below →
  2 < depth + 1 + below →
  reparent fuel i t (Some np) m = Some (Throw MaxHierarchyExceeded, m1) ∧
  kind_of MaxHierarchyExceeded = ValidationError.
Proof.
  intros Hdet Hl Hd Hb Hgt. split; [|reflexivity].
  unfold reparent. unfold bind at 1. rewrite Hdet.
  unfold bind at 1, getTaskById. rewrite Hl.
  unfold bind at 1, read. rewrite Hd.
  unfold bind at 1. rewrite Hb.
  rewrite bool_decide_eq_true_2 by assumption. reflexivity.
Qed.

Lemma forM__no_throw {A} (l : list A) (body : A → M unit) :
  (∀ x m e m', body x m ≠ Some (Throw e, m')) →
  ∀ m e m', forM_ l body m ≠ Some (Throw e, m').
Proof.
  intros Hb. induction l as [|x l IH]; intros m e m' H.
  - discriminate H.
  - cbn [forM_] in H. apply bind_Throw in H as [H|(a & m1 & _ & H)].
    + eapply Hb, H.
    + eapply IH, H.
Qed.

Lemma completeAllDescendants_no_throw fuel : ∀ t m e m',
  completeAllDescendants fuel t m ≠ Some (Throw e, m').
Proof.
  induction fuel as [|fuel IH]; intros t m e m'; [discriminate|].
  cbn [completeAllDescendants]. apply forM__no_throw.
  intros c m0 e0 m0' H.
  apply bind_Throw in H as [H|(child & m1 & Hg & H)]; [discriminate H|].
  injection Hg as <- <-.
  destruct (db m0 !! c) as [x|]; [|discriminate H].
  case_bool_decide; [|discriminate H].
  apply bind_Throw in H as [H|(a & m2 & _ & H)]; [discriminate H|].
  eapply IH, H.
Qed.

(** When [updateTask] throws on a task that is in the store, the throw comes
    from the reparenting block, and the store is left as
    [detachFromParent] made it: the task is out of its old parent's
    [childTaskIds] and nothing else is written. *)
Lemma failed_update_is_detached fuel now i u m e m' t0 :
  db m !! i = Some t0 →
  updateTask fuel now i u m = Some (Throw e, m') →
  detachFromParent i t0 m = Some (Ok tt, m') ∧
  (e = MaxHierarchyExceeded ∨ e = CircularReference ∨ ∃ np, e = ParentNotFound np).
Proof.
  intros Hl H. rewrite updateTask_unfold in H.
  apply bind_Throw in H as [H|(found & m0 & Hg & H)]; [discriminate H|].
  injection Hg as <- <-. rewrite Hl in H.
  apply bind_Throw in H as [H|([] & m1 & _ & H)].
  - unfold reparentIfChanged in H.
    destruct (u_parentTaskId u) as [np|]; [|discriminate H].
    case_bool_decide; [|discriminate H].
    unfold reparent in H. apply bind_Throw in H as [H|([] & m1 & Hdet & H)].
    { destruct (detachFromParent_returns i t0 m) as [m1 Hdet]. congruence. }
    destruct np as [np|]; [|discriminate H].
    unfold bind at 1, getTaskById in H.
    destruct (db m1 !! np) as [newParent|].
    2:{ injection H as <- <-. split; [exact Hdet|]. eauto. }
    unfold bind at 1, read in H.
    destruct (getTaskDepth fuel (db m1) newParent); [|discriminate].
    unfold bind at 1 in H.
    destruct (getMaxChildDepth fuel (db m1) t0); [|discriminate].
    case_bool_decide; [injection H as <- <-; auto|].
    unfold bind at 1 in H.
    destruct (isDescendant fuel (db m1) np (id t0)) as [[]|];
      [injection H as <- <-; auto | | discriminate].
    destruct (negb (includes (childTaskIds newParent) i)); discriminate H.
  - exfalso.
    apply bind_Throw in H as [H|([] & m2 & _ & H)].
    { unfold when in H. case_bool_decide; [|discriminate H].
      eapply completeAllDescendants_no_throw, H. }
    apply bind_Throw in H as [H|([] & m3 & _ & H)]; [discriminate H|].
    apply bind_Throw in H as [H|([] & m4 & _ & H)]; [discriminate H|].
    apply bind_Throw in H as [H|([] & m5 & _ & H)]; [|discriminate H].
    apply checkAndCompleteParent_inv in H as [[=] _].
Qed.

(** ** The query: family closure and order *)

Lemma findTask_Some all i t : findTask all i = Some t → t ∈ all ∧ id t = i.
Proof.
  unfold findTask. intros H. apply find_some in H as [Hin Hid].
  split; [now apply list_elem_of_In | now apply bool_decide_eq_true in Hid].
Qed.

Lemma findTask_unique all t :
  NoDup (id <$> all) → t ∈ all → findTask all (id t) = Some t.
Proof.
  unfold findTask. induction all as [|x all IH]; intros Hnd Hin.
  - inversion Hin.
  - simpl in *. apply NoDup_cons in Hnd as [Hx Hnd].
    case_bool_decide as Hid.
    + apply elem_of_cons in Hin as [->|Hin]; [reflexivity|].
      exfalso. apply Hx. rewrite Hid. apply list_elem_of_fmap. eauto.
    + apply elem_of_cons in Hin as [->|Hin]; [contradiction|]. auto.
Qed.

Lemma elem_of_set_add i x s : i ∈ set_add x s ↔ i = x ∨ i ∈ s.
Proof.
  unfold set_add, includes. case_bool_decide as Hx.
  - split; [auto|]. intros [->|H]; assumption.
  - rewrite elem_of_app, list_elem_of_singleton. tauto.
Qed.

Lemma NoDup_set_add x s : NoDup s → NoDup (set_add x s).
Proof.
  intros Hs. unfold set_add, includes. case_bool_decide as Hx; [exact Hs|].
  apply NoDup_app. split; [exact Hs|]. split.
  - intros y Hy Hy'. apply list_elem_of_singleton in Hy' as ->. contradiction.
  - apply NoDup_singleton.
Qed.

Lemma elem_of_noted rids i add j :
  j ∈ noted rids i add ↔ j ∈ add ∨ ((j ∉ rids) ∧ j = i).
Proof.
  unfold noted, includes. case_bool_decide as Hi.
  - split; [auto|]. intros [H|[Hn ->]]; [assumption | contradiction].
  - rewrite elem_of_set_add. split.
    + intros [->|H]; auto.
    + intros [H|[_ ->]]; auto.
Qed.

Lemma NoDup_noted rids i add : NoDup add → NoDup (noted rids i add).
Proof. unfold noted. destruct (includes rids i); auto using NoDup_set_add. Qed.

(** The loop over the ancestors ends and notes the ids it walks. *)
Lemma addAncestors_spec all rids fuel : ∀ t add,
  climb_le all fuel t →
  ∃ add', addAncestors fuel all rids t add = Some add' ∧
          (NoDup add → NoDup add') ∧
          ∀ i, i ∈ add' ↔ i ∈ add ∨ ((i ∉ rids) ∧ up_id all t i).
Proof.
  intros t add Hc. revert add.
  induction Hc as [n t Hp|n t p Hp Hf|n t p t' Hp Hf Hc IH]; intros add.
  - exists add. destruct n; simpl; rewrite Hp; (split; [reflexivity|]);
      (split; [auto|]); intros i; (split; [auto|]);
      intros [H|[_ H]]; auto; inversion H; congruence.
  - exists (noted rids p add). simpl. rewrite Hp, Hf.
    split; [reflexivity|]. split; [apply NoDup_noted|].
    intros i. rewrite elem_of_noted. split.
    + intros [H|[Hn ->]]; [auto|]. right. split; [exact Hn|]. now apply up_here.
    + intros [H|[Hn Hu]]; [auto|]. right. split; [exact Hn|].
      inversion Hu; congruence.
  - destruct (IH (noted rids p add)) as (add' & Heq & Hnd & Hin).
    exists add'. simpl. rewrite Hp, Hf.
    split; [exact Heq|]. split; [auto using NoDup_noted|].
    intros i. rewrite Hin, elem_of_noted. split.
    + intros [[H|[Hn ->]]|[Hn Hu]]; [auto| |].
      * right. split; [exact Hn|]. now apply up_here.
      * right. split; [exact Hn|]. eapply up_next; eauto.
    + intros [H|[Hn Hu]]; [auto|].
      inversion Hu as [? ? Hp'|? p' t'' ? Hp' Hf' Hu']; subst.
      * left. right. split; [exact Hn|]. congruence.
      * right. split; [exact Hn|]. congruence.
Qed.

Lemma down_ids_cons all c cs i :
  down_ids all (c :: cs) i ↔
  (i = c ∨ ∃ child, findTask all c = Some child ∧
                    down_ids all (childTaskIds child) i)
  ∨ down_ids all cs i.
Proof.
  split.
  - intros H. inversion H as [? ? Hin|? c' child ? Hin Hf Hd]; subst.
    + apply elem_of_cons in Hin as [->|Hin]; [auto|].
      right. now apply down_here.
    + apply elem_of_cons in Hin as [->|Hin]; [eauto|].
      right. eapply down_below; eauto.
  - intros [[->|(child & Hf & Hd)]|H].
    + apply down_here. now left.
    + eapply down_below; [now left | exact Hf | exact Hd].
    + inversion H as [? ? Hin|? c' child ? Hin Hf Hd]; subst.
      * apply down_here. now right.
      * eapply down_below; [right; exact Hin | exact Hf | exact Hd].
Qed.

(** [addDescendants] ends and notes the ids it walks. *)
Lemma addDescendants_spec all rids fuel : ∀ t add,
  height_le all fuel t →
  ∃ add', addDescendants fuel all rids t add = Some add' ∧
          (NoDup add → NoDup add') ∧
          ∀ i, i ∈ add' ↔ i ∈ add ∨ ((i ∉ rids) ∧ down_ids all (childTaskIds t) i).
Proof.
  induction fuel as [|fuel IH]; intros t add Hh; [inversion Hh|].
  inversion Hh as [? ? Hkids]; subst. cbn [addDescendants].
  clear Hh. revert add.
  induction (childTaskIds t) as [|c cs IHcs]; intros add.
  - exists add. split; [reflexivity|]. split; [auto|].
    intros i. split; [auto|]. intros [H|[_ H]]; [exact H|].
    inversion H as [? ? Hin|? ? ? ? Hin]; inversion Hin.
  - cbn [foldlM].
    assert (Hstep : ∃ add1,
      match findTask all c with
      | Some child => addDescendants fuel all rids child (noted rids c add)
      | None => Some (noted rids c add)
      end = Some add1 ∧ (NoDup add → NoDup add1) ∧
      ∀ i, i ∈ add1 ↔ i ∈ add ∨ ((i ∉ rids) ∧
             (i = c ∨ ∃ child, findTask all c = Some child ∧
                               down_ids all (childTaskIds child) i))).
    { destruct (findTask all c) as [child|] eqn:Hf.
      - destruct (IH child (noted rids c add)) as (add1 & Heq & Hnd & Hin).
        { eapply Hkids; [now left | exact Hf]. }
        exists add1. split; [exact Heq|]. split; [auto using NoDup_noted|].
        intros i. rewrite Hin, elem_of_noted. split.
        + intros [[H|[Hn ->]]|[Hn Hd]]; eauto 6.
        + intros [H|[Hn [->|(child' & [= <-] & Hd)]]]; auto.
      - exists (noted rids c add). split; [reflexivity|].
        split; [apply NoDup_noted|].
        intros i. rewrite elem_of_noted. split.
        + intros [H|[Hn ->]]; auto.
        + intros [H|[Hn [->|(child' & [=] & _)]]]; auto. }
    destruct Hstep as (add1 & -> & Hnd1 & Hin1).
    destruct (IHcs (λ c' child Hc', Hkids c' child (list_elem_of_further _ _ _ Hc')) add1)
      as (add' & Heq & Hnd & Hin).
    exists add'. split; [exact Heq|]. split; [auto|].
    intros i. rewrite Hin, Hin1, down_ids_cons. tauto.
Qed.

(** Both walks, for every matched task in turn. *)
Lemma walks_spec all rids fuel ms :
  (∀ t, t ∈ ms → climb_le all fuel t ∧ height_le all fuel t) →
  ∀ add,
  ∃ add',
    foldlM (λ additionalTasks t,
              additionalTasks ← addAncestors fuel all rids t additionalTasks;
              addDescendants fuel all rids t additionalTasks) ms add = Some add' ∧
    (NoDup add → NoDup add') ∧
    ∀ i, i ∈ add' ↔
         i ∈ add ∨ ((i ∉ rids) ∧
                    ∃ m, m ∈ ms ∧ (up_id all m i ∨ down_ids all (childTaskIds m) i)).
Proof.
  induction ms as [|t ms IH]; intros Hwf add.
  - exists add. split; [reflexivity|]. split; [auto|].
    intros i. split; [auto|]. intros [H|(_ & m & Hm & _)]; [exact H | inversion Hm].
  - destruct (Hwf t) as [Hc Hh]; [now left|].
    destruct (addAncestors_spec all rids fuel t add Hc) as (a1 & Heq1 & Hnd1 & Hin1).
    destruct (addDescendants_spec all rids fuel t a1 Hh) as (a2 & Heq2 & Hnd2 & Hin2).
    destruct (IH (λ t' Ht', Hwf t' (list_elem_of_further _ _ _ Ht')) a2)
      as (add' & Heq & Hnd & Hin).
    exists add'. cbn [foldlM]. rewrite Heq1. simpl. rewrite Heq2.
    split; [exact Heq|]. split; [auto|].
    intros i. rewrite Hin, Hin2, Hin1. split.
    + intros [[[H|[Hn Hu]]|[Hn Hd]]|(Hn & m & Hm & Hw)]; auto.
      * right. split; [exact Hn|]. exists t. split; [now left | now left].
      * right. split; [exact Hn|]. exists t. split; [now left | now right].
      * right. split; [exact Hn|]. exists m. split; [now right | exact Hw].
    + intros [H|(Hn & m & Hm & Hw)]; [auto|].
      apply elem_of_cons in Hm as [->|Hm].
      * destruct Hw; auto.
      * right. split; [exact Hn|]. eauto.
Qed.

Lemma up_id_ancestor all m t :
  NoDup (id <$> all) →
  (∃ i, up_id all m i ∧ findTask all i = Some t) ↔ ancestor_in all t m.
Proof.
  intros Hnd. split.
  - intros (i & Hu & Hf). induction Hu as [m i Hp|m p t' i Hp Hf' Hu IH].
    + apply findTask_Some in Hf as [Hin <-]. now apply anc_parent.
    + apply findTask_Some in Hf' as [Hin' <-].
      eapply anc_up; [exact Hin' | exact Hp | auto].
  - induction 1 as [m a Hin Hp|m p a Hin Hp Ha (i & Hu & Hf)].
    + exists (id a). split; [now apply up_here | now apply findTask_unique].
    + exists i. split; [|exact Hf].
      eapply up_next; [exact Hp | now apply findTask_unique | exact Hu].
Qed.

Lemma down_ids_descendant all m t :
  NoDup (id <$> all) →
  (∃ i, down_ids all (childTaskIds m) i ∧ findTask all i = Some t)
  ↔ descendant_in all m t.
Proof.
  intros Hnd. split.
  - intros (i & Hd & Hf). remember (childTaskIds m) as cs eqn:Hcs.
    revert m Hcs. induction Hd as [cs i Hin|cs c child i Hin Hf' Hd IH];
      intros m ->.
    + apply findTask_Some in Hf as [Hin' <-]. now apply desc_child.
    + apply findTask_Some in Hf' as [Hin' <-].
      eapply desc_down; [exact Hin' | exact Hin | eauto].
  - induction 1 as [m d Hin Hc|m c d Hin Hc Hd (i & Hdi & Hf)].
    + exists (id d). split; [now apply down_here | now apply findTask_unique].
    + exists i. split; [|exact Hf].
      eapply down_below; [exact Hc | now apply findTask_unique | exact Hdi].
Qed.

Lemma getTaskDepthSyncLoop_total all fuel t :
  climb_le all fuel t → ∀ z, ∃ d, getTaskDepthSyncLoop fuel all z t = Some d.
Proof.
  induction 1 as [n t Hp|n t p Hp Hf|n t p t' Hp Hf Hc IH]; intros z.
  - exists z. destruct n; simpl; rewrite Hp; reflexivity.
  - exists (z + 1). simpl. rewrite Hp, Hf. reflexivity.
  - destruct (IH (z + 1)) as [d Hd]. exists d. simpl. rewrite Hp, Hf. exact Hd.
Qed.

(** ** The order of the result *)

Lemma inOrder_iff a b :
  inOrder a b ↔ a.1 < b.1 ∨ (a.1 = b.1 ∧ id a.2 ≤ id b.2).
Proof.
  unfold inOrder, compareByDepth. case_bool_decide; rewrite sub_nonpos; lia.
Qed.

#[local] Instance inOrder_trans : Transitive inOrder.
Proof. intros a b c. rewrite !inOrder_iff. lia. Qed.

#[local] Instance inOrder_total : Total inOrder.
Proof. intros a b. rewrite !inOrder_iff. lia. Qed.

(** The loop of [getTaskDepthSync] counts the parent links. *)
Lemma getTaskDepthSyncLoop_depth all fuel : ∀ t z d,
  getTaskDepthSyncLoop fuel all z t = Some d → depth_in all t (d - z).
Proof.
  induction fuel as [|fuel IH]; intros t z d; simpl;
    destruct (parentTaskId t) as [p|] eqn:Hp;
    try (intros [= <-]; rewrite Z.sub_diag; now apply depth_root);
    try discriminate.
  destruct (findTask all p) as [t'|] eqn:Hf.
  - intros H. apply IH in H.
    replace (d - z) with (d - (z + 1) + 1) by lia.
    eapply depth_step; eauto.
  - intros [= <-]. replace (z + 1 - z) with 1 by lia.
    eapply depth_missing; eauto.
Qed.

Lemma depth_in_unique all t d d' :
  depth_in all t d → depth_in all t d' → d = d'.
Proof.
  intros H. revert d'.
  induction H as [t Hp|t p Hp Hf|t p t' d Hp Hf Hd IH]; intros d' H';
    inversion H'; subst; try congruence.
  f_equal. apply IH. congruence.
Qed.

Lemma getTaskDepthSync_depth all fuel t d :
  getTaskDepthSync fuel t all = Some d → depth_in all t d.
Proof.
  intros H. apply getTaskDepthSyncLoop_depth in H.
  now rewrite Z.sub_0_r in H.
Qed.

Lemma sorted_by_depth fuel all (l : list (Z * task)) :
  StronglySorted inOrder l →
  Forall (λ p, getTaskDepthSync fuel p.2 all = Some p.1) l →
  StronglySorted (depth_then_id all) (snd <$> l).
Proof.
  induction 1 as [|a l Hs IH Ha]; intros Hd; [constructor|].
  apply Forall_cons in Hd as [Hda Hdl]. simpl. constructor; [auto|].
  apply Forall_fmap, Forall_forall. intros b Hb. simpl.
  exists a.1, b.1. split; [eapply getTaskDepthSync_depth, Hda|]. split.
  - eapply Forall_forall in Hdl; [|exact Hb]. eapply getTaskDepthSync_depth, Hdl.
  - apply inOrder_iff. eapply Forall_forall in Ha; [exact Ha | exact Hb].
Qed.

Lemma withDepth_spec fuel all final :
  (∀ t, t ∈ final → climb_le all fuel t) →
  ∃ withDepth,
    mapM (λ t, d ← getTaskDepthSync fuel t all; Some (d, t)) final = Some withDepth ∧
    snd <$> withDepth = final ∧
    Forall (λ p, getTaskDepthSync fuel p.2 all = Some p.1) withDepth.
Proof.
  induction final as [|t final IH]; intros Hc.
  - exists []. repeat split; constructor.
  - destruct (IH (λ t' Ht', Hc t' (list_elem_of_further _ _ _ Ht')))
      as (wd & Heq & Hsnd & Hall).
    destruct (getTaskDepthSyncLoop_total all fuel t (Hc t (list_elem_of_here _ _)) 0)
      as [d Hd].
    exists ((d, t) :: wd). split; [|split].
    + cbn [mapM]. rewrite Heq. unfold getTaskDepthSync at 1. rewrite Hd.
      reflexivity.
    + rewrite fmap_cons, Hsnd. reflexivity.
    + constructor; [exact Hd | exact Hall].
Qed.

(** ** The criteria *)

Lemma keeps_holds {A} (c : criterion A) (b : bool) (P : Prop) :
  (b = true ↔ P) → (keeps c b = true ↔ holds c P).
Proof.
  intros H. unfold keeps, holds. destruct (negate c); [|exact H].
  rewrite negb_true_iff, <- H. destruct b; split; congruence.
Qed.

Lemma check_holds {A} (o : option (criterion A)) (m : A → task → bool)
    (P : A → Prop) t :
  (∀ v, m v t = true ↔ P v) →
  (check o m t = true ↔ ∀ c, o = Some c → holds c (P (value c))).
Proof.
  intros H. destruct o as [c|]; simpl.
  - rewrite (keeps_holds c _ _ (H (value c))). split.
    + intros Hc c' [= <-]. exact Hc.
    + intros Hc. apply Hc. reflexivity.
  - split; [intros _ c [=] | reflexivity].
Qed.

Section Criteria.

Variable caseTables : string → string.

Lemma sameText_sameLabel a b :
  sameText caseTables a b = true ↔ sameLabel caseTables a b.
Proof. unfold sameText, sameLabel, Str.eqb. apply bool_decide_eq_true. Qed.

(** The callback of the filter decides [satisfies]. *)
Lemma matchesFilters_satisfies f t :
  matchesFilters caseTables f t = true ↔ satisfies caseTables f t.
Proof.
  unfold matchesFilters, satisfies. rewrite !andb_true_iff.
  rewrite (check_holds (by_id f) matchesId
             (λ v, match v with IdIs v => id t = v | IdIn vs => id t ∈ vs end)).
  2:{ intros [v|vs]; simpl; unfold includes; apply bool_decide_eq_true. }
  rewrite (check_holds (by_project f) (matchesProject caseTables)
             (λ v, ∃ p, project t = Some p ∧ p ≠ "" ∧ sameLabel caseTables p v)).
  2:{ intros v. unfold matchesProject. destruct (project t) as [p|].
      - rewrite andb_true_iff, negb_true_iff, sameText_sameLabel.
        unfold Str.eqb. rewrite bool_decide_eq_false. split.
        + intros [Hp Hs]. eauto.
        + intros (p' & [= <-] & Hp & Hs). auto.
      - split; [discriminate | intros (p & [=] & _)]. }
  rewrite (check_holds (by_priority f) (matchesPriority caseTables)
             (λ v, ∃ p, priority_of t = Some p ∧ sameLabel caseTables (priority_name p) v)).
  2:{ intros v. unfold matchesPriority. destruct (priority_of t) as [p|].
      - rewrite sameText_sameLabel. split; [eauto | intros (p' & [= <-] & Hs); auto].
      - split; [discriminate | intros (p & [=] & _)]. }
  rewrite (check_holds (by_status f) (matchesStatus caseTables)
             (λ v, sameLabel caseTables (status_name (status_of t)) v)).
  2:{ intros v. apply sameText_sameLabel. }
  tauto.
Qed.

Lemma same_id_same_task all t t' :
  NoDup (id <$> all) → t ∈ all → t' ∈ all → id t = id t' → t = t'.
Proof.
  intros Hnd Ht Ht' Hid.
  pose proof (findTask_unique all t Hnd Ht) as H.
  pose proof (findTask_unique all t' Hnd Ht') as H'.
  rewrite Hid in H. congruence.
Qed.

Lemma elem_of_matched f all t :
  t ∈ List.filter (matchesFilters caseTables f) all ↔ t ∈ all ∧ matchesFilters caseTables f t = true.
Proof. rewrite !list_elem_of_In. apply filter_In. Qed.

Lemma NoDup_matched f (all : list task) :
  NoDup all → NoDup (List.filter (matchesFilters caseTables f) all).
Proof.
  induction 1 as [|x all Hx Hnd IH]; [constructor|].
  simpl. destruct (matchesFilters caseTables f x); [|exact IH].
  constructor; [|exact IH].
  intros Hin. apply elem_of_matched in Hin as [Hin _]. contradiction.
Qed.

Lemma NoDup_found all add :
  NoDup add → NoDup (omap (findTask all) add).
Proof.
  induction 1 as [|x add Hx Hnd IH]; [constructor|].
  simpl. destruct (findTask all x) as [t|] eqn:Hf; [|exact IH].
  constructor; [|exact IH].
  intros Hin. apply list_elem_of_omap in Hin as (y & Hy & Hfy).
  apply findTask_Some in Hf as [_ <-]. apply findTask_Some in Hfy as [_ <-].
  contradiction.
Qed.

(** The body of [filterTasks] on a snapshot whose ids are distinct and
    whose parent chains and child trees end within [fuel] links: it returns
    the family closure of the matches, no task twice, in ascending depth and
    within a depth in ascending id. *)
Lemma filterTasksOn_family fuel f all :
  NoDup (id <$> all) →
  (∀ t, t ∈ all → climb_le all fuel t ∧ height_le all fuel t) →
  ∃ res,
    filterTasksOn caseTables fuel f all = Some res ∧
    (∀ t, t ∈ res ↔ in_family caseTables f all t) ∧
    NoDup res ∧
    StronglySorted (depth_then_id all) res.
Proof.
  intros Hnd Hwf. unfold filterTasksOn.
  set (matched := List.filter (matchesFilters caseTables f) all).
  set (rids := id <$> matched).
  assert (Hm_all : ∀ t, t ∈ matched → t ∈ all).
  { intros t Ht. now apply elem_of_matched in Ht as [? _]. }
  destruct (walks_spec all rids fuel matched (λ t Ht, Hwf t (Hm_all t Ht)) [])
    as (add & Heq & Hnda & Hin).
  specialize (Hnda (NoDup_nil_2)).
  set (final := matched ++ omap (findTask all) add).
  assert (Hf_all : ∀ t, t ∈ final → t ∈ all).
  { intros t Ht. apply elem_of_app in Ht as [Ht|Ht]; [auto|].
    apply list_elem_of_omap in Ht as (i & _ & Hf).
    now apply findTask_Some in Hf as [? _]. }
  destruct (withDepth_spec fuel all final (λ t Ht, proj1 (Hwf t (Hf_all t Ht))))
    as (wd & Hwd & Hsnd & Hdepth).
  exists (sortByDepth wd).
  assert (Hperm : sortByDepth wd ≡ₚ final).
  { unfold sortByDepth. rewrite merge_sort_Permutation, Hsnd. reflexivity. }
  assert (Hrid : ∀ t, t ∈ all → id t ∈ rids → t ∈ matched).
  { intros t Ht Hr. apply list_elem_of_fmap in Hr as (t' & Hid & Ht').
    rewrite (same_id_same_task all t t' Hnd Ht (Hm_all t' Ht') Hid). exact Ht'. }
  split; [|split; [|split]].
  - rewrite Heq. simpl. fold final. rewrite Hwd. reflexivity.
  - intros t. rewrite Hperm. unfold final, in_family.
    setoid_rewrite <- matchesFilters_satisfies.
    rewrite elem_of_app, list_elem_of_omap. split.
    + intros [Ht|(i & Hi & Hf)].
      * apply elem_of_matched in Ht as [Ha Hm]. auto.
      * apply Hin in Hi as [Hi|(Hn & m & Hm & Hw)]; [inversion Hi|].
        split; [now apply findTask_Some in Hf as [? _]|]. right.
        apply elem_of_matched in Hm as [Hma Hmm].
        exists m. split; [exact Hma|]. split; [exact Hmm|].
        destruct Hw as [Hu|Hd].
        -- left. apply up_id_ancestor; eauto.
        -- right. apply down_ids_descendant; eauto.
    + intros [Ha [Hm|(m & Hma & Hmm & Hrel)]].
      * left. apply elem_of_matched. auto.
      * destruct (matchesFilters caseTables f t) eqn:Hmt; [left; apply elem_of_matched; auto|].
        right.
        assert (Hw : ∃ i, (up_id all m i ∨ down_ids all (childTaskIds m) i)
                          ∧ findTask all i = Some t).
        { destruct Hrel as [Hr|Hr].
          - apply up_id_ancestor in Hr as (i & Hu & Hf); eauto.
          - apply down_ids_descendant in Hr as (i & Hd & Hf); eauto. }
        destruct Hw as (i & Hw & Hf). exists i. split; [|exact Hf].
        apply Hin. right. split.
        -- intros Hr. apply findTask_Some in Hf as [_ <-].
           apply Hrid in Hr; [|exact Ha].
           apply elem_of_matched in Hr as [_ Hr]. congruence.
        -- exists m. split; [apply elem_of_matched; auto | exact Hw].
  - rewrite Hperm. unfold final. apply NoDup_app. split; [|split].
    + apply NoDup_matched. eapply NoDup_fmap_1; exact Hnd.
    + intros t Ht Ht'. apply list_elem_of_omap in Ht' as (i & Hi & Hf).
      apply Hin in Hi as [Hi|(Hn & _)]; [inversion Hi|].
      apply findTask_Some in Hf as [_ <-]. apply Hn.
      apply list_elem_of_fmap. eauto.
    + apply NoDup_found, Hnda.
  - unfold sortByDepth. apply (sorted_by_depth fuel).
    + apply StronglySorted_merge_sort; apply _.
    + rewrite merge_sort_Permutation. exact Hdepth.
Qed.

End Criteria.

(** * Further properties of the store *)

(** ** No method but create, purge and import changes the ids *)

Lemma same_keys_refl m : same_keys m m.
Proof. split; reflexivity. Qed.

Lemma same_keys_trans m1 m2 m3 :
  same_keys m1 m2 → same_keys m2 m3 → same_keys m1 m3.
Proof. intros [H1 H2] [H3 H4]. split; congruence. Qed.

Lemma same_keys_lookup m m' i :
  same_keys m m' → is_Some (db m !! i) → is_Some (db m' !! i).
Proof. intros [H _] Hi. apply elem_of_dom. rewrite H. now apply elem_of_dom. Qed.

Section Keys.

Variable K : Z → Prop.

Lemma keeps_ret {A} (a : A) : keeps_keys K (ret a).
Proof. intros m r m' Hk _ [= <- <-]. auto using same_keys_refl. Qed.

Lemma keeps_throw {A} e : keeps_keys K (@throw A e).
Proof. intros m r m' Hk _ [= <- <-]. auto using same_keys_refl. Qed.

Lemma keeps_read {A} (f : gmap Z task → option A) : keeps_keys K (read f).
Proof.
  intros m r m' Hk _. unfold read. destruct (f (db m)); [|discriminate].
  intros [= <- <-]. auto using same_keys_refl.
Qed.

Lemma keeps_recordAction a : keeps_keys K (recordAction a).
Proof. intros m r m' Hk _ [= <- <-]. split; [exact Hk | split; reflexivity]. Qed.

Lemma keeps_getUndoStack : keeps_keys K getUndoStack.
Proof. intros m r m' Hk _ [= <- <-]. split; [exact Hk | split; reflexivity]. Qed.

Lemma keeps_getRedoStack : keeps_keys K getRedoStack.
Proof. intros m r m' Hk _ [= <- <-]. split; [exact Hk | split; reflexivity]. Qed.

Lemma keeps_putUndoStack l : keeps_keys K (putUndoStack l).
Proof. intros m r m' Hk _ [= <- <-]. split; [exact Hk | split; reflexivity]. Qed.

Lemma keeps_putRedoStack l : keeps_keys K (putRedoStack l).
Proof. intros m r m' Hk _ [= <- <-]. split; [exact Hk | split; reflexivity]. Qed.

Lemma keeps_saveTask t : K (id t) → keeps_keys K (saveTask t).
Proof.
  intros Ht m r m' Hk HK Hrun. injection Hrun as <- <-.
  split; [apply keyed_insert, Hk|].
  split; [|reflexivity]. simpl. rewrite dom_insert_L.
  apply HK in Ht. apply elem_of_dom in Ht. apply set_eq. intros x.
  rewrite elem_of_union, elem_of_singleton. split; [intros [->|?]; auto | auto].
Qed.

End Keys.

Lemma keeps_weaken (K K' : Z → Prop) {A} (c : M A) :
  (∀ i, K i → K' i) → keeps_keys K c → keeps_keys K' c.
Proof. intros HKK Hc m r m' Hk HK. apply Hc; auto. Qed.

Lemma keeps_bind (K : Z → Prop) {A B} (c : M A) (k : A → M B) :
  keeps_keys K c → (∀ a, keeps_keys K (k a)) → keeps_keys K (bind c k).
Proof.
  intros Hc Hk m r m' Hkey HK H. inv_bind H.
  - destruct (Hc _ _ _ Hkey HK Hc0) as [Hk1 Hs1].
    destruct (Hk x _ _ _ Hk1 (λ i Hi, same_keys_lookup _ _ _ Hs1 (HK i Hi)) H)
      as [Hk2 Hs2].
    split; [exact Hk2|]. eapply same_keys_trans; eauto.
  - eapply Hc; eauto.
Qed.

(** Reading a record tells that its id is a key. *)
Lemma keeps_get (K : Z → Prop) {A} (i : Z) (k : option task → M A) :
  keeps_keys K (k None) →
  (∀ x, keeps_keys (λ j, K j ∨ j = id x) (k (Some x))) →
  keeps_keys K (bind (getTaskById i) k).
Proof.
  intros Hn Hs m r m' Hkey HK H. unfold bind, getTaskById in H.
  destruct (db m !! i) as [x|] eqn:Hx; [|eapply Hn; eauto].
  eapply (Hs x); [exact Hkey | | exact H].
  intros j [Hj| ->]; [auto|]. rewrite (Hkey _ _ Hx). eauto.
Qed.

Lemma keeps_when (K : Z → Prop) b c : keeps_keys K c → keeps_keys K (when b c).
Proof. destruct b; simpl; auto using keeps_ret. Qed.

Lemma keeps_forM_ (K : Z → Prop) {A} (l : list A) body :
  (∀ x, keeps_keys K (body x)) → keeps_keys K (forM_ l body).
Proof.
  intros Hb. induction l as [|x l IH]; simpl;
    [apply keeps_ret | apply keeps_bind; auto].
Qed.

Lemma keeps_foldM (K : Z → Prop) {A B} (f : B → A → M B) l b :
  (∀ b x, keeps_keys K (f b x)) → keeps_keys K (foldM f l b).
Proof.
  intros Hf. revert b. induction l as [|x l IH]; intros b; simpl;
    [apply keeps_ret | apply keeps_bind; auto].
Qed.

Lemma keeps_try_catch (K : Z → Prop) {A} (c : M A) h :
  keeps_keys K c → (∀ e, keeps_keys K (h e)) → keeps_keys K (try_catch c h).
Proof.
  intros Hc Hh m r m' Hkey HK H. unfold try_catch in H.
  destruct (c m) as [[[a|e] m1]|] eqn:Hcm; [| |discriminate].
  - injection H as <- <-. eapply Hc; eauto.
  - destruct (Hc _ _ _ Hkey HK Hcm) as [Hk1 Hs1].
    destruct (Hh e _ _ _ Hk1 (λ i Hi, same_keys_lookup _ _ _ Hs1 (HK i Hi)) H)
      as [Hk2 Hs2].
    split; [exact Hk2|]. eapply same_keys_trans; eauto.
Qed.

Ltac keys_side := simpl; rewrite ?updated_id; simpl; tauto.

Ltac keys := repeat first
  [ progress cbv beta zeta
  | match goal with
    | |- keeps_keys _ (ret _) => apply keeps_ret
    | |- keeps_keys _ (throw _) => apply keeps_throw
    | |- keeps_keys _ (read _) => apply keeps_read
    | |- keeps_keys _ (recordAction _) => apply keeps_recordAction
    | |- keeps_keys _ getUndoStack => apply keeps_getUndoStack
    | |- keeps_keys _ getRedoStack => apply keeps_getRedoStack
    | |- keeps_keys _ (putUndoStack _) => apply keeps_putUndoStack
    | |- keeps_keys _ (putRedoStack _) => apply keeps_putRedoStack
    | |- keeps_keys _ (saveTask _) => apply keeps_saveTask; keys_side
    | |- keeps_keys _ (bind (getTaskById _) _) => apply keeps_get; [ | intro ]
    | |- keeps_keys _ (bind _ _) => apply keeps_bind; [ | intro ]
    | |- keeps_keys _ (when _ _) => apply keeps_when
    | |- keeps_keys _ (forM_ _ _) => apply keeps_forM_; intro
    | |- keeps_keys _ (foldM _ _ _) => apply keeps_foldM; intros ? ?
    | |- keeps_keys _ (try_catch _ _) => apply keeps_try_catch; [ | intro ]
    | |- keeps_keys _ (match ?x with _ => _ end) => destruct x
    | |- keeps_keys _ (if ?x then _ else _) => destruct x
    | |- keeps_keys _ _ => solve [eauto with keys]
    end ].

Create HintDb keys.

Lemma keeps_detachFromParent K i t : keeps_keys K (detachFromParent i t).
Proof. unfold detachFromParent. keys. Qed.

Lemma keeps_attachToParent K i t : keeps_keys K (attachToParent i t).
Proof. unfold attachToParent. keys. Qed.

#[local] Hint Resolve keeps_detachFromParent keeps_attachToParent : keys.

Lemma keeps_completeAllDescendants fuel : ∀ K t,
  keeps_keys K (completeAllDescendants fuel t).
Proof.
  induction fuel as [|fuel IH]; intros K t; simpl.
  - intros m r m' _ _ [=].
  - keys.
Qed.

Lemma keeps_checkAndCompleteParent K t : keeps_keys K (checkAndCompleteParent t).
Proof. unfold checkAndCompleteParent. keys. Qed.

Lemma keeps_reparent K fuel i t np : keeps_keys K (reparent fuel i t np).
Proof. unfold reparent. keys. Qed.

#[local] Hint Resolve keeps_completeAllDescendants keeps_checkAndCompleteParent
  keeps_reparent : keys.

Lemma keeps_updateTask K fuel now i u : keeps_keys K (updateTask fuel now i u).
Proof. rewrite updateTask_unfold. unfold reparentIfChanged. keys. Qed.

Lemma keeps_deleteTask fuel : ∀ K now i c root,
  keeps_keys K (deleteTask fuel now i c root).
Proof.
  induction fuel as [|fuel IH]; intros K now i c root; simpl.
  - intros m r m' _ _ [=].
  - keys.
Qed.

Lemma keeps_restoreTask K now i : keeps_keys K (restoreTask now i).
Proof. unfold restoreTask. keys. Qed.

Lemma keeps_restoreTaskWithoutHistory K i :
  keeps_keys K (restoreTaskWithoutHistory i).
Proof. unfold restoreTaskWithoutHistory. keys. Qed.

Lemma keeps_updateTaskWithoutHistory K i u :
  keeps_keys K (updateTaskWithoutHistory i u).
Proof. unfold updateTaskWithoutHistory. keys. Qed.

Lemma keeps_deleteTaskWithoutHistory K now i :
  keeps_keys K (deleteTaskWithoutHistory now i).
Proof. unfold deleteTaskWithoutHistory. keys. Qed.

Lemma keeps_softDelete K now i : keeps_keys K (softDelete now i).
Proof. unfold softDelete. keys. Qed.

Lemma keeps_addNote K now i c : keeps_keys K (addNote now i c).
Proof. unfold addNote. keys. Qed.

#[local] Hint Resolve keeps_updateTask keeps_deleteTask keeps_restoreTask
  keeps_restoreTaskWithoutHistory keeps_updateTaskWithoutHistory
  keeps_deleteTaskWithoutHistory keeps_softDelete keeps_addNote : keys.

Lemma keeps_undo K now : keeps_keys K (undo now).
Proof. unfold undo, undoAction, pushUndo, pushRedo. keys. Qed.

Lemma keeps_redo K now : keeps_keys K (redo now).
Proof. unfold redo, redoAction, pushUndo, pushRedo. keys. Qed.

Lemma perform_keeps fuel now c :
  rewrites_only c → keeps_keys (λ _, False) (perform fuel now c).
Proof.
  intros Hc. destruct c; try contradiction; unfold perform;
    (apply keeps_bind; [|intro; apply keeps_ret]);
    auto using keeps_updateTask, keeps_deleteTask, keeps_restoreTask,
      keeps_addNote, keeps_undo, keeps_redo.
Qed.

(** X1. A call that is not a create or a purge -- an update, a delete, a
    restore, a note, an undo or a redo -- leaves the set of ids of the store
    and the id counter as they are, whether it returns or throws; the store
    stays keyed by id. *)
Theorem rewriting_calls_keep_ids fuel now c m r m' :
  rewrites_only c →
  keyed (db m) →
  perform fuel now c m = Some (r, m') →
  keyed (db m') ∧ dom (db m') = dom (db m) ∧ nextId m' = nextId m.
Proof.
  intros Hc Hk H.
  destruct (perform_keeps fuel now c Hc _ _ _ Hk
              (λ i (F : False), match F with end) H) as [Hk' [Hd Hn]].
  auto.
Qed.

Lemma rewriting_calls_keep_ids_witness :
  let c := CDelete 2 true in
  let m' := Scenario.after (perform Scenario.fuel Scenario.now c) Scenario.three in
  rewrites_only c ∧ keyed (db Scenario.three) ∧
  perform Scenario.fuel Scenario.now c Scenario.three = Some (Ok tt, m') ∧
  keyed (db m') ∧ dom (db m') = dom (db Scenario.three) ∧
  nextId m' = nextId Scenario.three.
Proof.
  intros c m'.
  assert (Hrun : perform Scenario.fuel Scenario.now c Scenario.three
                 = Some (Ok tt, m')) by (vm_compute; reflexivity).
  split; [exact I|]. split; [exact keyed_three|]. split; [exact Hrun|].
  exact (rewriting_calls_keep_ids _ _ c _ _ _ I keyed_three Hrun).
Defined.

(** ** createTask *)

Lemma createTask_cases fuel now data m r m' :
  createTask fuel now data m = Some (r, m') →
  (∃ e, r = Throw e ∧ m' = m ∧ create_fails fuel data m e)
  ∨
  (∃ nm, truthy (d_name data) = Some nm ∧ Str.trim nm ≠ "" ∧
         r = Ok (created data nm (default 1 (nextId m))) ∧
         m' = after_create now data nm m ∧
         ∀ p, d_parentTaskId data = Some p →
              ∃ parent depth, db m !! p = Some parent ∧
                getTaskDepth fuel (db m) parent = Some depth ∧ depth < 2).
Proof.
  unfold createTask, create_fails.
  destruct (truthy (d_name data)) as [nm|] eqn:Hnm.
  2:{ intros [= <- <-]. left. eexists. split; [reflexivity|].
      split; [reflexivity|]. simpl. intros nm [=]. }
  unfold Str.eqb. case_bool_decide as Htrim.
  { intros [= <- <-]. left. eexists. split; [reflexivity|].
    split; [reflexivity|]. simpl. intros nm' [= <-]. exact Htrim. }
  intros H.
  assert (Hval : ∀ (v : M unit) rv mv, v m = Some (rv, mv) →
    v = match d_parentTaskId data with
        | Some p =>
            let* parent := getTaskById p in
            match parent with
            | None => throw (ParentNotFound p)
            | Some parent =>
                let* parentDepth := read (λ d, getTaskDepth fuel d parent) in
                if bool_decide (2 ≤ parentDepth) then throw MaxHierarchyReached
                else ret tt
            end
        | None => ret tt
        end →
    mv = m ∧
    ((rv = Ok tt ∧
      ∀ p, d_parentTaskId data = Some p →
           ∃ parent depth, db m !! p = Some parent ∧
             getTaskDepth fuel (db m) parent = Some depth ∧ depth < 2) ∨
     (rv = Throw MaxHierarchyReached ∧
      ∃ p parent depth, d_parentTaskId data = Some p ∧
        db m !! p = Some parent ∧
        getTaskDepth fuel (db m) parent = Some depth ∧ 2 ≤ depth) ∨
     ∃ p, d_parentTaskId data = Some p ∧ db m !! p = None ∧
          rv = Throw (ParentNotFound p))).
  { intros v rv mv Hv ->. destruct (d_parentTaskId data) as [p|].
    - unfold bind at 1, getTaskById in Hv.
      destruct (db m !! p) as [parent|] eqn:Hp.
      + unfold bind, read in Hv.
        destruct (getTaskDepth fuel (db m) parent) as [depth|] eqn:Hdepth;
          [|discriminate].
        case_bool_decide; injection Hv as <- <-; (split; [reflexivity|]).
        * right. left. split; [reflexivity|]. eauto 8.
        * left. split; [reflexivity|]. intros p' [= <-].
          exists parent, depth. split; [exact Hp|]. split; [exact Hdepth|]. lia.
      + injection Hv as <- <-. split; [reflexivity|]. right. right. eauto.
    - injection Hv as <- <-. split; [reflexivity|]. left.
      split; [reflexivity|]. intros p [=]. }
  inv_bind H.
  - destruct (Hval _ _ _ Hc eq_refl) as [-> [[_ Hpar]|[[[=] _]|(p & _ & _ & [=])]]].
    right. exists nm. split; [reflexivity|]. split; [exact Htrim|].
    revert H. unfold bind at 1, getNextId. unfold bind at 1, saveTask.
    unfold after_create, linkChild, created. cbn [id parentTaskId].
    destruct (d_parentTaskId data) as [p|].
    + unfold bind at 1. unfold bind at 1, getTaskById. cbn [db set_db set_nextId].
      destruct (_ !! p) as [parent|].
      * destruct (negb (includes (childTaskIds parent) (default 1 (nextId m))));
          intros [= <- <-]; auto.
      * intros [= <- <-]; auto.
    + intros [= <- <-]; auto.
  - destruct (Hval _ _ _ Hc eq_refl)
      as [-> [[[=] _]|[[[= ->] Hdeep]|(p & Hp & Hl & [= ->])]]];
      left; eexists; (split; [reflexivity|]); (split; [reflexivity|]).
    + exact Hdeep.
    + simpl. auto.
Qed.

(** ** purgeTask *)

Lemma erases_refl m : erases m m.
Proof. split; [intros j; now left | auto]. Qed.

Lemma erases_trans m1 m2 m3 : erases m1 m2 → erases m2 m3 → erases m1 m3.
Proof.
  intros (H1 & Hn1 & Hu1 & Hr1) (H2 & Hn2 & Hu2 & Hr2).
  split; [|repeat split; congruence].
  intros j.
  destruct (H1 j) as [H12|[H12 (t & Ht & Hd)]];
    destruct (H2 j) as [H23|[H23 (t' & Ht' & Hd')]].
  - left. congruence.
  - right. split; [exact H23|]. exists t'. rewrite <- H12. auto.
  - right. split; [congruence|]. eauto.
  - congruence.
Qed.

(** [purgeTask] erases records of the trash and does nothing else, whether
    it returns or throws. *)
Lemma purgeTask_erases fuel : ∀ i m r m',
  purgeTask fuel i m = Some (r, m') → erases m m'.
Proof.
  induction fuel as [|fuel IH]; intros i m r m' H; [discriminate|].
  cbn [purgeTask] in H. unfold bind at 1, getTaskById in H.
  destruct (db m !! i) as [t|] eqn:Ht; [|injection H as _ <-; apply erases_refl].
  destruct (deleted t) eqn:Hdel; simpl in H;
    [|injection H as _ <-; apply erases_refl].
  assert (Hloop : ∀ cs m0 r0 m1,
    forM_ cs (λ childId,
      let* child := getTaskById childId in
      match child with
      | Some child => when (deleted child) (purgeTask fuel childId)
      | None => ret tt
      end) m0 = Some (r0, m1) → erases m0 m1).
  { induction cs as [|c cs IHcs]; intros m0 r0 m1 Hl.
    - injection Hl as _ <-. apply erases_refl.
    - cbn [forM_] in Hl.
      assert (Hbody : ∀ rb mb,
        (let* child := getTaskById c in
         match child with
         | Some child => when (deleted child) (purgeTask fuel c)
         | None => ret tt
         end) m0 = Some (rb, mb) → erases m0 mb).
      { intros rb mb Hb. unfold bind, getTaskById in Hb.
        destruct (db m0 !! c) as [child|]; [|injection Hb as _ <-; apply erases_refl].
        destruct (deleted child); simpl in Hb;
          [eapply IH; eauto | injection Hb as _ <-; apply erases_refl]. }
      inv_bind Hl.
      + eapply erases_trans; [eapply Hbody; eauto | eapply IHcs; eauto].
      + eapply Hbody; eauto. }
  inv_bind H.
  - injection H as _ <-. apply Hloop in Hc.
    eapply erases_trans; [exact Hc|].
    split; [|auto]. intros j. cbn [db set_db].
    destruct (decide (i = j)) as [<-|Hne].
    + destruct Hc as (Hc & _). destruct (Hc i) as [Heq|[Hnone _]].
      * right. rewrite lookup_delete_eq. split; [reflexivity|].
        exists t. rewrite Heq. auto.
      * left. rewrite lookup_delete_eq. auto.
    + left. now rewrite lookup_delete_ne.
  - eapply Hloop; eauto.
Qed.

(** ** Ids and the counter *)

Lemma with_children_same t : with_children (childTaskIds t) t = t.
Proof. now destruct t. Qed.

Lemma linkChild_lookup n p d j :
  keyed d →
  linkChild n p d !! j =
    if bool_decide (p = Some j)
    then (λ parent, with_children (set_add n (childTaskIds parent)) parent) <$> d !! j
    else d !! j.
Proof.
  intros Hk. unfold linkChild. destruct p as [p|].
  2:{ now rewrite bool_decide_eq_false_2. }
  destruct (d !! p) as [parent|] eqn:Hp.
  - pose proof (Hk _ _ Hp) as Hid. unfold set_add.
    destruct (includes (childTaskIds parent) n) eqn:Hin; simpl.
    + case_bool_decide as Hj; [|reflexivity]. injection Hj as ->.
      rewrite Hp. simpl. now rewrite Hin, with_children_same.
    + rewrite Hid, lookup_insert. case_decide as Hj.
      * subst j. rewrite bool_decide_eq_true_2 by reflexivity.
        rewrite Hp. simpl. now rewrite Hin.
      * rewrite bool_decide_eq_false_2; [reflexivity|]. intros [= ->]. auto.
  - case_bool_decide as Hj; [|reflexivity]. injection Hj as ->. now rewrite Hp.
Qed.

Lemma keyed_linkChild n p d : keyed d → keyed (linkChild n p d).
Proof.
  intros Hk j t. rewrite linkChild_lookup by exact Hk.
  case_bool_decide; [|apply Hk].
  destruct (d !! j) as [parent|] eqn:Hj; [|discriminate].
  intros [= <-]. simpl. eauto.
Qed.

Lemma linkChild_is_Some n p d j :
  keyed d → is_Some (linkChild n p d !! j) ↔ is_Some (d !! j).
Proof.
  intros Hk. rewrite linkChild_lookup by exact Hk.
  case_bool_decide; [|reflexivity]. now rewrite fmap_is_Some.
Qed.

Lemma counter_ok_fresh m : counter_ok m → db m !! default 1 (nextId m) = None.
Proof.
  intros Hc. destruct (db m !! default 1 (nextId m)) eqn:H; [|reflexivity].
  specialize (Hc _ (mk_is_Some _ _ H)). lia.
Qed.

Lemma counter_ok_all m :
  map_Forall (λ j _, j < default 1 (nextId m)) (db m) → counter_ok m.
Proof. intros H j [t Hj]. exact (H j t Hj). Qed.

Lemma erases_keyed m m' : erases m m' → keyed (db m) → keyed (db m').
Proof.
  intros (He & _) Hk j t Hj. destruct (He j) as [Heq|[Hn _]]; [|congruence].
  apply Hk. congruence.
Qed.

Lemma erases_counter_ok m m' : erases m m' → counter_ok m → counter_ok m'.
Proof.
  intros (He & Hn & _) Hc j Hj. rewrite Hn. apply Hc.
  destruct (He j) as [Heq|[Hnone _]]; [congruence|].
  rewrite Hnone in Hj. now destruct Hj.
Qed.

Lemma rewriting_below_counter fuel now c m r m' :
  rewrites_only c → keyed (db m) → counter_ok m →
  perform fuel now c m = Some (r, m') →
  keyed (db m') ∧ counter_ok m' ∧
  default 1 (nextId m) ≤ default 1 (nextId m') ∧
  ∀ j, j < default 1 (nextId m) → db m !! j = None → db m' !! j = None.
Proof.
  intros Hrw Hk Hc H.
  destruct (perform_keeps fuel now c Hrw _ _ _ Hk
              (λ i (F : False), match F with end) H) as [Hk' [Hd Hn]].
  assert (Hsame : ∀ j, is_Some (db m' !! j) ↔ is_Some (db m !! j)).
  { intros j. now rewrite <- !elem_of_dom, Hd. }
  split; [exact Hk'|]. split; [|split].
  - intros j Hj. rewrite Hn. apply Hc, Hsame, Hj.
  - rewrite Hn. lia.
  - intros j _ Hj. apply eq_None_not_Some. rewrite Hsame, Hj. now intros [? [=]].
Qed.

(** X2. While the id counter is a safe integer -- below [2^53] in
    magnitude, where [nextId + 1] is exact -- every call of the store keeps
    every id of the store below the counter: the store stays keyed by id,
    the counter does not go down, and an id below the counter that is not in
    the store -- the id of a purged task -- is not in the store afterwards
    either.  So up to there no id is given twice. *)
Theorem ids_stay_below_counter fuel now c m r m' :
  keyed (db m) → counter_ok m → Num.safe (default 1 (nextId m)) →
  perform fuel now c m = Some (r, m') →
  keyed (db m') ∧ counter_ok m' ∧
  default 1 (nextId m) ≤ default 1 (nextId m') ∧
  ∀ j, j < default 1 (nextId m) → db m !! j = None → db m' !! j = None.
Proof.
  intros Hk Hc Hsafe H.
  destruct c;
    try (refine (rewriting_below_counter _ _ _ _ _ _ _ Hk Hc H); exact I);
    unfold perform in H.
  - inv_bind H.
    + injection H as _ <-.
      apply createTask_cases in Hc0 as [(e & [=] & _)|(nm & _ & _ & _ & -> & _)].
      unfold after_create, counter_ok in *. cbn [db nextId].
      set (n := default 1 (nextId m)) in *.
      change (default 1 (Some (Num.add n 1))) with (Num.add n 1).
      rewrite (add_safe n Hsafe).
      assert (Hk1 : keyed (<[n := created data nm n]> (db m))).
      { apply (keyed_insert _ (created data nm n)), Hk. }
      split; [apply keyed_linkChild, Hk1|]. split; [|split; [lia|]].
      * intros j Hj.
        apply linkChild_is_Some in Hj; [|exact Hk1].
        rewrite lookup_insert in Hj. case_decide; [lia|].
        specialize (Hc _ Hj). lia.
      * intros j Hlt Hj. apply eq_None_not_Some.
        rewrite linkChild_is_Some by exact Hk1.
        rewrite lookup_insert_ne by lia. rewrite Hj. now intros [? [=]].
    + apply createTask_cases in Hc0 as [(e' & _ & -> & _)|(nm & _ & _ & [=] & _)].
      split; [exact Hk|]. split; [exact Hc|]. split; [lia|auto].
  - apply purgeTask_erases in H.
    split; [eapply erases_keyed; eauto|]. split; [eapply erases_counter_ok; eauto|].
    destruct H as (He & -> & _). split; [lia|].
    intros j _ Hj. destruct (He j) as [Heq|[Hnone _]]; congruence.
Qed.

Lemma keyed_after {A} (c : M A) m :
  preserves (λ m, keyed (db m)) c → keyed (db m) → keyed (db (Scenario.after c m)).
Proof. intros Hp Hk. now apply (after_keeps (λ m, keyed (db m))). Qed.

Lemma ids_stay_below_counter_witness :
  let c := CCreate (Scenario.named "d" None) in
  let m' := Scenario.after (perform Scenario.fuel Scenario.now c) Scenario.purged in
  keyed (db Scenario.purged) ∧ counter_ok Scenario.purged ∧
  Num.safe (default 1 (nextId Scenario.purged)) ∧
  perform Scenario.fuel Scenario.now c Scenario.purged = Some (Ok tt, m') ∧
  keyed (db m') ∧ counter_ok m' ∧
  default 1 (nextId Scenario.purged) ≤ default 1 (nextId m') ∧
  ∀ j, j < default 1 (nextId Scenario.purged) →
       db Scenario.purged !! j = None → db m' !! j = None.
Proof.
  intros c m'.
  assert (Hk : keyed (db Scenario.purged)).
  { intros j t. vm_compute. discriminate. }
  assert (Hc : counter_ok Scenario.purged).
  { intros j [t Hj]. revert Hj. vm_compute. discriminate. }
  assert (Hrun : perform Scenario.fuel Scenario.now c Scenario.purged
                 = Some (Ok tt, m')) by (vm_compute; reflexivity).
  assert (Hsafe : Num.safe (default 1 (nextId Scenario.purged)))
    by (vm_compute; reflexivity).
  split; [exact Hk|]. split; [exact Hc|]. split; [exact Hsafe|].
  split; [exact Hrun|].
  exact (ids_stay_below_counter _ _ _ _ _ _ Hk Hc Hsafe Hrun).
Defined.

(** X3. A returning [createTask] gives the task the value of the id
    counter, which no record of the store has, and puts [id + 1] as the
    double gives it into the counter: one up while the id is a safe integer.
    The store then holds the returned task under that id, as a live task
    without children; the parent named in the data was in the store and now
    lists the new id, at the end of its children; every other record is as
    before.  One create action goes on the undo stack and the redo stack is
    emptied. *)
Theorem create_adds_fresh_task fuel now data m t m' :
  keyed (db m) → counter_ok m →
  createTask fuel now data m = Some (Ok t, m') →
  id t = default 1 (nextId m) ∧ db m !! id t = None ∧
  nextId m' = Some (Num.add (id t) 1) ∧
  (Num.safe (id t) → nextId m' = Some (id t + 1)) ∧
  db m' !! id t = Some t ∧
  parentTaskId t = d_parentTaskId data ∧ childTaskIds t = [] ∧
  deleted t = false ∧
  (∀ p, parentTaskId t = Some p →
        ∃ parent, db m !! p = Some parent ∧
          db m' !! p =
            Some (with_children (set_add (id t) (childTaskIds parent)) parent)) ∧
  (∀ j, j ≠ id t → parentTaskId t ≠ Some j → db m' !! j = db m !! j) ∧
  undoStack m' = capped (undoStack m) (ACreate (id t) now) ∧
  redoStack m' = [].
Proof.
  intros Hk Hc H.
  apply createTask_cases in H as [(e & [=] & _)|(nm & _ & _ & [= ->] & -> & Hpar)].
  pose proof (counter_ok_fresh _ Hc) as Hfresh.
  set (n := default 1 (nextId m)) in *.
  assert (Hk1 : keyed (<[n := created data nm n]> (db m))).
  { apply (keyed_insert _ (created data nm n)), Hk. }
  unfold after_create. fold n. cbn [db nextId undoStack redoStack id created
    parentTaskId childTaskIds deleted].
  repeat split; try reflexivity.
  - exact Hfresh.
  - intros Hsafe. now rewrite (add_safe n Hsafe).
  - rewrite linkChild_lookup by exact Hk1. case_bool_decide as Hp.
    + destruct (Hpar _ Hp) as (parent & depth & Hparent & _). congruence.
    + now rewrite lookup_insert_eq.
  - intros p Hp. destruct (Hpar _ Hp) as (parent & depth & Hparent & _).
    exists parent. split; [exact Hparent|].
    rewrite linkChild_lookup by exact Hk1.
    rewrite bool_decide_eq_true_2 by exact Hp.
    rewrite lookup_insert_ne by congruence. now rewrite Hparent.
  - intros j Hj Hp. rewrite linkChild_lookup by exact Hk1.
    rewrite bool_decide_eq_false_2 by exact Hp.
    now rewrite lookup_insert_ne by congruence.
Qed.

Lemma create_adds_fresh_task_witness :
  let data := Scenario.named "c" (Some 2) in
  keyed (db Scenario.two) ∧ counter_ok Scenario.two ∧
  createTask Scenario.fuel Scenario.now data Scenario.two
    = Some (Ok Scenario.task_c, Scenario.three) ∧
  db Scenario.three !! 3 = Some Scenario.task_c ∧
  db Scenario.two !! 3 = None.
Proof.
  intros data.
  assert (Hc : counter_ok Scenario.two).
  { apply counter_ok_all, (bool_decide_unpack _). vm_compute. reflexivity. }
  assert (Hrun : createTask Scenario.fuel Scenario.now data Scenario.two
                 = Some (Ok Scenario.task_c, Scenario.three))
    by (vm_compute; reflexivity).
  split; [exact keyed_two|]. split; [exact Hc|]. split; [exact Hrun|].
  destruct (create_adds_fresh_task _ _ _ _ _ _ keyed_two Hc Hrun)
    as (_ & Hfresh & _ & _ & Hstored & _).
  split; [exact Hstored | exact Hfresh].
Defined.

(** X4. A [createTask] that throws has written nothing: the store, the id
    counter and both history stacks are as before.  It throws exactly in
    these cases, tried in this order: the name is missing or, once trimmed,
    empty; the parent named in the data is not in the store; that parent is
    two levels down or deeper. *)
Theorem failed_create_changes_nothing fuel now data m :
  (∀ e m', createTask fuel now data m = Some (Throw e, m') →
           m' = m ∧ create_fails fuel data m e) ∧
  (create_fails fuel data m TaskNameRequired →
   createTask fuel now data m = Some (Throw TaskNameRequired, m)) ∧
  (∀ e, e ≠ TaskNameRequired →
        ¬ create_fails fuel data m TaskNameRequired →
        create_fails fuel data m e →
        createTask fuel now data m = Some (Throw e, m)).
Proof.
  split; [|split].
  - intros e m' H.
    apply createTask_cases in H as [(e' & [= ->] & -> & He)|(nm & _ & _ & [=] & _)].
    auto.
  - unfold create_fails, createTask. intros Hname.
    destruct (truthy (d_name data)) as [nm|]; [|reflexivity].
    unfold Str.eqb. now rewrite bool_decide_eq_true_2 by auto.
  - intros e He Hname Hfail. unfold createTask.
    destruct (truthy (d_name data)) as [nm|] eqn:Hnm.
    2:{ exfalso. apply Hname. simpl. rewrite Hnm. intros ? [=]. }
    unfold Str.eqb. case_bool_decide as Htrim.
    { exfalso. apply Hname. simpl. rewrite Hnm. now intros ? [= <-]. }
    destruct e; simpl in Hfail; try contradiction.
    + destruct Hfail as [-> Hl]. unfold bind at 1. unfold bind at 1, getTaskById.
      now rewrite Hl.
    + destruct Hfail as (p & parent & depth & -> & Hl & Hd & Hle).
      unfold bind at 1. unfold bind at 1, getTaskById. rewrite Hl.
      unfold bind, read. rewrite Hd.
      now rewrite bool_decide_eq_true_2 by exact Hle.
Qed.

Lemma failed_create_changes_nothing_witness :
  let data := Scenario.named "d" (Some 3) in
  createTask Scenario.fuel Scenario.now data Scenario.three
    = Some (Throw MaxHierarchyReached, Scenario.three) ∧
  create_fails Scenario.fuel data Scenario.three MaxHierarchyReached ∧
  createTask Scenario.fuel Scenario.now (Scenario.named " " None)
    Scenario.three = Some (Throw TaskNameRequired, Scenario.three).
Proof.
  intros data.
  assert (Hrun : createTask Scenario.fuel Scenario.now data Scenario.three
                 = Some (Throw MaxHierarchyReached, Scenario.three))
    by (vm_compute; reflexivity).
  split; [exact Hrun|]. split.
  - exact (proj2 (proj1 (failed_create_changes_nothing Scenario.fuel
                           Scenario.now data Scenario.three) _ _ Hrun)).
  - apply (proj1 (proj2 (failed_create_changes_nothing Scenario.fuel
                           Scenario.now (Scenario.named " " None)
                           Scenario.three))).
    simpl. intros nm. vm_compute. now intros [= <-].
Defined.

(** ** What a call leaves of the history *)

Lemma same_history_save u r m t :
  same_history u r m → same_history u r (set_db (<[id t := t]> (db m)) m).
Proof. intros H; exact H. Qed.

Ltac hist := repeat first
  [ progress cbv beta zeta
  | match goal with
    | |- preserves _ (ret _) => apply preserves_ret
    | |- preserves _ (throw _) => apply preserves_throw
    | |- preserves _ (read _) => apply preserves_read
    | |- preserves _ (getTaskById _) => apply preserves_getTaskById
    | |- preserves _ (saveTask _) =>
        apply preserves_saveTask; intros ? ?; apply same_history_save
    | |- preserves _ (detachFromParent _ _) =>
        apply preserves_detachFromParent; intros ? ?; apply same_history_save
    | |- preserves _ (attachToParent _ _) =>
        apply preserves_attachToParent; intros ? ?; apply same_history_save
    | |- preserves _ (bind _ _) => apply preserves_bind; [ | intro ]
    | |- preserves _ (when _ _) => apply preserves_when
    | |- preserves _ (forM_ _ _) => apply preserves_forM_; intro
    | |- preserves _ (foldM _ _ _) => apply preserves_foldM; intros ? ?
    | |- preserves _ (match ?x with _ => _ end) => destruct x
    | |- preserves _ (if ?x then _ else _) => destruct x
    | |- preserves _ _ => solve [auto]
    end ].

(** A delete below the root of a cascade records nothing. *)
Lemma deleteTask_inner_history u r now fuel : ∀ i dc,
  preserves (same_history u r) (deleteTask fuel now i dc false).
Proof.
  induction fuel as [|fuel IH]; intros i dc; simpl.
  - intros m r' m' [=].
  - hist.
Qed.

Lemma foldM_app_prefix {A} (f : A → M (list Z)) (l : list A) : ∀ acc m ids m',
  foldM (λ acc x, let* more := f x in ret (acc ++ more)) l acc m
    = Some (Ok ids, m') →
  ∃ rest, ids = acc ++ rest.
Proof.
  induction l as [|x l IH]; intros acc m ids m' H.
  - injection H as <- <-. exists []. now rewrite app_nil_r.
  - cbn [foldM] in H. apply bind_Ok in H as (acc' & m1 & Hf & H).
    apply bind_Ok in Hf as (more & m2 & _ & Hf). injection Hf as <- <-.
    apply IH in H as [rest ->]. exists (more ++ rest). now rewrite app_assoc.
Qed.

Lemma same_history_refl m : same_history (undoStack m) (redoStack m) m.
Proof. split; reflexivity. Qed.

(** The history after a root delete. *)
Lemma deleteTask_root_history fuel now i dc m r m' :
  keyed (db m) →
  deleteTask fuel now i dc true m = Some (r, m') →
  match r with
  | Ok ids => redoStack m' = [] ∧
              undoStack m' = capped (undoStack m) (ADelete i ids now) ∧
              head ids = Some i
  | Throw _ => same_history (undoStack m) (redoStack m) m'
  end.
Proof.
  intros Hk H. destruct fuel as [|fuel]; [discriminate|].
  cbn [deleteTask] in H. unfold bind at 1 in H. unfold getTaskById at 1 in H.
  destruct (db m !! i) as [t|] eqn:Hl; [|injection H as <- <-; apply same_history_refl].
  pose proof (Hk _ _ Hl) as Hid.
  inv_bind H.
  - assert (Hh : same_history (undoStack m) (redoStack m) m0 ∧ head x = Some i).
    { destruct dc.
      - split.
        + eapply (preserves_foldM (same_history _ _)); [|exact Hc|apply same_history_refl].
          intros acc c. hist. apply deleteTask_inner_history.
        + apply foldM_app_prefix in Hc as [rest ->]. reflexivity.
      - apply bind_Ok in Hc as ([] & m1 & Hloop & Hc). injection Hc as <- <-.
        split; [|reflexivity].
        eapply (preserves_forM_ (same_history _ _)); [|exact Hloop|apply same_history_refl].
        intros c. hist. }
    destruct Hh as [Hh Hhead].
    inv_bind H.
    + assert (Hh1 : same_history (undoStack m) (redoStack m) m1).
      { eapply (preserves_detachFromParent (same_history _ _)); [|exact Hc0|exact Hh].
        intros ? ?; apply same_history_save. }
      unfold bind at 1, saveTask in H. unfold bind at 1 in H. simpl in H.
      injection H as <- <-. simpl. destruct Hh1 as [Hu Hr].
      rewrite Hid. unfold capped. rewrite Hu. auto.
    + eapply (preserves_detachFromParent (same_history _ _)); [|exact Hc0|exact Hh].
      intros ? ?; apply same_history_save.
  - destruct dc.
    + eapply (preserves_foldM (same_history _ _)); [|exact Hc|apply same_history_refl].
      intros acc c. hist. apply deleteTask_inner_history.
    + eapply (preserves_bind (same_history _ _)); [| |exact Hc|apply same_history_refl].
      * hist.
      * intros. hist.
Qed.

(** The history after a restore. *)
Lemma restoreTask_history now i m t m' :
  keyed (db m) →
  restoreTask now i m = Some (Ok t, m') →
  redoStack m' = [] ∧ undoStack m' = capped (undoStack m) (ARestore i now).
Proof.
  intros Hk H. unfold restoreTask in H. unfold bind at 1, getTaskById in H.
  destruct (db m !! i) as [t0|] eqn:Hl; [|discriminate].
  pose proof (Hk _ _ Hl) as Hid.
  destruct (deleted t0); simpl in H; [|discriminate].
  unfold bind at 1, saveTask in H. inv_bind H.
  assert (Hh : same_history (undoStack m) (redoStack m) m0).
  { eapply (preserves_attachToParent (same_history _ _)); [|exact Hc|split; reflexivity].
    intros ? ?; apply same_history_save. }
  injection H as <- <-. simpl. destruct Hh as [Hu Hr].
  rewrite Hid. unfold capped. rewrite Hu. auto.
Qed.

Lemma addNote_history now i c m r m' :
  addNote now i c m = Some (r, m') →
  same_history (undoStack m) (redoStack m) m'.
Proof.
  unfold addNote, bind, getTaskById, saveTask.
  destruct (db m !! i); intros [= <- <-]; split; reflexivity.
Qed.

Lemma updateTask_Throw_history fuel now i u m e m' :
  updateTask fuel now i u m = Some (Throw e, m') →
  same_history (undoStack m) (redoStack m) m'.
Proof.
  intros H. destruct (db m !! i) as [t0|] eqn:Hl.
  - destruct (failed_update_is_detached _ _ _ _ _ _ _ _ Hl H) as [Hdet _].
    eapply (preserves_detachFromParent (same_history _ _)); [|exact Hdet|split; reflexivity].
    intros ? ?; apply same_history_save.
  - unfold updateTask, bind, getTaskById in H. rewrite Hl in H.
    injection H as _ <-. split; reflexivity.
Qed.

Lemma plain_call_history fuel now c m r m' :
  keyed (db m) → plain_call c →
  perform fuel now c m = Some (r, m') →
  match r with
  | Ok _ =>
      if records_action c
      then redoStack m' = [] ∧
           ∃ a, undoStack m' = capped (undoStack m) a ∧ recorded now m c a
      else undoStack m' = undoStack m ∧ redoStack m' = redoStack m
  | Throw _ => undoStack m' = undoStack m ∧ redoStack m' = redoStack m
  end.
Proof.
  intros Hk Hp H. destruct c; try contradiction; unfold perform in H; simpl.
  - inv_bind H.
    + injection H as <- <-.
      apply createTask_cases in Hc as [(e & [=] & _)|(nm & _ & _ & _ & -> & _)].
      simpl. split; [reflexivity|]. eexists. split; [reflexivity|]. simpl. auto.
    + apply createTask_cases in Hc as [(e' & _ & -> & _)|(nm & _ & _ & [=] & _)].
      auto.
  - inv_bind H.
    + injection H as <- <-.
      pose proof (updateTask_stored _ _ _ _ _ _ _ Hk Hc) as [Hid _].
      apply updateTask_Ok in Hc as (t0 & m1 & m2 & Hl & -> & Hre & Hca & Hch).
      assert (Hh : same_history (undoStack m) (redoStack m) m2).
      { eapply (preserves_cascade (same_history _ _)); [|exact Hca|].
        - intros ? ?; apply same_history_save.
        - eapply (preserves_reparentIfChanged (same_history _ _)); [|exact Hre|].
          + intros ? ?; apply same_history_save.
          + split; reflexivity. }
      destruct Hh as [Hu Hr].
      apply checkAndCompleteParent_inv in Hch as [_ [(p & _ & ->)|[_ ->]]];
        simpl; rewrite Hu; (split; [reflexivity|]);
        eexists; (split; [reflexivity|]); simpl; eauto 8.
    + apply updateTask_Throw_history in Hc. exact Hc.
  - inv_bind H.
    + injection H as <- <-.
      apply (deleteTask_root_history _ _ _ _ _ _ _ Hk) in Hc as (Hr & Hu & Hh).
      split; [exact Hr|]. eexists. split; [exact Hu|]. simpl. auto.
    + apply (deleteTask_root_history _ _ _ _ _ _ _ Hk) in Hc. exact Hc.
  - inv_bind H.
    + injection H as <- <-.
      apply (restoreTask_history _ _ _ _ _ Hk) in Hc as (Hr & Hu).
      split; [exact Hr|]. eexists. split; [exact Hu|]. simpl. auto.
    + apply restoreTask_Throw in Hc as ->. auto.
  - apply purgeTask_erases in H as (_ & _ & Hu & Hr).
    destruct r; auto.
  - inv_bind H.
    + injection H as <- <-. apply addNote_history in Hc. exact Hc.
    + apply addNote_history in Hc. exact Hc.
Qed.

(** X5. Create, update, delete and restore record exactly one action when
    they return -- it goes on top of the undo stack, the oldest action is
    dropped when the stack would pass its cap, and the redo stack is emptied
    -- and record nothing when they throw.  A note and a purge leave both
    stacks as they are: neither can be undone. *)
Theorem calls_record_one_action fuel now c m r m' :
  keyed (db m) → plain_call c →
  perform fuel now c m = Some (r, m') →
  match r with
  | Ok _ =>
      if records_action c
      then redoStack m' = [] ∧
           ∃ a, undoStack m' = capped (undoStack m) a ∧ recorded now m c a
      else undoStack m' = undoStack m ∧ redoStack m' = redoStack m
  | Throw _ => undoStack m' = undoStack m ∧ redoStack m' = redoStack m
  end.
Proof.
  intros Hk Hp H. exact (plain_call_history _ _ _ _ _ _ Hk Hp H).
Qed.

Lemma calls_record_one_action_witness :
  let c := CDelete 1 true in
  let m' := Scenario.after (perform Scenario.fuel Scenario.now c) Scenario.three in
  keyed (db Scenario.three) ∧ plain_call c ∧
  perform Scenario.fuel Scenario.now c Scenario.three = Some (Ok tt, m') ∧
  redoStack m' = [] ∧
  ∃ a, undoStack m' = capped (undoStack Scenario.three) a ∧
       recorded Scenario.now Scenario.three c a.
Proof.
  intros c m'.
  assert (Hrun : perform Scenario.fuel Scenario.now c Scenario.three
                 = Some (Ok tt, m')) by (vm_compute; reflexivity).
  split; [exact keyed_three|]. split; [exact I|]. split; [exact Hrun|].
  exact (calls_record_one_action _ _ c _ _ _ keyed_three I Hrun).
Defined.

(** ** undo and redo, step by step *)

Lemma undo_eq now m :
  undo now m =
  match last (undoStack m) with
  | None => Some (Throw NothingToUndo, m)
  | Some a =>
      match undoAction now a (set_undoStack (removelast (undoStack m)) m) with
      | Some (Ok _, m1) => Some (Ok a, set_redoStack (redoStack m1 ++ [a]) m1)
      | Some (Throw e, m1) => Some (Throw e, set_undoStack (undoStack m1 ++ [a]) m1)
      | None => None
      end
  end.
Proof.
  unfold undo. unfold bind at 1, getUndoStack.
  destruct (last (undoStack m)) as [a|]; [|reflexivity].
  unfold bind at 1, putUndoStack, try_catch. unfold bind at 1.
  destruct (undoAction now a _) as [[[[]|e] m1]|]; reflexivity.
Qed.

Lemma redo_eq now m :
  redo now m =
  match last (redoStack m) with
  | None => Some (Throw NothingToRedo, m)
  | Some a =>
      match redoAction now a (set_redoStack (removelast (redoStack m)) m) with
      | Some (Ok _, m1) => Some (Ok a, set_undoStack (undoStack m1 ++ [a]) m1)
      | Some (Throw e, m1) => Some (Throw e, set_redoStack (redoStack m1 ++ [a]) m1)
      | None => None
      end
  end.
Proof.
  unfold redo. unfold bind at 1, getRedoStack.
  destruct (last (redoStack m)) as [a|]; [|reflexivity].
  unfold bind at 1, putRedoStack, try_catch. unfold bind at 1.
  destruct (redoAction now a _) as [[[[]|e] m1]|]; reflexivity.
Qed.

Lemma length_removelast_last {A} (l : list A) a :
  last l = Some a → length l = S (length (removelast l)).
Proof.
  intros H. apply last_removelast in H. rewrite <- H at 1.
  rewrite length_app. simpl. lia.
Qed.

Lemma capped_length_le l a n :
  (maxHistorySize ≤ n)%nat → (length l ≤ S n)%nat →
  (length (capped l a) ≤ S n)%nat ∧
  ((length l ≤ maxHistorySize)%nat → (length (capped l a) ≤ maxHistorySize)%nat).
Proof.
  intros Hn Hl. unfold capped.
  destruct (maxHistorySize <? length (l ++ [a]))%nat eqn:Hc.
  - apply Nat.ltb_lt in Hc. rewrite length_app in Hc. simpl in Hc.
    destruct l as [|x l]; simpl in *; [unfold maxHistorySize in *; lia|].
    rewrite length_app. simpl. lia.
  - apply Nat.ltb_ge in Hc. rewrite length_app in *. simpl in *. lia.
Qed.

(** What the two kinds of redone action leave of the history. *)
Lemma redoAction_history now a m r m' :
  keyed (db m) →
  redoAction now a m = Some (r, m') →
  match a, r with
  | (ACreate i _ | ARestore i _), Ok _ =>
      redoStack m' = [] ∧ undoStack m' = capped (undoStack m) (ARestore i now)
  | _, _ => same_history (undoStack m) (redoStack m) m'
  end.
Proof.
  intros Hk H.
  destruct a as [i ts|i p n ts|i ids ts|i ts]; simpl in H.
  - inv_bind H.
    + injection H as <- <-. eapply restoreTask_history; eauto.
    + apply restoreTask_Throw in Hc as ->. apply same_history_refl.
  - assert (Hh : same_history (undoStack m) (redoStack m) m').
    { eapply (preserves_bind (same_history _ _)); [| |exact H|apply same_history_refl].
      - apply preserves_updateTaskWithoutHistory. intros ? ?; apply same_history_save.
      - intros. apply preserves_ret. }
    destruct r; exact Hh.
  - assert (Hh : same_history (undoStack m) (redoStack m) m').
    { eapply (preserves_forM_ (same_history _ _)); [|exact H|apply same_history_refl].
      intros j. apply preserves_bind; [|intros; apply preserves_ret].
      apply preserves_deleteTaskWithoutHistory. intros ? ?; apply same_history_save. }
    destruct r; exact Hh.
  - inv_bind H.
    + injection H as <- <-. eapply restoreTask_history; eauto.
    + apply restoreTask_Throw in Hc as ->. apply same_history_refl.
Qed.

(** [restoreTask] of a task of the trash returns, and the task is live
    afterwards. *)
Lemma restoreTask_Ok now i m t :
  keyed (db m) → db m !! i = Some t → deleted t = true →
  ∃ m', restoreTask now i m = Some (Ok (with_deleted false None t), m') ∧
        ∃ t', db m' !! i = Some t' ∧ deleted t' = false.
Proof.
  intros Hk Hl Hd. pose proof (Hk _ _ Hl) as Hid.
  unfold restoreTask. unfold bind at 1, getTaskById. rewrite Hl, Hd.
  simpl. unfold bind at 1, saveTask. unfold bind at 1.
  set (t1 := with_deleted false None t). set (m1 := set_db _ m).
  assert (H1 : ∃ t', db m1 !! i = Some t' ∧ deleted t' = false).
  { exists t1. split; [|reflexivity]. unfold m1. simpl. rewrite Hid.
    apply lookup_insert_eq. }
  destruct (attachToParent_returns i t1 m1) as [m2 Hat]. rewrite Hat.
  eexists. split; [reflexivity|]. simpl.
  revert Hat. unfold attachToParent.
  destruct (parentTaskId t1) as [p|]; [|intros [= <-]; exact H1].
  unfold bind, getTaskById. destruct (db m1 !! p) as [parent|] eqn:Hp;
    [|intros [= <-]; exact H1].
  destruct (negb (deleted parent) && negb (includes (childTaskIds parent) i)) eqn:Hg;
    simpl; intros [= <-]; [|exact H1].
  simpl. rewrite lookup_insert. case_decide as Hpi.
  - eexists. split; [reflexivity|]. simpl.
    apply andb_true_iff in Hg as [Hg _]. now apply negb_true_iff in Hg.
  - exact H1.
Qed.

(** X6. Redoing a create or a restore is not a plain replay: the task is
    restored by [restoreTask], which records a restore action of its own
    and empties the redo stack, and the redone action is then pushed on top
    without the cap.  So the undo stack gains two actions for one redo, and
    every other action that was waiting to be redone is lost. *)
Theorem redo_of_create_records_restore now m a i t :
  keyed (db m) →
  last (redoStack m) = Some a → revives a i →
  db m !! i = Some t → deleted t = true →
  ∃ m', redo now m = Some (Ok a, m') ∧
        redoStack m' = [] ∧
        undoStack m' = capped (undoStack m) (ARestore i now) ++ [a] ∧
        ∃ t', db m' !! i = Some t' ∧ deleted t' = false.
Proof.
  intros Hk Hlast Hrev Hl Hd. rewrite redo_eq, Hlast.
  set (m0 := set_redoStack (removelast (redoStack m)) m).
  destruct (restoreTask_Ok now i m0 t Hk Hl Hd) as (m1 & Hres & Hlive).
  assert (Hredo : redoAction now a m0 = Some (Ok tt, m1)).
  { destruct a as [j ts|j p n ts|j ids ts|j ts]; simpl in Hrev;
      try contradiction; subst j; simpl; unfold bind; now rewrite Hres. }
  rewrite Hredo. eexists. split; [reflexivity|].
  destruct (restoreTask_history now i m0 _ m1 Hk Hres) as [Hr Hu].
  simpl. rewrite Hr, Hu. auto.
Qed.

(** X7. The two stacks of the history together never hold more than
    twenty-one actions, one more than the cap of the undo stack: no call
    takes the history beyond that, whether it returns or throws.  The one
    place that reaches twenty-one is the redo of a create or restore
    action. *)
Theorem history_holds_at_most_21 fuel now c m r m' :
  keyed (db m) → (history_size m ≤ S maxHistorySize)%nat →
  perform fuel now c m = Some (r, m') →
  (history_size m' ≤ S maxHistorySize)%nat.
Proof.
  unfold history_size. intros Hk Hsz H.
  assert (Hplain : plain_call c →
    (length (undoStack m') + length (redoStack m') ≤ S maxHistorySize)%nat).
  { intros Hp. pose proof (plain_call_history _ _ _ _ _ _ Hk Hp H) as Hh.
    destruct r as [[]|e]; [|destruct Hh as [-> ->]; exact Hsz].
    destruct (records_action c); [|destruct Hh as [-> ->]; exact Hsz].
    destruct Hh as (-> & a & -> & _). simpl.
    destruct (capped_length_le (undoStack m) a maxHistorySize) as [Hle _]; lia. }
  destruct c; try (apply Hplain; exact I); clear Hplain; unfold perform in H.
  - assert (Hun : ∃ ra, undo now m = Some (ra, m')).
    { unfold bind in H. destruct (undo now m) as [[[a|e] m1]|]; [| |discriminate].
      - injection H as _ <-. eauto.
      - injection H as _ <-. eauto. }
    clear H. destruct Hun as [ra H]. rewrite undo_eq in H.
    destruct (last (undoStack m)) as [a|] eqn:Hlast; [|injection H as _ <-; exact Hsz].
    apply length_removelast_last in Hlast.
    destruct (undoAction now a _) as [[[[]|e] m1]|] eqn:Hact; [| |discriminate].
    + injection H as _ <-.
      destruct (same_history_undoAction now a _ _ _ _ _ Hact (same_history_refl _))
        as [Hu1 Hr1]. simpl in *. rewrite Hr1, length_app, Hu1. simpl. lia.
    + injection H as _ <-.
      destruct (same_history_undoAction now a _ _ _ _ _ Hact (same_history_refl _))
        as [Hu1 Hr1]. simpl in *. rewrite Hr1, Hu1, length_app. simpl. lia.
  - assert (Hre : ∃ ra, redo now m = Some (ra, m')).
    { unfold bind in H. destruct (redo now m) as [[[a|e] m1]|]; [| |discriminate].
      - injection H as _ <-. eauto.
      - injection H as _ <-. eauto. }
    clear H. destruct Hre as [ra H]. rewrite redo_eq in H.
    destruct (last (redoStack m)) as [a|] eqn:Hlast; [|injection H as _ <-; exact Hsz].
    apply length_removelast_last in Hlast.
    destruct (redoAction now a _) as [[rr m1]|] eqn:Hact; [|discriminate].
    pose proof (redoAction_history now a (set_redoStack _ m) _ _ Hk Hact) as Hh.
    assert (Hcap : ∀ b, (length (capped (undoStack m) b) ≤ maxHistorySize)%nat).
    { intros b. apply (capped_length_le _ _ maxHistorySize); lia. }
    destruct rr as [[]|e]; injection H as _ <-; simpl in *.
    + destruct a as [j ts|j p n ts|j ids ts|j ts];
        try (destruct Hh as [Hr1 Hu1]; rewrite Hr1, length_app, Hu1; simpl;
             specialize (Hcap (ARestore j now)); lia);
        destruct Hh as [Hu1 Hr1]; simpl in *;
        rewrite Hr1, length_app, Hu1; simpl; lia.
    + assert (Hs : same_history (undoStack m) (removelast (redoStack m)) m1)
        by (destruct a; exact Hh).
      destruct Hs as [Hu1 Hr1]. rewrite Hu1, length_app, Hr1. simpl. lia.
Qed.

Lemma keyed_checked d : map_Forall (λ i t, id t = i) d → keyed d.
Proof. intros H i t Hi. exact (H i t Hi). Qed.

Ltac keyed_check := apply keyed_checked, (bool_decide_unpack _); vm_compute; reflexivity.

Lemma history_holds_at_most_21_witness :
  let m' := Scenario.after (perform Scenario.fuel Scenario.now CRedo) create_undone in
  keyed (db create_undone) ∧
  (history_size create_undone ≤ S maxHistorySize)%nat ∧
  perform Scenario.fuel Scenario.now CRedo create_undone = Some (Ok tt, m') ∧
  (history_size m' ≤ S maxHistorySize)%nat ∧
  length (undoStack m') = 21%nat.
Proof.
  intros m'.
  assert (Hk : keyed (db create_undone)) by keyed_check.
  assert (Hsz : (history_size create_undone ≤ S maxHistorySize)%nat)
    by (vm_compute; lia).
  assert (Hrun : perform Scenario.fuel Scenario.now CRedo create_undone
                 = Some (Ok tt, m')) by (vm_compute; reflexivity).
  split; [exact Hk|]. split; [exact Hsz|]. split; [exact Hrun|].
  split; [exact (history_holds_at_most_21 _ _ _ _ _ _ Hk Hsz Hrun)|].
  vm_compute. reflexivity.
Defined.

Lemma redo_of_create_records_restore_witness :
  let a := ACreate 2 Scenario.now in
  let t := with_deleted true (Some Scenario.now)
             (created (Scenario.named "b" None) "b" 2) in
  keyed (db create_undone) ∧
  last (redoStack create_undone) = Some a ∧ revives a 2 ∧
  db create_undone !! 2 = Some t ∧ deleted t = true ∧
  ∃ m', redo Scenario.now create_undone = Some (Ok a, m') ∧
        redoStack m' = [] ∧
        undoStack m' =
          capped (undoStack create_undone) (ARestore 2 Scenario.now) ++ [a] ∧
        ∃ t', db m' !! 2 = Some t' ∧ deleted t' = false.
Proof.
  intros a t.
  assert (Hk : keyed (db create_undone)) by keyed_check.
  assert (Hlast : last (redoStack create_undone) = Some a)
    by (vm_compute; reflexivity).
  assert (Hl : db create_undone !! 2 = Some t) by (vm_compute; reflexivity).
  split; [exact Hk|]. split; [exact Hlast|]. split; [reflexivity|].
  split; [exact Hl|]. split; [reflexivity|].
  exact (redo_of_create_records_restore Scenario.now _ a 2 t Hk Hlast eq_refl Hl eq_refl).
Defined.

(** ** Undoing and redoing an update *)

(** [updateTaskWithoutHistory] with the parent the task has already: the
    fields are written and nothing else. *)
Lemma updateTaskWithoutHistory_fields i f m t :
  db m !! i = Some t → f_parentTaskId f = parentTaskId t →
  updateTaskWithoutHistory i (updates_of f) m =
  Some (Ok (applyUpdates (updates_of f) t),
        set_db (<[id t := applyUpdates (updates_of f) t]> (db m)) m).
Proof.
  intros Hl Hp. unfold updateTaskWithoutHistory.
  unfold bind at 1, getTaskById. rewrite Hl. cbn [u_parentTaskId updates_of].
  rewrite bool_decide_eq_false_2 by (intros Hne; apply Hne; exact Hp).
  reflexivity.
Qed.

Lemma applyUpdates_back u t0 :
  applyUpdates (updates_of (fields_of t0)) (updated u t0) = t0.
Proof. destruct t0. unfold updated. case_bool_decide; reflexivity. Qed.

Lemma applyUpdates_again u t0 :
  applyUpdates (updates_of (fields_of (updated u t0))) t0 = updated u t0.
Proof. destruct t0. unfold updated. case_bool_decide; reflexivity. Qed.

Lemma updated_parent u t :
  u_parentTaskId u = None → parentTaskId (updated u t) = parentTaskId t.
Proof. intros Hu. unfold updated. case_bool_decide; simpl; now rewrite Hu. Qed.

Lemma manager_eq (m m' : manager) :
  db m = db m' → nextId m = nextId m' → undoStack m = undoStack m' →
  redoStack m = redoStack m' → m = m'.
Proof. destruct m, m'. simpl. congruence. Qed.

(** A returning update that names no parent. *)
Lemma updateTask_plain fuel now i u m t m1 :
  keyed (db m) → u_parentTaskId u = None →
  updateTask fuel now i u m = Some (Ok t, m1) →
  ∃ t0, db m !! i = Some t0 ∧ t = updated u t0 ∧ id t = i ∧
        db m1 !! i = Some t ∧
        undoStack m1 =
          capped (undoStack m) (AModify i (fields_of t0) (fields_of t) now) ∧
        redoStack m1 = [] ∧
        (status_of t ≠ Completed → db m1 = <[i := t]> (db m)).
Proof.
  intros Hk Hu H.
  pose proof (updateTask_stored _ _ _ _ _ _ _ Hk H) as [Hid Hstored].
  apply updateTask_Ok in H as (t0 & m1' & m2' & Hl & -> & Hre & Hca & Hch).
  assert (m1' = m) as ->.
  { unfold reparentIfChanged in Hre. rewrite Hu in Hre. now injection Hre. }
  clear Hre. rewrite Hid in Hch. exists t0.
  split; [exact Hl|]. split; [reflexivity|]. split; [exact Hid|].
  split; [exact Hstored|].
  assert (Hh2 : same_history (undoStack m) (redoStack m) m2').
  { eapply (preserves_cascade (same_history _ _)); [|exact Hca|apply same_history_refl].
    intros ? ?; apply same_history_save. }
  destruct Hh2 as [Hu2 Hr2].
  split; [|split].
  - apply checkAndCompleteParent_inv in Hch as [_ [(p & _ & ->)|[_ ->]]];
      simpl; rewrite Hu2; auto.
  - apply checkAndCompleteParent_inv in Hch as [_ [(p & _ & ->)|[_ ->]]];
      simpl; auto.
  - intros Hst. unfold when in Hca.
    rewrite bool_decide_eq_false_2 in Hca by exact Hst. injection Hca as <-.
    unfold checkAndCompleteParent in Hch.
    rewrite bool_decide_eq_true_2 in Hch by exact Hst. injection Hch as <-.
    simpl. now rewrite Hid.
Qed.

(** X8. An update that does not name a parent, undone and redone.  The undo
    puts the record of the task back exactly as it was before the update and
    touches no other record: what the update completed on the way down and up
    stays completed, and when the new status is not Completed the whole store
    is as before the update.  The redo then gives back, record for record
    and stack for stack, the manager the update had left. *)
Theorem update_undo_redo fuel now now1 now2 i u m t m1 :
  keyed (db m) → u_parentTaskId u = None →
  updateTask fuel now i u m = Some (Ok t, m1) →
  ∃ t0 m2,
    let a := AModify i (fields_of t0) (fields_of t) now in
    db m !! i = Some t0 ∧
    undo now1 m1 = Some (Ok a, m2) ∧
    db m2 = <[i := t0]> (db m1) ∧
    (status_of t ≠ Completed → db m2 = db m) ∧
    undoStack m2 = removelast (undoStack m1) ∧ redoStack m2 = [a] ∧
    redo now2 m2 = Some (Ok a, m1).
Proof.
  intros Hk Hu H.
  destruct (updateTask_plain _ _ _ _ _ _ _ Hk Hu H)
    as (t0 & Hl & Ht & Hid & Hstored & Hund & Hred & Hopen).
  set (a := AModify i (fields_of t0) (fields_of t) now) in *.
  assert (Hlast : last (undoStack m1) = Some a)
    by (rewrite Hund; apply last_capped).
  assert (Hpar : parentTaskId t = parentTaskId t0)
    by (rewrite Ht; apply updated_parent, Hu).
  exists t0. eexists. cbv zeta. fold a.
  split; [exact Hl|].
  rewrite undo_eq, Hlast. cbn [undoAction a]. unfold bind at 1.
  rewrite (updateTaskWithoutHistory_fields i (fields_of t0) _ t)
    by (simpl; auto).
  replace (applyUpdates (updates_of (fields_of t0)) t) with t0
    by (rewrite Ht; symmetry; apply applyUpdates_back).
  cbn [ret]. split; [reflexivity|].
  cbn [db set_db set_redoStack set_undoStack undoStack redoStack nextId].
  rewrite Hid, Hred. cbn [app].
  split; [reflexivity|]. split; [|split; [reflexivity|split; [reflexivity|]]].
  - intros Hst. rewrite (Hopen Hst), insert_insert_eq. apply insert_id, Hl.
  - rewrite redo_eq. cbn [redoStack set_redoStack last]. cbn [redoAction a].
    unfold bind at 1.
    rewrite (updateTaskWithoutHistory_fields i (fields_of t) _ t0).
    2:{ simpl. apply lookup_insert_eq. }
    2:{ simpl. exact Hpar. }
    replace (applyUpdates (updates_of (fields_of t)) t0) with t
      by (rewrite Ht; symmetry; apply applyUpdates_again).
    cbn [ret].
    f_equal. f_equal. apply manager_eq; simpl.
    + rewrite (Hk _ _ Hl), insert_insert_eq. apply insert_id, Hstored.
    + reflexivity.
    + apply last_removelast, Hlast.
    + now rewrite Hred.
Qed.

Lemma update_undo_redo_witness :
  let u := Scenario.setStatus Completed in
  let t := with_priority None (with_status Completed Scenario.task_a3) in
  let m1 := Scenario.after (updateTask Scenario.fuel Scenario.now 1 u) Scenario.three in
  keyed (db Scenario.three) ∧ u_parentTaskId u = None ∧
  updateTask Scenario.fuel Scenario.now 1 u Scenario.three = Some (Ok t, m1) ∧
  ∃ t0 m2,
    let a := AModify 1 (fields_of t0) (fields_of t) Scenario.now in
    db Scenario.three !! 1 = Some t0 ∧
    undo Scenario.now m1 = Some (Ok a, m2) ∧
    db m2 = <[1 := t0]> (db m1) ∧
    (status_of t ≠ Completed → db m2 = db Scenario.three) ∧
    undoStack m2 = removelast (undoStack m1) ∧ redoStack m2 = [a] ∧
    redo Scenario.now m2 = Some (Ok a, m1).
Proof.
  intros u t m1.
  assert (Hrun : updateTask Scenario.fuel Scenario.now 1 u Scenario.three
                 = Some (Ok t, m1)) by (vm_compute; reflexivity).
  split; [exact keyed_three|]. split; [reflexivity|]. split; [exact Hrun|].
  exact (update_undo_redo Scenario.fuel Scenario.now Scenario.now Scenario.now
           1 u Scenario.three t m1 keyed_three eq_refl Hrun).
Defined.

Lemma applyUpdates_back_noted u t0 ns :
  applyUpdates (updates_of (fields_of t0)) (with_notes ns (updated u t0)) = t0.
Proof. destruct t0. unfold updated. case_bool_decide; reflexivity. Qed.

(** The action a returning update records. *)
Lemma updateTask_recorded fuel now i u m t m' :
  updateTask fuel now i u m = Some (Ok t, m') →
  ∃ t0, db m !! i = Some t0 ∧ t = updated u t0 ∧
        undoStack m' =
          capped (undoStack m) (AModify (id t) (fields_of t0) (fields_of t) now) ∧
        redoStack m' = [].
Proof.
  intros H.
  apply updateTask_Ok in H as (t0 & m1 & m2 & Hl & Ht & Hre & Hca & Hch).
  assert (Hh : same_history (undoStack m) (redoStack m) m2).
  { eapply (preserves_cascade (same_history _ _)); [|exact Hca|].
    - intros ? ? H'; exact H'.
    - eapply (preserves_reparentIfChanged (same_history _ _)); [|exact Hre|].
      + intros ? ? H'; exact H'.
      + split; reflexivity. }
  destruct Hh as [Hu _]. exists t0.
  destruct (preserves_checkAndCompleteParent (same_history _ _)
              (λ _ _ H', H') t _ _ _ Hch (conj eq_refl eq_refl)) as [-> ->].
  simpl. rewrite Hu. auto.
Qed.

(** [updateTaskWithoutHistory] on a task of the store returns: the record
    it has read, with the fields written into it, is what it saves last. *)
Lemma updateTaskWithoutHistory_stored i u m t :
  keyed (db m) → db m !! i = Some t →
  ∃ m', updateTaskWithoutHistory i u m = Some (Ok (applyUpdates u t), m') ∧
        db m' !! i = Some (applyUpdates u t) ∧
        undoStack m' = undoStack m ∧ redoStack m' = redoStack m.
Proof.
  intros Hk Hl.
  assert (Hid : id (applyUpdates u t) = i) by (rewrite <- (Hk _ _ Hl); reflexivity).
  destruct (updateTaskWithoutHistory_returns i u m (mk_is_Some _ _ Hl))
    as (t' & m' & Hrun).
  assert (Hh : same_history (undoStack m) (redoStack m) m').
  { eapply (preserves_updateTaskWithoutHistory (same_history _ _)); [|exact Hrun|].
    - intros ? ? H'; exact H'.
    - split; reflexivity. }
  destruct Hh as [Hu Hr].
  assert (Hres : t' = applyUpdates u t ∧ db m' !! i = Some (applyUpdates u t)).
  { revert Hrun. unfold updateTaskWithoutHistory.
    unfold bind at 1, getTaskById. rewrite Hl. intros Hrun.
    apply bind_Ok in Hrun as ([] & m1 & _ & Hrun).
    unfold bind, saveTask, ret in Hrun. injection Hrun as <- <-.
    split; [reflexivity|]. cbn [db set_db]. rewrite (Hk _ _ Hl).
    apply lookup_insert_eq. }
  destruct Hres as [-> Hst]. eauto.
Qed.

(** X9. A note is not an action of the history, and the undo of an update
    writes all seven recorded fields, the notes among them.  So a note added
    to a task after an update, whatever the update has changed, is lost
    when that update is undone: the record of the task is back as it was
    before the update, without the note, and the history holds nothing that
    could bring the note back.  When the update has named no parent, every
    other record is after the undo as the update has left it. *)
Theorem undo_discards_later_note fuel now now1 now2 i u c m t m1 n m2 :
  keyed (db m) →
  updateTask fuel now i u m = Some (Ok t, m1) →
  addNote now1 i c m1 = Some (Ok n, m2) →
  ∃ t0 m3,
    let a := AModify i (fields_of t0) (fields_of t) now in
    db m !! i = Some t0 ∧
    db m2 !! i = Some (with_notes (notes t ++ [n]) t) ∧
    undoStack m2 = undoStack m1 ∧ redoStack m2 = redoStack m1 ∧
    undo now2 m2 = Some (Ok a, m3) ∧
    db m3 !! i = Some t0 ∧
    undoStack m3 = removelast (undoStack m1) ∧ redoStack m3 = [a] ∧
    (u_parentTaskId u = None → db m3 = <[i := t0]> (db m1)).
Proof.
  intros Hk H Hnote.
  destruct (updateTask_stored _ _ _ _ _ _ _ Hk H) as [Hid Hstored].
  pose proof (keyed_updateTask _ _ _ _ _ _ _ H Hk) as Hk1.
  destruct (updateTask_recorded _ _ _ _ _ _ _ H) as (t0 & Hl & Ht & Hund & Hred).
  rewrite Hid in Hund.
  set (a := AModify i (fields_of t0) (fields_of t) now) in *.
  assert (Hlast : last (undoStack m1) = Some a)
    by (rewrite Hund; apply last_capped).
  unfold addNote in Hnote. unfold bind at 1, getTaskById in Hnote.
  rewrite Hstored in Hnote. unfold bind, saveTask in Hnote.
  injection Hnote as <- <-.
  set (n := {| n_timestamp := now1; n_content := c |}).
  set (noted_t := with_notes (notes t ++ [n]) t).
  set (m2 := set_db (<[id noted_t := noted_t]> (db m1)) m1).
  assert (Hl2 : db m2 !! i = Some noted_t).
  { unfold m2. cbn [db set_db id with_notes noted_t]. rewrite Hid.
    apply lookup_insert_eq. }
  assert (Hk2 : keyed (db m2)).
  { unfold m2. cbn [db set_db]. apply (keyed_insert _ noted_t), Hk1. }
  set (m2' := set_undoStack (removelast (undoStack m2)) m2).
  destruct (updateTaskWithoutHistory_stored i (updates_of (fields_of t0)) m2' noted_t
              Hk2 Hl2) as (m3 & Hrun & Hst3 & Hu3 & Hr3).
  assert (Hback : applyUpdates (updates_of (fields_of t0)) noted_t = t0).
  { unfold noted_t. rewrite Ht. apply applyUpdates_back_noted. }
  rewrite Hback in Hrun, Hst3.
  exists t0, (set_redoStack (redoStack m3 ++ [a]) m3). cbv zeta. fold a.
  split; [exact Hl|]. split; [exact Hl2|].
  split; [reflexivity|]. split; [reflexivity|].
  assert (Hundo : undo now2 m2
                  = Some (Ok a, set_redoStack (redoStack m3 ++ [a]) m3)).
  { rewrite undo_eq. change (undoStack m2) with (undoStack m1). rewrite Hlast.
    cbn [undoAction a]. unfold bind at 1.
    change (set_undoStack (removelast (undoStack m1)) m2) with m2'.
    rewrite Hrun. reflexivity. }
  split; [exact Hundo|]. split; [exact Hst3|].
  split; [cbn [undoStack set_redoStack]; rewrite Hu3; reflexivity|].
  split; [cbn [redoStack set_redoStack]; rewrite Hr3; cbn; now rewrite Hred|].
  intros Hu.
  assert (Hplain :
    updateTaskWithoutHistory i (updates_of (fields_of t0)) m2'
    = Some (Ok (applyUpdates (updates_of (fields_of t0)) noted_t),
            set_db (<[id noted_t := applyUpdates (updates_of (fields_of t0)) noted_t]>
                      (db m2')) m2')).
  { apply updateTaskWithoutHistory_fields; [exact Hl2|].
    simpl. rewrite Ht. symmetry. apply updated_parent, Hu. }
  rewrite Hback, Hrun in Hplain. injection Hplain as ->.
  cbn [db set_db set_redoStack set_undoStack m2' m2 id with_notes noted_t].
  rewrite Hid. apply insert_insert_eq.
Qed.

Lemma undo_discards_later_note_witness :
  let u := Scenario.setParent (Some 1) in
  let t := with_parent (Some 1) Scenario.task_c in
  let m1 := Scenario.after (updateTask Scenario.fuel Scenario.now 3 u) Scenario.three in
  let n := {| n_timestamp := Scenario.now; n_content := "call back" |} in
  let m2 := Scenario.after (addNote Scenario.now 3 "call back") m1 in
  keyed (db Scenario.three) ∧
  updateTask Scenario.fuel Scenario.now 3 u Scenario.three = Some (Ok t, m1) ∧
  addNote Scenario.now 3 "call back" m1 = Some (Ok n, m2) ∧
  ∃ t0 m3,
    let a := AModify 3 (fields_of t0) (fields_of t) Scenario.now in
    db Scenario.three !! 3 = Some t0 ∧
    db m2 !! 3 = Some (with_notes (notes t ++ [n]) t) ∧
    undoStack m2 = undoStack m1 ∧ redoStack m2 = redoStack m1 ∧
    undo Scenario.now m2 = Some (Ok a, m3) ∧
    db m3 !! 3 = Some t0 ∧
    undoStack m3 = removelast (undoStack m1) ∧ redoStack m3 = [a] ∧
    (u_parentTaskId u = None → db m3 = <[3 := t0]> (db m1)).
Proof.
  intros u t m1 n m2.
  assert (Hrun : updateTask Scenario.fuel Scenario.now 3 u Scenario.three
                 = Some (Ok t, m1)) by (vm_compute; reflexivity).
  assert (Hnote : addNote Scenario.now 3 "call back" m1 = Some (Ok n, m2))
    by (vm_compute; reflexivity).
  split; [exact keyed_three|]. split; [exact Hrun|]. split; [exact Hnote|].
  exact (undo_discards_later_note Scenario.fuel Scenario.now Scenario.now
           Scenario.now 3 u "call back" Scenario.three t m1 n m2
           keyed_three Hrun Hnote).
Defined.

(** ** Deleting without the children *)

(** The loop of [deleteTask] that turns the children into roots. *)
Lemma promote_children cs : ∀ m,
  keyed (db m) →
  ∃ m1,
    forM_ cs (λ childId,
      let* child := getTaskById childId in
      match child with
      | Some child => saveTask (with_parent None child)
      | None => ret tt
      end) m = Some (Ok tt, m1) ∧
    keyed (db m1) ∧ nextId m1 = nextId m ∧
    undoStack m1 = undoStack m ∧ redoStack m1 = redoStack m ∧
    ∀ j, db m1 !! j =
         if bool_decide (j ∈ cs) then with_parent None <$> db m !! j
         else db m !! j.
Proof.
  induction cs as [|c cs IH]; intros m Hk.
  - exists m. repeat split; auto.
  - cbn [forM_]. unfold bind at 1. unfold bind at 1, getTaskById.
    destruct (db m !! c) as [child|] eqn:Hc.
    + unfold saveTask. cbn [id with_parent].
      pose proof (Hk _ _ Hc) as Hid.
      set (m0 := set_db (<[id child := with_parent None child]> (db m)) m).
      destruct (IH m0) as (m1 & Hrun & Hk1 & Hn & Hu & Hr & Hlook).
      { apply (keyed_insert _ (with_parent None child)), Hk. }
      exists m1. split; [exact Hrun|]. split; [exact Hk1|].
      split; [exact Hn|]. split; [exact Hu|]. split; [exact Hr|].
      intros j. rewrite Hlook. unfold m0. cbn [db set_db]. rewrite Hid.
      rewrite lookup_insert. case_decide as Hj.
      * subst j. rewrite Hc. simpl.
        rewrite (bool_decide_eq_true_2 (c ∈ c :: cs)) by apply list_elem_of_here.
        now case_bool_decide.
      * case_bool_decide as Hin.
        -- rewrite bool_decide_eq_true_2; [reflexivity|].
           now apply list_elem_of_further.
        -- rewrite bool_decide_eq_false_2; [reflexivity|].
           intros Hin'. apply elem_of_cons in Hin' as [->|Hin']; auto.
    + cbn [ret]. destruct (IH m Hk) as (m1 & Hrun & Hk1 & Hn & Hu & Hr & Hlook).
      exists m1. split; [exact Hrun|]. split; [exact Hk1|].
      split; [exact Hn|]. split; [exact Hu|]. split; [exact Hr|].
      intros j. rewrite Hlook. case_bool_decide as Hin.
      * rewrite bool_decide_eq_true_2; [reflexivity|]. now apply list_elem_of_further.
      * case_bool_decide as Hin'; [|reflexivity].
        apply elem_of_cons in Hin' as [->|Hin']; [|contradiction].
        now rewrite Hc.
Qed.

(** What [detachFromParent] leaves of the store. *)
Lemma detachFromParent_lookup i t m :
  keyed (db m) →
  ∃ m1, detachFromParent i t m = Some (Ok tt, m1) ∧
        keyed (db m1) ∧ nextId m1 = nextId m ∧
        undoStack m1 = undoStack m ∧ redoStack m1 = redoStack m ∧
        ∀ j, db m1 !! j =
             if bool_decide (parentTaskId t = Some j)
             then (λ parent, with_children (remove_id i (childTaskIds parent)) parent)
                    <$> db m !! j
             else db m !! j.
Proof.
  intros Hk. unfold detachFromParent. destruct (parentTaskId t) as [p|].
  - unfold bind, getTaskById. destruct (db m !! p) as [parent|] eqn:Hp.
    + pose proof (Hk _ _ Hp) as Hid. unfold saveTask. eexists.
      split; [reflexivity|]. simpl.
      split; [apply (keyed_insert _ (with_children _ parent)), Hk|].
      repeat split. intros j. rewrite Hid, lookup_insert. case_decide as Hj.
      * subst j. rewrite bool_decide_eq_true_2 by reflexivity. now rewrite Hp.
      * rewrite bool_decide_eq_false_2; [reflexivity|]. intros [= ->]. auto.
    + exists m. repeat split; auto. intros j.
      case_bool_decide as Hj; [|reflexivity]. injection Hj as <-. now rewrite Hp.
  - exists m. repeat split; auto.
Qed.

(** What [attachToParent] leaves of the store. *)
Lemma attachToParent_lookup i t m :
  keyed (db m) →
  ∃ m1, attachToParent i t m = Some (Ok tt, m1) ∧
        keyed (db m1) ∧ nextId m1 = nextId m ∧
        undoStack m1 = undoStack m ∧ redoStack m1 = redoStack m ∧
        ∀ j, db m1 !! j =
             if bool_decide (parentTaskId t = Some j)
             then (λ parent,
                     if negb (deleted parent) && negb (includes (childTaskIds parent) i)
                     then with_children (childTaskIds parent ++ [i]) parent
                     else parent) <$> db m !! j
             else db m !! j.
Proof.
  intros Hk. unfold attachToParent. destruct (parentTaskId t) as [p|].
  - unfold bind, getTaskById. destruct (db m !! p) as [parent|] eqn:Hp.
    + pose proof (Hk _ _ Hp) as Hid.
      destruct (negb (deleted parent) && negb (includes (childTaskIds parent) i))
        eqn:Hg; simpl.
      * unfold saveTask. eexists. split; [reflexivity|]. simpl.
        split; [apply (keyed_insert _ (with_children _ parent)), Hk|].
        repeat split. intros j. rewrite Hid, lookup_insert. case_decide as Hj.
        -- subst j. rewrite bool_decide_eq_true_2 by reflexivity.
           rewrite Hp. simpl. now rewrite Hg.
        -- rewrite bool_decide_eq_false_2; [reflexivity|]. intros [= ->]. auto.
      * exists m. repeat split; auto. intros j.
        case_bool_decide as Hj; [|reflexivity]. injection Hj as <-.
        rewrite Hp. simpl. now rewrite Hg.
    + exists m. repeat split; auto. intros j.
      case_bool_decide as Hj; [|reflexivity]. injection Hj as <-. now rewrite Hp.
  - exists m. repeat split; auto.
Qed.

(** The store and the history after a delete without the children. *)
Lemma deleteTask_alone fuel now i m t :
  keyed (db m) → db m !! i = Some t →
  ∃ m',
    deleteTask (S fuel) now i false true m = Some (Ok [i], m') ∧
    keyed (db m') ∧ nextId m' = nextId m ∧
    undoStack m' = capped (undoStack m) (ADelete i [i] now) ∧ redoStack m' = [] ∧
    ∀ j, db m' !! j =
         if bool_decide (j = i) then Some (with_deleted true (Some now) t)
         else
           (if bool_decide (parentTaskId t = Some j)
            then fmap (λ parent,
                         with_children (remove_id i (childTaskIds parent)) parent)
            else Datatypes.id)
             (if bool_decide (j ∈ childTaskIds t)
              then with_parent None <$> db m !! j
              else db m !! j).
Proof.
  intros Hk Hl. pose proof (Hk _ _ Hl) as Hid.
  cbn [deleteTask]. unfold bind at 1. unfold getTaskById at 1. rewrite Hl.
  unfold bind at 1. unfold bind at 1.
  destruct (promote_children (childTaskIds t) m Hk)
    as (m1 & Hrun & Hk1 & Hn1 & Hu1 & Hr1 & Hlook1).
  rewrite Hrun. cbn [ret]. unfold bind at 1.
  destruct (detachFromParent_lookup i t m1 Hk1)
    as (m2 & Hdet & Hk2 & Hn2 & Hu2 & Hr2 & Hlook2).
  rewrite Hdet. unfold bind at 1, saveTask. unfold bind at 1.
  cbn [when recordAction ret]. eexists. split; [reflexivity|].
  cbn [db set_db set_redoStack set_undoStack id with_deleted nextId undoStack
       redoStack].
  rewrite Hid, Hu2, Hu1, Hn2, Hn1.
  split.
  { intros j0 t0. rewrite lookup_insert. case_decide as Hj0.
    - intros [= <-]. simpl. congruence.
    - apply Hk2. }
  split; [reflexivity|]. split; [reflexivity|]. split; [reflexivity|].
  intros j. rewrite lookup_insert. case_decide as Hj.
  - subst j. now rewrite bool_decide_eq_true_2.
  - rewrite bool_decide_eq_false_2 by congruence.
    rewrite Hlook2, Hlook1. now case_bool_decide.
Qed.

(** X10. Deleting a task without its children.  The call returns for every
    task of the store, reporting the task alone.  The task is in the trash,
    its record otherwise as it was -- so it still lists its children; every
    child it lists is a root afterwards, its deleted flag untouched; the
    parent of the task no longer lists it; and every other record is as
    before. *)
Theorem delete_promotes_children fuel now i m t :
  keyed (db m) → db m !! i = Some t →
  ∃ m',
    deleteTask (S fuel) now i false true m = Some (Ok [i], m') ∧
    db m' !! i = Some (with_deleted true (Some now) t) ∧
    (∀ c child, c ∈ childTaskIds t → c ≠ i → db m !! c = Some child →
       ∃ child', db m' !! c = Some child' ∧ parentTaskId child' = None ∧
                 deleted child' = deleted child) ∧
    (∀ p parent', parentTaskId t = Some p → p ≠ i →
       db m' !! p = Some parent' → i ∉ childTaskIds parent') ∧
    (∀ j, j ≠ i → j ∉ childTaskIds t → parentTaskId t ≠ Some j →
       db m' !! j = db m !! j).
Proof.
  intros Hk Hl.
  destruct (deleteTask_alone fuel now i m t Hk Hl)
    as (m' & Hrun & _ & _ & _ & _ & Hlook).
  exists m'. split; [exact Hrun|]. split; [|split; [|split]].
  - rewrite Hlook. now rewrite bool_decide_eq_true_2.
  - intros c child Hc Hci Hchild. rewrite Hlook.
    rewrite bool_decide_eq_false_2 by exact Hci.
    rewrite (bool_decide_eq_true_2 _ Hc), Hchild.
    case_bool_decide; eexists; (split; [reflexivity|]); auto.
  - intros p parent' Hp Hpi. rewrite Hlook.
    rewrite bool_decide_eq_false_2 by exact Hpi.
    rewrite (bool_decide_eq_true_2 _ Hp).
    destruct (if bool_decide (p ∈ childTaskIds t) then _ else _) as [parent|];
      [|discriminate].
    intros [= <-]. simpl. unfold remove_id.
    intros Hin. apply list_elem_of_filter in Hin as [Hne _]. now apply Hne.
  - intros j Hj Hnc Hnp. rewrite Hlook.
    rewrite (bool_decide_eq_false_2 _ Hj), (bool_decide_eq_false_2 _ Hnp),
      (bool_decide_eq_false_2 _ Hnc).
    reflexivity.
Qed.

(** [restoreTaskWithoutHistory] on a task of the trash. *)
Lemma restoreTaskWithoutHistory_trashed i m t :
  keyed (db m) → db m !! i = Some t → deleted t = true →
  ∃ m',
    restoreTaskWithoutHistory i m
      = Some (Ok (Some (with_deleted false None t)), m') ∧
    keyed (db m') ∧ nextId m' = nextId m ∧
    undoStack m' = undoStack m ∧ redoStack m' = redoStack m ∧
    ∀ j, db m' !! j =
         if bool_decide (parentTaskId t = Some j)
         then (λ parent,
                 if negb (deleted parent) && negb (includes (childTaskIds parent) i)
                 then with_children (childTaskIds parent ++ [i]) parent
                 else parent) <$> <[i := with_deleted false None t]> (db m) !! j
         else <[i := with_deleted false None t]> (db m) !! j.
Proof.
  intros Hk Hl Hd. pose proof (Hk _ _ Hl) as Hid.
  unfold restoreTaskWithoutHistory. unfold bind at 1, getTaskById.
  rewrite Hl, Hd. cbn [negb]. unfold bind at 1, saveTask. unfold bind at 1.
  cbn [id with_deleted]. rewrite Hid.
  set (t1 := with_deleted false None t).
  set (m0 := set_db (<[i := t1]> (db m)) m).
  assert (Hk0 : keyed (db m0)).
  { intros j0 t0. unfold m0. simpl. rewrite lookup_insert. case_decide.
    - intros [= <-]. simpl. congruence.
    - apply Hk. }
  destruct (attachToParent_lookup i t1 m0 Hk0)
    as (m1 & Hat & Hk1 & Hn1 & Hu1 & Hr1 & Hlook).
  rewrite Hat. cbn [ret]. exists m1. split; [reflexivity|].
  split; [exact Hk1|]. split; [exact Hn1|]. split; [exact Hu1|].
  split; [exact Hr1|]. exact Hlook.
Qed.

(** X11. The undo of a delete without the children is not its inverse.
    The task comes back out of the trash, listing the children it listed,
    and its parent lists it again -- at the end of its children, wherever it
    stood before.  But the children the delete had turned into roots stay
    roots: nothing gives them their parent back. *)
Theorem undo_of_delete_leaves_children_roots fuel now now1 i m t :
  keyed (db m) → db m !! i = Some t → parentTaskId t ≠ Some i →
  ∃ m1 m2,
    deleteTask (S fuel) now i false true m = Some (Ok [i], m1) ∧
    undo now1 m1 = Some (Ok (ADelete i [i] now), m2) ∧
    db m2 !! i = Some (with_deleted false None t) ∧
    (∀ c child, c ∈ childTaskIds t → c ≠ i → db m !! c = Some child →
       ∃ child', db m2 !! c = Some child' ∧ parentTaskId child' = None) ∧
    (∀ p parent, parentTaskId t = Some p → p ∉ childTaskIds t →
       db m !! p = Some parent → deleted parent = false →
       db m2 !! p =
         Some (with_children (remove_id i (childTaskIds parent) ++ [i]) parent)).
Proof.
  intros Hk Hl Hself.
  destruct (deleteTask_alone fuel now i m t Hk Hl)
    as (m1 & Hrun & Hk1 & _ & Hu1 & _ & Hlook1).
  set (m0 := set_undoStack (removelast (undoStack m1)) m1).
  assert (Hl0 : db m0 !! i = Some (with_deleted true (Some now) t)).
  { unfold m0. simpl. rewrite Hlook1. now rewrite bool_decide_eq_true_2. }
  destruct (restoreTaskWithoutHistory_trashed i m0 _ Hk1 Hl0 eq_refl)
    as (m2 & Hres & _ & _ & _ & _ & Hlook2).
  exists m1, (set_redoStack (redoStack m2 ++ [ADelete i [i] now]) m2).
  split; [exact Hrun|].
  assert (Hlast : last (undoStack m1) = Some (ADelete i [i] now))
    by (rewrite Hu1; apply last_capped).
  rewrite undo_eq, Hlast. cbn [undoAction rev app forM_]. fold m0.
  unfold bind at 1. unfold bind at 1. rewrite Hres. cbn [ret].
  split; [reflexivity|].
  cbn [db set_redoStack with_deleted parentTaskId] in *.
  split; [|split].
  - rewrite Hlook2. rewrite bool_decide_eq_false_2 by exact Hself.
    apply lookup_insert_eq.
  - intros c child Hc Hci Hchild. rewrite Hlook2.
    rewrite lookup_insert_ne by congruence. unfold m0. cbn [db set_undoStack].
    rewrite Hlook1. rewrite (bool_decide_eq_false_2 _ Hci).
    rewrite (bool_decide_eq_true_2 _ Hc), Hchild.
    case_bool_decide; simpl; [destruct (_ && _)|];
      eexists; (split; [reflexivity|]); reflexivity.
  - intros p parent Hp Hnc Hparent Hlive.
    assert (Hpi : p ≠ i) by congruence.
    rewrite Hlook2. rewrite (bool_decide_eq_true_2 _ Hp).
    rewrite lookup_insert_ne by congruence. unfold m0. cbn [db set_undoStack].
    rewrite Hlook1. rewrite (bool_decide_eq_false_2 _ Hpi).
    rewrite (bool_decide_eq_true_2 _ Hp), (bool_decide_eq_false_2 _ Hnc).
    rewrite Hparent. simpl. rewrite Hlive. simpl.
    assert (Hnin : includes (remove_id i (childTaskIds parent)) i = false).
    { unfold includes. apply bool_decide_eq_false_2. unfold remove_id.
      intros Hin. apply list_elem_of_filter in Hin as [Hne _]. now apply Hne. }
    rewrite Hnin. reflexivity.
Qed.

Lemma delete_promotes_children_witness :
  keyed (db Scenario.three) ∧ db Scenario.three !! 2 = Some task_b3 ∧
  ∃ m',
    deleteTask (S Scenario.fuel) Scenario.now 2 false true Scenario.three
      = Some (Ok [2], m') ∧
    db m' !! 2 = Some (with_deleted true (Some Scenario.now) task_b3) ∧
    (∀ c child, c ∈ childTaskIds task_b3 → c ≠ 2 →
       db Scenario.three !! c = Some child →
       ∃ child', db m' !! c = Some child' ∧ parentTaskId child' = None ∧
                 deleted child' = deleted child) ∧
    (∀ p parent', parentTaskId task_b3 = Some p → p ≠ 2 →
       db m' !! p = Some parent' → 2 ∉ childTaskIds parent') ∧
    (∀ j, j ≠ 2 → j ∉ childTaskIds task_b3 → parentTaskId task_b3 ≠ Some j →
       db m' !! j = db Scenario.three !! j).
Proof.
  assert (Hl : db Scenario.three !! 2 = Some task_b3) by (vm_compute; reflexivity).
  split; [exact keyed_three|]. split; [exact Hl|].
  exact (delete_promotes_children Scenario.fuel Scenario.now 2 Scenario.three
           task_b3 keyed_three Hl).
Defined.

Lemma undo_of_delete_leaves_children_roots_witness :
  keyed (db Scenario.three) ∧ db Scenario.three !! 2 = Some task_b3 ∧
  parentTaskId task_b3 ≠ Some 2 ∧
  ∃ m1 m2,
    deleteTask (S Scenario.fuel) Scenario.now 2 false true Scenario.three
      = Some (Ok [2], m1) ∧
    undo Scenario.now m1 = Some (Ok (ADelete 2 [2] Scenario.now), m2) ∧
    db m2 !! 2 = Some (with_deleted false None task_b3) ∧
    (∀ c child, c ∈ childTaskIds task_b3 → c ≠ 2 →
       db Scenario.three !! c = Some child →
       ∃ child', db m2 !! c = Some child' ∧ parentTaskId child' = None) ∧
    (∀ p parent, parentTaskId task_b3 = Some p → p ∉ childTaskIds task_b3 →
       db Scenario.three !! p = Some parent → deleted parent = false →
       db m2 !! p =
         Some (with_children (remove_id 2 (childTaskIds parent) ++ [2]) parent)).
Proof.
  assert (Hl : db Scenario.three !! 2 = Some task_b3) by (vm_compute; reflexivity).
  assert (Hself : parentTaskId task_b3 ≠ Some 2) by (vm_compute; discriminate).
  split; [exact keyed_three|]. split; [exact Hl|]. split; [exact Hself|].
  exact (undo_of_delete_leaves_children_roots Scenario.fuel Scenario.now
           Scenario.now 2 Scenario.three task_b3 keyed_three Hl Hself).
Defined.

(** ** Deleting with the children *)

Lemma trashes_refl m : keyed (db m) → trashes [] m m.
Proof.
  intros Hk. split; [exact Hk|]. split.
  - intros j Hj. apply elem_of_nil in Hj as [].
  - intros j tj Hj. exists tj. auto.
Qed.

Lemma trashes_trans ids1 ids2 m1 m2 m3 :
  trashes ids1 m1 m2 → trashes ids2 m2 m3 → trashes (ids1 ++ ids2) m1 m3.
Proof.
  intros (_ & Hd1 & Hf1) (Hk3 & Hd2 & Hf2). split; [exact Hk3|]. split.
  - intros j Hj. apply elem_of_app in Hj as [Hj|Hj]; [|auto].
    destruct (Hd1 j Hj) as (tj & Hl & Hdel).
    destruct (Hf2 j tj Hl) as (tj' & Hl' & _ & Hkeep).
    destruct (decide (j ∈ ids2)) as [Hin|Hnin]; [auto|].
    exists tj'. split; [exact Hl'|]. destruct (Hkeep Hnin) as [-> _]. exact Hdel.
  - intros j tj Hj.
    destruct (Hf1 j tj Hj) as (tj1 & Hl1 & Hfields1 & Hkeep1).
    destruct (Hf2 j tj1 Hl1) as (tj2 & Hl2 & Hfields2 & Hkeep2).
    exists tj2. split; [exact Hl2|]. split; [congruence|].
    intros Hnin. rewrite elem_of_app in Hnin.
    destruct Hkeep1 as [Hd1' Ha1]; [tauto|].
    destruct Hkeep2 as [Hd2' Ha2]; [tauto|].
    split; congruence.
Qed.

(** Writing a record back with other children changes links only. *)
Lemma trashes_relink m parent cs :
  keyed (db m) → db m !! id parent = Some parent →
  trashes [] m (set_db (<[id parent := with_children cs parent]> (db m)) m).
Proof.
  intros Hk Hp. split; [apply (keyed_insert _ (with_children cs parent)), Hk|].
  split.
  - intros j Hj. apply elem_of_nil in Hj as [].
  - intros j tj Hj. simpl. rewrite lookup_insert. case_decide as Hji.
    + subst j. rewrite Hp in Hj. injection Hj as <-.
      eexists. split; [reflexivity|]. auto.
    + exists tj. auto.
Qed.

Lemma trashes_detach i t m m' :
  keyed (db m) → detachFromParent i t m = Some (Ok tt, m') → trashes [] m m'.
Proof.
  intros Hk. unfold detachFromParent.
  destruct (parentTaskId t) as [p|]; [|intros [= <-]; apply trashes_refl, Hk].
  unfold bind, getTaskById. destruct (db m !! p) as [parent|] eqn:Hp;
    [|intros [= <-]; apply trashes_refl, Hk].
  intros [= <-]. apply trashes_relink; [exact Hk|].
  now rewrite (Hk _ _ Hp).
Qed.

(** The cascade, by induction on the recursion. *)
Lemma deleteTask_cascade now fuel : ∀ i root m ids m',
  keyed (db m) →
  deleteTask fuel now i true root m = Some (Ok ids, m') →
  head ids = Some i ∧ trashes ids m m'.
Proof.
  induction fuel as [|fuel IH]; intros i root m ids m' Hk H; [discriminate|].
  cbn [deleteTask] in H. apply bind_Ok in H as (found & m0 & Hget & H).
  injection Hget as <- <-.
  destruct (db m !! i) as [t|] eqn:Hl; [|discriminate].
  pose proof (Hk _ _ Hl) as Hid.
  apply bind_Ok in H as (ids1 & m1 & Hloop & H).
  assert (Hchildren : ∀ cs acc m0 ids0 m1',
    keyed (db m0) →
    foldM (λ acc childId,
             let* childDeletedIds := deleteTask fuel now childId true false in
             ret (acc ++ childDeletedIds)) cs acc m0 = Some (Ok ids0, m1') →
    ∃ rest, ids0 = acc ++ rest ∧ trashes rest m0 m1').
  { induction cs as [|c cs IHcs]; intros acc m0 ids0 m1' Hk0 Hf.
    - injection Hf as <- <-. exists []. rewrite app_nil_r.
      split; [reflexivity | apply trashes_refl, Hk0].
    - cbn [foldM] in Hf. apply bind_Ok in Hf as (acc' & m2 & Hstep & Hf).
      apply bind_Ok in Hstep as (more & m3 & Hdel & Hstep).
      injection Hstep as <- <-.
      destruct (IH _ _ _ _ _ Hk0 Hdel) as [_ Htr].
      destruct (IHcs _ _ _ _ (proj1 Htr) Hf) as (rest & -> & Htr').
      exists (more ++ rest). split; [now rewrite app_assoc|].
      eapply trashes_trans; eauto. }
  destruct (Hchildren _ _ _ _ _ Hk Hloop) as (rest & -> & Htr1).
  clear Hchildren Hloop.
  apply bind_Ok in H as ([] & m2 & Hdet & H).
  pose proof (trashes_detach _ _ _ _ (proj1 Htr1) Hdet) as Htr2.
  pose proof (trashes_trans _ _ _ _ _ Htr1 Htr2) as Htr.
  rewrite app_nil_r in Htr. clear Htr1 Htr2.
  apply bind_Ok in H as ([] & m3 & Hsave & H). injection Hsave as <-.
  assert (Hm' : db m' = <[i := with_deleted true (Some now) t]> (db m2)).
  { destruct root; simpl in H.
    - apply bind_Ok in H as ([] & m4 & Hrec & H). injection Hrec as <-.
      injection H as _ <-. simpl. now rewrite Hid.
    - apply bind_Ok in H as ([] & m4 & Hrec & H). injection Hrec as <-.
      injection H as _ <-. simpl. now rewrite Hid. }
  assert (Hids : ids = [i] ++ rest).
  { destruct root; simpl in H;
      apply bind_Ok in H as ([] & m4 & _ & H); now injection H as <- _. }
  subst ids. split; [reflexivity|].
  destruct Htr as (Hk2 & Hd2 & Hf2). unfold trashes. rewrite Hm'.
  split; [|split].
  - intros j0 t0. rewrite lookup_insert. case_decide.
    + intros [= <-]. simpl. congruence.
    + apply Hk2.
  - intros j Hj. rewrite lookup_insert. case_decide as Hji.
    + eexists. split; [reflexivity|]. reflexivity.
    + apply Hd2. apply elem_of_app in Hj as [Hj|Hj]; [|exact Hj].
      apply list_elem_of_singleton in Hj. congruence.
  - intros j tj Hj. rewrite lookup_insert. case_decide as Hji.
    + subst j. rewrite Hl in Hj. injection Hj as <-.
      eexists. split; [reflexivity|]. split; [reflexivity|].
      intros Hnin. exfalso. apply Hnin. apply elem_of_app. left.
      apply list_elem_of_here.
    + destruct (Hf2 j tj Hj) as (tj' & Hl' & Hfields & Hkeep).
      exists tj'. split; [exact Hl'|]. split; [exact Hfields|].
      intros Hnin. apply Hkeep. intros Hin. apply Hnin.
      apply elem_of_app. now right.
Qed.

(** X12. Deleting a task with its children.  A returning call reports the
    task first, and every task it reports is in the trash afterwards.  No
    record is changed but in its list of children and its deleted mark, and
    the mark is set on the reported tasks only: a task that is not reported
    is in the trash afterwards exactly when it was before. *)
Theorem cascade_delete_trashes_reported fuel now i m ids m' :
  keyed (db m) →
  deleteTask fuel now i true true m = Some (Ok ids, m') →
  head ids = Some i ∧
  (∀ j, j ∈ ids → ∃ tj, db m' !! j = Some tj ∧ deleted tj = true) ∧
  (∀ j tj, db m !! j = Some tj →
     ∃ tj', db m' !! j = Some tj' ∧ fields_of tj' = fields_of tj ∧
            (j ∉ ids → deleted tj' = deleted tj ∧ deletedAt tj' = deletedAt tj)).
Proof.
  intros Hk H.
  destruct (deleteTask_cascade _ _ _ _ _ _ _ Hk H) as (Hhead & _ & Hdel & Hrest).
  auto.
Qed.

Lemma cascade_delete_trashes_reported_witness :
  let m' := Scenario.after (deleteTask Scenario.fuel Scenario.now 1 true true)
              Scenario.three in
  keyed (db Scenario.three) ∧
  deleteTask Scenario.fuel Scenario.now 1 true true Scenario.three
    = Some (Ok [1; 2; 3], m') ∧
  ∀ j, j ∈ [1; 2; 3] → ∃ tj, db m' !! j = Some tj ∧ deleted tj = true.
Proof.
  intros m'.
  assert (Hrun : deleteTask Scenario.fuel Scenario.now 1 true true Scenario.three
                 = Some (Ok [1; 2; 3], m')) by (vm_compute; reflexivity).
  split; [exact keyed_three|]. split; [exact Hrun|].
  exact (proj1 (proj2 (cascade_delete_trashes_reported _ _ _ _ _ _
                         keyed_three Hrun))).
Defined.

(** ** Purging the trash *)

Lemma erases_lookup_Some m m' j t :
  erases m m' → db m' !! j = Some t → db m !! j = Some t.
Proof. intros (He & _) Hj. destruct (He j) as [Heq|[Hn _]]; congruence. Qed.

Lemma erases_lookup_None m m' j :
  erases m m' → db m !! j = None → db m' !! j = None.
Proof. intros (He & _) Hj. destruct (He j) as [Heq|[Hn _]]; congruence. Qed.

Lemma erases_live m m' j t :
  erases m m' → db m !! j = Some t → deleted t = false → db m' !! j = Some t.
Proof.
  intros (He & _) Hj Hd. destruct (He j) as [Heq|[_ (t' & Ht' & Hd')]]; congruence.
Qed.

Lemma ranked_erases rank m m' :
  erases m m' → ranked rank (db m) → ranked rank (db m').
Proof.
  intros He Hr j t c child Hj Hd Hc Hchild Hdc.
  eapply Hr; eauto using erases_lookup_Some.
Qed.

(** [purgeTask] throws on a live task only. *)
Lemma purgeTask_no_throw fuel : ∀ i m e m',
  (∀ t, db m !! i = Some t → deleted t = true) →
  purgeTask fuel i m ≠ Some (Throw e, m').
Proof.
  induction fuel as [|fuel IH]; intros i m e m' Hdel H; [discriminate|].
  cbn [purgeTask] in H. unfold bind at 1 in H. unfold getTaskById at 1 in H.
  destruct (db m !! i) as [t|] eqn:Ht; [|discriminate].
  rewrite (Hdel t eq_refl) in H. cbn [negb] in H.
  apply bind_Throw in H as [H|([] & m1 & _ & H)]; [|discriminate].
  revert H. apply forM__no_throw. intros c m0 e0 m0' H.
  unfold bind, getTaskById in H.
  destruct (db m0 !! c) as [child|] eqn:Hc; [|discriminate].
  destruct (deleted child) eqn:Hd; [|discriminate]. cbn [when] in H.
  revert H. apply IH. intros t' Ht'. congruence.
Qed.

(** With fuel beyond the rank of the task, [purgeTask] comes to an end. *)
Lemma purgeTask_returns rank fuel : ∀ i m,
  ranked rank (db m) → (rank i < fuel)%nat →
  ∃ r m', purgeTask fuel i m = Some (r, m').
Proof.
  induction fuel as [|fuel IH]; intros i m Hr Hlt; [lia|].
  cbn [purgeTask]. unfold bind at 1. unfold getTaskById at 1.
  destruct (db m !! i) as [t|] eqn:Ht; [|eauto].
  destruct (deleted t) eqn:Hd; cbn [negb]; [|eauto].
  assert (Hloop : ∀ cs m0, (∀ c, c ∈ cs → c ∈ childTaskIds t) → erases m m0 →
    ∃ r m1, forM_ cs (λ childId,
      let* child := getTaskById childId in
      match child with
      | Some child => when (deleted child) (purgeTask fuel childId)
      | None => ret tt
      end) m0 = Some (r, m1)).
  { induction cs as [|c cs IHcs]; intros m0 Hsub He; [simpl; eauto|].
    cbn [forM_]. unfold bind at 1. unfold bind at 1, getTaskById.
    assert (Hbody : ∃ rb mb,
      match db m0 !! c with
      | Some child => when (deleted child) (purgeTask fuel c)
      | None => ret tt
      end m0 = Some (rb, mb) ∧ erases m0 mb).
    { destruct (db m0 !! c) as [child|] eqn:Hc.
      - destruct (deleted child) eqn:Hdc; cbn [when].
        + destruct (IH c m0) as (rb & mb & Hb).
          * eapply ranked_erases; eauto.
          * assert (rank c < rank i)%nat; [|lia].
            eapply (Hr i t c child); eauto using erases_lookup_Some.
            apply Hsub, list_elem_of_here.
          * exists rb, mb. split; [exact Hb|]. eapply purgeTask_erases, Hb.
        + exists (Ok tt), m0. split; [reflexivity | apply erases_refl].
      - exists (Ok tt), m0. split; [reflexivity | apply erases_refl]. }
    destruct Hbody as (rb & mb & -> & Heb). destruct rb as [[]|e]; [|eauto].
    apply IHcs.
    - intros c' Hc'. apply Hsub. now apply list_elem_of_further.
    - eapply erases_trans; eauto. }
  destruct (Hloop (childTaskIds t) m) as (r & m1 & Hrun);
    [auto | apply erases_refl |].
  unfold bind at 1. rewrite Hrun. destruct r; simpl; eauto.
Qed.

Lemma purgeTask_outcome fuel i m r m' :
  purgeTask fuel i m = Some (r, m') →
  (r = Ok tt → db m' !! i = None) ∧
  (∀ t, db m !! i = Some t → deleted t = false →
        r = Throw (NotInTrash i) ∧ m' = m).
Proof.
  intros H. destruct fuel as [|fuel]; [discriminate|].
  cbn [purgeTask] in H. unfold bind at 1 in H. unfold getTaskById at 1 in H.
  destruct (db m !! i) as [t|] eqn:Ht.
  - destruct (deleted t) eqn:Hd; cbn [negb] in H.
    + split; [|intros t' [= <-]; congruence].
      intros ->. apply bind_Ok in H as ([] & m1 & _ & H).
      injection H as <-. simpl. apply lookup_delete_eq.
    + injection H as <- <-. split; [discriminate|]. intros t' _ _. auto.
  - injection H as <- <-. split; [auto|]. intros t' [=].
Qed.

(** X13. [purgeTask] erases records of the trash and does nothing else:
    whether it returns or throws, every record it leaves is as it was, every
    record it removes was a deleted one, and the id counter and both history
    stacks are untouched -- so the history may still name a purged task.
    When it returns, the task is not in the store; on a live task it throws
    and leaves the manager as it was. *)
Theorem purge_erases_trash_only fuel i m r m' :
  purgeTask fuel i m = Some (r, m') →
  (∀ j, db m' !! j = db m !! j ∨
        (db m' !! j = None ∧ ∃ t, db m !! j = Some t ∧ deleted t = true)) ∧
  nextId m' = nextId m ∧ undoStack m' = undoStack m ∧
  redoStack m' = redoStack m ∧
  (r = Ok tt → db m' !! i = None) ∧
  (∀ t, db m !! i = Some t → deleted t = false →
        r = Throw (NotInTrash i) ∧ m' = m).
Proof.
  intros H. pose proof (purgeTask_erases _ _ _ _ _ H) as (He & Hn & Hu & Hr).
  pose proof (purgeTask_outcome _ _ _ _ _ H) as [Hgone Hlive].
  auto 10.
Qed.

Lemma purge_erases_trash_only_witness :
  let m := Scenario.after (deleteTask Scenario.fuel Scenario.now 2 true true)
             Scenario.three in
  let m' := Scenario.after (purgeTask Scenario.fuel 2) m in
  purgeTask Scenario.fuel 2 m = Some (Ok tt, m') ∧
  db m' !! 2 = None ∧ db m' !! 3 = None ∧ db m' !! 1 = db m !! 1.
Proof.
  intros m m'.
  assert (Hrun : purgeTask Scenario.fuel 2 m = Some (Ok tt, m'))
    by (vm_compute; reflexivity).
  split; [exact Hrun|].
  destruct (purge_erases_trash_only _ _ _ _ _ Hrun) as (_ & _ & _ & _ & Hgone & _).
  split; [exact (Hgone eq_refl)|]. split; vm_compute; reflexivity.
Defined.

(** ** Listing the store *)

Lemma elem_of_getAll d t : t ∈ getAll d ↔ ∃ j, d !! j = Some t.
Proof.
  unfold getAll. rewrite merge_sort_Permutation, list_elem_of_fmap. split.
  - intros ([j t'] & -> & H). apply elem_of_map_to_list in H. eauto.
  - intros [j H]. exists (j, t). split; [reflexivity|].
    now apply elem_of_map_to_list.
Qed.

Lemma keyed_ids_of_list d :
  keyed d → id <$> (snd <$> map_to_list d) = fst <$> map_to_list d.
Proof.
  intros Hk.
  assert (H : Forall (λ kv, id (snd kv) = fst kv) (map_to_list d)).
  { apply Forall_forall. intros [j t] Hjt. apply elem_of_map_to_list in Hjt.
    simpl. eauto. }
  revert H. generalize (map_to_list d). intros l H.
  induction H as [|[j t] l Hjt _ IH]; [reflexivity|].
  rewrite !fmap_cons. simpl in Hjt. simpl. now rewrite Hjt, IH.
Qed.

Lemma NoDup_getAll_ids d : keyed d → NoDup (id <$> getAll d).
Proof.
  intros Hk. unfold getAll. rewrite merge_sort_Permutation.
  rewrite keyed_ids_of_list by exact Hk. apply NoDup_fst_map_to_list.
Qed.

#[local] Instance byKey_trans : Transitive byKey.
Proof. intros a b c. unfold byKey. lia. Qed.

#[local] Instance byKey_total : Total byKey.
Proof. intros a b. unfold byKey. lia. Qed.

Lemma getAll_sorted d :
  keyed d → StronglySorted (λ a b, id a < id b) (getAll d).
Proof.
  intros Hk. pose proof (NoDup_getAll_ids d Hk) as Hnd.
  assert (Hs : StronglySorted byKey (getAll d))
    by apply (StronglySorted_merge_sort byKey).
  induction Hs as [|a l Hs IH Hall]; [constructor|].
  rewrite fmap_cons in Hnd. apply NoDup_cons in Hnd as [Hnin Hnd].
  constructor; [apply IH, Hnd|].
  apply Forall_forall. intros b Hb.
  rewrite Forall_forall in Hall. specialize (Hall b Hb). unfold byKey in Hall.
  assert (id a ≠ id b); [|lia].
  intros Heq. apply Hnin. rewrite Heq. apply list_elem_of_fmap. eauto.
Qed.

Lemma elem_of_List_filter {A} (f : A → bool) l x :
  x ∈ List.filter f l ↔ x ∈ l ∧ f x = true.
Proof. rewrite !list_elem_of_In. apply filter_In. Qed.

Lemma StronglySorted_List_filter {A} (R : A → A → Prop) (f : A → bool) l :
  StronglySorted R l → StronglySorted R (List.filter f l).
Proof.
  induction 1 as [|a l Hs IH Hall]; simpl; [constructor|].
  destruct (f a); [|exact IH]. constructor; [exact IH|].
  apply Forall_forall. intros b Hb. apply elem_of_List_filter in Hb as [Hb _].
  rewrite Forall_forall in Hall. auto.
Qed.

(** X14. What the listings return.  On a store keyed by id,
    [getAllTasks(true)] lists every record of the store exactly once, by
    ascending id; [getAllTasks()] lists the live tasks and
    [getDeletedTasks] the tasks of the trash, each in that same order, and
    every record is in exactly one of the two.  None of them writes. *)
Theorem listings_partition_store m :
  keyed (db m) →
  ∃ all live trash,
    getAllTasks true m = Some (Ok all, m) ∧
    getAllTasks false m = Some (Ok live, m) ∧
    getDeletedTasks m = Some (Ok trash, m) ∧
    StronglySorted (λ a b, id a < id b) all ∧
    StronglySorted (λ a b, id a < id b) live ∧
    StronglySorted (λ a b, id a < id b) trash ∧
    (∀ t, t ∈ all ↔ db m !! id t = Some t) ∧
    (∀ t, t ∈ live ↔ db m !! id t = Some t ∧ deleted t = false) ∧
    (∀ t, t ∈ trash ↔ db m !! id t = Some t ∧ deleted t = true) ∧
    length all = (length live + length trash)%nat.
Proof.
  intros Hk. eexists _, _, _.
  split; [reflexivity|]. split; [reflexivity|]. split; [reflexivity|].
  pose proof (getAll_sorted _ Hk) as Hs.
  assert (Hin : ∀ t, t ∈ getAll (db m) ↔ db m !! id t = Some t).
  { intros t. rewrite elem_of_getAll. split; [|eauto].
    intros [j Hj]. now rewrite (Hk _ _ Hj). }
  split; [exact Hs|].
  split; [apply StronglySorted_List_filter, Hs|].
  split; [apply StronglySorted_List_filter, Hs|].
  split; [exact Hin|]. split; [|split].
  - intros t. rewrite elem_of_List_filter, Hin, negb_true_iff. reflexivity.
  - intros t. rewrite elem_of_List_filter, Hin. reflexivity.
  - clear Hs Hin. induction (getAll (db m)) as [|a l IH]; [reflexivity|].
    simpl. destruct (deleted a); simpl; lia.
Qed.

Lemma listings_partition_store_witness :
  let m := Scenario.after (deleteTask Scenario.fuel Scenario.now 3 true true)
             Scenario.three in
  keyed (db m) ∧
  ∃ live trash,
    getAllTasks false m = Some (Ok live, m) ∧
    getDeletedTasks m = Some (Ok trash, m) ∧
    id <$> live = [1; 2] ∧ id <$> trash = [3].
Proof.
  intros m.
  assert (Hk : keyed (db m)) by keyed_check.
  split; [exact Hk|].
  destruct (listings_partition_store m Hk)
    as (all & live & trash & _ & Hlive & Htrash & _).
  exists live, trash. split; [exact Hlive|]. split; [exact Htrash|].
  assert (Hl : getAllTasks false m = getAllTasks false m) by reflexivity.
  rewrite Hlive in Hl at 1.
  assert (Ht : getDeletedTasks m = getDeletedTasks m) by reflexivity.
  rewrite Htrash in Ht at 1.
  vm_compute in Hl, Ht. injection Hl as ->. injection Ht as ->.
  split; reflexivity.
Defined.

(** ** Emptying the trash *)

Lemma purge_loop_erases fuel l : ∀ n m r m',
  foldM (λ purged t, purgeTask fuel (id t) ;;; ret (S purged)) l n m
    = Some (r, m') →
  erases m m'.
Proof.
  induction l as [|x l IH]; intros n m r m' H.
  - injection H as _ <-. apply erases_refl.
  - cbn [foldM] in H. unfold bind at 1 in H. unfold bind at 1 in H.
    destruct (purgeTask fuel (id x) m) as [[[[]|e] m1]|] eqn:Hp; [| |discriminate].
    + cbn [ret] in H.
      eapply erases_trans; [eapply purgeTask_erases; eauto | eapply IH; eauto].
    + injection H as _ <-. eapply purgeTask_erases; eauto.
Qed.

(** The loop of [purgeAll] over tasks that were in the trash of [m]. *)
Lemma purge_each rank fuel m l : ∀ n mk,
  ranked rank (db m) → erases m mk →
  (∀ t, t ∈ l → (rank (id t) < fuel)%nat ∧
                ∃ t0, db m !! id t = Some t0 ∧ deleted t0 = true) →
  ∃ m', foldM (λ purged t, purgeTask fuel (id t) ;;; ret (S purged)) l n mk
          = Some (Ok (n + length l)%nat, m') ∧
        erases m m' ∧ ∀ t, t ∈ l → db m' !! id t = None.
Proof.
  induction l as [|t l IH]; intros n mk Hr He Hl.
  - exists mk. simpl. rewrite Nat.add_0_r. split; [reflexivity|].
    split; [exact He|]. intros t Ht. apply elem_of_nil in Ht as [].
  - destruct (Hl t (list_elem_of_here _ _)) as (Hlt & t0 & Ht0 & Hd0).
    destruct (purgeTask_returns rank fuel (id t) mk) as (r & m1 & Hrun);
      [eapply ranked_erases; eauto | exact Hlt |].
    destruct r as [[]|e].
    2:{ exfalso. eapply purgeTask_no_throw; [|exact Hrun].
        intros t' Ht'. apply (erases_lookup_Some _ _ _ _ He) in Ht'. congruence. }
    pose proof (purgeTask_erases _ _ _ _ _ Hrun) as He1.
    pose proof (proj1 (purgeTask_outcome _ _ _ _ _ Hrun) eq_refl) as Hgone.
    assert (He' : erases m m1) by (eapply erases_trans; eauto).
    destruct (IH (S n) m1 Hr He') as (m' & Hrest & Hem' & Hnone).
    { intros t' Ht'. apply Hl. now apply list_elem_of_further. }
    exists m'. cbn [foldM]. unfold bind at 1. unfold bind at 1. rewrite Hrun.
    cbn [ret length]. rewrite Hrest. split; [f_equal; f_equal; f_equal; lia|].
    split; [exact Hem'|].
    intros t' Ht'. apply elem_of_cons in Ht' as [->|Ht']; [|auto].
    assert (He2 : erases m1 m') by (eapply purge_loop_erases; eauto).
    eapply erases_lookup_None; eauto.
Qed.

(** X15. Emptying the trash.  When the links among the tasks of the trash
    go down in some rank and the fuel is beyond every rank -- no deleted task
    is its own descendant -- [purgeAll] returns the number of tasks the
    trash held, every one of them is gone from the store afterwards, and
    every live record, the id counter and the history are as before. *)
Theorem purgeAll_empties_trash rank fuel m :
  keyed (db m) → ranked rank (db m) →
  (∀ j, is_Some (db m !! j) → (rank j < fuel)%nat) →
  ∃ trash m',
    getDeletedTasks m = Some (Ok trash, m) ∧
    purgeAll fuel m = Some (Ok (length trash), m') ∧
    (∀ j, db m' !! j =
          match db m !! j with
          | Some t => if deleted t then None else Some t
          | None => None
          end) ∧
    nextId m' = nextId m ∧ undoStack m' = undoStack m ∧
    redoStack m' = redoStack m.
Proof.
  intros Hk Hr Hfuel. eexists. unfold purgeAll. unfold bind at 1.
  unfold getDeletedTasks at 1 2. cbv beta.
  set (trash := List.filter (λ t, deleted t) (getAll (db m))).
  destruct (purge_each rank fuel m trash 0%nat m Hr (erases_refl m))
    as (m' & Hrun & He & Hnone).
  { intros t Ht. apply elem_of_List_filter in Ht as [Ht Hd].
    apply elem_of_getAll in Ht as [j Hj]. rewrite (Hk _ _ Hj).
    split; [apply Hfuel; eauto | eauto]. }
  exists m'. split; [reflexivity|]. split; [exact Hrun|].
  split; [|destruct He as (_ & ? & ? & ?); auto].
  intros j. destruct (db m !! j) as [t|] eqn:Hj.
  - destruct (deleted t) eqn:Hd.
    + rewrite <- (Hk _ _ Hj). apply Hnone. apply elem_of_List_filter.
      split; [|exact Hd]. apply elem_of_getAll. eauto.
    + eapply erases_live; eauto.
  - eapply erases_lookup_None; eauto.
Qed.

Lemma ranked_checked rank (d : gmap Z task) :
  map_Forall (λ j t, ranked_on rank d j t = true) d → ranked rank d.
Proof.
  intros H j t c child Hj Hd Hc Hchild Hdc.
  specialize (H j t Hj). unfold ranked_on in H. rewrite Hd in H. simpl in H.
  rewrite forallb_forall in H. apply list_elem_of_In in Hc.
  specialize (H c Hc). rewrite Hchild, Hdc in H. simpl in H.
  now apply Nat.ltb_lt in H.
Qed.

Lemma purgeAll_empties_trash_witness :
  let rank := λ j : Z, Z.to_nat (4 - j) in
  keyed (db all_trashed) ∧ ranked rank (db all_trashed) ∧
  (∀ j, is_Some (db all_trashed !! j) → (rank j < Scenario.fuel)%nat) ∧
  ∃ trash m',
    getDeletedTasks all_trashed = Some (Ok trash, all_trashed) ∧
    purgeAll Scenario.fuel all_trashed = Some (Ok (length trash), m') ∧
    (∀ j, db m' !! j =
          match db all_trashed !! j with
          | Some t => if deleted t then None else Some t
          | None => None
          end) ∧
    nextId m' = nextId all_trashed ∧ undoStack m' = undoStack all_trashed ∧
    redoStack m' = redoStack all_trashed.
Proof.
  intros rank.
  assert (Hk : keyed (db all_trashed)) by keyed_check.
  assert (Hr : ranked rank (db all_trashed)).
  { apply ranked_checked, (bool_decide_unpack _). vm_compute. reflexivity. }
  assert (Hf : ∀ j, is_Some (db all_trashed !! j) → (rank j < Scenario.fuel)%nat).
  { intros j [t Hj].
    assert (Hall : map_Forall (λ j _, (rank j < Scenario.fuel)%nat) (db all_trashed))
      by (apply (bool_decide_unpack _); vm_compute; reflexivity).
    exact (Hall j t Hj). }
  split; [exact Hk|]. split; [exact Hr|]. split; [exact Hf|].
  exact (purgeAll_empties_trash rank Scenario.fuel all_trashed Hk Hr Hf).
Defined.

(** ** isDescendant *)

Lemma anyM_true {A} (f : A → option bool) l :
  anyM f l = Some true → ∃ x, x ∈ l ∧ f x = Some true.
Proof.
  induction l as [|x l IH]; [discriminate|]. simpl.
  destruct (f x) as [[]|] eqn:Hx; [|intros H|discriminate].
  - intros _. exists x. split; [apply list_elem_of_here | exact Hx].
  - destruct (IH H) as (y & Hy & Hfy). exists y.
    split; [now apply list_elem_of_further | exact Hfy].
Qed.

Lemma anyM_false {A} (f : A → option bool) l :
  anyM f l = Some false → ∀ x, x ∈ l → f x = Some false.
Proof.
  induction l as [|x l IH]; intros H y Hy; [inversion Hy|]. simpl in H.
  destruct (f x) as [[]|] eqn:Hx; [discriminate| |discriminate].
  apply elem_of_cons in Hy as [->|Hy]; auto.
Qed.

Lemma anyM_total {A} (f : A → option bool) l :
  (∀ x, x ∈ l → is_Some (f x)) → is_Some (anyM f l).
Proof.
  induction l as [|x l IH]; intros H; [simpl; eauto|]. simpl.
  destruct (H x (list_elem_of_here _ _)) as [[] ->]; [eauto|].
  apply IH. intros y Hy. apply H. now apply list_elem_of_further.
Qed.

Lemma isDescendant_sound fuel d x : ∀ a,
  isDescendant fuel d x a = Some true → is_Some (d !! x) ∧ descendant d a x.
Proof.
  induction fuel as [|fuel IH]; intros a H; [discriminate|].
  cbn [isDescendant] in H.
  destruct (d !! x) as [tx|] eqn:Hx; [|discriminate].
  destruct (d !! a) as [ta|] eqn:Ha; [|discriminate].
  split; [eauto|]. unfold includes in H. case_bool_decide as Hin.
  - apply tc_once. exists ta. auto.
  - apply anyM_true in H as (c & Hc & Hrec).
    apply IH in Hrec as [_ Hrec].
    eapply tc_l; [|exact Hrec]. exists ta. auto.
Qed.

Lemma isDescendant_complete fuel d x : ∀ a,
  isDescendant fuel d x a = Some false →
  ¬ (is_Some (d !! x) ∧ descendant d a x).
Proof.
  induction fuel as [|fuel IH]; intros a H [[tx Hx] Hdesc]; [discriminate|].
  cbn [isDescendant] in H. rewrite Hx in H.
  destruct (d !! a) as [ta|] eqn:Ha.
  - unfold includes in H. case_bool_decide as Hin; [discriminate|].
    pose proof (anyM_false _ _ H) as Hall.
    inversion Hdesc as [? ? (t & Ht & Hc)|? c ? (t & Ht & Hc) Hrest]; subst;
      rewrite Ha in Ht; injection Ht as <-.
    + contradiction.
    + apply (IH c (Hall c Hc)). split; [eauto | exact Hrest].
  - inversion Hdesc as [? ? (t & Ht & _)|? c ? (t & Ht & _) _]; congruence.
Qed.

Lemma isDescendant_total rank d x : ∀ fuel a,
  links_down rank d → (rank a < fuel)%nat → is_Some (isDescendant fuel d x a).
Proof.
  induction fuel as [|fuel IH]; intros a Hr Hlt; [lia|].
  cbn [isDescendant].
  destruct (d !! x) as [tx|]; [|eauto].
  destruct (d !! a) as [ta|] eqn:Ha; [|eauto].
  destruct (includes (childTaskIds ta) x); [eauto|].
  apply anyM_total. intros c Hc. apply IH; [exact Hr|].
  specialize (Hr a ta c Ha Hc). lia.
Qed.

(** X16. [isDescendant(taskId, ancestorId)] answers whether the task is in
    the store and is reached from the ancestor by child links -- the
    [childTaskIds] of records of the store, one or more of them.  When the
    child links of the store have no cycle the recursion ends, and the answer
    is exact both ways. *)
Theorem isDescendant_exact rank fuel d x a :
  links_down rank d → (rank a < fuel)%nat →
  ∃ b, isDescendant fuel d x a = Some b ∧
       (b = true ↔ is_Some (d !! x) ∧ descendant d a x).
Proof.
  intros Hr Hlt.
  destruct (isDescendant_total rank d x fuel a Hr Hlt) as [b Hb].
  exists b. split; [exact Hb|]. destruct b.
  - split; [intros _; eapply isDescendant_sound; eauto | auto].
  - split; [discriminate|]. intros H. exfalso.
    eapply isDescendant_complete; eauto.
Qed.

Lemma links_down_checked rank (d : gmap Z task) :
  map_Forall (λ p t, links_down_on rank p t = true) d → links_down rank d.
Proof.
  intros H p t c Hp Hc. specialize (H p t Hp). unfold links_down_on in H.
  rewrite forallb_forall in H. apply list_elem_of_In in Hc.
  specialize (H c Hc). now apply Nat.ltb_lt in H.
Qed.

Lemma isDescendant_exact_witness :
  let rank := λ j : Z, Z.to_nat (4 - j) in
  links_down rank (db Scenario.three) ∧ (rank 1%Z < Scenario.fuel)%nat ∧
  isDescendant Scenario.fuel (db Scenario.three) 3 1 = Some true ∧
  descendant (db Scenario.three) 1 3.
Proof.
  intros rank.
  assert (Hr : links_down rank (db Scenario.three)).
  { apply links_down_checked, (bool_decide_unpack _). vm_compute. reflexivity. }
  assert (Hlt : (rank 1%Z < Scenario.fuel)%nat) by (vm_compute; lia).
  split; [exact Hr|]. split; [exact Hlt|].
  destruct (isDescendant_exact rank Scenario.fuel (db Scenario.three) 3 1 Hr Hlt)
    as (b & Hb & Hiff).
  assert (Hrun : isDescendant Scenario.fuel (db Scenario.three) 3 1 = Some true)
    by (vm_compute; reflexivity).
  split; [exact Hrun|].
  rewrite Hrun in Hb. injection Hb as <-. exact (proj2 (proj1 Hiff eq_refl)).
Defined.

(** ** The listing of the live tasks as a store *)

Lemma live_part_lookup d j :
  live_part d !! j =
  match d !! j with
  | Some t => if deleted t then None else Some t
  | None => None
  end.
Proof.
  unfold live_part. destruct (d !! j) as [t|] eqn:Hj.
  - destruct (deleted t) eqn:Hd.
    + apply map_lookup_filter_None. right. intros t' Hj'. simpl. congruence.
    + apply map_lookup_filter_Some. auto.
  - apply map_lookup_filter_None. now left.
Qed.

Lemma NoDup_live_ids d :
  keyed d → NoDup (id <$> List.filter (λ t, negb (deleted t)) (getAll d)).
Proof.
  intros Hk. pose proof (NoDup_getAll_ids d Hk) as H.
  induction (getAll d) as [|x l IH]; [constructor|].
  rewrite fmap_cons in H. apply NoDup_cons in H as [Hx Hnd]. simpl.
  destruct (negb (deleted x)); [|auto].
  rewrite fmap_cons. constructor; [|auto].
  intros Hin. apply Hx. apply list_elem_of_fmap in Hin as (y & -> & Hy).
  apply elem_of_List_filter in Hy as [Hy _]. apply list_elem_of_fmap. eauto.
Qed.

(** Looking a task up in the listing of the live tasks is looking it up in
    the store without its trash. *)
Lemma findTask_live d j :
  keyed d →
  findTask (List.filter (λ t, negb (deleted t)) (getAll d)) j = live_part d !! j.
Proof.
  intros Hk. rewrite live_part_lookup.
  set (l := List.filter _ _).
  assert (Hin : ∀ t, t ∈ l ↔ d !! id t = Some t ∧ deleted t = false).
  { intros t. unfold l. rewrite elem_of_List_filter, elem_of_getAll, negb_true_iff.
    split; intros [H Hd]; (split; [|exact Hd]).
    - destruct H as [i Hi]. now rewrite (Hk _ _ Hi).
    - eauto. }
  destruct (findTask l j) as [t|] eqn:Hf.
  - apply findTask_Some in Hf as [Ht <-]. apply Hin in Ht as [-> ->]. reflexivity.
  - destruct (d !! j) as [t|] eqn:Hj; [|reflexivity].
    destruct (deleted t) eqn:Hd; [reflexivity|].
    assert (Ht : t ∈ l) by (apply Hin; rewrite (Hk _ _ Hj); auto).
    apply (findTask_unique l t (NoDup_live_ids d Hk)) in Ht.
    rewrite (Hk _ _ Hj) in Ht. congruence.
Qed.

(** X17. The depth [filterTasks] sorts by.  [getTaskDepthSync] walks the
    listing of the live tasks, [getTaskDepth] the store; on a store keyed by
    id the first gives, for every task and with the same number of steps,
    what the second gives on the store without its trash.  So the two agree
    when the trash is empty, and a parent chain that enters the trash is cut
    there for the sorting only. *)
Theorem depth_on_live_listing fuel m live t :
  keyed (db m) →
  getAllTasks false m = Some (Ok live, m) →
  getTaskDepthSync fuel t live = getTaskDepth fuel (live_part (db m)) t ∧
  ((∀ j t', db m !! j = Some t' → deleted t' = false) →
   getTaskDepthSync fuel t live = getTaskDepth fuel (db m) t).
Proof.
  intros Hk Hlive. injection Hlive as <-.
  unfold getTaskDepthSync, getTaskDepth.
  assert (Hsame : ∀ fuel depth t,
    getTaskDepthSyncLoop fuel
      (List.filter (λ t, negb (deleted t)) (getAll (db m))) depth t
    = getTaskDepthLoop fuel (live_part (db m)) depth t).
  { clear fuel t. induction fuel as [|fuel IH]; intros depth t; simpl.
    - reflexivity.
    - destruct (parentTaskId t) as [p|]; [|reflexivity].
      rewrite findTask_live by exact Hk.
      destruct (live_part (db m) !! p); [apply IH | reflexivity]. }
  split; [apply Hsame|].
  intros Hno. rewrite Hsame. f_equal.
  apply map_eq. intros j. rewrite live_part_lookup.
  destruct (db m !! j) as [t'|] eqn:Hj; [|reflexivity].
  now rewrite (Hno _ _ Hj).
Qed.

Lemma depth_on_live_listing_witness :
  let m := Scenario.after (deleteTask Scenario.fuel Scenario.now 1 false true)
             Scenario.three in
  let live := List.filter (λ t, negb (deleted t)) (getAll (db m)) in
  keyed (db m) ∧ getAllTasks false m = Some (Ok live, m) ∧
  getTaskDepthSync Scenario.fuel Scenario.task_c live
    = getTaskDepth Scenario.fuel (live_part (db m)) Scenario.task_c.
Proof.
  intros m live.
  assert (Hk : keyed (db m)) by keyed_check.
  assert (Hlive : getAllTasks false m = Some (Ok live, m)) by reflexivity.
  split; [exact Hk|]. split; [exact Hlive|].
  exact (proj1 (depth_on_live_listing Scenario.fuel m live Scenario.task_c Hk Hlive)).
Defined.

(** ** Export and import *)

Lemma foldl_insert_lookup (l : list task) : ∀ (d0 : gmap Z task) j,
  NoDup (id <$> l) →
  foldl (λ d t, <[id t := t]> d) d0 l !! j =
  match findTask l j with
  | Some t => Some t
  | None => d0 !! j
  end.
Proof.
  induction l as [|x l IH]; intros d0 j Hnd; [reflexivity|].
  rewrite fmap_cons in Hnd. apply NoDup_cons in Hnd as [Hx Hnd].
  cbn [foldl]. rewrite IH by exact Hnd. unfold findTask. cbn [List.find].
  case_bool_decide as Hj.
  - subst j. fold (findTask l (id x)).
    destruct (findTask l (id x)) as [t|] eqn:Hf.
    + apply findTask_Some in Hf as [Ht Hid]. exfalso. apply Hx.
      rewrite <- Hid. apply list_elem_of_fmap. eauto.
    + apply lookup_insert_eq.
  - fold (findTask l j). destruct (findTask l j); [reflexivity|].
    now rewrite lookup_insert_ne.
Qed.

#[local] Instance by_id_trans : Transitive (λ a b : task, id a < id b).
Proof. intros a b c. lia. Qed.

#[local] Instance by_id_antisymm : AntiSymm (=) (λ a b : task, id a < id b).
Proof. intros a b H1 H2. lia. Qed.

(** The live tasks of a store are the tasks of the store without its
    trash. *)
Lemma live_listing_of_live_part d :
  keyed d →
  List.filter (λ t, negb (deleted t)) (getAll (live_part d))
  = List.filter (λ t, negb (deleted t)) (getAll d).
Proof.
  intros Hk.
  assert (Hk' : keyed (live_part d)).
  { intros j t. rewrite live_part_lookup.
    destruct (d !! j) as [t'|] eqn:Hj; [|discriminate].
    destruct (deleted t'); [discriminate|]. intros [= <-]. eauto. }
  apply (StronglySorted_unique (λ a b : task, id a < id b)).
  - apply StronglySorted_List_filter, getAll_sorted, Hk'.
  - apply StronglySorted_List_filter, getAll_sorted, Hk.
  - apply NoDup_Permutation.
    + eapply NoDup_fmap_1, NoDup_live_ids, Hk'.
    + eapply NoDup_fmap_1, NoDup_live_ids, Hk.
    + intros t. rewrite !elem_of_List_filter, !elem_of_getAll, negb_true_iff.
      split; intros [[j Hj] Hd]; (split; [exists j|exact Hd]).
      * rewrite live_part_lookup in Hj.
        destruct (d !! j) as [t'|]; [|discriminate].
        destruct (deleted t'); [discriminate | exact Hj].
      * rewrite live_part_lookup, Hj, Hd. reflexivity.
Qed.

(** X18. A backup holds the live tasks only.  On a store keyed by id,
    [exportData] writes nothing and gives the live tasks by ascending id
    with the value of the id counter; [importData] of that backup, into
    whatever manager, leaves as its store the exported store without its
    trash -- every live record as it was, links to purged or trashed tasks
    included -- and the exported counter, and does not touch the history.
    Exporting again gives the same backup. *)
Theorem export_import_drops_trash m other :
  keyed (db m) →
  ∃ data m',
    exportData m = Some (Ok data, m) ∧
    importData data other = Some (Ok tt, m') ∧
    db m' = live_part (db m) ∧
    nextId m' = Some (default 1 (nextId m)) ∧
    undoStack m' = undoStack other ∧ redoStack m' = redoStack other ∧
    keyed (db m') ∧
    exportData m' = Some (Ok data, m').
Proof.
  intros Hk. eexists _, _. split; [reflexivity|]. split; [reflexivity|].
  cbn [db nextId undoStack redoStack set_db set_nextId b_tasks b_nextId].
  set (live := List.filter (λ t, negb (deleted t)) (getAll (db m))).
  assert (Hdb : foldl (λ d t, <[id t := t]> d) ∅ live = live_part (db m)).
  { apply map_eq. intros j.
    rewrite foldl_insert_lookup by apply NoDup_live_ids, Hk.
    unfold live. rewrite findTask_live by exact Hk.
    rewrite lookup_empty. now destruct (live_part (db m) !! j). }
  assert (Hk' : keyed (live_part (db m))).
  { intros j t. rewrite live_part_lookup.
    destruct (db m !! j) as [t'|] eqn:Hj; [|discriminate].
    destruct (deleted t'); [discriminate|]. intros [= <-]. eauto. }
  split; [exact Hdb|]. split; [reflexivity|]. split; [reflexivity|].
  split; [reflexivity|]. split; [rewrite Hdb; exact Hk'|].
  unfold exportData, bind, getAllTasks. cbn [db set_db set_nextId nextId default].
  rewrite Hdb, (live_listing_of_live_part _ Hk). reflexivity.
Qed.

Lemma export_import_drops_trash_witness :
  keyed (db all_trashed) ∧
  ∃ data m',
    exportData all_trashed = Some (Ok data, all_trashed) ∧
    importData data Scenario.one = Some (Ok tt, m') ∧
    db m' = live_part (db all_trashed) ∧ b_tasks data = [] ∧
    nextId m' = Some 4 ∧ undoStack m' = undoStack Scenario.one.
Proof.
  assert (Hk : keyed (db all_trashed)) by keyed_check.
  split; [exact Hk|].
  destruct (export_import_drops_trash all_trashed Scenario.one Hk)
    as (data & m' & Hexp & Himp & Hdb & Hn & Hu & _).
  exists data, m'. split; [exact Hexp|]. split; [exact Himp|].
  split; [exact Hdb|].
  assert (Hdata : exportData all_trashed = exportData all_trashed) by reflexivity.
  rewrite Hexp in Hdata at 1. vm_compute in Hdata. injection Hdata as ->.
  split; [reflexivity|]. split; [exact Hn | exact Hu].
Defined.

(** ** Restoring from the trash *)

(** X19. What [restoreTask] does, for every id.  On an id that is not in
    the store, or is the id of a live task, it throws and leaves the manager
    as it was.  On a task of the trash it returns the task, live again;
    the parent the task names lists it again when that parent is live -- at
    the end of its children, unless it lists it still -- and is left alone
    when it is in the trash itself, so that the restored task is then listed
    nowhere; every other record is as before, and a restore action is
    recorded. *)
Theorem restore_outcome now i m :
  keyed (db m) →
  ∃ r m',
    restoreTask now i m = Some (r, m') ∧
    match db m !! i with
    | None => r = Throw (TaskNotFound i) ∧ m' = m
    | Some t =>
        if deleted t then
          r = Ok (with_deleted false None t) ∧
          undoStack m' = capped (undoStack m) (ARestore i now) ∧
          redoStack m' = [] ∧ nextId m' = nextId m ∧
          (parentTaskId t ≠ Some i →
           db m' !! i = Some (with_deleted false None t)) ∧
          (∀ p parent, parentTaskId t = Some p → p ≠ i →
             db m !! p = Some parent →
             db m' !! p =
               Some (if deleted parent then parent
                     else with_children (set_add i (childTaskIds parent)) parent)) ∧
          (∀ j, j ≠ i → parentTaskId t ≠ Some j → db m' !! j = db m !! j)
        else r = Throw (TaskNotDeleted i) ∧ m' = m
    end.
Proof.
  intros Hk. unfold restoreTask. unfold bind at 1, getTaskById.
  destruct (db m !! i) as [t|] eqn:Hl; [|eauto].
  pose proof (Hk _ _ Hl) as Hid.
  destruct (deleted t) eqn:Hd; cbn [negb]; [|eauto].
  unfold bind at 1, saveTask. unfold bind at 1.
  cbn [id with_deleted]. rewrite Hid.
  set (t1 := with_deleted false None t).
  set (m0 := set_db (<[i := t1]> (db m)) m).
  assert (Hk0 : keyed (db m0)).
  { intros j0 t0. unfold m0. simpl. rewrite lookup_insert. case_decide.
    - intros [= <-]. simpl. congruence.
    - apply Hk. }
  destruct (attachToParent_lookup i t1 m0 Hk0)
    as (m1 & Hat & Hk1 & Hn1 & Hu1 & Hr1 & Hlook).
  rewrite Hat. unfold bind at 1, recordAction. cbn [ret].
  eexists _, _. split; [reflexivity|]. split; [reflexivity|].
  cbn [db undoStack redoStack nextId set_redoStack set_undoStack].
  rewrite Hu1, Hn1. unfold capped.
  split; [reflexivity|]. split; [reflexivity|]. split; [reflexivity|].
  cbn [parentTaskId t1 with_deleted] in Hlook. unfold m0 in Hlook.
  cbn [db set_db] in Hlook.
  split; [|split].
  - intros Hself. rewrite Hlook, (bool_decide_eq_false_2 _ Hself).
    apply lookup_insert_eq.
  - intros p parent Hp Hpi Hparent.
    rewrite Hlook, (bool_decide_eq_true_2 _ Hp).
    rewrite lookup_insert_ne by congruence. rewrite Hparent. simpl.
    unfold set_add. destruct (deleted parent); simpl; [reflexivity|].
    destruct (includes (childTaskIds parent) i); simpl; [|reflexivity].
    now rewrite with_children_same.
  - intros j Hj Hnp. rewrite Hlook, (bool_decide_eq_false_2 _ Hnp).
    now rewrite lookup_insert_ne by congruence.
Qed.

Lemma restore_outcome_witness :
  keyed (db all_trashed) ∧
  ∃ r m',
    restoreTask Scenario.now 2 all_trashed = Some (r, m') ∧
    ∃ t parent, db all_trashed !! 2 = Some t ∧ deleted t = true ∧
      r = Ok (with_deleted false None t) ∧
      parentTaskId t = Some 1 ∧ db all_trashed !! 1 = Some parent ∧
      deleted parent = true ∧ db m' !! 1 = Some parent.
Proof.
  assert (Hk : keyed (db all_trashed)) by keyed_check.
  split; [exact Hk|].
  destruct (restore_outcome Scenario.now 2 all_trashed Hk) as (r & m' & Hrun & H).
  exists r, m'. split; [exact Hrun|].
  destruct (db all_trashed !! 2) as [t|] eqn:Ht; [|vm_compute in Ht; discriminate].
  destruct (db all_trashed !! 1) as [parent|] eqn:Hp;
    [|vm_compute in Hp; discriminate].
  assert (Hd : deleted t = true).
  { vm_compute in Ht. injection Ht as <-. reflexivity. }
  assert (Hpar : parentTaskId t = Some 1).
  { vm_compute in Ht. injection Ht as <-. reflexivity. }
  assert (Hdp : deleted parent = true).
  { vm_compute in Hp. injection Hp as <-. reflexivity. }
  rewrite Hd in H. destruct H as (Hr & _ & _ & _ & _ & Hparent & _).
  exists t, parent. split; [reflexivity|]. split; [exact Hd|].
  split; [exact Hr|]. split; [exact Hpar|]. split; [reflexivity|].
  split; [exact Hdp|].
  rewrite (Hparent 1 parent Hpar ltac:(lia) Hp), Hdp. reflexivity.
Defined.

(** ** sortByPriority *)

(** Insertion from the right with a comparator that orders the elements of
    a class [P]: reversing the arguments reverses the sign, and it is
    transitive, also through ties. *)
Section Insertion.

Variable cmp : task → task → Z.
Variable P : task → Prop.
Hypothesis cmp_flip : ∀ a b, P a → P b → cmp b a = - cmp a b.
Hypothesis cmp_trans : ∀ a b c, P a → P b → P c →
  cmp a b ≤ 0 → cmp b c ≤ 0 → cmp a c ≤ 0.
Hypothesis cmp_tie : ∀ a b c, P a → P b → P c →
  cmp a b = 0 → cmp a c = cmp b c.

Lemma insertSorted_perm x l : insertSorted cmp x l ≡ₚ x :: l.
Proof.
  induction l as [|y l IH]; simpl; [reflexivity|].
  case_bool_decide; [reflexivity|]. rewrite IH. apply Permutation_swap.
Qed.

Lemma insertSorted_sorted x l :
  P x → Forall P l →
  StronglySorted (λ a b, cmp a b ≤ 0) l →
  StronglySorted (λ a b, cmp a b ≤ 0) (insertSorted cmp x l).
Proof.
  intros Hx HP Hs. induction Hs as [|y l Hs IH Hall]; simpl.
  - constructor; constructor.
  - apply Forall_cons in HP as [Hy HP]. case_bool_decide as Hxy.
    + constructor; [constructor; assumption|].
      constructor; [exact Hxy|].
      rewrite Forall_forall in Hall, HP. apply Forall_forall. intros z Hz.
      apply (cmp_trans x y z); auto.
    + constructor; [exact (IH HP)|].
      rewrite insertSorted_perm. constructor; [|exact Hall].
      rewrite (cmp_flip x y) by assumption. lia.
Qed.

Lemma insertSorted_tied a x l :
  P a → P x → Forall P l →
  StronglySorted (λ a b, cmp a b ≤ 0) l →
  List.filter (tied cmp a) (insertSorted cmp x l)
  = List.filter (tied cmp a) (x :: l).
Proof.
  intros Ha Hx HP Hs. induction Hs as [|y l Hs IH Hall]; [reflexivity|].
  apply Forall_cons in HP as [Hy HP].
  cbn [insertSorted]. case_bool_decide as Hxy; [reflexivity|].
  cbn [List.filter] in *. rewrite (IH HP).
  destruct (tied cmp a x) eqn:Hax; [|reflexivity].
  destruct (tied cmp a y) eqn:Hay; [|reflexivity].
  exfalso. apply Hxy. unfold tied in *.
  apply bool_decide_eq_true in Hax, Hay.
  rewrite <- (cmp_tie a x y Ha Hx Hy Hax). lia.
Qed.

Lemma insertion_sorted l :
  Forall P l →
  StronglySorted (λ a b, cmp a b ≤ 0) (foldr (insertSorted cmp) [] l).
Proof.
  induction 1 as [|x l Hx HP IH]; simpl; [constructor|].
  apply insertSorted_sorted; [exact Hx | | exact IH].
  clear IH Hx. induction HP as [|y l Hy HP IH]; simpl; [constructor|].
  rewrite insertSorted_perm. constructor; assumption.
Qed.

Lemma insertion_perm l : foldr (insertSorted cmp) [] l ≡ₚ l.
Proof.
  induction l as [|x l IH]; simpl; [reflexivity|].
  now rewrite insertSorted_perm, IH.
Qed.

Lemma insertion_stable a l :
  P a → Forall P l →
  List.filter (tied cmp a) (foldr (insertSorted cmp) [] l)
  = List.filter (tied cmp a) l.
Proof.
  intros Ha HP. induction HP as [|x l Hx HP IH]; [reflexivity|].
  cbn [foldr]. rewrite insertSorted_tied; auto.
  - cbn [List.filter]. now rewrite IH.
  - rewrite insertion_perm. exact HP.
  - apply insertion_sorted, HP.
Qed.

End Insertion.

Section SortByPriority.

Variable timeOf : timestamp → option Z.

(** [H : dated timeOf t] split into the cases of the due date of [t]. *)
Ltac use_dated :=
  repeat match goal with
         | H : dated timeOf ?t |- _ =>
             unfold dated in H;
             destruct (truthy (dueDate t)) as [?d|];
             [ let x := fresh "time" in
               let Hx := fresh "Htime" in
               destruct (H _ eq_refl) as [x Hx]; rewrite ?Hx in *; clear H
             | clear H ]
         end.

Ltac cmp_cases :=
  unfold priorityCompare, sortCompare, compareByPriority, priorityOrder in *;
  use_dated;
  repeat match goal with
         | |- context [priority_of ?t] => destruct (priority_of t) as [[]|]
         | H : context [priority_of ?t] |- _ => destruct (priority_of t) as [[]|]
         end;
  simpl in *;
  rewrite ?sub_nonpos, ?sub_zero in *.

Lemma compare_flip a b :
  dated timeOf a → dated timeOf b →
  priorityCompare timeOf b a = - priorityCompare timeOf a b.
Proof. intros Ha Hb. cmp_cases; try apply sub_flip; reflexivity. Qed.

Lemma compare_trans a b c :
  dated timeOf a → dated timeOf b → dated timeOf c →
  priorityCompare timeOf a b ≤ 0 → priorityCompare timeOf b c ≤ 0 →
  priorityCompare timeOf a c ≤ 0.
Proof. intros Ha Hb Hc. cmp_cases; lia. Qed.

Lemma compare_tie_left a b c :
  dated timeOf a → dated timeOf b → dated timeOf c →
  priorityCompare timeOf a b = 0 →
  priorityCompare timeOf a c = priorityCompare timeOf b c.
Proof.
  intros Ha Hb Hc. cmp_cases; intros H; subst; try reflexivity;
    first [lia | congruence].
Qed.

Lemma dated_comparable l :
  Forall (dated timeOf) l → comparable (compareByPriority timeOf) l = true.
Proof.
  assert (Hfin : ∀ a b, dated timeOf a → dated timeOf b →
                       finite (compareByPriority timeOf a b) = true).
  { intros a b Ha Hb. unfold compareByPriority.
    use_dated; repeat case_match; reflexivity. }
  induction 1 as [|a l Ha HP IH]; [reflexivity|].
  cbn [comparable]. rewrite IH, andb_true_r.
  apply forallb_forall. intros b Hb.
  apply list_elem_of_In in Hb. rewrite Forall_forall in HP.
  rewrite !Hfin; auto.
Qed.

(** X20. On tasks whose due dates all parse, [sortByPriority] arranges the
    tasks by its comparator: the result holds the same tasks, as many times;
    it is in order -- so every task without a priority, as the completed
    ones are, comes after every task with one, tasks with a priority are in
    the order Critical, High, Medium, Low and within one priority in
    ascending due date, those without a due date last, and tasks without a
    priority are in descending id; and tasks that compare as equal keep the
    order they came in. *)
Theorem sortByPriority_sorts tasks :
  Forall (dated timeOf) tasks →
  ∃ sorted,
    sortByPriority timeOf tasks = Some sorted ∧
    sorted ≡ₚ tasks ∧
    StronglySorted (λ a b, priorityCompare timeOf a b ≤ 0) sorted ∧
    (∀ a, a ∈ tasks →
          List.filter (tied (priorityCompare timeOf) a) sorted
          = List.filter (tied (priorityCompare timeOf) a) tasks) ∧
    (∀ l1 a l2 b l3, sorted = l1 ++ a :: l2 ++ b :: l3 →
       match priority_of a, priority_of b with
       | Some pa, Some pb =>
           priorityOrder pa ≤ priorityOrder pb ∧
           (pa = pb →
            match truthy (dueDate a), truthy (dueDate b) with
            | Some da, Some db =>
                ∃ ta tb, timeOf da = Some ta ∧ timeOf db = Some tb ∧ ta ≤ tb
            | None, Some _ => False
            | _, None => True
            end)
       | Some _, None => True
       | None, Some _ => False
       | None, None => id b ≤ id a
       end).
Proof.
  intros HP. unfold sortByPriority, stableSort.
  rewrite (dated_comparable tasks HP).
  exists (foldr (insertSorted (priorityCompare timeOf)) [] tasks).
  split; [reflexivity|].
  pose proof (insertion_sorted (priorityCompare timeOf) (dated timeOf)
                compare_flip compare_trans tasks HP) as Hs.
  pose proof (insertion_perm (priorityCompare timeOf) tasks) as Hperm.
  split; [exact Hperm|]. split; [exact Hs|]. split.
  - intros a Ha.
    apply (insertion_stable (priorityCompare timeOf) (dated timeOf)
             compare_flip compare_trans compare_tie_left); [|exact HP].
    rewrite Forall_forall in HP. auto.
  - intros l1 a l2 b l3 Heq.
    assert (Ha : dated timeOf a ∧ dated timeOf b).
    { rewrite Forall_forall in HP. split; apply HP; rewrite <- Hperm, Heq;
        rewrite ?elem_of_app, ?elem_of_cons, ?elem_of_app, ?elem_of_cons; auto. }
    destruct Ha as [Ha Hb]. rewrite Heq in Hs.
    apply StronglySorted_app_1_r in Hs.
    apply StronglySorted_inv in Hs as [_ Hall].
    rewrite Forall_app in Hall. destruct Hall as [_ Hall].
    apply Forall_inv in Hall. revert Hall.
    unfold dated in Ha, Hb.
    unfold priorityCompare, sortCompare, compareByPriority.
    destruct (priority_of a) as [pa|], (priority_of b) as [pb|]; simpl.
    4:{ now rewrite sub_nonpos. }
    3:{ lia. }
    2:{ auto. }
    case_bool_decide as Hd; [intros Hle; split; [lia|]; intros ->; lia|].
    intros Hle. split; [lia|]. intros _. revert Hle.
    destruct (truthy (dueDate a)) as [da|], (truthy (dueDate b)) as [db|];
      try tauto; try lia.
    destruct (Ha _ eq_refl) as [ta Hta], (Hb _ eq_refl) as [tb Htb].
    rewrite Hta, Htb, sub_nonpos. eauto.
Qed.

End SortByPriority.

Lemma sortByPriority_sorts_witness :
  Forall (dated january) criticals ∧
  sortByPriority january criticals
  = Some [due 3 (Some Critical) (Some "2024-01-01");
          due 2 (Some Critical) (Some "2024-01-02"); due 1 None None].
Proof.
  assert (HP : Forall (dated january) criticals).
  { repeat constructor; intros d; vm_compute; intros [= <-]; eauto. }
  split; [exact HP|].
  destruct (sortByPriority_sorts january criticals HP) as (sorted & Hrun & _).
  rewrite Hrun. f_equal. revert Hrun. vm_compute. congruence.
Defined.

(** ** getTasksHierarchical *)

Lemma taskMapOf_lookup tasks j :
  NoDup (id <$> tasks) → taskMapOf tasks !! j = findTask tasks j.
Proof.
  intros Hnd. unfold taskMapOf. rewrite foldl_insert_lookup by exact Hnd.
  rewrite lookup_empty. now destruct (findTask tasks j).
Qed.

Lemma listed_length tasks st :
  NoDup (id <$> tasks) → listed tasks st → (length (snd st) ≤ length tasks)%nat.
Proof.
  intros Hnd (Hids & Hnd' & Hsub).
  rewrite <- (length_fmap id tasks). apply submseteq_length.
  apply NoDup_submseteq; [exact Hnd'|].
  intros i Hi. rewrite Hids in Hi. apply list_elem_of_fmap in Hi as (t & -> & Ht).
  apply list_elem_of_fmap. eauto.
Qed.

Lemma foldlM_cons {A B} (f : B → A → option B) x l b b1 :
  f b x = Some b1 → foldlM f (x :: l) b = foldlM f l b1.
Proof. simpl. now intros ->. Qed.

Lemma first_pass_guard fuel taskMap l : ∀ st,
  foldlM (λ st t,
            match parentTaskId t with
            | None => addTaskWithDescendants fuel taskMap t st
            | Some _ => Some st
            end) l st
  = foldlM (λ st t,
              if bool_decide (parentTaskId t = None)
              then addTaskWithDescendants fuel taskMap t st
              else Some st) l st.
Proof.
  induction l as [|x l IH]; intros st; [reflexivity|]. cbn [foldlM].
  destruct (parentTaskId x); simpl.
  - apply IH.
  - destruct (addTaskWithDescendants _ _ x st); [apply IH | reflexivity].
Qed.

Section Hierarchy.

Variable tasks : list task.
Hypothesis tasks_NoDup : NoDup (id <$> tasks).

(** One call of the closure: it ends within the number of tasks not listed
    yet, keeps the state sound, keeps what was listed and lists the task. *)
Lemma addTaskWithDescendants_spec fuel : ∀ t st,
  t ∈ tasks → listed tasks st →
  (length tasks - length (snd st) < fuel)%nat →
  ∃ st', addTaskWithDescendants fuel (taskMapOf tasks) t st = Some st' ∧
         listed tasks st' ∧
         (∃ more, fst st' = fst st ++ more) ∧
         id t ∈ snd st'.
Proof.
  induction fuel as [|fuel IH]; intros t st Ht Hst Hfuel; [lia|].
  cbn [addTaskWithDescendants].
  destruct (includes (snd st) (id t)) eqn:Hinc.
  { apply bool_decide_eq_true in Hinc.
    exists st. split; [reflexivity|]. split; [exact Hst|].
    split; [exists []; now rewrite app_nil_r | exact Hinc]. }
  unfold set_add. rewrite Hinc.
  assert (Hin : id t ∉ snd st) by (now apply bool_decide_eq_false in Hinc).
  clear Hinc. destruct st as [result addedIds]. cbn [fst snd] in *.
  set (st0 := (result ++ [t], addedIds ++ [id t])).
  assert (Hst0 : listed tasks st0).
  { destruct Hst as (Hids & Hnd & Hsub). cbn [fst snd] in *.
    unfold st0. split; [|split]; cbn [fst snd].
    - rewrite fmap_app, Hids. reflexivity.
    - apply NoDup_app. split; [exact Hnd|]. split; [|apply NoDup_singleton].
      intros i Hi Hi'. apply list_elem_of_singleton in Hi'. congruence.
    - intros t' Ht'. apply elem_of_app in Ht' as [Ht'|Ht']; [auto|].
      apply list_elem_of_singleton in Ht'. congruence. }
  assert (Hlen0 : (length tasks - length (snd st0) < fuel)%nat).
  { pose proof (listed_length tasks st0 tasks_NoDup Hst0) as Hle.
    unfold st0 in *. cbn [snd] in *. rewrite length_app in *. simpl in *. lia. }
  assert (Hloop : ∀ cs st1,
    listed tasks st1 → (length tasks - length (snd st1) < fuel)%nat →
    ∃ st', foldlM (λ st childId,
                     match taskMapOf tasks !! childId with
                     | Some child =>
                         if negb (includes (snd st) childId)
                         then addTaskWithDescendants fuel (taskMapOf tasks) child st
                         else Some st
                     | None => Some st
                     end) cs st1 = Some st' ∧
           listed tasks st' ∧ (∃ more, fst st' = fst st1 ++ more) ∧
           (length (snd st1) ≤ length (snd st'))%nat).
  { induction cs as [|c cs IHcs]; intros st1 Hst1 Hlen1.
    - exists st1. split; [reflexivity|]. split; [exact Hst1|].
      split; [exists []; now rewrite app_nil_r | lia].
    - assert (Hstep : ∃ st2,
        match taskMapOf tasks !! c with
        | Some child =>
            if negb (includes (snd st1) c)
            then addTaskWithDescendants fuel (taskMapOf tasks) child st1
            else Some st1
        | None => Some st1
        end = Some st2 ∧ listed tasks st2 ∧
        (∃ more, fst st2 = fst st1 ++ more) ∧
        (length (snd st1) ≤ length (snd st2))%nat).
      { assert (Hsame : ∃ st2, Some st1 = Some st2 ∧ listed tasks st2 ∧
                  (∃ more, fst st2 = fst st1 ++ more) ∧
                  (length (snd st1) ≤ length (snd st2))%nat).
        { exists st1. split; [reflexivity|]. split; [exact Hst1|].
          split; [exists []; now rewrite app_nil_r | lia]. }
        rewrite taskMapOf_lookup by exact tasks_NoDup.
        destruct (findTask tasks c) as [child|] eqn:Hc; [|exact Hsame].
        destruct (includes (snd st1) c); [exact Hsame|]. cbn [negb].
        apply findTask_Some in Hc as [Hchild _].
        destruct (IH child st1 Hchild Hst1 Hlen1) as (st2 & Hrun & Hst2 & Hmore & _).
        exists st2. split; [exact Hrun|]. split; [exact Hst2|].
        split; [exact Hmore|].
        destruct Hmore as [more Hmore].
        destruct Hst1 as (Hi1 & _), Hst2 as (Hi2 & _).
        rewrite Hi1, Hi2, !length_fmap, Hmore, length_app. lia. }
      destruct Hstep as (st2 & Hrun2 & Hst2 & [more2 Hmore2] & Hle2).
      destruct (IHcs st2 Hst2) as (st' & Hrun & Hst' & [more Hmore] & Hle); [lia|].
      exists st'. rewrite (foldlM_cons _ _ _ _ _ Hrun2).
      split; [exact Hrun|]. split; [exact Hst'|].
      split; [|lia]. exists (more2 ++ more). rewrite Hmore, Hmore2.
      now rewrite app_assoc. }
  destruct (Hloop (childTaskIds t) st0 Hst0 Hlen0)
    as (st' & Hrun & Hst' & [more Hmore] & _).
  exists st'. split; [exact Hrun|]. split; [exact Hst'|].
  split.
  - exists ([t] ++ more). rewrite Hmore. unfold st0. cbn [fst].
    now rewrite app_assoc.
  - destruct Hst' as (Hids & _). rewrite Hids, Hmore. unfold st0. cbn [fst].
    rewrite !fmap_app. apply elem_of_app. left. apply elem_of_app. right.
    apply list_elem_of_here.
Qed.

(** A pass over the tasks with a guard on each: it ends, keeps the state
    sound and what was listed, and lists every task that the guard lets
    through or that was listed already when it was tested. *)
Lemma pass_spec (guard : listing → task → bool) : ∀ l st,
  (∀ t, t ∈ l → t ∈ tasks) → listed tasks st →
  ∃ st', foldlM (λ st t,
                   if guard st t
                   then addTaskWithDescendants (S (length tasks)) (taskMapOf tasks) t st
                   else Some st) l st = Some st' ∧
         listed tasks st' ∧ (∃ more, fst st' = fst st ++ more) ∧
         ∀ t, t ∈ l →
              (∀ st0, listed tasks st0 → guard st0 t = false → id t ∈ snd st0) →
              id t ∈ snd st'.
Proof.
  induction l as [|x l IH]; intros st Hl Hst.
  - exists st. split; [reflexivity|]. split; [exact Hst|].
    split; [exists []; now rewrite app_nil_r|].
    intros t Ht. inversion Ht.
  - assert (Hstep : ∃ st1,
      (if guard st x
       then addTaskWithDescendants (S (length tasks)) (taskMapOf tasks) x st
       else Some st) = Some st1 ∧ listed tasks st1 ∧
      (∃ more, fst st1 = fst st ++ more) ∧
      ((∀ st0, listed tasks st0 → guard st0 x = false → id x ∈ snd st0) →
       id x ∈ snd st1)).
    { destruct (guard st x) eqn:Hg.
      - destruct (addTaskWithDescendants_spec (S (length tasks)) x st)
          as (st1 & Hrun & Hst1 & Hmore & Hin);
          [apply Hl, list_elem_of_here | exact Hst | lia |].
        eauto 6.
      - exists st. split; [reflexivity|]. split; [exact Hst|].
        split; [exists []; now rewrite app_nil_r|]. auto. }
    destruct Hstep as (st1 & Hrun1 & Hst1 & [more1 Hmore1] & Hx).
    destruct (IH st1) as (st' & Hrun & Hst' & [more Hmore] & Hall);
      [intros t Ht; apply Hl; now apply list_elem_of_further | exact Hst1 |].
    exists st'. rewrite (foldlM_cons _ _ _ _ _ Hrun1).
    split; [exact Hrun|]. split; [exact Hst'|].
    split.
    { exists (more1 ++ more). rewrite Hmore, Hmore1. now rewrite app_assoc. }
    intros t Ht Hguard. apply elem_of_cons in Ht as [->|Ht]; [|auto].
    destruct Hst1 as (Hi1 & _), Hst' as (Hi' & _).
    specialize (Hx Hguard). rewrite Hi1 in Hx. rewrite Hi', Hmore, fmap_app.
    apply elem_of_app. now left.
Qed.

(** The two passes list every task. *)
Lemma getTasksHierarchical_spec :
  ∃ res, getTasksHierarchical (S (length tasks)) tasks = Some res ∧
         res ≡ₚ tasks.
Proof.
  unfold getTasksHierarchical.
  destruct (pass_spec (λ _ t, bool_decide (parentTaskId t = None)) tasks ([], []))
    as (st1 & Hrun1 & Hst1 & _ & _); [auto| |].
  { split; [reflexivity|]. split; [constructor|]. intros t Ht. inversion Ht. }
  assert (Hfirst :
    foldlM (λ st t,
              match parentTaskId t with
              | None => addTaskWithDescendants (S (length tasks)) (taskMapOf tasks) t st
              | Some _ => Some st
              end) tasks ([], []) = Some st1).
  { rewrite <- Hrun1. apply first_pass_guard. }
  rewrite Hfirst. cbn [mbind option_bind].
  destruct (pass_spec (λ st t, negb (includes (snd st) (id t))) tasks st1)
    as (st2 & Hrun2 & Hst2 & _ & Hall); [auto | exact Hst1 |].
  exists (fst st2). unfold listing in Hrun2. rewrite Hrun2.
  cbn [mbind option_bind]. split; [reflexivity|].
  destruct Hst2 as (Hids & Hnd & Hsub).
  apply NoDup_Permutation.
  - rewrite Hids in Hnd. eapply NoDup_fmap_1, Hnd.
  - eapply NoDup_fmap_1, tasks_NoDup.
  - intros t. split; [apply Hsub|]. intros Ht.
    assert (Hin : id t ∈ snd st2).
    { apply Hall; [exact Ht|]. intros st0 _ Hg.
      apply negb_false_iff in Hg. now apply bool_decide_eq_true in Hg. }
    rewrite Hids in Hin. apply list_elem_of_fmap in Hin as (t' & Hid & Ht').
    rewrite (same_id_same_task tasks t t' tasks_NoDup Ht (Hsub _ Ht') Hid).
    exact Ht'.
Qed.

End Hierarchy.

(** X21. [getTasksHierarchical] drops and repeats nothing.  Given tasks
    with distinct ids it ends within one level of recursion per task and
    returns each of them exactly once, whatever their links are: tasks whose
    parent is not among them, tasks nobody lists and cycles of child links
    are listed too, by the second pass. *)
Theorem hierarchical_listing_is_permutation tasks :
  NoDup (id <$> tasks) →
  ∃ res, getTasksHierarchical (S (length tasks)) tasks = Some res ∧
         res ≡ₚ tasks ∧ NoDup (id <$> res).
Proof.
  intros Hnd. destruct (getTasksHierarchical_spec tasks Hnd) as (res & Hrun & Hperm).
  exists res. split; [exact Hrun|]. split; [exact Hperm|]. now rewrite Hperm.
Qed.

Lemma hierarchical_listing_is_permutation_witness :
  NoDup (id <$> Scenario.family) ∧
  ∃ res, getTasksHierarchical (S (length Scenario.family)) Scenario.family
           = Some res ∧
         res ≡ₚ Scenario.family ∧ NoDup (id <$> res).
Proof.
  assert (Hnd : NoDup (id <$> Scenario.family)).
  { apply (bool_decide_unpack _). vm_compute. reflexivity. }
  split; [exact Hnd|].
  exact (hierarchical_listing_is_permutation Scenario.family Hnd).
Defined.

(** ** The depth of a created task *)

Lemma getTaskDepthLoop_shift d k : ∀ fuel z cur,
  getTaskDepthLoop fuel d (z + k) cur
  = (λ x, x + k) <$> getTaskDepthLoop fuel d z cur.
Proof.
  induction fuel as [|fuel IH]; intros z cur; simpl.
  - destruct (parentTaskId cur); reflexivity.
  - destruct (parentTaskId cur) as [p|]; [|reflexivity].
    destruct (d !! p) as [parent|].
    + replace (z + k + 1) with (z + 1 + k) by lia. apply IH.
    + simpl. f_equal. lia.
Qed.

Lemma getTaskDepthLoop_ge d : ∀ fuel z cur r,
  getTaskDepthLoop fuel d z cur = Some r → z ≤ r.
Proof.
  induction fuel as [|fuel IH]; intros z cur r; simpl.
  - destruct (parentTaskId cur); [discriminate|]. intros [= <-]. lia.
  - destruct (parentTaskId cur) as [q|]; [|intros [= <-]; lia].
    destruct (d !! q) as [gp|]; [|intros [= <-]; lia].
    intros H. apply IH in H. lia.
Qed.

(** The depth loop reads parent links only: two stores that agree on the
    parent links of every id but [n] give the same depth to tasks whose
    chain of parents never names [n]. *)
Lemma getTaskDepthLoop_ext (d d' : gmap Z task) n :
  (∀ j t, d !! j = Some t → parentTaskId t ≠ Some n) →
  (∀ j, j ≠ n → parentTaskId <$> d' !! j = parentTaskId <$> d !! j) →
  ∀ fuel z cur cur',
    parentTaskId cur' = parentTaskId cur → parentTaskId cur ≠ Some n →
    getTaskDepthLoop fuel d' z cur' = getTaskDepthLoop fuel d z cur.
Proof.
  intros Hno Hsame. induction fuel as [|fuel IH]; intros z cur cur' Hp Hn; simpl.
  - now rewrite Hp.
  - rewrite Hp. destruct (parentTaskId cur) as [p|] eqn:Hcur; [|reflexivity].
    assert (Hpn : p ≠ n) by congruence.
    specialize (Hsame p Hpn).
    destruct (d' !! p) as [parent'|], (d !! p) as [parent|] eqn:Hparent;
      simpl in Hsame; try discriminate; [|reflexivity].
    injection Hsame as Hsame. apply IH; [exact Hsame|]. eapply Hno; eauto.
Qed.

(** X22. [createTask] keeps the three levels.  On a store where no record
    names a parent that is yet to be created, the task a returning
    [createTask] has stored is at depth 0 when the data name no parent and
    one below the depth of its parent otherwise, and never deeper than 2;
    and still no record names a parent that is yet to be created. *)
Theorem created_task_is_at_most_two_deep fuel now data m t m' :
  keyed (db m) → counter_ok m → parents_below_counter m →
  createTask fuel now data m = Some (Ok t, m') →
  ∃ depth,
    getTaskDepth (S fuel) (db m') t = Some depth ∧ 0 ≤ depth ≤ 2 ∧
    match d_parentTaskId data with
    | None => depth = 0
    | Some p =>
        ∃ parent parentDepth,
          db m !! p = Some parent ∧
          getTaskDepth fuel (db m) parent = Some parentDepth ∧
          depth = parentDepth + 1
    end ∧
    parents_below_counter m'.
Proof.
  intros Hk Hc Hpb H.
  apply createTask_cases in H as [(e & [=] & _)|(nm & _ & _ & [= ->] & -> & Hpar)].
  set (n := default 1 (nextId m)) in *.
  assert (Hk1 : keyed (<[n := created data nm n]> (db m))).
  { apply (keyed_insert _ (created data nm n)), Hk. }
  assert (Hpb' : parents_below_counter (after_create now data nm m)).
  { intros j t q. unfold after_create. fold n. cbn [db nextId].
    change (default 1 (Some (Num.add n 1))) with (Num.add n 1).
    pose proof (add_ge n) as Hge.
    rewrite linkChild_lookup by exact Hk1.
    assert (Hins : ∀ t', <[n := created data nm n]> (db m) !! j = Some t' →
                         parentTaskId t' = Some q → q < Num.add n 1).
    { intros t'. rewrite lookup_insert. case_decide.
      - intros [= <-]. simpl. intros Hq.
        destruct (Hpar _ Hq) as (parent & _ & Hparent & _).
        specialize (Hc q (mk_is_Some _ _ Hparent)). fold n in Hc. lia.
      - intros Hj Hq. specialize (Hpb _ _ _ Hj Hq). fold n in Hpb. lia. }
    case_bool_decide.
    - destruct (<[n := created data nm n]> (db m) !! j) as [t'|] eqn:Hj;
        [|discriminate].
      intros [= <-]. simpl. apply Hins. reflexivity.
    - apply Hins. }
  unfold getTaskDepth. cbn [getTaskDepthLoop created parentTaskId].
  destruct (d_parentTaskId data) as [p|] eqn:Hp.
  - destruct (Hpar p eq_refl) as (parent & pd & Hparent & Hdepth & Hlt).
    assert (Hpn : p ≠ n).
    { specialize (Hc p (mk_is_Some _ _ Hparent)). fold n in Hc. lia. }
    assert (Hlook : ∀ j, j ≠ n →
      parentTaskId <$> db (after_create now data nm m) !! j
      = parentTaskId <$> db m !! j).
    { intros j Hj. unfold after_create. fold n. cbn [db]. rewrite Hp.
      rewrite linkChild_lookup by exact Hk1. rewrite lookup_insert_ne by congruence.
      case_bool_decide; [|reflexivity]. now destruct (db m !! j). }
    pose proof (Hlook p Hpn) as Hlp. rewrite Hparent in Hlp.
    destruct (db (after_create now data nm m) !! p) as [parent'|] eqn:Hparent';
      [|discriminate]. simpl in Hlp. injection Hlp as Hlp.
    assert (Hno : ∀ j t, db m !! j = Some t → parentTaskId t ≠ Some n).
    { intros j t Hj Hq. specialize (Hpb _ _ _ Hj Hq). fold n in Hpb. lia. }
    rewrite (getTaskDepthLoop_ext (db m) _ n Hno Hlook fuel (0 + 1) parent parent'
               Hlp (Hno _ _ Hparent)).
    rewrite (getTaskDepthLoop_shift (db m) 1 fuel 0 parent).
    unfold getTaskDepth in Hdepth. rewrite Hdepth. simpl.
    exists (pd + 1). split; [reflexivity|].
    assert (0 ≤ pd) by (eapply getTaskDepthLoop_ge; eauto).
    split; [lia|]. split; [|exact Hpb']. eauto.
  - exists 0. split; [reflexivity|]. split; [lia|]. split; [reflexivity|exact Hpb'].
Qed.

Lemma parents_below_checked m :
  map_Forall (λ _ t, parent_below (default 1 (nextId m)) t = true) (db m) →
  parents_below_counter m.
Proof.
  intros H j t q Hj Hq. specialize (H j t Hj). unfold parent_below in H.
  rewrite Hq in H. now apply bool_decide_eq_true in H.
Qed.

Lemma created_task_is_at_most_two_deep_witness :
  let data := Scenario.named "c" (Some 2) in
  keyed (db Scenario.two) ∧ counter_ok Scenario.two ∧
  parents_below_counter Scenario.two ∧
  createTask Scenario.fuel Scenario.now data Scenario.two
    = Some (Ok Scenario.task_c, Scenario.three) ∧
  getTaskDepth (S Scenario.fuel) (db Scenario.three) Scenario.task_c = Some 2.
Proof.
  intros data.
  assert (Hc : counter_ok Scenario.two).
  { apply counter_ok_all, (bool_decide_unpack _). vm_compute. reflexivity. }
  assert (Hpb : parents_below_counter Scenario.two).
  { apply parents_below_checked, (bool_decide_unpack _). vm_compute. reflexivity. }
  assert (Hrun : createTask Scenario.fuel Scenario.now data Scenario.two
                 = Some (Ok Scenario.task_c, Scenario.three))
    by (vm_compute; reflexivity).
  split; [exact keyed_two|]. split; [exact Hc|]. split; [exact Hpb|].
  split; [exact Hrun|].
  destruct (created_task_is_at_most_two_deep _ _ _ _ _ _ keyed_two Hc Hpb Hrun)
    as (depth & Hdepth & _).
  rewrite Hdepth. f_equal.
  assert (Hcomp : getTaskDepth (S Scenario.fuel) (db Scenario.three) Scenario.task_c
                  = Some 2) by (vm_compute; reflexivity).
  congruence.
Defined.

(** ** getAllDescendants *)

Lemma getAllDescendants_spec rank d : ∀ fuel i t,
  links_down rank d → d !! i = Some t → (rank i < fuel)%nat →
  ∃ res, getAllDescendants fuel d t = Some res ∧
         ∀ x, x ∈ res ↔ live_descendant d t x.
Proof.
  induction fuel as [|fuel IH]; intros i t Hr Hi Hlt; [lia|].
  cbn [getAllDescendants].
  assert (Hloop : ∀ cs acc,
    (∀ c, c ∈ cs → c ∈ childTaskIds t) →
    ∃ more,
      foldlM (λ descendants childId,
                match d !! childId with
                | Some child =>
                    if negb (deleted child) then
                      match getAllDescendants fuel d child with
                      | Some childDescendants =>
                          Some (descendants ++ child :: childDescendants)
                      | None => None
                      end
                    else Some descendants
                | None => Some descendants
                end) cs acc = Some (acc ++ more) ∧
      ∀ x, x ∈ more ↔
           ∃ c child, c ∈ cs ∧ d !! c = Some child ∧ deleted child = false ∧
                      (x = child ∨ live_descendant d child x)).
  { induction cs as [|c cs IHcs]; intros acc Hsub.
    - exists []. rewrite app_nil_r. split; [reflexivity|].
      intros x. split; [intros Hx; inversion Hx|].
      intros (c & child & Hc & _). inversion Hc.
    - assert (Hstep : ∃ one,
        match d !! c with
        | Some child =>
            if negb (deleted child) then
              match getAllDescendants fuel d child with
              | Some childDescendants => Some (acc ++ child :: childDescendants)
              | None => None
              end
            else Some acc
        | None => Some acc
        end = Some (acc ++ one) ∧
        ∀ x, x ∈ one ↔
             ∃ child, d !! c = Some child ∧ deleted child = false ∧
                      (x = child ∨ live_descendant d child x)).
      { destruct (d !! c) as [child|] eqn:Hc.
        - destruct (deleted child) eqn:Hd; cbn [negb].
          + exists []. rewrite app_nil_r. split; [reflexivity|].
            intros x. split; [intros Hx; inversion Hx|].
            intros (child' & [= <-] & Hd' & _). congruence.
          + destruct (IH c child Hr Hc) as (sub & Hsub' & Hin).
            { specialize (Hr i t c Hi (Hsub c (list_elem_of_here _ _))). lia. }
            rewrite Hsub'. exists (child :: sub). split; [reflexivity|].
            intros x. rewrite elem_of_cons, Hin. split.
            * intros Hx. exists child. auto.
            * intros (child' & [= <-] & _ & Hx). exact Hx.
        - exists []. rewrite app_nil_r. split; [reflexivity|].
          intros x. split; [intros Hx; inversion Hx|].
          intros (child' & [=] & _). }
      destruct Hstep as (one & Hone & Hin1).
      destruct (IHcs (acc ++ one)) as (more & Hmore & Hin).
      { intros c' Hc'. apply Hsub. now apply list_elem_of_further. }
      exists (one ++ more). rewrite (foldlM_cons _ _ _ _ _ Hone), Hmore.
      split; [now rewrite app_assoc|].
      intros x. rewrite elem_of_app, Hin1, Hin. split.
      + intros [(child & Hc & Hd & Hx)|(c' & child & Hc' & Hrest)].
        * exists c, child. split; [apply list_elem_of_here | auto].
        * exists c', child. split; [now apply list_elem_of_further | auto].
      + intros (c' & child & Hc' & Hl & Hd & Hx).
        apply elem_of_cons in Hc' as [->|Hc'].
        * left. eauto.
        * right. eauto 8. }
  destruct (Hloop (childTaskIds t) []) as (res & Hrun & Hin); [auto|].
  exists res. split; [exact Hrun|].
  intros x. rewrite Hin. split.
  - intros (c & child & Hc & Hl & Hd & [->|Hx]).
    + eapply ld_child; eauto.
    + eapply ld_down; eauto.
  - intros Hx. inversion Hx as [? c child Hc Hl Hd|? c child ? Hc Hl Hd Hrest]; subst.
    + exists c, x. auto.
    + exists c, child. auto 6.
Qed.

(** X23. [getAllDescendants] returns the live descendants.  On a store
    whose child links have no cycle it ends, and a task is in the result
    exactly when it is reached from the given task by child links that lead
    through live tasks of the store only, the task itself being live: tasks
    of the trash are left out, and so is everything below them. *)
Theorem getAllDescendants_exact rank fuel d i t :
  links_down rank d → d !! i = Some t → (rank i < fuel)%nat →
  ∃ res, getAllDescendants fuel d t = Some res ∧
         (∀ x, x ∈ res ↔ live_descendant d t x) ∧
         Forall (λ x, deleted x = false) res.
Proof.
  intros Hr Hi Hlt.
  destruct (getAllDescendants_spec rank d fuel i t Hr Hi Hlt) as (res & Hrun & Hin).
  exists res. split; [exact Hrun|]. split; [exact Hin|].
  apply Forall_forall. intros x Hx. apply Hin in Hx.
  clear -Hx. induction Hx; auto.
Qed.

Lemma getAllDescendants_exact_witness :
  let rank := λ j : Z, Z.to_nat (4 - j) in
  links_down rank (db Scenario.three) ∧
  db Scenario.three !! 1 = Some Scenario.task_a3 ∧
  (rank 1%Z < Scenario.fuel)%nat ∧
  ∃ res, getAllDescendants Scenario.fuel (db Scenario.three) Scenario.task_a3
           = Some res ∧
         id <$> res = [2; 3] ∧ Forall (λ x, deleted x = false) res.
Proof.
  intros rank.
  assert (Hr : links_down rank (db Scenario.three)).
  { apply links_down_checked, (bool_decide_unpack _). vm_compute. reflexivity. }
  assert (Hl : db Scenario.three !! 1 = Some Scenario.task_a3)
    by (vm_compute; reflexivity).
  assert (Hlt : (rank 1%Z < Scenario.fuel)%nat) by (vm_compute; lia).
  split; [exact Hr|]. split; [exact Hl|]. split; [exact Hlt|].
  destruct (getAllDescendants_exact rank Scenario.fuel (db Scenario.three) 1
              Scenario.task_a3 Hr Hl Hlt) as (res & Hrun & _ & Hlive).
  exists res. split; [exact Hrun|]. split; [|exact Hlive].
  assert (Hcomp : getAllDescendants Scenario.fuel (db Scenario.three)
                    Scenario.task_a3 = getAllDescendants Scenario.fuel
                    (db Scenario.three) Scenario.task_a3) by reflexivity.
  rewrite Hrun in Hcomp at 1. vm_compute in Hcomp. injection Hcomp as ->.
  reflexivity.
Defined.

(** ** The history of the command line *)

Lemma no_repeat_snoc l a :
  CommandParser.no_repeat l → last l ≠ Some a →
  CommandParser.no_repeat (l ++ [a]).
Proof.
  induction l as [|x [|y l] IH]; simpl; intros Hn Hl; [exact I| |].
  - split; [|exact I]. intros ->. now apply Hl.
  - destruct Hn as [Hxy Hn]. split; [exact Hxy|]. apply IH; [exact Hn|].
    exact Hl.
Qed.

Lemma no_repeat_tail l :
  CommandParser.no_repeat l → CommandParser.no_repeat (tail l).
Proof. destruct l as [|x [|y l]]; simpl; tauto. Qed.

Lemma at_index_in_range l i :
  0 ≤ i < Z.of_nat (length l) → is_Some (CommandParser.at_index l i).
Proof.
  intros Hi. unfold CommandParser.at_index.
  rewrite bool_decide_eq_true_2 by lia. apply lookup_lt_is_Some. lia.
Qed.

(** X24. The history of the command line, whatever is done to it.  From
    the empty history of a new parser, adding commands and moving through the
    history keep it within fifty commands, with no command twice in a row,
    and keep the index between the first command and the position past the
    last.  On a history that is not empty, the previous command is always a
    command of the history and the next one a command or the empty line. *)
Theorem command_history_stays_well_formed s p :
  CommandParser.well_formed CommandParser.new ∧
  (CommandParser.well_formed p →
   CommandParser.well_formed (CommandParser.after s p) ∧
   (CommandParser.commandHistory p ≠ [] →
    (∃ c, fst (CommandParser.getPreviousCommand p) = Some c ∧
          c ∈ CommandParser.commandHistory p) ∧
    (∃ c, fst (CommandParser.getNextCommand p) = Some c ∧
          (c = "" ∨ c ∈ CommandParser.commandHistory p)))).
Proof.
  split.
  { unfold CommandParser.well_formed, CommandParser.maxHistorySize. simpl.
    repeat split; try lia. congruence. }
  intros (Hlen & Hrep & Hidx & Hpos). split.
  - destruct s as [c| | |]; simpl.
    + unfold CommandParser.addToHistory. case_bool_decide as Hlast.
      { repeat split; auto; lia. }
      unfold CommandParser.well_formed. cbn [CommandParser.commandHistory
        CommandParser.historyIndex].
      pose proof (no_repeat_snoc _ c Hrep Hlast) as Hrep'.
      destruct (CommandParser.maxHistorySize <?
                length (CommandParser.commandHistory p ++ [c]))%nat eqn:Hcap.
      * apply Nat.ltb_lt in Hcap. rewrite length_app in Hcap. simpl in Hcap.
        destruct (CommandParser.commandHistory p) as [|x l] eqn:Hh.
        { unfold CommandParser.maxHistorySize in Hcap. simpl in Hcap. lia. }
        simpl in *. rewrite length_app in *. simpl in *.
        split; [lia|]. split; [|split; [lia|lia]].
        apply (no_repeat_tail (x :: l ++ [c])). exact Hrep'.
      * apply Nat.ltb_ge in Hcap. rewrite length_app in *. simpl in *.
        split; [lia|]. split; [exact Hrep'|]. split; lia.
    + unfold CommandParser.getPreviousCommand.
      destruct (CommandParser.commandHistory p) as [|x l] eqn:Hh; simpl.
      { unfold CommandParser.well_formed. rewrite Hh. auto. }
      unfold CommandParser.well_formed. simpl. rewrite Hh.
      specialize (Hpos ltac:(congruence)). simpl in *.
      case_bool_decide; repeat split; try assumption; try lia.
    + unfold CommandParser.getNextCommand.
      destruct (CommandParser.commandHistory p) as [|x l] eqn:Hh; simpl.
      { unfold CommandParser.well_formed. rewrite Hh. auto. }
      specialize (Hpos ltac:(congruence)). simpl in *.
      case_bool_decide; unfold CommandParser.well_formed; simpl; rewrite Hh;
        simpl; repeat split; try assumption; try lia.
    + unfold CommandParser.resetHistoryIndex, CommandParser.well_formed. simpl.
      repeat split; try assumption; try lia.
  - intros Hne. specialize (Hpos Hne).
    unfold CommandParser.getPreviousCommand, CommandParser.getNextCommand.
    destruct (CommandParser.commandHistory p) as [|x l] eqn:Hh; [congruence|].
    simpl. split.
    + set (i := if bool_decide (0 < CommandParser.historyIndex p)
                then CommandParser.historyIndex p - 1
                else CommandParser.historyIndex p).
      assert (Hi : 0 ≤ i < Z.of_nat (length (x :: l))).
      { unfold i. simpl in *. case_bool_decide; lia. }
      destruct (at_index_in_range (x :: l) i Hi) as [c Hc].
      exists c. split; [exact Hc|]. unfold CommandParser.at_index in Hc.
      case_bool_decide; [|discriminate]. eapply list_elem_of_lookup_2, Hc.
    + case_bool_decide as Hlt; simpl.
      * assert (Hi : 0 ≤ CommandParser.historyIndex p + 1
                     < Z.of_nat (length (x :: l))) by (simpl in *; lia).
        destruct (at_index_in_range (x :: l) _ Hi) as [c Hc].
        exists c. split; [exact Hc|]. right.
        unfold CommandParser.at_index in Hc.
        case_bool_decide; [|discriminate]. eapply list_elem_of_lookup_2, Hc.
      * exists "". auto.
Qed.

Lemma command_history_stays_well_formed_witness :
  let p := CommandParser.addToHistory ":d 1"
             (CommandParser.addToHistory ":a" CommandParser.new) in
  CommandParser.well_formed p ∧
  CommandParser.well_formed (CommandParser.after CommandParser.Previous p) ∧
  fst (CommandParser.getPreviousCommand p) = Some ":d 1".
Proof.
  intros p.
  assert (Hp : CommandParser.well_formed p).
  { destruct (command_history_stays_well_formed (CommandParser.Add ":a")
                CommandParser.new) as [Hnew Hstep].
    destruct (Hstep Hnew) as [H1 _].
    destruct (command_history_stays_well_formed (CommandParser.Add ":d 1")
                (CommandParser.addToHistory ":a" CommandParser.new))
      as [_ Hstep2].
    exact (proj1 (Hstep2 H1)). }
  split; [exact Hp|].
  destruct (command_history_stays_well_formed CommandParser.Previous p)
    as [_ Hstep].
  split; [exact (proj1 (Hstep Hp)) | reflexivity].
Defined.

(** X25. The arrow up after a command.  When a command is added that is
    not the last of the history, or while the index is past the last command,
    [getPreviousCommand] returns that very command.  A command that is the
    last of the history already is not added and the index is left where it
    is, so after moving through the history the arrow up may return an older
    command than the one just entered. *)
Theorem previous_after_add p c :
  CommandParser.well_formed p →
  (last (CommandParser.commandHistory p) ≠ Some c ∨
   CommandParser.historyIndex p
     = Z.of_nat (length (CommandParser.commandHistory p))) →
  fst (CommandParser.getPreviousCommand (CommandParser.addToHistory c p))
    = Some c ∧
  (last (CommandParser.commandHistory p) = Some c →
   CommandParser.addToHistory c p = p).
Proof.
  intros (Hlen & Hrep & Hidx & Hpos) Hcase. split.
  2:{ intros Hlast. unfold CommandParser.addToHistory.
      now rewrite bool_decide_eq_true_2. }
  assert (Hget : ∀ l, last l = Some c →
    CommandParser.at_index l (Z.of_nat (length l) - 1) = Some c).
  { intros l Hl. unfold CommandParser.at_index.
    destruct l as [|x l]; [discriminate|].
    rewrite bool_decide_eq_true_2 by (simpl; lia).
    rewrite last_lookup in Hl. rewrite <- Hl. f_equal. simpl. lia. }
  unfold CommandParser.addToHistory. case_bool_decide as Hlast.
  - destruct Hcase as [Hne|Hend]; [contradiction|].
    unfold CommandParser.getPreviousCommand.
    destruct (CommandParser.commandHistory p) as [|x l] eqn:Hh; [discriminate|].
    rewrite Hend. rewrite bool_decide_eq_true_2 by (simpl; lia).
    simpl fst. apply Hget, Hlast.
  - set (pushed := CommandParser.commandHistory p ++ [c]).
    set (kept := if (CommandParser.maxHistorySize <? length pushed)%nat
                 then tail pushed else pushed).
    assert (Hk : last kept = Some c ∧ kept ≠ []).
    { unfold kept, pushed.
      destruct (CommandParser.maxHistorySize <? _)%nat eqn:Hcap.
      - apply Nat.ltb_lt in Hcap. unfold pushed in Hcap.
        rewrite length_app in Hcap. simpl in Hcap.
        destruct (CommandParser.commandHistory p) as [|x l].
        + unfold CommandParser.maxHistorySize in Hcap. simpl in Hcap. lia.
        + simpl. rewrite last_snoc. split; [reflexivity|].
          destruct l; discriminate.
      - rewrite last_snoc. split; [reflexivity|].
        destruct (CommandParser.commandHistory p); discriminate. }
    destruct Hk as [Hk Hne].
    unfold CommandParser.getPreviousCommand.
    cbn [CommandParser.commandHistory CommandParser.historyIndex].
    destruct kept as [|x l] eqn:Hkept; [congruence|].
    rewrite bool_decide_eq_true_2 by (simpl; lia).
    simpl fst. apply Hget, Hk.
Qed.

Lemma previous_after_add_witness :
  let p := CommandParser.addToHistory ":a" CommandParser.new in
  CommandParser.well_formed p ∧
  (last (CommandParser.commandHistory p) ≠ Some ":h" ∨
   CommandParser.historyIndex p
     = Z.of_nat (length (CommandParser.commandHistory p))) ∧
  fst (CommandParser.getPreviousCommand (CommandParser.addToHistory ":h" p))
    = Some ":h".
Proof.
  intros p.
  assert (Hp : CommandParser.well_formed p).
  { unfold CommandParser.well_formed, CommandParser.maxHistorySize. simpl.
    repeat split; try lia. }
  assert (Hcase : last (CommandParser.commandHistory p) ≠ Some ":h" ∨
    CommandParser.historyIndex p
      = Z.of_nat (length (CommandParser.commandHistory p)))
    by (right; reflexivity).
  split; [exact Hp|]. split; [exact Hcase|].
  exact (proj1 (previous_after_add p ":h" Hp Hcase)).
Defined.

(** ** Status letters *)

Section StatusLetters.

Variable caseTables : string → string.

(** X26. A status filter takes the letter or the name.  When
    [expandStatus] returns a text for the value of a status filter, a task
    matches that text in [filterTasks] exactly when [toLowerCase] of the
    value is the letter of the task's status -- n, i, b or c -- or is what
    [toLowerCase] gives for the name of the status. *)
Theorem status_filter_takes_letter_or_name v s t :
  CommandParser.expandStatus caseTables v = CommandParser.Text s →
  (matchesStatus caseTables s t = true ↔
   Str.toLowerCase caseTables v = CommandParser.letter (status_of t) ∨
   Str.toLowerCase caseTables v
     = Str.toLowerCase caseTables (status_name (status_of t))).
Proof.
  intros H. unfold CommandParser.expandStatus in H.
  destruct (CommandParser.statusMap (Str.toLowerCase caseTables v))
    as [full|] eqn:Hmap.
  - injection H as <-. unfold CommandParser.statusMap, Str.eqb in Hmap.
    repeat case_bool_decide; try discriminate; injection Hmap as <-;
      match goal with Hv : Str.toLowerCase _ _ = _ |- _ => rewrite Hv end;
      unfold matchesStatus, sameText; destruct (status_of t); vm_compute;
      (split; [intros ?; first [left; reflexivity | discriminate]
              | intros [?|?]; first [reflexivity | discriminate]]).
  - destruct (CommandParser.inherited _); [discriminate|]. injection H as <-.
    unfold matchesStatus, sameText, Str.eqb. rewrite bool_decide_eq_true.
    split; [auto|]. intros [Hl|Hn]; [|auto]. exfalso.
    rewrite Hl in Hmap. destruct (status_of t); vm_compute in Hmap; discriminate.
Qed.

End StatusLetters.

Lemma status_filter_takes_letter_or_name_witness :
  let lower := Str.toLowerCase Scenario.caseTables in
  CommandParser.expandStatus Scenario.caseTables "C"
    = CommandParser.Text "Completed" ∧
  (matchesStatus Scenario.caseTables "Completed"
     (with_status Completed Scenario.task_a) = true ↔
   lower "C"
     = CommandParser.letter (status_of (with_status Completed Scenario.task_a)) ∨
   lower "C"
     = lower (status_name (status_of (with_status Completed Scenario.task_a)))).
Proof.
  intros lower.
  assert (H : CommandParser.expandStatus Scenario.caseTables "C"
              = CommandParser.Text "Completed") by reflexivity.
  split; [exact H|].
  exact (status_filter_takes_letter_or_name Scenario.caseTables "C" "Completed"
           (with_status Completed Scenario.task_a) H).
Defined.

(** ** Moving a task under another parent *)

(** The cascades of [updateTask] leave every list of children alone. *)
Lemma only_marks_children d d' j :
  only_marks d d' → childTaskIds <$> d' !! j = childTaskIds <$> d !! j.
Proof.
  intros H. destruct (H j) as [->|(x & Hx & _ & ->)]; [reflexivity|].
  now rewrite Hx.
Qed.

Lemma cascade_children fuel b t m m' j :
  keyed (db m) →
  when b (completeAllDescendants fuel t) m = Some (Ok tt, m') →
  keyed (db m') ∧ childTaskIds <$> db m' !! j = childTaskIds <$> db m !! j.
Proof.
  intros Hk H. destruct b; simpl in H; [|injection H as <-; auto].
  split.
  - eapply keyed_completeAllDescendants; eauto.
  - apply only_marks_children. eapply ok_only, completeAllDescendants_ok; eauto.
Qed.

Lemma checkAndCompleteParent_children t m r m' j :
  keyed (db m) →
  checkAndCompleteParent t m = Some (r, m') →
  childTaskIds <$> db m' !! j = childTaskIds <$> db m !! j.
Proof.
  intros Hk H.
  apply checkAndCompleteParent_inv in H as [_ [(p & Hauto & ->)|[_ ->]]];
    [|reflexivity].
  destruct Hauto as (_ & pid & _ & _ & Hp & _). simpl.
  rewrite (Hk _ _ Hp), lookup_insert. case_decide as Hj; [|reflexivity].
  subst j. now rewrite Hp.
Qed.

Lemma updated_parent_default u t :
  parentTaskId (updated u t) = default (parentTaskId t) (u_parentTaskId u).
Proof. unfold updated. destruct (bool_decide _); reflexivity. Qed.

(** X27. A returning [updateTask] that moves a task under another parent.
    The guards were passed on the store as it was once the task had left its
    old parent: the new parent was there, its depth, one level for the task
    and the depth of the task's deepest chain of children stayed within 2,
    and the new parent was not found among the descendants of the task.
    Afterwards the task names the new parent and the new parent lists the
    task, and the old parent lists it no longer. *)
Theorem update_moves_task fuel now i u m t0 np t m' :
  keyed (db m) → db m !! i = Some t0 →
  u_parentTaskId u = Some (Some np) → parentTaskId t0 ≠ Some np → np ≠ i →
  updateTask fuel now i u m = Some (Ok t, m') →
  (∃ m1 newParent depth below,
     detachFromParent i t0 m = Some (Ok tt, m1) ∧
     db m1 !! np = Some newParent ∧
     getTaskDepth fuel (db m1) newParent = Some depth ∧
     getMaxChildDepth fuel (db m1) t0 = Some below ∧
     depth + 1 + below ≤ 2 ∧
     isDescendant fuel (db m1) np i = Some false) ∧
  db m' !! i = Some t ∧ parentTaskId t = Some np ∧
  (∃ newParent', db m' !! np = Some newParent' ∧ i ∈ childTaskIds newParent') ∧
  (∀ op old', parentTaskId t0 = Some op → op ≠ i →
     db m' !! op = Some old' → i ∉ childTaskIds old').
Proof.
  intros Hk Hl Hu Hne Hnpi H.
  pose proof (updateTask_stored _ _ _ _ _ _ _ Hk H) as [Hid Hstored].
  apply updateTask_Ok in H as (t0' & m1' & m2 & Hl' & -> & Hre & Hca & Hch).
  rewrite Hl in Hl'. injection Hl' as <-.
  pose proof (Hk _ _ Hl) as Hid0.
  unfold reparentIfChanged in Hre. rewrite Hu in Hre.
  rewrite bool_decide_eq_true_2 in Hre by congruence.
  unfold reparent in Hre.
  destruct (detachFromParent_lookup i t0 m Hk)
    as (m1 & Hdet & Hk1 & _ & _ & _ & Hlook1).
  unfold bind at 1 in Hre. rewrite Hdet in Hre.
  unfold bind at 1, getTaskById in Hre.
  destruct (db m1 !! np) as [newParent|] eqn:Hnp; [|discriminate].
  pose proof (Hk1 _ _ Hnp) as Hidnp.
  unfold bind at 1, read in Hre.
  destruct (getTaskDepth fuel (db m1) newParent) as [depth|] eqn:Hdepth;
    [|discriminate].
  unfold bind at 1 in Hre.
  destruct (getMaxChildDepth fuel (db m1) t0) as [below|] eqn:Hbelow;
    [|discriminate].
  case_bool_decide as Hgt; [discriminate|].
  unfold bind at 1 in Hre. rewrite Hid0 in Hre.
  destruct (isDescendant fuel (db m1) np i) as [[]|] eqn:Hdesc;
    [discriminate| |discriminate].
  (* the new parent lists the task, the old one does not *)
  assert (Hm1' : keyed (db m1') ∧
    (∃ np', db m1' !! np = Some np' ∧ i ∈ childTaskIds np') ∧
    (∀ op, parentTaskId t0 = Some op → op ≠ i →
       ∀ old', db m1' !! op = Some old' → i ∉ childTaskIds old')).
  { assert (Hold : ∀ op, parentTaskId t0 = Some op →
              ∀ old', db m1 !! op = Some old' → i ∉ childTaskIds old').
    { intros op Hop old'. rewrite Hlook1, (bool_decide_eq_true_2 _ Hop).
      destruct (db m !! op) as [old|]; [|discriminate]. intros [= <-]. simpl.
      unfold remove_id. intros Hin.
      apply list_elem_of_filter in Hin as [Hin _]. now apply Hin. }
    destruct (includes (childTaskIds newParent) i) eqn:Hinc; simpl in Hre.
    - injection Hre as <-. split; [exact Hk1|]. split.
      + exists newParent. split; [exact Hnp|]. now apply bool_decide_eq_true in Hinc.
      + intros op Hop _. apply Hold, Hop.
    - injection Hre as <-. simpl.
      split; [apply (keyed_insert _ (with_children _ newParent)), Hk1|].
      rewrite Hidnp. split.
      + eexists. rewrite lookup_insert_eq. split; [reflexivity|]. simpl.
        apply elem_of_app. right. apply list_elem_of_here.
      + intros op Hop Hopi old'.
        rewrite lookup_insert_ne by congruence. apply Hold, Hop. }
  destruct Hm1' as (Hk1' & (np' & Hnp' & Hin') & Hold').
  split.
  { exists m1, newParent, depth, below. repeat split; auto. lia. }
  split; [exact Hstored|].
  split; [now rewrite updated_parent_default, Hu|].
  (* nothing after the reparenting touches a list of children *)
  assert (Hchildren : ∀ j, j ≠ i →
    childTaskIds <$> db m' !! j = childTaskIds <$> db m1' !! j).
  { intros j Hj.
    destruct (cascade_children _ _ _ _ _ j Hk1' Hca) as [Hk2 Hc2].
    rewrite <- Hc2.
    assert (Hk3 : keyed (db (saved_and_recorded (updated u t0)
              (AModify (id (updated u t0)) (fields_of t0)
                 (fields_of (updated u t0)) now) m2))).
    { simpl. apply (keyed_insert _ (updated u t0)), Hk2. }
    rewrite (checkAndCompleteParent_children _ _ _ _ j Hk3 Hch).
    simpl. rewrite updated_id, Hid0. now rewrite lookup_insert_ne by congruence. }
  split.
  - specialize (Hchildren np Hnpi). rewrite Hnp' in Hchildren.
    destruct (db m' !! np) as [final|]; [|discriminate].
    simpl in Hchildren. injection Hchildren as Hc.
    exists final. split; [reflexivity|]. now rewrite Hc.
  - intros op old' Hop Hopi Hfinal.
    specialize (Hchildren op Hopi). rewrite Hfinal in Hchildren.
    destruct (db m1' !! op) as [old1|] eqn:Hold1; [|discriminate].
    simpl in Hchildren. injection Hchildren as Hc. rewrite Hc.
    eapply Hold'; eauto.
Qed.

Lemma update_moves_task_witness :
  let u := Scenario.setParent (Some 1) in
  let t := with_parent (Some 1) Scenario.task_c in
  let m' := Scenario.after (updateTask Scenario.fuel Scenario.now 3 u)
              Scenario.three in
  keyed (db Scenario.three) ∧ db Scenario.three !! 3 = Some Scenario.task_c ∧
  u_parentTaskId u = Some (Some 1) ∧ parentTaskId Scenario.task_c ≠ Some 1 ∧
  1 ≠ 3 ∧
  updateTask Scenario.fuel Scenario.now 3 u Scenario.three = Some (Ok t, m') ∧
  (∃ newParent', db m' !! 1 = Some newParent' ∧ 3 ∈ childTaskIds newParent') ∧
  (∀ op old', parentTaskId Scenario.task_c = Some op → op ≠ 3 →
     db m' !! op = Some old' → 3 ∉ childTaskIds old').
Proof.
  intros u t m'.
  assert (Hl : db Scenario.three !! 3 = Some Scenario.task_c)
    by (vm_compute; reflexivity).
  assert (Hne : parentTaskId Scenario.task_c ≠ Some 1) by (simpl; congruence).
  assert (Hnpi : 1 ≠ 3) by lia.
  assert (Hrun : updateTask Scenario.fuel Scenario.now 3 u Scenario.three
                 = Some (Ok t, m')) by (vm_compute; reflexivity).
  split; [exact keyed_three|]. split; [exact Hl|]. split; [reflexivity|].
  split; [exact Hne|]. split; [exact Hnpi|]. split; [exact Hrun|].
  destruct (update_moves_task Scenario.fuel Scenario.now 3 u Scenario.three
              Scenario.task_c 1 t m' keyed_three Hl eq_refl Hne Hnpi Hrun)
    as (_ & _ & _ & Hnew & Hold).
  split; [exact Hnew | exact Hold].
Defined.

(** ** getMaxChildDepth *)

(** X28. [getMaxChildDepth] is the height of the tree below a task.  On a
    store whose child links have no cycle it ends, and what it returns is the
    length of the longest chain of child links that can be followed from the
    task through records of the store: there is such a chain of that length
    and none that is longer.  Children that are not in the store do not
    count, children that are in the trash do. *)
Theorem getMaxChildDepth_is_height rank fuel d i t :
  links_down rank d → d !! i = Some t → (rank i < fuel)%nat →
  ∃ k, getMaxChildDepth fuel d t = Some k ∧ 0 ≤ k ∧
       chain_down d (Z.to_nat k) t ∧
       ∀ n, chain_down d n t → Z.of_nat n ≤ k.
Proof.
  intros Hr. revert i t.
  induction fuel as [|fuel IH]; intros i t Hi Hlt; [lia|].
  cbn [getMaxChildDepth].
  assert (Hloop : ∀ cs acc,
    (∀ c, c ∈ cs → c ∈ childTaskIds t) → 0 ≤ acc →
    ∃ k, foldlM (λ maxDepth childId,
                   match d !! childId with
                   | Some child =>
                       match getMaxChildDepth fuel d child with
                       | Some cd => Some (Z.max maxDepth (1 + cd))
                       | None => None
                       end
                   | None => Some maxDepth
                   end) cs acc = Some k ∧
         acc ≤ k ∧
         (k = acc ∨ ∃ c child, c ∈ cs ∧ d !! c = Some child ∧ 1 ≤ k ∧
                               chain_down d (Z.to_nat (k - 1)) child) ∧
         ∀ c child n, c ∈ cs → d !! c = Some child → chain_down d n child →
                      Z.of_nat n + 1 ≤ k).
  { induction cs as [|c cs IHcs]; intros acc Hsub Hacc.
    - exists acc. split; [reflexivity|]. split; [lia|]. split; [now left|].
      intros c child n Hc. inversion Hc.
    - assert (Hstep : ∃ k1,
        match d !! c with
        | Some child =>
            match getMaxChildDepth fuel d child with
            | Some cd => Some (Z.max acc (1 + cd))
            | None => None
            end
        | None => Some acc
        end = Some k1 ∧ acc ≤ k1 ∧
        (k1 = acc ∨ ∃ child, d !! c = Some child ∧ 1 ≤ k1 ∧
                             chain_down d (Z.to_nat (k1 - 1)) child) ∧
        ∀ child n, d !! c = Some child → chain_down d n child →
                   Z.of_nat n + 1 ≤ k1).
      { destruct (d !! c) as [child|] eqn:Hc.
        - destruct (IH c child Hc) as (cd & Hcd & Hpos & Hchain & Hmax).
          { specialize (Hr i t c Hi (Hsub c (list_elem_of_here _ _))). lia. }
          rewrite Hcd. exists (Z.max acc (1 + cd)).
          split; [reflexivity|]. split; [lia|]. split.
          + destruct (Z.max_spec acc (1 + cd)) as [[_ ->]|[_ ->]]; [|now left].
            right. exists child. split; [reflexivity|]. split; [lia|].
            now replace (1 + cd - 1) with cd by lia.
          + intros child' n [= <-] Hn. specialize (Hmax n Hn). lia.
        - exists acc. split; [reflexivity|]. split; [lia|]. split; [now left|].
          intros child n [=]. }
      destruct Hstep as (k1 & Hk1 & Hle1 & Hw1 & Hmax1).
      destruct (IHcs k1) as (k & Hk & Hle & Hw & Hmax); [|lia|].
      { intros c' Hc'. apply Hsub. now apply list_elem_of_further. }
      exists k. rewrite (foldlM_cons _ _ _ _ _ Hk1). split; [exact Hk|].
      split; [lia|]. split.
      + destruct Hw as [->|(c' & child & Hc' & Hl & Hpos & Hchain)].
        * destruct Hw1 as [->|(child & Hl & Hpos & Hchain)]; [now left|].
          right. exists c, child. split; [apply list_elem_of_here | auto].
        * right. exists c', child. split; [now apply list_elem_of_further | auto].
      + intros c' child n Hc' Hl Hn. apply elem_of_cons in Hc' as [->|Hc'].
        * specialize (Hmax1 child n Hl Hn). lia.
        * eapply Hmax; eauto. }
  destruct (Hloop (childTaskIds t) 0) as (k & Hk & Hpos & Hw & Hmax); [auto|lia|].
  exists k. split; [exact Hk|]. split; [exact Hpos|]. split.
  - destruct Hw as [->|(c & child & Hc & Hl & Hk1 & Hchain)]; [constructor|].
    replace (Z.to_nat k) with (S (Z.to_nat (k - 1))) by lia.
    eapply chain_S; eauto.
  - intros n Hn. inversion Hn as [|n' ? c child Hc Hl Hrest]; subst; [lia|].
    specialize (Hmax c child n' Hc Hl Hrest). lia.
Qed.

Lemma getMaxChildDepth_is_height_witness :
  let rank := λ j : Z, Z.to_nat (4 - j) in
  links_down rank (db Scenario.three) ∧
  db Scenario.three !! 1 = Some Scenario.task_a3 ∧
  (rank 1%Z < Scenario.fuel)%nat ∧
  getMaxChildDepth Scenario.fuel (db Scenario.three) Scenario.task_a3 = Some 2 ∧
  chain_down (db Scenario.three) 2 Scenario.task_a3.
Proof.
  intros rank.
  assert (Hr : links_down rank (db Scenario.three)).
  { apply links_down_checked, (bool_decide_unpack _). vm_compute. reflexivity. }
  assert (Hl : db Scenario.three !! 1 = Some Scenario.task_a3)
    by (vm_compute; reflexivity).
  assert (Hlt : (rank 1%Z < Scenario.fuel)%nat) by (vm_compute; lia).
  split; [exact Hr|]. split; [exact Hl|]. split; [exact Hlt|].
  destruct (getMaxChildDepth_is_height rank Scenario.fuel (db Scenario.three) 1
              Scenario.task_a3 Hr Hl Hlt) as (k & Hk & _ & Hchain & _).
  assert (Hcomp : getMaxChildDepth Scenario.fuel (db Scenario.three)
                    Scenario.task_a3 = Some 2) by (vm_compute; reflexivity).
  split; [exact Hcomp|].
  rewrite Hcomp in Hk. injection Hk as <-. exact Hchain.
Defined.

(** ** Undoing a create *)

Lemma remove_id_snoc_fresh n cs : n ∉ cs → remove_id n (cs ++ [n]) = cs.
Proof.
  intros Hn. unfold remove_id. rewrite filter_app.
  rewrite (filter_cons_False (λ i, i ≠ n) n []) by (intros H; now apply H).
  rewrite filter_nil, app_nil_r.
  induction cs as [|c cs IH]; [reflexivity|].
  rewrite not_elem_of_cons in Hn. destruct Hn as [Hc Hn].
  rewrite filter_cons_True by congruence. now rewrite IH.
Qed.

(** X29. Undoing a create.  On a store where every id in use is below the
    id counter, a returning [createTask] followed by [undo] leaves every
    record that was there exactly as it was -- the parent lists the new task
    no longer -- and the new task in the trash; the create action waits on the
    redo stack.  The undo leaves the id counter where the create has put it:
    while the id is a safe integer the counter is above it, so the id of the
    undone task is not the next one given. *)
Theorem create_then_undo fuel now now1 data m t m1 :
  keyed (db m) → counter_ok m → children_below_counter m →
  createTask fuel now data m = Some (Ok t, m1) →
  ∃ m2,
    undo now1 m1 = Some (Ok (ACreate (id t) now), m2) ∧
    db m2 = <[id t := with_deleted true (Some now1) t]> (db m) ∧
    db m !! id t = None ∧
    nextId m2 = nextId m1 ∧
    (Num.safe (id t) → nextId m2 = Some (id t + 1)) ∧
    undoStack m2 = removelast (capped (undoStack m) (ACreate (id t) now)) ∧
    redoStack m2 = [ACreate (id t) now].
Proof.
  intros Hk Hc Hcb H.
  apply createTask_cases in H as [(e & [=] & _)|(nm & _ & _ & [= ->] & -> & Hpar)].
  pose proof (counter_ok_fresh _ Hc) as Hfresh.
  set (n := default 1 (nextId m)) in *.
  set (t := created data nm n).
  assert (Hk1 : keyed (<[n := t]> (db m))).
  { apply (keyed_insert _ t), Hk. }
  assert (Hlook1 : ∀ j, db (after_create now data nm m) !! j =
    if bool_decide (d_parentTaskId data = Some j)
    then (λ parent, with_children (set_add n (childTaskIds parent)) parent)
           <$> <[n := t]> (db m) !! j
    else <[n := t]> (db m) !! j).
  { intros j. unfold after_create. fold n t. cbn [db].
    now rewrite linkChild_lookup by exact Hk1. }
  assert (Hk1' : keyed (db (after_create now data nm m))).
  { unfold after_create. fold n t. cbn [db]. apply keyed_linkChild, Hk1. }
  assert (Hpn : ∀ p, d_parentTaskId data = Some p → p ≠ n).
  { intros p Hp. destruct (Hpar p Hp) as (parent & _ & Hparent & _).
    intros ->. congruence. }
  assert (Hn1 : db (after_create now data nm m) !! n = Some t).
  { rewrite Hlook1. case_bool_decide as Hp; [exfalso; eapply Hpn; eauto|].
    apply lookup_insert_eq. }
  cbn [id created]. fold n.
  rewrite undo_eq. cbn [undoStack after_create]. fold n. rewrite last_capped.
  cbn [undoAction]. unfold softDelete. unfold bind at 1. unfold getTaskById at 1.
  set (m0 := set_undoStack _ (after_create now data nm m)).
  assert (Hm0 : db m0 = db (after_create now data nm m)) by reflexivity.
  rewrite Hm0, Hn1.
  destruct (detachFromParent_lookup n t m0) as (m1 & Hdet & _ & Hnx & Hu & Hr & Hlook2).
  { rewrite Hm0. exact Hk1'. }
  unfold bind at 1. rewrite Hdet. unfold saveTask.
  eexists. split; [reflexivity|].
  cbn [db set_db set_redoStack nextId undoStack redoStack id with_deleted].
  rewrite Hnx, Hu, Hr. unfold m0.
  cbn [nextId undoStack redoStack set_undoStack after_create]. fold n.
  split; [|split; [auto|split; [auto|split; [|auto]]];
            intros Hsafe; now rewrite (add_safe n Hsafe)].
  apply map_eq. intros j. change (id t) with n.
  rewrite !lookup_insert. case_decide as Hj; [reflexivity|].
  rewrite Hlook2, Hm0, Hlook1. cbn [parentTaskId t created].
  rewrite lookup_insert_ne by exact Hj.
  case_bool_decide as Hp; [|reflexivity].
  destruct (db m !! j) as [parent|] eqn:Hparent; [|reflexivity].
  simpl. f_equal.
  assert (Hnin : n ∉ childTaskIds parent).
  { intros Hin. specialize (Hcb _ _ _ Hparent Hin). fold n in Hcb. lia. }
  unfold set_add, includes. rewrite bool_decide_eq_false_2 by exact Hnin.
  rewrite remove_id_snoc_fresh by exact Hnin.
  now destruct parent.
Qed.

Lemma children_below_checked m :
  map_Forall (λ _ t, children_below (default 1 (nextId m)) t = true) (db m) →
  children_below_counter m.
Proof.
  intros H j t c Hj Hc. specialize (H j t Hj). unfold children_below in H.
  rewrite forallb_forall in H. apply list_elem_of_In in Hc.
  specialize (H c Hc). now apply bool_decide_eq_true in H.
Qed.

Lemma create_then_undo_witness :
  let data := Scenario.named "c" (Some 2) in
  keyed (db Scenario.two) ∧ counter_ok Scenario.two ∧
  children_below_counter Scenario.two ∧
  createTask Scenario.fuel Scenario.now data Scenario.two
    = Some (Ok Scenario.task_c, Scenario.three) ∧
  ∃ m2,
    undo Scenario.now Scenario.three
      = Some (Ok (ACreate 3 Scenario.now), m2) ∧
    db m2 = <[3 := with_deleted true (Some Scenario.now) Scenario.task_c]>
              (db Scenario.two) ∧
    nextId m2 = Some 4.
Proof.
  intros data.
  assert (Hc : counter_ok Scenario.two).
  { apply counter_ok_all, (bool_decide_unpack _). vm_compute. reflexivity. }
  assert (Hcb : children_below_counter Scenario.two).
  { apply children_below_checked, (bool_decide_unpack _). vm_compute. reflexivity. }
  assert (Hrun : createTask Scenario.fuel Scenario.now data Scenario.two
                 = Some (Ok Scenario.task_c, Scenario.three))
    by (vm_compute; reflexivity).
  split; [exact keyed_two|]. split; [exact Hc|]. split; [exact Hcb|].
  split; [exact Hrun|].
  destruct (create_then_undo Scenario.fuel Scenario.now Scenario.now data
              Scenario.two Scenario.task_c Scenario.three keyed_two Hc Hcb Hrun)
    as (m2 & Hundo & Hdb & _ & _ & Hn & _).
  exists m2. split; [exact Hundo|]. split; [exact Hdb|].
  apply Hn. vm_compute. reflexivity.
Defined.

(** ** The cap of the undo stack *)

(** C9. The undo stack goes beyond twenty.  [recordAction] keeps the cap
    by shifting one action out after its push; [redo] pushes the redone
    action with no such step.  From the empty store, a create, eighteen
    status changes, a second create, its undo and its redo all return and
    leave twenty-one actions on the undo stack: the redo of the create has
    recorded a restore and then pushed the create on top.  From there
    [recordAction] shifts one action out for each it pushes, so after
    twenty-one further status changes the stack still holds twenty-one
    actions, and twenty-one calls of [undo] return before the next one
    throws "Nothing to undo". *)
Theorem redo_lifts_history_cap :
  ∃ a m acts m21 undone m42,
    (createTask Scenario.fuel Scenario.now (Scenario.named "a" None) ;;;
     Scenario.toggle 18 ;;;
     createTask Scenario.fuel Scenario.now (Scenario.named "b" None) ;;;
     undo Scenario.now ;;;
     redo Scenario.now) empty_manager = Some (Ok a, m)
    ∧ a = ACreate 2 Scenario.now
    ∧ length (undoStack m) = 21%nat
    ∧ Scenario.toggle 21 m = Some (Ok acts, m21)
    ∧ length acts = 21%nat
    ∧ length (undoStack m21) = 21%nat
    ∧ undoN 21 Scenario.now m21 = Some (Ok undone, m42)
    ∧ undone = rev acts
    ∧ undoStack m42 = []
    ∧ undo Scenario.now m42 = Some (Throw NothingToUndo, m42).
Proof.
  eexists _, _, _, _, _, _. split; [by_evaluation|].
  split; [reflexivity|]. split; [by_evaluation|].
  split; [by_evaluation|]. split; [by_evaluation|].
  split; [by_evaluation|]. split; [by_evaluation|].
  split; [by_evaluation|]. split; [by_evaluation|]. by_evaluation.
Qed.

(** ** The upward check *)



(** ** filterTasks on the store *)

Section FilterTasks.

Variable caseTables : string → string.

(** C7, amended. [filterTasks] on a store keyed by id, for a snapshot of
    the tasks that are not deleted in which every parent chain and every
    child tree ends within [fuel] links.  It returns, and leaves the manager
    as it is.  The list returned holds exactly the family closure of the
    matches: the tasks of the snapshot that pass every given criterion --
    the id by equality or membership, the project, the priority and the
    status by equality of what [toLowerCase] gives for the two texts, a
    task without project or priority matching no value, each criterion
    negated when its flag says so -- together with every ancestor reached
    from a match along [parentTaskId] and every descendant reached along
    [childTaskIds].  No task is listed twice, and the list is in ascending
    depth, tasks of equal depth in ascending id. *)
Theorem filter_returns_family fuel f m :
  keyed (db m) →
  (∀ t, t ∈ snapshot (db m) →
        climb_le (snapshot (db m)) fuel t ∧ height_le (snapshot (db m)) fuel t) →
  ∃ res,
    filterTasks caseTables fuel f m = Some (Ok res, m) ∧
    (∀ t, t ∈ res ↔ in_family caseTables f (snapshot (db m)) t) ∧
    NoDup res ∧
    StronglySorted (depth_then_id (snapshot (db m))) res.
Proof.
  intros Hk Hwf.
  destruct (filterTasksOn_family caseTables fuel f (snapshot (db m))
              (NoDup_live_ids (db m) Hk) Hwf) as (res & Hrun & Hres).
  exists res. split; [|exact Hres].
  unfold filterTasks, bind, getAllTasks, read. fold (snapshot (db m)).
  now rewrite Hrun.
Qed.

End FilterTasks.

(** The loop over the ancestors does not end on a task that is its own
    parent. *)
Lemma addAncestors_self all rids t p :
  parentTaskId t = Some p → findTask all p = Some t →
  ∀ fuel add, addAncestors fuel all rids t add = None.
Proof.
  intros Hp Hf fuel. induction fuel as [|fuel IH]; intros add; simpl;
    rewrite Hp; [reflexivity|]. rewrite Hf. apply IH.
Qed.

(** C7 as stated fails.  The criteria are no equality tests: on the chain
    1 ← 2 ← 3 with the project "X" on the grandchild, no task has the
    project "x", yet the filter for the project "x" returns the three tasks.
    And not every snapshot has an answer: on the store that the update of C3
    leaves, task 1 being its own parent, [filterTasks] does not return
    whatever fuel it is given. *)
Lemma filter_folds_case_and_may_not_return :
  (∃ res,
     filterTasks Scenario.caseTables 3 Scenario.projectX Scenario.family_store
     = Some (Ok res, Scenario.family_store)
     ∧ id <$> res = [1; 2; 3]
     ∧ value <$> by_project Scenario.projectX = Some "x"
     ∧ ∀ t, t ∈ snapshot (db Scenario.family_store) → project t ≠ Some "x")
  ∧
  (∃ t, snapshot (db Scenario.self_parent) = [t] ∧ parentTaskId t = Some (id t))
  ∧
  (∀ fuel,
     filterTasks Scenario.caseTables fuel Scenario.no_filters Scenario.self_parent
     = None).
Proof.
  split; [|split].
  - eexists. split; [by_evaluation|]. split; [reflexivity|].
    split; [reflexivity|].
    intros t Ht. apply list_elem_of_In in Ht. vm_compute in Ht.
    destruct Ht as [<-|[<-|[<-|[]]]]; discriminate.
  - eexists. split; [by_evaluation | reflexivity].
  - intros fuel. unfold filterTasks, bind, getAllTasks, read.
    fold (snapshot (db Scenario.self_parent)).
    assert (Hs : ∃ t, snapshot (db Scenario.self_parent) = [t] ∧
                      parentTaskId t = Some (id t))
      by (eexists; split; [by_evaluation | reflexivity]).
    destruct Hs as (t & -> & Hp).
    unfold filterTasksOn. cbn [List.filter].
    replace (matchesFilters Scenario.caseTables Scenario.no_filters t)
      with true by reflexivity.
    cbn [foldlM fmap list_fmap].
    rewrite (addAncestors_self [t] _ t (id t) Hp); [reflexivity|].
    unfold findTask. simpl. now rewrite bool_decide_eq_true_2.
Qed.

Lemma filter_returns_family_witness :
  let all := snapshot (db Scenario.family_store) in
  keyed (db Scenario.family_store) ∧
  (∀ t, t ∈ all → climb_le all 3 t ∧ height_le all 3 t) ∧
  id <$> all = [1; 2; 3] ∧
  List.filter (matchesFilters Scenario.caseTables Scenario.projectX) all
  = [with_project (Some "X") Scenario.task_c] ∧
  ∃ res,
    filterTasks Scenario.caseTables 3 Scenario.projectX Scenario.family_store
    = Some (Ok res, Scenario.family_store) ∧
    (∀ t, t ∈ res ↔ in_family Scenario.caseTables Scenario.projectX all t) ∧
    NoDup res ∧
    StronglySorted (depth_then_id all) res.
Proof.
  intros all.
  assert (Hall : all = Scenario.family) by by_evaluation.
  assert (Hk : keyed (db Scenario.family_store)) by keyed_check.
  assert (Hwf : ∀ t, t ∈ all → climb_le all 3 t ∧ height_le all 3 t).
  { rewrite Hall. intros t Ht. apply list_elem_of_In in Ht.
    destruct Ht as [<-|[<-|[<-|[]]]]; (split; [climb | height]). }
  split; [exact Hk|]. split; [exact Hwf|].
  split; [by_evaluation|]. split; [by_evaluation|].
  exact (filter_returns_family Scenario.caseTables 3 Scenario.projectX
           Scenario.family_store Hk Hwf).
Defined.

(** ** The id counter at the end of the safe integers *)

(** X30. At [2^53] the id counter stays: [nextId + 1] is [2^53] again.
    On a store whose counter is [2^53], a returning [createTask] gives the
    task the id [2^53] and leaves the counter where it is, so the next
    returning [createTask] gives the same id, and its record -- the new task
    not being made a child of that very id -- takes the place of the first
    one. *)
Theorem counter_saturates fuel now data1 data2 m t1 m1 t2 m2 :
  keyed (db m) → nextId m = Some (2 ^ 53) →
  createTask fuel now data1 m = Some (Ok t1, m1) →
  createTask fuel now data2 m1 = Some (Ok t2, m2) →
  id t1 = 2 ^ 53 ∧
  (d_parentTaskId data1 ≠ Some (id t1) → db m1 !! id t1 = Some t1) ∧
  nextId m1 = Some (2 ^ 53) ∧
  id t2 = id t1 ∧ nextId m2 = Some (2 ^ 53) ∧
  (d_parentTaskId data2 ≠ Some (id t1) → db m2 !! id t1 = Some t2).
Proof.
  intros Hk Hn H1 H2.
  pose proof (keyed_createTask _ _ _ _ _ _ H1 Hk) as Hk1.
  apply createTask_cases in H1
    as [(e & [=] & _)|(nm1 & _ & _ & [= ->] & -> & _)].
  apply createTask_cases in H2
    as [(e & [=] & _)|(nm2 & _ & _ & [= ->] & -> & _)].
  assert (Hsat : ∀ data nm m0, nextId m0 = Some (2 ^ 53) →
                 nextId (after_create now data nm m0) = Some (2 ^ 53)).
  { intros data nm m0 H0. unfold after_create. cbn [nextId]. rewrite H0.
    exact (f_equal Some add_saturated). }
  assert (Hst : ∀ data nm m0, keyed (db m0) → nextId m0 = Some (2 ^ 53) →
                d_parentTaskId data ≠ Some (2 ^ 53) →
                db (after_create now data nm m0) !! (2 ^ 53)
                = Some (created data nm (2 ^ 53))).
  { intros data nm m0 Hk0 H0 Hp. unfold after_create. rewrite H0.
    cbn [db default].
    rewrite linkChild_lookup
      by apply (keyed_insert _ (created data nm (2 ^ 53))), Hk0.
    rewrite bool_decide_eq_false_2 by exact Hp. apply lookup_insert_eq. }
  pose proof (Hsat data1 nm1 m Hn) as Hn1.
  pose proof (Hsat data2 nm2 _ Hn1) as Hn2.
  rewrite Hn1, Hn. cbn [id created default].
  split; [reflexivity|]. split; [now apply Hst|]. split; [reflexivity|].
  split; [reflexivity|]. split; [exact Hn2|]. now apply Hst.
Qed.

Lemma counter_saturates_witness :
  let m := set_nextId (Some (2 ^ 53)) empty_manager in
  let data1 := Scenario.named "a" None in
  let data2 := Scenario.named "b" None in
  let t1 := created data1 "a" (2 ^ 53) in
  let t2 := created data2 "b" (2 ^ 53) in
  let m1 := Scenario.after (createTask Scenario.fuel Scenario.now data1) m in
  let m2 := Scenario.after (createTask Scenario.fuel Scenario.now data2) m1 in
  keyed (db m) ∧ nextId m = Some (2 ^ 53) ∧
  createTask Scenario.fuel Scenario.now data1 m = Some (Ok t1, m1) ∧
  createTask Scenario.fuel Scenario.now data2 m1 = Some (Ok t2, m2) ∧
  id t2 = id t1 ∧ db m2 !! id t1 = Some t2 ∧ t2 ≠ t1.
Proof.
  intros m data1 data2 t1 t2 m1 m2.
  assert (Hk : keyed (db m)) by exact keyed_empty.
  assert (Hn : nextId m = Some (2 ^ 53)) by reflexivity.
  assert (H1 : createTask Scenario.fuel Scenario.now data1 m = Some (Ok t1, m1))
    by (vm_compute; reflexivity).
  assert (H2 : createTask Scenario.fuel Scenario.now data2 m1 = Some (Ok t2, m2))
    by (vm_compute; reflexivity).
  split; [exact Hk|]. split; [exact Hn|]. split; [exact H1|].
  split; [exact H2|].
  destruct (counter_saturates _ _ _ _ _ _ _ _ _ Hk Hn H1 H2)
    as (_ & _ & _ & Hid & _ & Hst).
  split; [exact Hid|]. split; [apply Hst; discriminate | discriminate].
Defined.
